(** * FlexFlow: parallel computation graph construction, rewriting and search

    A shallow embedding of the parts of the FlexFlow sources that the
    specification talks about, and the properties proved of them.

    - [Common]           the parallel tensor model and the loop combinators
    - [OperatorParams]   get_op_parameters (operator_params.cc)
    - [TensorFactory]    FFModel::create_parallel_tensor and
                         FFModel::create_parallel_tensor_legion_ordering
    - [AggregateOp]      Aggregate::Aggregate, Aggregate::measure_operator_cost
    - [AdjacencyGraph]   lib/utils/src/adjacency_graph.cc
    - [Lifter]           FFModel::create_operator_from_layer, case OP_INPUT
    - [RegionMapper]     FFModel::map_tensor_with_dim2 and
                         FFModel::create_aliased_partition_with_dim2
    - [Fusion]           FFModel::apply_fusion
    - [Search]           FFModel::rewrite and FFModel::mcmc_optimize
    - [Tiling]           restriction partitions that tile a region, and
                         mixed-radix numbering of task points
    - [TaskSpace]        FFModel::get_or_create_task_is, FFModel::get_task_is
                         and FFModel::map_tensor
    - [Partitions]       FFModel::create_disjoint_partition,
                         FFModel::create_aliased_partition and
                         FFModel::create_data_parallel_partition_with_diff_dims
    - [WeightMapper]     FFModel::map_weight, FFModel::map_linear_weight,
                         FFModel::map_conv_weight and
                         FFModel::create_linear_replica
    - [TensorLookup]     FFModel::get_parallel_tensor_from_tensor and the
                         linking loop of FFModel::compile
    - [Compile]          the fusion loop of FFModel::compile
    - [Schedule]         FFModel::forward, FFModel::backward,
                         FFModel::get_final_operator,
                         FFModel::get_bwd_edge_map and
                         FFModel::update_metrics_task
    - [AggregateLaunch]  Aggregate::forward and Aggregate::backward
    - [LayerBuilder]     FFModel::create_tensor,
                         FFModel::create_tensor_legion_ordering and
                         FFModel::aggregate
    - [LayerLifter]      FFModel::create_operator_from_layer and
                         FFModel::create_operators_from_layers
    - [Scenarios]        the concrete inputs that the examples run on

    Pointers are modelled as addresses into explicit stores, C++ containers as
    stdpp finite maps and sets, failing assertions and undefined reads as
    [None]. Each module of definitions has a module of proofs after it in
    the second half of the file. *)

From Stdlib Require Import ZArith QArith Lia.
From stdpp Require Import base decidable option list numbers countable gmap sets fin_maps.
From Stdlib Require Strings.String.

Set Default Proof Using "Type".
Local Open Scope Z_scope.

(** ** Definitions *)

(* ===================================================================== *)
(** *** Shared data model *)
(* ===================================================================== *)

Module Common.

(** The operator kinds that the sources name (the enumeration itself is
    declared in a header outside the sources). *)
Inductive OperatorType :=
  | OP_INPUT | OP_WEIGHT | OP_NOOP
  | OP_LINEAR | OP_CONV2D
  | OP_EW_ADD | OP_EW_SUB | OP_EW_MUL | OP_EW_DIV | OP_EW_MAX | OP_EW_MIN
  | OP_EXP | OP_SIN | OP_COS
  | OP_SCALAR_MULTIPLY | OP_SCALAR_ADD | OP_SCALAR_SUB | OP_SCALAR_TRUE_DIV
  | OP_RELU | OP_SIGMOID | OP_TANH | OP_IDENTITY | OP_GELU | OP_ELU | OP_POW
  | OP_CONCAT | OP_POOL2D | OP_CAST | OP_DROPOUT | OP_EMBEDDING | OP_FLAT
  | OP_GATHER | OP_MULTIHEAD_ATTENTION | OP_LAYERNORM | OP_REDUCE_SUM
  | OP_RESHAPE | OP_SOFTMAX
  | OP_REPARTITION | OP_REPLICATE | OP_REDUCTION | OP_COMBINE
  | OP_FUSED_PARALLEL
  | OP_TRANSPOSE | OP_BATCHMATMUL | OP_SPLIT | OP_TOPK | OP_GROUP_BY
  | OP_AGGREGATE | OP_AGG_SPEC
  | OP_MEAN | OP_CACHE | OP_REVERSE | OP_BATCHNORM
  | OP_FUSED.

#[global] Instance OperatorType_eq_dec : EqDecision OperatorType.
Proof. solve_decision. Defined.

Inductive DataType :=
  | DT_BOOLEAN | DT_INT32 | DT_INT64 | DT_HALF | DT_FLOAT | DT_DOUBLE | DT_NONE.

#[global] Instance DataType_eq_dec : EqDecision DataType.
Proof. solve_decision. Defined.

(** [struct ParallelDim]; [int] members as integers. Its [operator==] is
    declared outside the sources and taken to compare the four members. *)
Record ParallelDim := mkParallelDim {
  size : Z;
  degree : Z;
  parallel_idx : Z;
  is_replica_dim : bool
}.

#[global] Instance ParallelDim_eq_dec : EqDecision ParallelDim.
Proof. solve_decision. Defined.

(** Object addresses; [None] of an [option addr] is the null pointer. *)
Definition addr := N.

(** A region handle: the three identifiers that the sources print for it. *)
Record LogicalRegion := mkRegion {
  index_space_id : Z;
  field_space_id : Z;
  tree_id : Z
}.

#[global] Instance LogicalRegion_eq_dec : EqDecision LogicalRegion.
Proof. solve_decision. Defined.

Definition NO_REGION : LogicalRegion := mkRegion 0 0 0.

(** Modelled from the spec: the class [MachineView] is declared outside the
    sources; section 3 describes it as an ordered list of axis extents
    addressing a subset of devices, and two views are compared for equality. *)
Record MachineView := mkMachineView { axis_extents : list Z }.

#[global] Instance MachineView_eq_dec : EqDecision MachineView.
Proof. solve_decision. Defined.

(** The members of [ParallelTensorBase] that the sources read or write.
    [dims] holds the first [num_dims] entries of the member array. *)
Record ParallelTensorBase := mkParallelTensor {
  parallel_tensor_guid : Z;
  data_type : DataType;
  owner_op : option addr;
  owner_idx : Z;
  create_gradients : bool;
  dims : list ParallelDim;
  region : LogicalRegion;
  machine_view : MachineView
}.

Definition num_dims (t : ParallelTensorBase) : Z := Z.of_nat (length (dims t)).

(** Array subscripting with an [int] index: a read outside the array is
    undefined and is modelled as [None]. *)
Definition zget {A} (a : list A) (i : Z) : option A :=
  if 0 <=? i then a !! Z.to_nat i else None.

(** A local array whose slots are uninitialised until written. *)
Abbreviation carray A := (list (option A)) (only parsing).

Definition new_array {A} (n : Z) : carray A := replicate (Z.to_nat n) None.

Definition aget {A} (a : carray A) (i : Z) : option A := mjoin (zget a i).

Definition aset {A} (a : carray A) (i : Z) (v : A) : option (carray A) :=
  if (0 <=? i) && (i <? Z.of_nat (length a))
  then Some (<[Z.to_nat i := Some v]> a) else None.

(** [assert(c)] *)
Definition assert (c : bool) : option unit := if c then Some tt else None.

(** [for (int i = lo; i < hi; i++) body], the body may abort. *)
Fixpoint for_loop {S} (count : nat) (i : Z) (body : Z → S → option S) (s : S)
    : option S :=
  match count with
  | O => Some s
  | Datatypes.S c => s' ← body i s; for_loop c (i + 1) body s'
  end.

Definition for_range {S} (lo hi : Z) (body : Z → S → option S) (s : S) : option S :=
  for_loop (Z.to_nat (hi - lo)) lo body s.

(** A loop over a list whose body may abort. *)
Fixpoint for_each_opt {A S} (l : list A) (body : A → S → option S) (s : S)
    : option S :=
  match l with
  | [] => Some s
  | a :: rest => s' ← body a s; for_each_opt rest body s'
  end.

End Common.

(* ===================================================================== *)
(** *** get_op_parameters *)
(* ===================================================================== *)

Module OperatorParams.
Import Common.

(** The operator classes whose [get_params] the dispatch calls. *)
Inductive OpClass :=
  | Linear | Conv2D | ElementBinary | ElementUnary | Concat | Pool2D | Cast
  | Dropout | Embedding | Flat | Gather | MultiHeadAttention | LayerNorm
  | Reduce | Reshape | Softmax | Repartition | Replicate | Reduction | Combine
  | FusedParallelOp | Transpose | BatchMatmul | Split | TopK | Group_by
  | Aggregate | AggregateSpec.

#[global] Instance OpClass_eq_dec : EqDecision OpClass.
Proof. solve_decision. Defined.

Section Dispatch.
(** The operator object, its kind tag, and for every class the attribute
    record type with the member function [get_params] (all declared
    outside the sources). *)
Context {Op : Type} (op_type : Op → OperatorType).
Context (Params : OpClass → Type) (get_params : ∀ c, Op → Params c).

(** [OperatorParameters]: the variant over the attribute records. *)
Definition OperatorParameters : Type := sigT Params.

Definition via (c : OpClass) (op : Op) : option OperatorParameters :=
  Some (existT c (get_params c op)).

Definition get_op_parameters (op : Op) : option OperatorParameters :=
  match op_type op with
  | OP_LINEAR => via Linear op
  | OP_CONV2D => via Conv2D op
  | OP_EW_ADD | OP_EW_SUB | OP_EW_MUL | OP_EW_DIV | OP_EW_MAX | OP_EW_MIN =>
      via ElementBinary op
  | OP_EXP | OP_SIN | OP_COS
  | OP_SCALAR_MULTIPLY | OP_SCALAR_ADD | OP_SCALAR_SUB | OP_SCALAR_TRUE_DIV
  | OP_RELU | OP_SIGMOID | OP_TANH | OP_IDENTITY | OP_GELU | OP_ELU =>
      via ElementUnary op
  | OP_CONCAT => via Concat op
  | OP_POOL2D => via Pool2D op
  | OP_CAST => via Cast op
  | OP_DROPOUT => via Dropout op
  | OP_EMBEDDING => via Embedding op
  | OP_FLAT => via Flat op
  | OP_GATHER => via Gather op
  | OP_MULTIHEAD_ATTENTION => via MultiHeadAttention op
  | OP_LAYERNORM => via LayerNorm op
  | OP_REDUCE_SUM => via Reduce op
  | OP_RESHAPE => via Reshape op
  | OP_SOFTMAX => via Softmax op
  | OP_REPARTITION => via Repartition op
  | OP_REPLICATE => via Replicate op
  | OP_REDUCTION => via Reduction op
  | OP_COMBINE => via Combine op
  | OP_FUSED_PARALLEL => via FusedParallelOp op
  | OP_TRANSPOSE => via Transpose op
  | OP_BATCHMATMUL => via BatchMatmul op
  | OP_SPLIT => via Split op
  | OP_TOPK => via TopK op
  | OP_GROUP_BY => via Group_by op
  | OP_AGGREGATE => via Aggregate op
  | OP_AGG_SPEC => via AggregateSpec op
  | _ => None
  end.
End Dispatch.

(** The kinds the specification lists as handled by the dispatch ... *)
Definition dispatch_list : list OperatorType :=
  [ OP_LINEAR; OP_CONV2D;
    OP_EW_ADD; OP_EW_SUB; OP_EW_MUL; OP_EW_DIV; OP_EW_MAX; OP_EW_MIN;
    OP_EXP; OP_SIN; OP_COS;
    OP_SCALAR_MULTIPLY; OP_SCALAR_ADD; OP_SCALAR_SUB; OP_SCALAR_TRUE_DIV;
    OP_RELU; OP_SIGMOID; OP_TANH; OP_IDENTITY; OP_GELU; OP_ELU;
    OP_CONCAT; OP_POOL2D; OP_CAST; OP_DROPOUT; OP_EMBEDDING; OP_FLAT;
    OP_GATHER; OP_MULTIHEAD_ATTENTION; OP_LAYERNORM; OP_REDUCE_SUM;
    OP_RESHAPE; OP_SOFTMAX;
    OP_REPARTITION; OP_REPLICATE; OP_REDUCTION; OP_COMBINE; OP_FUSED_PARALLEL;
    OP_TRANSPOSE; OP_BATCHMATMUL; OP_SPLIT; OP_TOPK; OP_GROUP_BY;
    OP_AGGREGATE; OP_AGG_SPEC ].

(** ... and the kinds it names as omitted. *)
Definition omitted_list : list OperatorType :=
  [ OP_NOOP; OP_MEAN; OP_CACHE; OP_REVERSE; OP_BATCHNORM ].

End OperatorParams.

(* ===================================================================== *)
(** *** Parallel tensor creation (model.cc) *)
(* ===================================================================== *)

Module TensorFactory.
Import Common.

(** Operators that the functions modelled here create, recorded as the
    constructor calls that build them (the constructors are declared outside
    the sources). *)
Inductive OpObject :=
  | NoOp_new (type : OperatorType) (input_tensor_guid : Z) (output : addr)
  | Repartition_new (input : addr) (repartition_legion_dim : Z)
                    (repartition_degree : Z).

(** [FFConfig], the members read here. *)
Record FFConfig := mkConfig {
  only_data_parallel : bool;
  numNodes : Z;
  workersPerNode : Z
}.

(** [FFModel]: the members touched by tensor and operator creation, and the
    object store that [new] allocates from. *)
Record FFModel := mkModel {
  config : FFConfig;
  parallel_tensor_global_guid : Z;
  operators : list addr;
  op_objects : gmap addr OpObject;
  tensors : gmap addr ParallelTensorBase;
  next_free : addr
}.

(** Constants and member functions declared outside the sources. *)
Record Externals := mkExternals {
  MAX_TENSOR_DIM : Z;
  LEGION_MAX_DIM : Z;
  check_valid : ParallelTensorBase → bool
}.

Definition size_t_wrap (z : Z) : Z := z mod 2 ^ 64.

(** [tensor->dims[i] = dims[NDIM - 1 - i]] for [i] in [[0, NDIM)]. *)
Fixpoint read_reversed (a : carray ParallelDim) (ndim : Z) (count : nat) (i : Z)
    : option (list ParallelDim) :=
  match count with
  | O => Some []
  | S c => d ← aget a (ndim - 1 - i);
           rest ← read_reversed a ndim c (i + 1);
           Some (d :: rest)
  end.

(** [template <int NDIM> FFModel::create_parallel_tensor] *)
Definition create_parallel_tensor_NDIM (ext : Externals) (m : FFModel)
    (NDIM : Z) (dims : carray ParallelDim) (data_type : DataType)
    (owner_op : option addr) (owner_idx : Z) (create_grad : bool)
    (input_tensor_guid : Z) : option (FFModel * addr) :=
  let tensor := next_free m in
  let guid := parallel_tensor_global_guid m in
  let m1 := mkModel (config m) (size_t_wrap (guid + 1)) (operators m)
                    (op_objects m) (tensors m) (next_free m + 1)%N in
  let '(m2, owner, idx) :=
    match owner_op with
    | None =>
        let input_op := next_free m1 in
        (mkModel (config m1) (parallel_tensor_global_guid m1)
                 (operators m1 ++ [input_op])
                 (<[input_op := NoOp_new OP_INPUT input_tensor_guid tensor]>
                    (op_objects m1))
                 (tensors m1) (next_free m1 + 1)%N,
         input_op, 0)
    | Some o => (m1, o, owner_idx)
    end in
  ds ← read_reversed dims NDIM (Z.to_nat NDIM) 0;
  let t := mkParallelTensor guid data_type (Some owner) idx create_grad ds
                            NO_REGION (mkMachineView []) in
  _ ← assert (check_valid ext t);
  Some (mkModel (config m2) (parallel_tensor_global_guid m2) (operators m2)
                (op_objects m2) (<[tensor := t]> (tensors m2)) (next_free m2),
        tensor).

(** [FFModel::create_parallel_tensor(int numdim, ...)]: the macro expands to
    one case per dimension count from 1 to [LEGION_MAX_DIM]. *)
Definition create_parallel_tensor (ext : Externals) (m : FFModel)
    (numdim : Z) (dims : carray ParallelDim) (data_type : DataType)
    (op : option addr) (idx : Z) (create_grad : bool) (input_tensor_guid : Z)
    : option (FFModel * addr) :=
  if (1 <=? numdim) && (numdim <=? LEGION_MAX_DIM ext)
  then create_parallel_tensor_NDIM ext m numdim dims data_type op idx
                                   create_grad input_tensor_guid
  else None.

(** [FFModel::create_parallel_tensor_legion_ordering] *)
Definition create_parallel_tensor_legion_ordering (ext : Externals) (m : FFModel)
    (numdim : Z) (dims : carray ParallelDim) (data_type : DataType)
    (op : option addr) (idx : Z) (create_grad : bool) (input_tensor_guid : Z)
    : option (FFModel * addr) :=
  c_dims ← for_range 0 numdim
              (fun i c => d ← aget dims (numdim - 1 - i); aset c i d)
              (new_array (MAX_TENSOR_DIM ext));
  create_parallel_tensor ext m numdim c_dims data_type op idx create_grad
                         input_tensor_guid.

(** Modelled from the spec: [ParallelTensorBase::check_valid] is not part of
    the sources. Section 3 requires of a parallel tensor shape that every
    degree is at least 1 and divides the size unless the dimension is a
    replica, that a degree above 1 comes with a non-negative [parallel_idx],
    and that a non-negative [parallel_idx] appears on at most one dimension.
    Used for the concrete scenarios only. *)
Definition shape_invariants (t : ParallelTensorBase) : bool :=
  forallb (fun d =>
    (1 <=? degree d) &&
    (is_replica_dim d || (size d mod degree d =? 0)) &&
    ((degree d <=? 1) || (0 <=? parallel_idx d))) (dims t) &&
  bool_decide (NoDup (filter (fun i => 0 ≤ i) (parallel_idx <$> dims t))).

End TensorFactory.

(* ===================================================================== *)
(** *** Aggregate (ops/aggregate.cc) *)
(* ===================================================================== *)

Module AggregateOp.
Import Common TensorFactory.

(** The members of [Aggregate] (and of its base [Op]) that the constructor
    sets. [inputs] is the member array: slot [i] holds a tensor exactly for
    the indices the base constructor filled. *)
Record Aggregate := mkAggregate {
  op_type : OperatorType;
  op_data_type : DataType;
  numInputs : Z;
  inputs : list addr;
  numWeights : Z;
  numOutputs : Z;
  outputs : list addr;
  n : Z;
  lambda_bal : Q
}.

Record AggregateLimits := mkAggregateLimits {
  AGGREGATE_MAX_N : Z;
  AGGREGATE_MAX_K : Z;
  AGGREGATE_MAX_BATCH_SIZE : Z
}.

(** Default arguments of [create_parallel_tensor_legion_ordering], declared
    in a header outside the sources. *)
Record TensorDefaults := mkTensorDefaults {
  default_idx : Z;
  default_create_grad : bool;
  default_input_tensor_guid : Z
}.

(** [inputs[k]->...] *)
Definition input_tensor (m : FFModel) (inputs : list addr) (k : Z)
    : option ParallelTensorBase :=
  p ← zget inputs k; tensors m !! p.

(** Modelled from the spec: the base-class constructor [Op::Op] is not part
    of the sources; an operator has "input/output/weight parallel-tensor
    slots", and the constructor is taken to record the kind, the data type
    and the three slot counts and to fill the first [numInputs] input slots
    from the array it is given. *)
Definition Op_new (type : OperatorType) (dt : DataType)
    (numInputs numWeights numOutputs : Z) (_inputs : list addr)
    (n : Z) (lambda_bal : Q) : Aggregate :=
  mkAggregate type dt numInputs (take (Z.to_nat numInputs) _inputs)
              numWeights numOutputs [] n lambda_bal.

(** The constructor [Aggregate::Aggregate] that takes the model, the input
    array, [n], [lambda_bal] and a name; [this] is the address of the object
    under construction. *)
Definition Aggregate_new (ext : Externals) (lim : AggregateLimits)
    (dflt : TensorDefaults) (model : FFModel) (this : addr)
    (_inputs : list addr) (_n : Z) (_lambda_bal : Q)
    : option (FFModel * Aggregate) :=
  let self := Op_new OP_AGGREGATE DT_FLOAT (_n + 4) 0 1 _inputs _n _lambda_bal in
  let inp := input_tensor model (inputs self) in
  let n := n self in
  _ ← assert (n <=? AGGREGATE_MAX_N lim);
  in0 ← inp 0;
  d ← zget (dims in0) 0; _ ← assert (size d <=? AGGREGATE_MAX_K lim);
  d ← zget (dims in0) 1; _ ← assert (size d <=? AGGREGATE_MAX_BATCH_SIZE lim);
  _ ← assert (n + 4 =? numInputs self);
  _ ← assert (0 <? n);
  _ ← assert (num_dims in0 =? 2 + 1);
  in1 ← inp 1; _ ← assert (num_dims in1 =? 2 + 1);
  in2 ← inp 2; _ ← assert (num_dims in2 =? 2 + 1);
  in3 ← inp 3; _ ← assert (num_dims in3 =? 2 + 1);
  _ ← for_range 0 (num_dims in0) (fun i _ =>
         a ← zget (dims in0) i; b ← zget (dims in1) i; c ← zget (dims in2) i;
         _ ← assert (bool_decide (a = b));
         assert (bool_decide (a = c))) tt;
  a ← zget (dims in0) 1; b ← zget (dims in3) 1;
  _ ← assert (bool_decide (a = b));
  d ← zget (dims in3) 0; _ ← assert (size d =? n);
  (* expert inputs *)
  in4 ← inp 4;
  let num_dim := num_dims in4 in
  d ← zget (dims in4) 0;
  let out_dim := size d in
  _ ← for_range 1 n (fun i _ =>
         t ← inp (i + 4);
         _ ← assert (num_dims t =? num_dim);
         d ← zget (dims t) 0;
         assert (size d =? out_dim)) tt;
  (* Set output shape *)
  dims1 ← for_range 0 (num_dim - 1)
             (fun i a => d ← zget (dims in4) i; aset a i d)
             (new_array (MAX_TENSOR_DIM ext));
  d ← zget (dims in0) (num_dim - 2);
  dims2 ← aset dims1 (num_dim - 2) d;
  d ← zget (dims in0) (num_dim - 1);
  dims3 ← aset dims2 (num_dim - 1) d;
  '(model', out) ←
     create_parallel_tensor_legion_ordering ext model num_dim dims3 DT_FLOAT
       (Some this) (default_idx dflt) (default_create_grad dflt)
       (default_input_tensor_guid dflt);
  Some (model',
        mkAggregate (op_type self) (op_data_type self) (numInputs self)
                    (inputs self) 0 1 [out] n (lambda_bal self)).

(** [struct CostMetrics], the members written here; times as rationals. *)
Record CostMetrics := mkCostMetrics {
  forward_time : Q;
  backward_time : Q;
  inputs_memory : Z;
  outputs_memory : Z
}.

(** [Legion::Domain]: corner points, zero beyond the dimension count. *)
Record Domain := mkDomain { dom_lo : list Z; dom_hi : list Z }.

Definition coord (p : list Z) (i : nat) : Z := default 0 (p !! i).

(** The arguments that the [forward] closure hands to the kernel wrapper. *)
Record ForwardCall {Meta : Type} := mkForwardCall {
  fc_meta : Meta;
  fc_input_ptrs : list (option addr);
  fc_assign_ptr : option addr;
  fc_pred_ptr : option addr;
  fc_output_ptr : option addr;
  fc_n : Z; fc_k : Z; fc_rows : Z; fc_batch_size : Z; fc_out_dim : Z
}.
Arguments ForwardCall : clear implicits.

(** The simulator, the tensor queries and the metadata object: everything
    [measure_operator_cost] calls that is declared outside the sources.
    A null pointer from [allocate] and a [false] from [get_sub_tensor] are
    [None]. *)
Record CostExternals {Sim Meta : Type} := mkCostExternals {
  MAX_NUM_INPUTS : Z;
  MAXIMUM_TASK_RUN_TIME : Q;
  get_sub_tensor : ParallelTensorBase → MachineView → option ParallelTensorBase;
  get_volume : ParallelTensorBase → Z;
  get_domain : ParallelTensorBase → Domain;
  AggregateMeta_new : Sim → Z → Meta;
  profiling : Meta → bool;
  free_all : Sim → Sim;
  allocate : Sim → Z → DataType → Sim * option addr;
  offset : Sim → Z;
  total_mem_diff_from : CostMetrics → Z → Z;
  inner_measure_operator_cost :
    Sim → ForwardCall Meta → CostMetrics → Sim * CostMetrics
}.
Arguments CostExternals : clear implicits.

Section Cost.
Context {Sim Meta : Type} (cx : CostExternals Sim Meta).

(** The first loop: [None] is a read of a slot that holds no tensor,
    [Some None] is [return false]. *)
Fixpoint collect_sub_inputs (model : FFModel) (inputs : list addr)
    (mv : MachineView) (count : nat) (i : Z)
    : option (option (list ParallelTensorBase)) :=
  match count with
  | O => Some (Some [])
  | S c =>
      t ← input_tensor model inputs (i + 4);
      match get_sub_tensor cx t mv with
      | None => Some None
      | Some sub =>
          rest ← collect_sub_inputs model inputs mv c (i + 1);
          Some (cons sub <$> rest)
      end
  end.

(** The allocation loop over [sub_inputs]. *)
Fixpoint allocate_inputs (sim : Sim) (subs : list ParallelTensorBase)
    (out_of_memory : bool) : Sim * list (option addr) * bool :=
  match subs with
  | [] => (sim, [], out_of_memory)
  | sub :: rest =>
      let '(sim1, ptr) := allocate cx sim (get_volume cx sub) DT_FLOAT in
      let oom := out_of_memory || bool_decide (ptr = None) in
      let '(sim2, ptrs, oom') := allocate_inputs sim1 rest oom in
      (sim2, ptr :: ptrs, oom')
  end.

(** [Aggregate::measure_operator_cost]: the result is the returned flag,
    the simulator and [cost_metrics]. *)
Definition measure_operator_cost (model : FFModel) (self : Aggregate)
    (sim : Sim) (mv : MachineView) (cost_metrics : CostMetrics)
    : option (bool * Sim * CostMetrics) :=
  _ ← assert (numInputs self <=? MAX_NUM_INPUTS cx);
  subs ← collect_sub_inputs model (inputs self) mv
                            (Z.to_nat (numInputs self)) 0;
  match subs with
  | None => Some (false, sim, cost_metrics)
  | Some sub_inputs =>
    in0 ← input_tensor model (inputs self) 0;
    match get_sub_tensor cx in0 mv with
    | None => Some (false, sim, cost_metrics)
    | Some sub_pred =>
      in1 ← input_tensor model (inputs self) 1;
      match get_sub_tensor cx in1 mv with
      | None => Some (false, sim, cost_metrics)
      | Some sub_assign =>
        out0 ← (p ← zget (outputs self) 0; tensors model !! p);
        match get_sub_tensor cx out0 mv with
        | None => Some (false, sim, cost_metrics)
        | Some sub_output =>
          let m := AggregateMeta_new cx sim (n self) in
          (* allocate *)
          let sim := free_all cx sim in
          let '(sim, input_ptrs, out_of_memory) :=
            allocate_inputs sim sub_inputs false in
          let '(sim, assign_ptr) :=
            allocate cx sim (get_volume cx sub_assign) DT_INT32 in
          let out_of_memory := out_of_memory || bool_decide (assign_ptr = None) in
          let '(sim, pred_ptr) :=
            allocate cx sim (get_volume cx sub_pred) DT_FLOAT in
          let out_of_memory := out_of_memory || bool_decide (pred_ptr = None) in
          let cost_metrics :=
            mkCostMetrics (forward_time cost_metrics) (backward_time cost_metrics)
              (inputs_memory cost_metrics
               + total_mem_diff_from cx cost_metrics (offset cx sim))
              (outputs_memory cost_metrics) in
          let '(sim, output_ptr) :=
            allocate cx sim (get_volume cx sub_output) DT_FLOAT in
          let cost_metrics :=
            mkCostMetrics (forward_time cost_metrics) (backward_time cost_metrics)
              (inputs_memory cost_metrics)
              (outputs_memory cost_metrics
               + total_mem_diff_from cx cost_metrics (offset cx sim)) in
          let out_of_memory := out_of_memory || bool_decide (output_ptr = None) in
          if out_of_memory then
            Some (true, sim,
                  mkCostMetrics (MAXIMUM_TASK_RUN_TIME cx) (MAXIMUM_TASK_RUN_TIME cx)
                    (inputs_memory cost_metrics) (outputs_memory cost_metrics))
          else
            _ ← assert (negb (profiling cx m));
            (* compute *)
            let assign_domain := get_domain cx sub_assign in
            sub0 ← zget sub_inputs 0;
            let exp_domain := get_domain cx sub0 in
            let k := coord (dom_hi assign_domain) 0 - coord (dom_lo assign_domain) 0 + 1 in
            let batch_size := coord (dom_hi assign_domain) 1 - coord (dom_lo assign_domain) 1 + 1 in
            let rows := coord (dom_hi exp_domain) 1 - coord (dom_lo exp_domain) 1 + 1 in
            let out_dim := coord (dom_hi exp_domain) 0 - coord (dom_lo exp_domain) 0 + 1 in
            let forward :=
              mkForwardCall Meta m input_ptrs assign_ptr pred_ptr output_ptr
                            (n self) k rows batch_size out_dim in
            let '(sim, cost_metrics) :=
              inner_measure_operator_cost cx sim forward cost_metrics in
            Some (true, sim,
                  mkCostMetrics (forward_time cost_metrics) 0%Q
                    (inputs_memory cost_metrics) (outputs_memory cost_metrics))
        end
      end
    end
  end.
End Cost.

End AggregateOp.

(* ===================================================================== *)
(** *** lib/utils/src/adjacency_graph.cc *)
(* ===================================================================== *)

Module AdjacencyGraph.

(** [struct Node { size_t idx; }] *)
Record Node := mkNode { node_idx : N }.

#[global] Instance Node_eq_dec : EqDecision Node.
Proof. solve_decision. Defined.

#[global] Instance Node_countable : Countable Node.
Proof.
  apply (inj_countable' node_idx mkNode). by intros [].
Defined.

(** [struct Edge { Node src, dst; size_t srcIdx, dstIdx; }] *)
Record Edge := mkEdge { src : Node; dst : Node; srcIdx : N; dstIdx : N }.

#[global] Instance Edge_eq_dec : EqDecision Edge.
Proof. solve_decision. Defined.

#[global] Instance Edge_countable : Countable Edge.
Proof.
  apply (inj_countable'
           (fun e => (src e, dst e, srcIdx e, dstIdx e))
           (fun t => match t with (a, b, c, d) => mkEdge a b c d end)).
  by intros [].
Defined.

(** [struct EdgeQuery]: four optional filters. *)
Record EdgeQuery := mkEdgeQuery {
  srcs : option (gset Node);
  dsts : option (gset Node);
  srcIdxs : option (gset N);
  dstIdxs : option (gset N)
}.

(** The member [adjacency]:
    [unordered_map<Node, unordered_map<Node,
       unordered_map<size_t, unordered_set<size_t>>>>]. *)
Record AdjacencyMultiDiGraph := mkGraph {
  next_node_idx : N;
  adjacency : gmap Node (gmap Node (gmap N (gset N)))
}.

Definition size_t_modulus : N := 2 ^ 64.

(** [adjacency[node]] default-constructs the entry when it is missing. *)
Definition touch (node : Node)
    (adj : gmap Node (gmap Node (gmap N (gset N))))
    : gmap Node (gmap Node (gmap N (gset N))) :=
  match adj !! node with
  | Some _ => adj
  | None => <[node := ∅]> adj
  end.

Definition add_node (g : AdjacencyMultiDiGraph) : Node * AdjacencyMultiDiGraph :=
  let node := mkNode (next_node_idx g) in
  (node,
   mkGraph ((next_node_idx g + 1) mod size_t_modulus)%N
           (touch node (adjacency g))).

(** [this->adjacency.at(e.src).at(e.dst)[e.srcIdx].insert(e.dstIdx)]:
    [at] throws [std::out_of_range] on a missing key ([None] here), while
    [operator[]] creates the empty set. *)
Definition add_edge (g : AdjacencyMultiDiGraph) (e : Edge)
    : option AdjacencyMultiDiGraph :=
  m1 ← adjacency g !! src e;
  m2 ← m1 !! dst e;
  let s := default ∅ (m2 !! srcIdx e) in
  Some (mkGraph (next_node_idx g)
          (<[src e := <[dst e := <[srcIdx e := {[dstIdx e]} ∪ s]> m2]> m1]>
             (adjacency g))).

(** [!q.f.has_value() || q.f->find(x) != q.f->end()] *)
Definition passes `{Countable A} (f : option (gset A)) (x : A) : bool :=
  match f with
  | None => true
  | Some s => bool_decide (x ∈ s)
  end.

(** A range-based [for] over a container whose body updates [result]. *)
Definition for_each {A R} (l : list A) (body : A → R → R) (result : R) : R :=
  foldl (fun acc a => body a acc) result l.

Definition query_edges (g : AdjacencyMultiDiGraph) (q : EdgeQuery) : gset Edge :=
  for_each (map_to_list (adjacency g)) (fun kv result =>
    let src := kv.1 in
    if passes (srcs q) src then
      for_each (map_to_list kv.2) (fun kv2 result =>
        let dst := kv2.1 in
        if passes (dsts q) dst then
          for_each (map_to_list kv2.2) (fun kv3 result =>
            let srcIdx := kv3.1 in
            if passes (srcIdxs q) srcIdx then
              for_each (elements kv3.2) (fun dstIdx result =>
                if passes (dstIdxs q) dstIdx then
                  {[ mkEdge src dst srcIdx dstIdx ]} ∪ result
                else result) result
            else result) result
        else result) result
    else result) ∅.

(** The edges held by the adjacency structure. *)
Definition stored (g : AdjacencyMultiDiGraph) (e : Edge) : Prop :=
  ∃ m1 m2 s,
    adjacency g !! src e = Some m1 ∧ m1 !! dst e = Some m2 ∧
    m2 !! srcIdx e = Some s ∧ dstIdx e ∈ s.

(** The edge satisfies every filter that is present. *)
Definition satisfies (q : EdgeQuery) (e : Edge) : Prop :=
  (∀ s, srcs q = Some s → src e ∈ s) ∧
  (∀ s, dsts q = Some s → dst e ∈ s) ∧
  (∀ s, srcIdxs q = Some s → srcIdx e ∈ s) ∧
  (∀ s, dstIdxs q = Some s → dstIdx e ∈ s).

Definition query_all : EdgeQuery := mkEdgeQuery None None None None.

(** The graphs that the member functions of the sources can build,
    starting from a graph whose adjacency map is empty. *)
Inductive built : AdjacencyMultiDiGraph → Prop :=
  | built_empty idx : built (mkGraph idx ∅)
  | built_node g : built g → built (add_node g).2
  | built_edge g e g' : built g → add_edge g e = Some g' → built g'.

End AdjacencyGraph.

(* ===================================================================== *)
(** *** FFModel::create_operator_from_layer, case OP_INPUT (model.cc) *)
(* ===================================================================== *)

Module Lifter.
Import Common TensorFactory.

(** [TensorBase]: the logical tensor; [t_dims] holds the first [num_dims]
    entries of the member array. *)
Record TensorBase := mkTensor {
  tensor_guid : Z;
  t_data_type : DataType;
  t_dims : list Z;
  parallel_tensor : option addr
}.

Definition t_num_dims (t : TensorBase) : Z := Z.of_nat (length (t_dims t)).

Record Layer := mkLayer {
  l_op_type : OperatorType;
  l_outputs : list addr
}.

(** Signed [int] arithmetic: overflow is undefined. *)
Definition int_mul (a b : Z) : option Z :=
  if (- 2 ^ 31 <=? a * b) && (a * b <? 2 ^ 31) then Some (a * b) else None.

(** [new Repartition] on this model, [pt], [dim] and [degree], followed by
    [operators.push_back]. *)
Definition push_Repartition (m : FFModel) (pt : addr) (dim degree : Z) : FFModel :=
  let part := next_free m in
  mkModel (config m) (parallel_tensor_global_guid m)
          (operators m ++ [part])
          (<[part := Repartition_new pt dim degree]> (op_objects m))
          (tensors m) (next_free m + 1)%N.

(** The [case OP_INPUT] block. The logical tensors live in [store]; the
    result is the model, the store and the returned operator. *)
Definition create_operator_from_layer_input (ext : Externals) (m : FFModel)
    (store : gmap addr TensorBase) (layer : Layer) (inputs : list addr)
    : option (FFModel * gmap addr TensorBase * addr) :=
  (* Input op cannot have an input *)
  _ ← assert (bool_decide (length inputs = 0%nat));
  tp ← zget (l_outputs layer) 0;
  tensor ← store !! tp;
  let num_dims := t_num_dims tensor in
  dims1 ← for_range 0 num_dims
             (fun j a => s ← zget (t_dims tensor) j;
                         aset a j (mkParallelDim s 1 (-1) false))
             (new_array (MAX_TENSOR_DIM ext));
  dims2 ← aset dims1 num_dims (mkParallelDim 1 1 (-1) true);
  (* create_parallel_tensor adds an NoOp into operators *)
  '(m1, pt) ←
     create_parallel_tensor_legion_ordering ext m (num_dims + 1) dims2
       (t_data_type tensor) None 0 true (tensor_guid tensor);
  (* assert that this tensor hasn't been mapped before *)
  _ ← assert (bool_decide (parallel_tensor tensor = None));
  let store' :=
    <[tp := mkTensor (tensor_guid tensor) (t_data_type tensor)
                     (t_dims tensor) (Some pt)]> store in
  (* start from data parallel tensor *)
  m2 ← (if only_data_parallel (config m1) then
          degree ← int_mul (numNodes (config m1)) (workersPerNode (config m1));
          Some (push_Repartition m1 pt (num_dims - 1) degree)
        else Some m1);
  ret ← last (operators m2);
  Some (m2, store', ret).

(** What the [OP_INPUT] case leaves behind for the logical tensor of the
    layer: the parallel tensor [pt] with its dimensions, the input operator
    [noop] that owns it, and the operators appended to the list. *)
Definition input_lifted (m : FFModel) (store : gmap addr TensorBase)
    (layer : Layer) (m' : FFModel) (store' : gmap addr TensorBase)
    (ret : addr) : Prop :=
  ∃ tp tensor pt t noop,
    zget (l_outputs layer) 0 = Some tp ∧
    store !! tp = Some tensor ∧
    store' !! tp = Some (mkTensor (tensor_guid tensor) (t_data_type tensor)
                                  (t_dims tensor) (Some pt)) ∧
    tensors m' !! pt = Some t ∧
    num_dims t = t_num_dims tensor + 1 ∧
    (∀ j s, zget (t_dims tensor) j = Some s →
            zget (dims t) j = Some (mkParallelDim s 1 (-1) false)) ∧
    zget (dims t) (t_num_dims tensor) = Some (mkParallelDim 1 1 (-1) true) ∧
    data_type t = t_data_type tensor ∧
    owner_op t = Some noop ∧
    op_objects m' !! noop = Some (NoOp_new OP_INPUT (tensor_guid tensor) pt) ∧
    if only_data_parallel (config m) then
      ∃ part, operators m' = operators m ++ [noop; part] ∧ ret = part ∧
        op_objects m' !! part =
          Some (Repartition_new pt (t_num_dims tensor - 1)
                  (numNodes (config m) * workersPerNode (config m)))
    else operators m' = operators m ++ [noop] ∧ ret = noop.

(** The parallel dimensions that the block gives the tensor. *)
Definition lifted_dims (tensor : TensorBase) : list ParallelDim :=
  ((fun s => mkParallelDim s 1 (-1) false) <$> t_dims tensor)
  ++ [mkParallelDim 1 1 (-1) true].

(** What the block requires in order to return: the logical tensor of the
    layer exists and is not lifted yet, the dimension count with the replica
    dimension is within the two limits, the validity check accepts the
    lifted dimensions, and the worker count fits an [int]. *)
Definition liftable (ext : Externals) (m : FFModel)
    (store : gmap addr TensorBase) (layer : Layer) : Prop :=
  ∃ tp tensor,
    zget (l_outputs layer) 0 = Some tp ∧
    store !! tp = Some tensor ∧
    parallel_tensor tensor = None ∧
    t_num_dims tensor + 1 ≤ MAX_TENSOR_DIM ext ∧
    t_num_dims tensor + 1 ≤ LEGION_MAX_DIM ext ∧
    (∀ t, dims t = lifted_dims tensor → check_valid ext t = true) ∧
    (only_data_parallel (config m) = true →
     - 2 ^ 31 ≤ numNodes (config m) * workersPerNode (config m) < 2 ^ 31).

End Lifter.

(* ===================================================================== *)
(** *** FFModel::map_tensor_with_dim2 and
        FFModel::create_aliased_partition_with_dim2 (model.cc) *)
(* ===================================================================== *)

Module RegionMapper.
Import Common.

(** [Legion::Point<N>], [Legion::Rect<N>] (inclusive bounds) and
    [Legion::Transform<N, T>] (row [i], column [j]); coordinates as
    integers. *)
Definition Point := list Z.
Record Rect := mkRect { lo : Point; hi : Point }.
Definition Transform := list (list Z).

Definition ZEROES (n : Z) : Point := replicate (Z.to_nat n) 0.

(** Integer division of C++: truncation toward zero, undefined by zero. *)
Definition cdiv (a b : Z) : option Z :=
  if b =? 0 then None else Some (a ÷ b).

(** [for (int i = 0; i < n; i++) a[i] = f(i)] into a fresh array. *)
Definition tabulate {A} (n : Z) (f : Z → option A) : option (list A) :=
  mapM f (seqZ 0 n).

(** The restriction partition that the runtime creates: parent index space,
    colour space, transform and extent. *)
Record IndexPartition := mkIndexPartition {
  ip_parent : Rect;
  ip_colors : Rect;
  ip_transform : Transform;
  ip_extent : Rect
}.

Definition in_rect (r : Rect) (x : Point) : Prop :=
  Forall2 Z.le (lo r) x ∧ Forall2 Z.le x (hi r).

#[global] Instance in_rect_dec r x : Decision (in_rect r x).
Proof. unfold in_rect. apply _. Defined.

Definition dot (row : list Z) (p : Point) : Z :=
  foldr Z.add 0 (zip_with Z.mul row p).

Definition apply_transform (t : Transform) (p : Point) : Point :=
  (fun row => dot row p) <$> t.

(** The runtime's restriction partition gives the colour [c] the points of
    the parent that lie in the rectangle [transform * c + extent]. *)
Definition image (ip : IndexPartition) (c : Point) : Rect :=
  let base := apply_transform (ip_transform ip) c in
  mkRect (zip_with Z.add base (lo (ip_extent ip)))
         (zip_with Z.add base (hi (ip_extent ip))).

Definition subspace (ip : IndexPartition) (c x : Point) : Prop :=
  in_rect (ip_parent ip) x ∧ in_rect (image ip c) x.

(** Pairwise disjoint subspaces; subspaces that cover the parent. *)
Definition partition_disjoint (ip : IndexPartition) : Prop :=
  ∀ c1 c2 x, in_rect (ip_colors ip) c1 → in_rect (ip_colors ip) c2 →
             subspace ip c1 x → subspace ip c2 x → c1 = c2.

Definition partition_complete (ip : IndexPartition) : Prop :=
  ∀ x, in_rect (ip_parent ip) x →
       ∃ c, in_rect (ip_colors ip) c ∧ subspace ip c x.

(** All points of a rectangle. *)
Fixpoint points_of (los his : list Z) : list Point :=
  match los, his with
  | [], [] => [[]]
  | l :: ls, h :: hs =>
      x ← seqZ l (h - l + 1); p ← points_of ls hs; [x :: p]
  | _, _ => []
  end.

Definition points (r : Rect) : list Point := points_of (lo r) (hi r).

(** [runtime->is_index_partition_disjoint] and
    [runtime->is_index_partition_complete], by enumeration. *)
Definition is_index_partition_disjoint (ip : IndexPartition) : bool :=
  bool_decide
    (Forall (fun c1 =>
       Forall (fun c2 =>
         c1 = c2 ∨
         Forall (fun x => ¬ (subspace ip c1 x ∧ subspace ip c2 x))
                (points (ip_parent ip)))
         (points (ip_colors ip)))
       (points (ip_colors ip))).

Definition is_index_partition_complete (ip : IndexPartition) : bool :=
  bool_decide
    (Forall (fun x => Exists (fun c => subspace ip c x) (points (ip_colors ip)))
            (points (ip_parent ip))).

(** What the mapping leaves in the tensor: owner, the rectangle of its
    region's index space, whether a gradient region and partition exist,
    and the partition. *)
Record Mapped := mkMapped {
  m_owner_op : option addr;
  m_owner_idx : Z;
  m_rect : Rect;
  m_has_grad : bool;
  m_part : option IndexPartition
}.

(** The field allocated for the element type; [assert(false)] otherwise. *)
Definition field_size (dt : DataType) : option Z :=
  match dt with
  | DT_HALF => Some 2
  | DT_FLOAT => Some 4
  | DT_DOUBLE => Some 8
  | DT_INT32 => Some 4
  | DT_INT64 => Some 8
  | _ => None
  end.

(** [ext_hi[i] = (rect.hi[i] - rect.lo[i] + nparts) / nparts - 1] *)
Definition ext_hi_of (rect : Rect) (i nparts : Z) : option Z :=
  h ← zget (hi rect) i; l ← zget (lo rect) i;
  q ← cdiv (h - l + nparts) nparts;
  Some (q - 1).

(** [FFModel::map_tensor_with_dim2<NDIM, TDIM>]; [part_rect] is the domain
    of the task index space of the tensor ([TDIM] its dimension) and
    [training] says whether the computation mode is training. Step 3, the
    call of the tensor's initializer, is left out: it fills the region and
    does not change what is recorded here. *)
Definition map_tensor_with_dim2 (NDIM TDIM : Z) (training : bool)
    (part_rect : Rect) (tensor : ParallelTensorBase) (parallel_op : option addr)
    : option Mapped :=
  (* Step 0: check we are the owner or the owner is NULL *)
  '(owner, idx) ←
     match owner_op tensor with
     | None => Some (parallel_op, -1)
     | Some o =>
         _ ← assert (bool_decide (Some o = parallel_op)
                     || bool_decide (parallel_op = None));
         Some (Some o, owner_idx tensor)
     end;
  (* Step 1: create regions *)
  _ ← field_size (data_type tensor);
  rect_hi ← tabulate NDIM (fun i => d ← zget (dims tensor) i; Some (size d - 1));
  let rect := mkRect (ZEROES NDIM) rect_hi in
  let grad := create_gradients tensor && training in
  (* Step 2: create partitions if parallel_op != NULL *)
  match parallel_op with
  | None => Some (mkMapped owner idx rect grad None)
  | Some _ =>
      ext_hi ← tabulate NDIM (fun i =>
                  d ← zget (dims tensor) i;
                  let nparts := degree d in
                  ext_hi_of rect i nparts);
      let extent := mkRect (ZEROES NDIM) ext_hi in
      transform ← tabulate NDIM (fun i =>
                    tabulate TDIM (fun j =>
                      d ← zget (dims tensor) i;
                      eh ← zget (hi extent) i; el ← zget (lo extent) i;
                      Some (if parallel_idx d =? j then eh - el + 1 else 0)));
      let ip := mkIndexPartition rect part_rect transform extent in
      _ ← assert (is_index_partition_disjoint ip);
      _ ← assert (is_index_partition_complete ip);
      Some (mkMapped owner idx rect grad (Some ip))
  end.

(** [FFModel::create_aliased_partition_with_dim2<NDIM, TDIM>]; [rect] is the
    domain of the region's index space. *)
Definition create_aliased_partition_with_dim2 (NDIM TDIM : Z)
    (dims : list ParallelDim) (aliased_dim : Z) (part_rect rect : Rect)
    : option IndexPartition :=
  ext_hi ← tabulate NDIM (fun i =>
              d ← zget dims i;
              let nparts := if aliased_dim =? i then 1 else degree d in
              ext_hi_of rect i nparts);
  let extent := mkRect (ZEROES NDIM) ext_hi in
  transform ← tabulate NDIM (fun i =>
                tabulate TDIM (fun j =>
                  d ← zget dims i;
                  eh ← zget (hi extent) i; el ← zget (lo extent) i;
                  Some (if (parallel_idx d =? j) && negb (i =? aliased_dim)
                        then eh - el + 1 else 0)));
  let ip := mkIndexPartition rect part_rect transform extent in
  _ ← assert (is_index_partition_complete ip);
  Some ip.

(** The ceiling of a quotient, for comparison with the extents. *)
Definition ceil_div (a b : Z) : Z := - ((- a) / b).


Definition entry (t : Transform) (i j : Z) : option Z :=
  row ← zget t i; zget row j.



(** The number of points of the parent that the colour [c] gets. *)
Definition volume (ip : IndexPartition) (c : Point) : nat :=
  length (filter (fun x => subspace ip c x) (points (ip_parent ip))).

End RegionMapper.

(* ===================================================================== *)
(** *** Restriction partitions that tile a region *)
(* ===================================================================== *)

Module Tiling.
Import Common RegionMapper.

(** A restriction partition of the region [[0, ph]] with the extent
    [[0, eh]], the colour space [[clo, chi]] and the transform [t]. *)
Definition tiles (N : nat) (ph eh clo chi : list Z) (t : list (list Z))
    : IndexPartition :=
  mkIndexPartition (mkRect (replicate N 0) ph) (mkRect clo chi) t
                   (mkRect (replicate N 0) eh).

(** The index of a transform row's only non-zero entry, one position on. *)
Definition shift (p : option nat) : option nat :=
  match p with Some (S j) => Some j | _ => None end.

(** Where the tile of the colour [c] starts in dimension [i], when row [i]
    of the transform holds the tile width [e' + 1] in column [col i] and
    zero elsewhere. *)
Definition base (col : nat → option nat) (c : list Z) (i : nat) (e' : Z) : Z :=
  match col i with
  | Some j => match c !! j with Some x => (e' + 1) * x | None => 0 end
  | None => 0
  end.

(** The colour whose tile holds the point [x]: along a task axis that some
    dimension uses, the number of the tile that the coordinate falls in. *)
Definition colour_of (N : nat) (eh clo : list Z) (col : nat → option nat)
    (x : list Z) (j : nat) : Z :=
  match list_find (fun i => col i = Some j) (seq 0 N) with
  | Some (_, i) => default 0 (x !! i) ÷ (default 0 (eh !! i) + 1)
  | None => default 0 (clo !! j)
  end.

(** The tile width that the sources compute for a dimension of [w i]
    points cut into [np i] parts. *)
Definition tile_width (w np : Z → Z) (i : Z) : Z := (w i - 1 + np i) ÷ np i.

(** The partition that the tiling loops of the sources build: dimension
    [i] has [w i] points, is cut into [np i] parts and moves along the task
    axis [axis i]. *)
Definition grid (N T : Z) (w np : Z → Z) (axis : Z → option Z)
    (clo chi : list Z) : IndexPartition :=
  mkIndexPartition
    (mkRect (ZEROES N) ((fun i => w i - 1) <$> seqZ 0 N))
    (mkRect clo chi)
    ((fun i => (fun j => if bool_decide (axis i = Some j)
                         then tile_width w np i else 0)
                 <$> seqZ 0 T) <$> seqZ 0 N)
    (mkRect (ZEROES N) ((fun i => tile_width w np i - 1) <$> seqZ 0 N)).

Definition grid_col (T : Z) (axis : Z → option Z) (i : nat) : option nat :=
  a ← axis (Z.of_nat i);
  if bool_decide (0 ≤ a < T) then Some (Z.to_nat a) else None.

(** Mixed-radix numbers with the radices [nps], least significant digit
    first: the weights of the digits scaled by [q], the number that the
    digits [c] stand for, and the digits of a number. *)
Fixpoint radix_row (q : Z) (nps : list Z) : list Z :=
  match nps with
  | [] => []
  | n :: r => q :: radix_row (q * n) r
  end.

Fixpoint radix_index (nps c : list Z) : Z :=
  match nps, c with
  | n :: r, x :: c' => x + n * radix_index r c'
  | _, _ => 0
  end.

Fixpoint radix_digits (nps : list Z) (k : Z) : list Z :=
  match nps with
  | [] => []
  | n :: r => k `mod` n :: radix_digits r (k `div` n)
  end.

Definition product (l : list Z) : Z := foldr Z.mul 1 l.

(** The number of points of each axis of a task space. *)
Definition axis_points (part_rect : Rect) : list Z :=
  zip_with (fun h l => h - l + 1) (hi part_rect) (lo part_rect).

End Tiling.

(* ===================================================================== *)
(** *** FFModel::apply_fusion (model.cc) *)
(* ===================================================================== *)

Module Fusion.
Import Common.

(** The members of [Op] that the pass reads or writes. The slot counts are
    the lengths of the lists; [has_inplace_output] is the result of the
    virtual member function of that name. *)
Record Op := mkOp {
  op_type : OperatorType;
  inputs : list addr;
  outputs : list addr;
  has_inplace_output : bool
}.

(** Operators and parallel tensors are shared objects: the operator list
    holds addresses, and so do the slots and [owner_op]. *)
Record Heap := mkHeap {
  ops : gmap addr Op;
  tens : gmap addr ParallelTensorBase
}.

Record Slots := mkSlots { s_inputs : list addr; s_outputs : list addr }.

(** The class [FusedOp] is declared outside the sources. Its constructor
    (run at address [this] on the seed operator) and [add_operator] are
    member functions of the fused operator: they are taken to write the
    slots of that operator and the parallel tensors, and nothing else; an
    operator built by the constructor has the kind [OP_FUSED] and no
    in-place output. [add_operator] may fail an assertion ([None]). *)
Record FusedOpClass := mkFusedOpClass {
  FusedOp_new : Heap → addr → addr → Slots * gmap addr ParallelTensorBase;
  add_operator :
    Heap → addr → addr → option (bool * Slots * gmap addr ParallelTensorBase)
}.

(** Modelled from the spec: [Op::is_parallel_op] is not part of the sources;
    the glossary lists the parallel operators as repartition, replicate,
    reduction, combine and fused_parallel. *)
Definition is_parallel_op (op : Op) : bool :=
  match op_type op with
  | OP_REPARTITION | OP_REPLICATE | OP_REDUCTION | OP_COMBINE
  | OP_FUSED_PARALLEL => true
  | _ => false
  end.

(** [op_type == OP_INPUT || op_type == OP_WEIGHT] *)
Definition input_or_weight (op : Op) : bool :=
  bool_decide (op_type op = OP_INPUT) || bool_decide (op_type op = OP_WEIGHT).

(** A loop whose body either goes on to the next index ([None], possibly
    after changing the heap) or returns from the function ([Some]). *)
Fixpoint first_return {I R} (indices : list I) (h : Heap)
    (body : Heap → I → option (Heap * option R)) : option (Heap * option R) :=
  match indices with
  | [] => Some (h, None)
  | i :: rest =>
      r ← body h i;
      match r with
      | (h', Some res) => Some (h', Some res)
      | (h', None) => first_return rest h' body
      end
  end.

(** [outputs[0]->machine_view] *)
Definition output_view (h : Heap) (op : Op) : option MachineView :=
  p ← outputs op !! 0%nat; t ← tens h !! p; Some (machine_view t).

(** The block that computes [start] for [opl = operators[l]]. *)
Definition find_start (h : Heap) (operators : list addr) (l : nat) (opl : Op)
    : option nat :=
  for_each_opt (inputs opl) (fun input start =>
    t ← tens h !! input;
    r ← for_each_opt (seq 0 l) (fun i (s : bool * nat) =>
           p ← operators !! i;
           if bool_decide (owner_op t = Some p) then
             _ ← assert (negb s.1);
             Some (true, if bool_decide (s.2 < i)%nat then i else s.2)
           else Some s) (false, start);
    _ ← assert (r.1 || bool_decide (owner_op t = None));
    Some r.2) 0%nat.

(** The search for the output slot of [fused_op] with the region [r]:
    [found] is [-1] until a slot matches. *)
Definition find_output (h : Heap) (fused_op : addr) (r : LogicalRegion)
    : option nat :=
  fop ← ops h !! fused_op;
  found ← for_each_opt (seq 0 (length (outputs fop))) (fun k found =>
             p ← outputs fop !! k; t ← tens h !! p;
             if bool_decide (region t = r) then
               _ ← assert (bool_decide (found = None));
               Some (Some k)
             else Some found) None;
  found.

Definition set_inputs (h : Heap) (p : addr) (op : Op) (new_inputs : list addr)
    : Heap :=
  mkHeap (<[p := mkOp (op_type op) new_inputs (outputs op)
                      (has_inplace_output op)]> (ops h))
         (tens h).

(** The body of the loop over [idx] for the operator at [p]. *)
Definition rewrite_input (fused_op pl pi p : addr) (idx : nat) (h : Heap)
    : option Heap :=
  op ← ops h !! p;
  input ← inputs op !! idx;
  t ← tens h !! input;
  if bool_decide (owner_op t = Some pl) || bool_decide (owner_op t = Some pi)
  then
    found ← find_output h fused_op (region t);
    fop ← ops h !! fused_op;
    new_input ← outputs fop !! found;
    Some (set_inputs h p op (<[idx := new_input]> (inputs op)))
  else Some h.

Definition rewrite_op (fused_op pl pi p : addr) (h : Heap) : option Heap :=
  op ← ops h !! p;
  for_each_opt (seq 0 (length (inputs op))) (rewrite_input fused_op pl pi p) h.

(** Which pair was fused, the fused operator, and the heap right after
    [add_operator] returned [true]: ghost data, not part of the result of
    the source function. *)
Record FusionEvent := mkEvent {
  ev_i : nat;
  ev_l : nat;
  ev_fused : addr;
  ev_heap : Heap
}.

(** "Construct new operators": the rebuilt list and the heap in which the
    inputs of the later operators are rewritten. *)
Definition rebuild (operators : list addr) (i l : nat) (fused_op pl pi : addr)
    (h : Heap) : option (Heap * list addr) :=
  let new_operators := take i operators ++ [fused_op] in
  r ← for_each_opt (seq (i + 1) (length operators - (i + 1)))
        (fun j (s : Heap * list addr) =>
           if bool_decide (j = l) then Some s
           else
             p ← operators !! j;
             h' ← rewrite_op fused_op pl pi p s.1;
             Some (h', s.2 ++ [p]))
        (h, new_operators);
  (* We are exact one operator fewer than the original *)
  _ ← assert (bool_decide (length r.2 + 1 = length operators)%nat);
  Some r.

(** From [fused_op->add_operator] to the end of the body of the loop over
    [i]: on success the list is rebuilt and the function returns, otherwise
    a fused operator allocated for this attempt is deleted. *)
Definition incorporate (F : FusedOpClass) (operators : list addr) (i l : nat)
    (pl pi : addr) (h1 : Heap) (fused_op : addr) (allocate_new_fused_op : bool)
    : option (Heap * option (list addr * FusionEvent)) :=
  match add_operator F h1 fused_op pl with
  | None => None
  | Some (ok, slots, tens') =>
      fop ← ops h1 !! fused_op;
      let h2 :=
        mkHeap (<[fused_op := mkOp (op_type fop) (s_inputs slots)
                                   (s_outputs slots) (has_inplace_output fop)]>
                  (ops h1))
               tens' in
      if ok then
        match rebuild operators i l fused_op pl pi h2 with
        | None => None
        | Some (h3, new_operators) =>
            Some (h3, Some (new_operators, mkEvent i l fused_op h2))
        end
      else if allocate_new_fused_op
           then Some (mkHeap (delete fused_op (ops h2)) (tens h2), None)
           else Some (h2, None)
  end.

(** The body of the loop over [i] for a fixed [l]. *)
Definition try_pair (F : FusedOpClass) (operators : list addr) (l : nat)
    (h : Heap) (i : nat) : option (Heap * option (list addr * FusionEvent)) :=
  pl ← operators !! l; opl ← ops h !! pl;
  pi ← operators !! i; opi ← ops h !! pi;
  view1 ← output_view h opl;
  view2 ← output_view h opi;
  if bool_decide (view1 = view2) then
    if bool_decide (op_type opi = OP_FUSED) then
      incorporate F operators i l pl pi h pi false
    else if has_inplace_output opi then Some (h, None)
    else if input_or_weight opi then Some (h, None)
    else if is_parallel_op opi then Some (h, None)
    else
      let fused_op : addr := fresh (dom (ops h)) in
      let r := FusedOp_new F h fused_op pi in
      let h1 :=
        mkHeap (<[fused_op := mkOp OP_FUSED (s_inputs r.1) (s_outputs r.1)
                                   false]> (ops h))
               r.2 in
      incorporate F operators i l pl pi h1 fused_op true
  else Some (h, None).

(** [FFModel::apply_fusion]: [None] is a failed assertion or an undefined
    read, [Some (h, None)] is [return false], and [Some (h, Some (ops, ev))]
    is [return true] with [new_operators = ops]. On an empty vector
    [operators.size() - 1] wraps around and [operators[1]] is read. *)
Definition apply_fusion (F : FusedOpClass) (h : Heap) (operators : list addr)
    : option (Heap * option (list addr * FusionEvent)) :=
  match operators with
  | [] => None
  | _ =>
    first_return (seq 1 (length operators - 2)) h (fun h l =>
      pl ← operators !! l; opl ← ops h !! pl;
      if input_or_weight opl then Some (h, None)
      else if is_parallel_op opl then Some (h, None)
      else
        start ← find_start h operators l opl;
        first_return (seq start (l - start)) h (try_pair F operators l))
  end.

(** [operators[j]] for [j] from [a] to the end of the list, except [l],
    in order: the operators that the rebuilding loop pushes. *)
Definition kept (operators : list addr) (l a n : nat) : list addr :=
  omap (fun j => if bool_decide (j = l) then None else operators !! j) (seq a n).

(** Slot [k] of the operator at [fused_op] holds a tensor with region [r],
    and it is the only such slot. *)
Definition output_slot (h : Heap) (fused_op : addr) (r : LogicalRegion)
    (k : nat) (fo : addr) : Prop :=
  ∃ fop fot, ops h !! fused_op = Some fop ∧ outputs fop !! k = Some fo ∧
             tens h !! fo = Some fot ∧ region fot = r ∧
             ∀ k' fo' fot', outputs fop !! k' = Some fo' →
                            tens h !! fo' = Some fot' → region fot' = r → k' = k.

(** The inputs of the operator at [p], as they are in [h2], have been
    rewritten in [h3]: an input owned by [pl] or [pi] is now the output slot
    of [fused_op] with the same region, any other input is unchanged. *)
Definition rewritten (h2 h3 : Heap) (fused_op pl pi p : addr) : Prop :=
  ∃ op op', ops h2 !! p = Some op ∧ ops h3 !! p = Some op' ∧
    length (inputs op') = length (inputs op) ∧
    ∀ idx t tb, inputs op !! idx = Some t → tens h2 !! t = Some tb →
      if bool_decide (owner_op tb = Some pl) || bool_decide (owner_op tb = Some pi)
      then ∃ k fo, output_slot h3 fused_op (region tb) k fo ∧
                   inputs op' !! idx = Some fo
      else inputs op' !! idx = Some t.

(** Type and in-place flag of the operator at an address. *)
Definition kind (h : Heap) (p : addr) : option (OperatorType * bool) :=
  (fun o => (op_type o, has_inplace_output o)) <$> ops h !! p.

Definition outs (h : Heap) (p : addr) : option (list addr) :=
  outputs <$> ops h !! p.

(** What a step of the rewriting leaves alone: the tensors, every
    operator's type, flag and outputs, and all slots of the operators other
    than [p]. *)
Definition frame (p : addr) (h h' : Heap) : Prop :=
  tens h' = tens h ∧
  (∀ q, kind h' q = kind h q) ∧
  (∀ q, outs h' q = outs h q) ∧
  (∀ q, q ≠ p → ops h' !! q = ops h !! q).

(** Modelled from the spec: a fused operator that accepts an operator when
    the input and output counts stay within [bound] ("bounded
    input/weight/output counts"), takes over the outputs of its members as
    its own output slots, and lists as inputs the tensors that no member
    produces. The tensors taken over get the fused operator as owner and
    their slot as [owner_idx] ("every parallel tensor has exactly one owner;
    its owner_idx equals its position in the owner's outputs"). Used for
    the concrete scenarios only. *)
Definition own (this : addr) (offset : nat) (ps : list addr)
    (ts : gmap addr ParallelTensorBase) : gmap addr ParallelTensorBase :=
  foldr (fun kp ts =>
    match ts !! kp.2 with
    | Some t => <[kp.2 := mkParallelTensor (parallel_tensor_guid t) (data_type t)
                            (Some this) (Z.of_nat (offset + kp.1))
                            (create_gradients t) (dims t) (region t)
                            (machine_view t)]> ts
    | None => ts
    end) ts (imap pair ps).

Definition bounded_fused_op (bound : nat) : FusedOpClass :=
  mkFusedOpClass
    (fun h this p =>
       match ops h !! p with
       | Some op => (mkSlots (inputs op) (outputs op),
                     own this 0 (outputs op) (tens h))
       | None => (mkSlots [] [], tens h)
       end)
    (fun h this p =>
       fop ← ops h !! this; op ← ops h !! p;
       _ ← assert (negb (is_parallel_op op));
       let new_inputs :=
         inputs fop ++ list_difference (inputs op) (outputs fop ++ inputs fop) in
       let new_outputs := outputs fop ++ outputs op in
       if bool_decide (op_type op = OP_FUSED) then
         Some (false, mkSlots (inputs fop) (outputs fop), tens h)
       else if bool_decide (length new_inputs ≤ bound ∧ length new_outputs ≤ bound)%nat
       then Some (true, mkSlots new_inputs new_outputs,
                  own this (length (outputs fop)) (outputs op) (tens h))
       else Some (false, mkSlots (inputs fop) (outputs fop), tens h)).

(** The second half of the specification's condition on a fused pair, as
    it is worded: the operator [O[l]] that is fused in has no in-place
    output. *)
Definition fused_in_never_inplace (F : FusedOpClass) (h : Heap)
    (operators : list addr) : Prop :=
  ∀ h' new_operators ev pl opl,
    apply_fusion F h operators = Some (h', Some (new_operators, ev)) →
    operators !! ev_l ev = Some pl → ops h !! pl = Some opl →
    has_inplace_output opl = false.

End Fusion.

(* ===================================================================== *)
(** *** FFModel::rewrite and FFModel::mcmc_optimize (model.cc) *)
(* ===================================================================== *)

Module Search.
Import Common.

(** [struct ParallelConfig], the members that the sources print. *)
Record ParallelConfig := mkParallelConfig {
  nDims : Z;
  dim : list Z;
  device_ids : list Z
}.

(** Everything the search calls that is declared outside the sources, over
    a state [World] that carries the generator behind [std::rand] and the
    simulator:
    - [std_rand]: [std::rand()], a non-negative [int];
    - [get_random_parallel_config]: the member function of the operator;
    - [propagate]: [FFModel::propagate], present when the macro
      [FF_USE_PROPAGATE] is defined;
    - [simulate_runtime]: the simulator's estimate, a [float];
    - [lt]: [operator<] on [float];
    - [accepts rn alpha next current]: the test
      [rn < std::exp(-alpha * (next - current))]. *)
Record Environment {World Float : Type} := mkEnvironment {
  std_rand : World → N * World;
  RAND_MAX : positive;
  get_random_parallel_config : World → addr → ParallelConfig * World;
  PROPAGATION_CHANCE : Q;
  propagate : option (World → gmap addr ParallelConfig →
                      gmap addr ParallelConfig * World);
  simulate_runtime : World → gmap addr ParallelConfig → Float * World;
  lt : Float → Float → bool;
  accepts : Q → Float → Float → Float → bool
}.
Arguments Environment : clear implicits.

(** How a run of the loop under a bound on the number of its iterations
    ends: the loop is left, an iteration is undefined, or the bound is
    reached with the loop still running. *)
Inductive Run (A : Type) :=
  | Returned (a : A)
  | Failed
  | Running.
Arguments Returned {A} a.
Arguments Failed {A}.
Arguments Running {A}.

Section Search.
Context {World Float : Type} (X : Environment World Float).

(** [static_cast<float>(std::rand()) / static_cast<float>(RAND_MAX)], as a
    rational. *)
Definition randf (w : World) : Q * World :=
  let '(r, w) := std_rand X w in (Z.of_N r # RAND_MAX X, w).

(** [a < b] on rationals. *)
Definition Qltb (a b : Q) : bool := negb (Qle_bool b a).

(** [FFModel::rewrite]: the result is [next] and the world after the
    draws. [std::rand() % operators.size()] is undefined on an empty
    vector. *)
Definition rewrite (operators : list addr) (current : gmap addr ParallelConfig)
    (use_propagation : bool) (w : World)
    : option (gmap addr ParallelConfig * World) :=
  let next := current in
  let propagate_chance :=
    if use_propagation then PROPAGATION_CHANCE X else 0%Q in
  let '(r, w) := randf w in
  if Qltb r propagate_chance then
    match propagate X with
    | Some propagate => Some (propagate w current)
    | None => Some (next, w)
    end
  else
    let '(r, w) := std_rand X w in
    if bool_decide (length operators = 0%nat) then None
    else
      let opId := (N.to_nat r `mod` length operators)%nat in
      (* TODO: need to make sure opId is not an output operator of the model *)
      if bool_decide (opId = length operators - 1)%nat then Some (next, w)
      else
        op ← operators !! opId;
        let '(config, w) := get_random_parallel_config X w op in
        Some (<[op := config]> next, w).

(** The largest [size_t]. *)
Definition SIZE_MAX : Z := 2 ^ 64 - 1.

(** The variables of [mcmc_optimize]; [last_reset_iter] is a [size_t], and
    [seen] is ghost data: the simulated costs of the proposals so far,
    oldest first. *)
Record SearchState := mkSearchState {
  best : gmap addr ParallelConfig;
  best_runtime : Float;
  current : gmap addr ParallelConfig;
  current_runtime : Float;
  last_reset_iter : Z;
  world : World;
  seen : list Float
}.

(** [reset_span] as it is set before the loop, from a [size_t budget]. *)
Definition reset_span_of (budget : Z) : Z :=
  let reset_span := budget / 100 in
  let reset_span := if bool_decide (reset_span = 0) then 1 else reset_span in
  if bool_decide (1000 < reset_span) then 1000 else reset_span.

(** The state before the loop. *)
Definition mcmc_init (best : gmap addr ParallelConfig) (w : World) : SearchState :=
  let '(best_runtime, w) := simulate_runtime X w best in
  mkSearchState best best_runtime best best_runtime 0 w [].

(** The body of the [for] loop; [iter - last_reset_iter] is a difference
    of two [size_t]. *)
Definition mcmc_step (operators : list addr) (alpha : Float)
    (use_propagation : bool) (reset_span : Z) (iter : Z) (s : SearchState)
    : option SearchState :=
  (* Reset the current strategy to be the best strategy *)
  let s :=
    if bool_decide (reset_span ≤ (iter - last_reset_iter s) mod 2 ^ 64)
    then mkSearchState (best s) (best_runtime s) (best s) (best_runtime s)
                       iter (world s) (seen s)
    else s in
  '(next, w) ← rewrite operators (current s) use_propagation (world s);
  let '(next_runtime, w) := simulate_runtime X w next in
  let '(rn, w) := randf w in
  let '(best', best_runtime') :=
    if lt X next_runtime (best_runtime s)
    then (next, next_runtime) else (best s, best_runtime s) in
  let '(current', current_runtime') :=
    if lt X next_runtime (current_runtime s) then (next, next_runtime)
    else if accepts X rn alpha next_runtime (current_runtime s)
         then (next, next_runtime)
         else (current s, current_runtime s) in
  Some (mkSearchState best' best_runtime' current' current_runtime'
                      (last_reset_iter s) w (seen s ++ [next_runtime])).

(** [for (size_t iter = ...; iter <= budget; iter++) body], from the value
    [iter] on: the test comes before every iteration, and [iter++] wraps
    around at [SIZE_MAX]. At most [fuel] iterations are run. *)
Fixpoint mcmc_loop (fuel : nat) (operators : list addr) (alpha : Float)
    (use_propagation : bool) (reset_span budget : Z) (iter : Z)
    (s : SearchState) : Run SearchState :=
  if iter <=? budget then
    match fuel with
    | O => Running
    | S fuel =>
        match mcmc_step operators alpha use_propagation reset_span iter s with
        | Some s =>
            mcmc_loop fuel operators alpha use_propagation reset_span budget
                      ((iter + 1) mod 2 ^ 64) s
        | None => Failed
        end
    end
  else Returned s.


(** [FFModel::mcmc_optimize] with at most [fuel] iterations of its loop:
    after the loop the best strategy is simulated once more for the
    report. *)
Definition mcmc_optimize (fuel : nat) (operators : list addr)
    (best : gmap addr ParallelConfig) (budget : Z) (alpha : Float)
    (use_propagation : bool) (w : World) : Run SearchState :=
  match mcmc_loop fuel operators alpha use_propagation (reset_span_of budget)
                  budget 0 (mcmc_init best w) with
  | Returned s =>
      let '(_, w) := simulate_runtime X (world s) (Search.best s) in
      Returned (mkSearchState (Search.best s) (best_runtime s) (current s)
                              (current_runtime s) (last_reset_iter s) w (seen s))
  | Failed => Failed
  | Running => Running
  end.


End Search.


(** The first sentence of the specification's random rewrite, as it is
    worded: some non-terminal operator has its entry replaced by a random
    configuration drawn for it. *)
Definition replaces_nonterminal {World Float : Type}
    (X : Environment World Float) (operators : list addr)
    (current next : gmap addr ParallelConfig) : Prop :=
  ∃ opId op w,
    (opId + 1 < length operators)%nat ∧ operators !! opId = Some op ∧
    next = <[op := (get_random_parallel_config X w op).1]> current.

End Search.

(* ===================================================================== *)
(** *** Task index spaces and FFModel::map_tensor (model.cc) *)
(* ===================================================================== *)

Module TaskSpace.
Import Common RegionMapper.

#[global] Instance MachineView_countable : Countable MachineView.
Proof.
  apply (inj_countable' axis_extents mkMachineView). by intros [].
Defined.

(** The local [MachineView view] that the overloads of
    [get_or_create_task_is] fill: the member [ndims] and the member array
    [dim]; a slot that holds no value is [None]. *)
Record View := mkView { ndims : Z; dim : carray Z }.

(** What is declared outside the sources: the member array [dim] as the
    default constructor of [MachineView] leaves it, where a slot that the
    constructor does not initialise is [None], and the largest dimension
    count of the macro [LEGION_FOREACH_N]. *)
Record Limits := mkLimits { default_dim : carray Z; LEGION_MAX_DIM : Z }.

(** The number of slots of [MachineView::dim]. *)
Definition VIEW_SLOTS (L : Limits) : Z := Z.of_nat (length (default_dim L)).

(** The index spaces of the runtime ([create_index_space] hands out a new
    handle, [get_index_space_domain] returns the rectangle it was created
    with) and the member [all_task_is]. The map compares two views by
    their first [ndims] extents; reading one of them from a slot that
    holds no value is undefined. *)
Record TaskSpaces := mkTaskSpaces {
  index_spaces : gmap N Rect;
  next_index_space : N;
  all_task_is : gmap MachineView N
}.

Definition view_key (view : View) : option MachineView :=
  mkMachineView <$> tabulate (ndims view) (fun i => aget (dim view) i).

(** [FFModel::get_task_is(MachineView const &)] *)
Definition get_task_is_view (s : TaskSpaces) (view : View) : option N :=
  key ← view_key view;
  all_task_is s !! key.

(** [FFModel::get_or_create_task_is(MachineView const &)]; the [printf]
    after the [switch] reads [view.dim[0]] to [view.dim[3]], whatever
    [view.ndims] is. *)
Definition get_or_create_task_is_view (L : Limits) (s : TaskSpaces) (view : View)
    : option (TaskSpaces * N) :=
  key ← view_key view;
  match all_task_is s !! key with
  | Some task_is => Some (s, task_is)
  | None =>
      _ ← assert ((1 <=? ndims view) && (ndims view <=? LEGION_MAX_DIM L));
      task_hi ← tabulate (ndims view) (fun i => d ← aget (dim view) i; Some (d - 1));
      let task_rect := mkRect (ZEROES (ndims view)) task_hi in
      let task_is := next_index_space s in
      _ ← aget (dim view) 0; _ ← aget (dim view) 1;
      _ ← aget (dim view) 2; _ ← aget (dim view) 3;
      Some (mkTaskSpaces (<[task_is := task_rect]> (index_spaces s))
                         (task_is + 1)%N
                         (<[key := task_is]> (all_task_is s)),
            task_is)
  end.

(** The view that [get_or_create_task_is(const ParallelTensor)] builds. *)
Definition view_of_tensor (L : Limits) (tensor : ParallelTensorBase)
    : option View :=
  view ← for_range 0 (num_dims tensor) (fun i view =>
            d ← zget (dims tensor) i;
            if 0 <=? parallel_idx d then
              dim' ← aset (dim view) (parallel_idx d) (degree d);
              Some (mkView (ndims view + 1) dim')
            else Some view) (mkView 0 (default_dim L));
  if ndims view =? 0 then
    dim' ← aset (dim view) 0 1; Some (mkView 1 dim')
  else Some view.

(** [FFModel::get_or_create_task_is(const ParallelTensor)] *)
Definition get_or_create_task_is_tensor (L : Limits) (s : TaskSpaces)
    (tensor : ParallelTensorBase) : option (TaskSpaces * N) :=
  view ← view_of_tensor L tensor;
  get_or_create_task_is_view L s view.




(** The view built from a [ParallelConfig]. *)
Definition view_of_config (L : Limits) (pc : Search.ParallelConfig)
    : option View :=
  for_range 0 (Search.nDims pc) (fun i view =>
     d ← zget (Search.dim pc) i;
     dim' ← aset (dim view) i d;
     Some (mkView (ndims view) dim'))
    (mkView (Search.nDims pc) (default_dim L)).

(** [FFModel::get_or_create_task_is(ParallelConfig const &)] and
    [FFModel::get_task_is(ParallelConfig const &)] *)
Definition get_or_create_task_is_config (L : Limits) (s : TaskSpaces)
    (pc : Search.ParallelConfig) : option (TaskSpaces * N) :=
  view ← view_of_config L pc;
  get_or_create_task_is_view L s view.

Definition get_task_is_config (L : Limits) (s : TaskSpaces)
    (pc : Search.ParallelConfig) : option N :=
  view ← view_of_config L pc;
  get_task_is_view s view.

(** The four slots that the [printf] of [get_or_create_task_is] reads
    exist and hold a value. *)
Definition printable (dim : carray Z) : Prop :=
  ∀ i, 0 ≤ i < 4 → is_Some (aget dim i).

(** [runtime->get_index_space_domain] *)
Definition get_index_space_domain (s : TaskSpaces) (handle : N) : option Rect :=
  index_spaces s !! handle.

(** [FFModel::map_tensor_with_dim<NDIM>]: the result is the state of the
    index spaces, the handle stored in [tensor->parallel_is] and what
    [map_tensor_with_dim2] leaves in the tensor. The callee asks for the
    task index space of the tensor once more when it builds the
    partition. *)
Definition map_tensor_with_dim (L : Limits) (s : TaskSpaces) (NDIM : Z)
    (training : bool) (tensor : ParallelTensorBase) (parallel_op : option addr)
    : option (TaskSpaces * N * Mapped) :=
  '(s, parallel_is) ← get_or_create_task_is_tensor L s tensor;
  _ ← assert (bool_decide (owner_op tensor ≠ None));
  task_domain ← get_index_space_domain s parallel_is;
  let TDIM := Z.of_nat (length (lo task_domain)) in
  _ ← assert ((1 <=? TDIM) && (TDIM <=? LEGION_MAX_DIM L));
  match parallel_op with
  | None =>
      m ← map_tensor_with_dim2 NDIM TDIM training task_domain tensor None;
      Some (s, parallel_is, m)
  | Some _ =>
      '(s, part_is) ← get_or_create_task_is_tensor L s tensor;
      part_rect ← get_index_space_domain s part_is;
      m ← map_tensor_with_dim2 NDIM TDIM training part_rect tensor parallel_op;
      Some (s, parallel_is, m)
  end.

(** [FFModel::map_tensor] *)
Definition map_tensor (L : Limits) (s : TaskSpaces) (training : bool)
    (tensor : ParallelTensorBase) (op : option addr)
    : option (TaskSpaces * N * Mapped) :=
  _ ← assert ((1 <=? num_dims tensor) && (num_dims tensor <=? LEGION_MAX_DIM L));
  map_tensor_with_dim L s (num_dims tensor) training tensor op.

(** The cached task index spaces are the ones the creation builds: for a
    view of between one and [LEGION_MAX_DIM] axes, the rectangle from the
    origin to the extents of the view minus one, under a handle that the
    runtime has handed out. *)
Definition cache_ok (L : Limits) (s : TaskSpaces) : Prop :=
  (∀ key task_is, all_task_is s !! key = Some task_is →
     1 ≤ Z.of_nat (length (axis_extents key)) ≤ LEGION_MAX_DIM L ∧
     index_spaces s !! task_is =
       Some (mkRect (ZEROES (Z.of_nat (length (axis_extents key))))
                    ((fun d => d - 1) <$> axis_extents key))) ∧
  (∀ handle, is_Some (index_spaces s !! handle) → (handle < next_index_space s)%N).

(** The non-negative [parallel_idx] of the dimensions, in order. *)
Definition task_axes (tensor : ParallelTensorBase) : list Z :=
  filter (fun idx => 0 ≤ idx) (parallel_idx <$> dims tensor).

(** A shape that can be mapped: between one and [LEGION_MAX_DIM]
    dimensions of an element type that has a field, every size and degree
    at least one, a dimension without a task axis not partitioned, and the
    task axes in use being [0 .. k-1], each used once. *)
Definition mappable (L : Limits) (tensor : ParallelTensorBase) : Prop :=
  1 ≤ num_dims tensor ≤ LEGION_MAX_DIM L ∧
  1 ≤ VIEW_SLOTS L ∧
  Z.of_nat (length (task_axes tensor)) ≤ VIEW_SLOTS L ∧
  is_Some (field_size (data_type tensor)) ∧
  Forall (fun d => 1 ≤ size d ∧ 1 ≤ degree d ∧
                   (parallel_idx d < 0 → degree d = 1)) (dims tensor) ∧
  task_axes tensor ≡ₚ seqZ 0 (Z.of_nat (length (task_axes tensor))).

(** The degree of the dimension that uses the task axis [j]; 1 when there
    is none. *)
Definition axis_degree (tensor : ParallelTensorBase) (j : Z) : Z :=
  match list_find (fun d => parallel_idx d = j) (dims tensor) with
  | Some (_, d) => degree d
  | None => 1
  end.

(** The task space of a tensor: one axis per task axis in use, of the
    degree of its dimension; a single point when no axis is in use. *)
Definition task_rect_of (tensor : ParallelTensorBase) : Rect :=
  let k := Z.max 1 (Z.of_nat (length (task_axes tensor))) in
  mkRect (ZEROES k) ((fun j => axis_degree tensor j - 1) <$> seqZ 0 k).

End TaskSpace.
(* ===================================================================== *)
(** *** The partition constructors of FFModel (model.cc) *)
(* ===================================================================== *)

Module Partitions.
Import Common RegionMapper.

(** A write into an array by an [int] index; outside the array it is
    undefined. *)
Definition zset {A} (a : list A) (i : Z) (v : A) : option (list A) :=
  if (0 <=? i) && (i <? Z.of_nat (length a))
  then Some (<[Z.to_nat i := v]> a) else None.

(** The case that the [switch] over
    [(num_dims - 1) * MAX_TENSOR_DIM + task_domain.get_dim() - 1] selects:
    the macro [LEGION_FOREACH_NN] expands to one case
    [(NDIM - 1) * MAX_TENSOR_DIM + (TDIM - 1)] for every pair of dimension
    counts from 1 to [LEGION_MAX_DIM]; the labels are distinct, so
    [LEGION_MAX_DIM] is at most [MAX_TENSOR_DIM]. *)
Definition select_NN (MAX_TENSOR_DIM LEGION_MAX_DIM : Z) (v : Z) : option (Z * Z) :=
  if (0 <=? v) && (0 <? MAX_TENSOR_DIM) then
    let NDIM := v / MAX_TENSOR_DIM + 1 in
    let TDIM := v mod MAX_TENSOR_DIM + 1 in
    if (NDIM <=? LEGION_MAX_DIM) && (TDIM <=? LEGION_MAX_DIM)
    then Some (NDIM, TDIM) else None
  else None.

(** [FFModel::create_disjoint_partition_with_dim2<NDIM, TDIM>]; [part_rect]
    is the domain of [part_is] and [rect] the domain of the region's index
    space. The result is the index partition behind [part]. *)
Definition create_disjoint_partition_with_dim2 (NDIM TDIM : Z)
    (dims : list ParallelDim) (part_rect rect : Rect) : option IndexPartition :=
  ext_hi ← tabulate NDIM (fun i =>
              d ← zget dims i;
              let nparts := degree d in
              ext_hi_of rect i nparts);
  let extent := mkRect (ZEROES NDIM) ext_hi in
  transform ← tabulate NDIM (fun i =>
                tabulate TDIM (fun j =>
                  d ← zget dims i;
                  eh ← zget (hi extent) i; el ← zget (lo extent) i;
                  Some (if parallel_idx d =? j then eh - el + 1 else 0)));
  let ip := mkIndexPartition rect part_rect transform extent in
  _ ← assert (is_index_partition_disjoint ip);
  _ ← assert (is_index_partition_complete ip);
  Some ip.

(** [FFModel::create_disjoint_partition(int num_dims, ...)] *)
Definition create_disjoint_partition (MAX_TENSOR_DIM LEGION_MAX_DIM : Z)
    (num_dims : Z) (dims : list ParallelDim) (part_rect rect : Rect)
    : option IndexPartition :=
  let task_dim := Z.of_nat (length (lo part_rect)) in
  '(NDIM, TDIM) ← select_NN MAX_TENSOR_DIM LEGION_MAX_DIM
                    ((num_dims - 1) * MAX_TENSOR_DIM + task_dim - 1);
  create_disjoint_partition_with_dim2 NDIM TDIM dims part_rect rect.

(** [FFModel::create_aliased_partition(int num_dims, ...)] *)
Definition create_aliased_partition (MAX_TENSOR_DIM LEGION_MAX_DIM : Z)
    (num_dims : Z) (dims : list ParallelDim) (aliased_dim : Z)
    (part_rect rect : Rect) : option IndexPartition :=
  let task_dim := Z.of_nat (length (lo part_rect)) in
  '(NDIM, TDIM) ← select_NN MAX_TENSOR_DIM LEGION_MAX_DIM
                    ((num_dims - 1) * MAX_TENSOR_DIM + task_dim - 1);
  create_aliased_partition_with_dim2 NDIM TDIM dims aliased_dim part_rect rect.



(** The task axis that a dimension is cut along, when it lies in a task
    space of [TDIM] axes. *)
Definition axis_of (TDIM : Z) (d : ParallelDim) : option Z :=
  if bool_decide (0 ≤ parallel_idx d < TDIM) then Some (parallel_idx d) else None.

(** The region starts at the origin and has [n] dimensions, none empty. *)
Definition anchored (n : Z) (rect : Rect) : Prop :=
  lo rect = ZEROES n ∧ Z.of_nat (length (hi rect)) = n ∧ Forall (Z.le 0) (hi rect).

(** The dimensions [dims], except those that [skip] holds for, are cut
    along the task space [part_rect]: a dimension with a task axis has as
    many parts as the axis has points, counted from 0; one without is not
    cut; no two dimensions share an axis; and no axis is empty. *)
Definition cut_along (skip : Z → bool) (dims : list ParallelDim)
    (part_rect : Rect) : Prop :=
  let TDIM := Z.of_nat (length (lo part_rect)) in
  length (hi part_rect) = length (lo part_rect) ∧
  (∀ i d, zget dims i = Some d → skip i = false →
     1 ≤ degree d ∧
     match axis_of TDIM d with
     | Some a => zget (lo part_rect) a = Some 0 ∧
                 zget (hi part_rect) a = Some (degree d - 1)
     | None => degree d = 1
     end) ∧
  (∀ i i' d d', zget dims i = Some d → zget dims i' = Some d' →
     skip i = false → skip i' = false →
     is_Some (axis_of TDIM d) → axis_of TDIM d = axis_of TDIM d' → i = i') ∧
  Forall2 Z.le (lo part_rect) (hi part_rect).

(** Every task axis with more than one point is the axis of a dimension. *)
Definition axes_used (dims : list ParallelDim) (part_rect : Rect) : Prop :=
  ∀ (j : nat) l u, lo part_rect !! j = Some l → hi part_rect !! j = Some u →
    l = u ∨ ∃ d, d ∈ dims ∧ parallel_idx d = Z.of_nat j.

End Partitions.

(* ===================================================================== *)
(** *** FFModel::map_weight, map_linear_weight and map_conv_weight
        (model.cc) *)
(* ===================================================================== *)

Module WeightMapper.
Import Common RegionMapper Partitions.

(** [enum ParameterSyncType], declared outside the sources, which name
    [PS] and [NCCL]; [NONE] stands for every other value. *)
Inductive ParameterSyncType := NONE | PS | NCCL.

#[global] Instance ParameterSyncType_eq_dec : EqDecision ParameterSyncType.
Proof. solve_decision. Defined.

(** The members of a weight that [ParallelTensorBase] of [Common] does not
    carry. *)
Record WeightInfo := mkWeightInfo {
  sync_type : ParameterSyncType;
  has_initializer : bool
}.

(** The members of the operator that the mapping reads: its kind, the
    domain of [parallel_is] and [outputs[0]->num_dims]. *)
Record WeightOp := mkWeightOp {
  wo_type : OperatorType;
  wo_parallel_is : Rect;
  wo_output_num_dims : Z
}.

(** What the mapping leaves in the weight: owner, the rectangle of the
    region's index space and the partition, and the same for the gradient
    when there is one. *)
Record MappedWeight := mkMappedWeight {
  mw_owner_op : option addr;
  mw_owner_idx : Z;
  mw_rect : Rect;
  mw_part : IndexPartition;
  mw_grad : option (Rect * IndexPartition)
}.

(** The [switch] over [weight->data_type]. *)
Definition weight_field_size (dt : DataType) : option Z :=
  match dt with
  | DT_FLOAT => Some 4
  | DT_DOUBLE => Some 8
  | DT_INT32 => Some 4
  | _ => None
  end.

(** Signed [int] multiplication (overflow is undefined) and the remainder
    of C++ (undefined for a zero divisor). *)
Definition int_mul (a b : Z) : option Z :=
  if (- 2 ^ 31 <=? a * b) && (a * b <? 2 ^ 31) then Some (a * b) else None.

Definition crem (a b : Z) : option Z :=
  if b =? 0 then None else Some (Z.rem a b).

(** [hi[i] = weight->dims[i].size - 1] for [i] below [NDIM]. *)
Definition size_hi (NDIM : Z) (weight : ParallelTensorBase) : option (list Z) :=
  tabulate NDIM (fun i => d ← zget (dims weight) i; Some (size d - 1)).

(** [num_parts[i] = part_rect.hi[i] - part_rect.lo[i] + 1] *)
Definition num_parts_of (TDIM : Z) (part_rect : Rect) : option (list Z) :=
  tabulate TDIM (fun i =>
    h ← zget (hi part_rect) i; l ← zget (lo part_rect) i; Some (h - l + 1)).

(** [transform[i][j] = 0] for all [i] and [j]. *)
Definition zero_transform (NDIM TDIM : Z) : option Transform :=
  tabulate NDIM (fun i => tabulate TDIM (fun j => Some 0)).

(** [transform[i][j] = v] *)
Definition set_entry (t : Transform) (i j v : Z) : option Transform :=
  row ← zget t i; row ← zset row j v; zset t i row.

(** The region and partition that [map_linear_weight] builds for a weight
    synchronised with NCCL and, with the same statements, for the gradient
    of every weight: one copy of the channels per point of the task axes
    after the first. *)
Definition linear_replicated (NDIM TDIM : Z) (weight : ParallelTensorBase)
    (part_rect : Rect) (num_parts : list Z) (out_channels : Z)
    : option (Rect * IndexPartition) :=
  hi ← size_hi NDIM weight;
  num_batches ← for_range 1 TDIM (fun i num_batches =>
                   p ← zget num_parts i; int_mul num_batches p) 1;
  v ← int_mul num_batches out_channels;
  hi ← zset hi (NDIM - 1) (v - 1);
  let rect := mkRect (ZEROES NDIM) hi in
  np0 ← zget num_parts 0;
  q ← cdiv out_channels np0;
  hi ← zset hi (NDIM - 1) (q - 1);
  let extent := mkRect (ZEROES NDIM) hi in
  transform ← zero_transform NDIM TDIM;
  transform ← set_entry transform (NDIM - 1) 0 q;
  transform ← for_range 1 TDIM (fun i transform =>
                 prev ← entry transform (NDIM - 1) (i - 1);
                 p ← zget num_parts (i - 1);
                 set_entry transform (NDIM - 1) i (prev * p)) transform;
  let ip := mkIndexPartition rect part_rect transform extent in
  _ ← assert (is_index_partition_complete ip);
  _ ← assert (is_index_partition_disjoint ip);
  Some (rect, ip).

(** The region and partition that [map_linear_weight] builds for a weight
    synchronised through a parameter server: the channels are cut along
    the first task axis. *)
Definition linear_ps (NDIM TDIM : Z) (weight : ParallelTensorBase)
    (part_rect : Rect) (num_parts : list Z) (out_channels : Z)
    : option (Rect * IndexPartition) :=
  hi ← size_hi NDIM weight;
  let rect := mkRect (ZEROES NDIM) hi in
  np0 ← zget num_parts 0;
  r ← crem out_channels np0;
  _ ← assert (r =? 0);
  q ← cdiv out_channels np0;
  hi ← zset hi (NDIM - 1) (q - 1);
  let extent := mkRect (ZEROES NDIM) hi in
  transform ← zero_transform NDIM TDIM;
  transform ← set_entry transform (NDIM - 1) 0 q;
  let ip := mkIndexPartition rect part_rect transform extent in
  _ ← assert (is_index_partition_complete ip);
  Some (rect, ip).

(** [FFModel::map_linear_weight<NDIM, TDIM>]; [training] says whether the
    computation mode is training. *)
Definition map_linear_weight (NDIM TDIM : Z) (training : bool)
    (weight : ParallelTensorBase) (info : WeightInfo) (op : WeightOp)
    : option (Rect * IndexPartition * option (Rect * IndexPartition)) :=
  _ ← assert (bool_decide (wo_type op = OP_LINEAR));
  let part_rect := wo_parallel_is op in
  num_parts ← num_parts_of TDIM part_rect;
  _ ← weight_field_size (data_type weight);
  d ← zget (dims weight) (num_dims weight - 1);
  let out_channels := size d in
  (* Step 1: forward region and partition *)
  '(rect, ip) ←
    match sync_type info with
    | PS => linear_ps NDIM TDIM weight part_rect num_parts out_channels
    | NCCL => linear_replicated NDIM TDIM weight part_rect num_parts out_channels
    | NONE => None
    end;
  (* Step 2: initialize region *)
  _ ← assert (has_initializer info);
  (* Step 3: backward region *)
  if create_gradients weight && training then
    grad ← linear_replicated NDIM TDIM weight part_rect num_parts out_channels;
    Some (rect, ip, Some grad)
  else Some (rect, ip, None).

(** The region and partition that [map_conv_weight] builds for a weight
    synchronised with NCCL and for the gradient of every weight. *)
Definition conv_replicated (NDIM : Z) (weight : ParallelTensorBase)
    (part_rect : Rect) (num_par_n num_par_c num_par_h num_par_w out_channels : Z)
    : option (Rect * IndexPartition) :=
  hi ← size_hi NDIM weight;
  v ← int_mul num_par_n num_par_h;
  v ← int_mul v num_par_w;
  v ← int_mul v out_channels;
  hi ← zset hi (NDIM - 1) (v - 1);
  let rect := mkRect (ZEROES NDIM) hi in
  hi ← zset hi (NDIM - 1) (out_channels - 1);
  let extent := mkRect (ZEROES NDIM) hi in
  transform ← zero_transform NDIM 4;
  transform ← set_entry transform (NDIM - 1) 0 out_channels;
  t1 ← int_mul out_channels num_par_w;
  transform ← set_entry transform (NDIM - 1) 1 t1;
  t2 ← int_mul t1 num_par_h;
  transform ← set_entry transform (NDIM - 1) 2 t2;
  t3 ← int_mul t2 num_par_c;
  transform ← set_entry transform (NDIM - 1) 3 t3;
  let ip := mkIndexPartition rect part_rect transform extent in
  _ ← assert (is_index_partition_complete ip);
  _ ← assert (is_index_partition_disjoint ip);
  Some (rect, ip).

(** The region and partition that [map_conv_weight] builds for a weight
    synchronised through a parameter server: every point of the task space
    gets the whole region. *)
Definition conv_ps (NDIM : Z) (weight : ParallelTensorBase) (part_rect : Rect)
    : option (Rect * IndexPartition) :=
  hi ← size_hi NDIM weight;
  let rect := mkRect (ZEROES NDIM) hi in
  transform ← zero_transform NDIM 4;
  let ip := mkIndexPartition rect part_rect transform rect in
  _ ← assert (is_index_partition_complete ip);
  Some (rect, ip).

(** [FFModel::map_conv_weight<NDIM>] *)
Definition map_conv_weight (NDIM : Z) (training : bool)
    (weight : ParallelTensorBase) (info : WeightInfo) (op : WeightOp)
    : option (Rect * IndexPartition * option (Rect * IndexPartition)) :=
  let part_rect := wo_parallel_is op in
  h3 ← zget (hi part_rect) 3; l3 ← zget (lo part_rect) 3;
  let num_par_n := h3 - l3 + 1 in
  h2 ← zget (hi part_rect) 2; l2 ← zget (lo part_rect) 2;
  let num_par_c := h2 - l2 + 1 in
  h1 ← zget (hi part_rect) 1; l1 ← zget (lo part_rect) 1;
  let num_par_h := h1 - l1 + 1 in
  h0 ← zget (hi part_rect) 0; l0 ← zget (lo part_rect) 0;
  let num_par_w := h0 - l0 + 1 in
  (* Currently assume we do not split over the channel dimension *)
  _ ← assert (num_par_c =? 1);
  _ ← weight_field_size (data_type weight);
  (* Step 1: forward region and partition *)
  d ← zget (dims weight) (num_dims weight - 1);
  let out_channels := size d in
  '(rect, ip) ←
    match sync_type info with
    | PS => conv_ps NDIM weight part_rect
    | NCCL =>
        _ ← assert (num_par_c =? 1);
        conv_replicated NDIM weight part_rect num_par_n num_par_c num_par_h
                        num_par_w out_channels
    | NONE => None
    end;
  (* Step 2: initialize region *)
  _ ← assert (has_initializer info);
  (* Step 3: backward regin and partition *)
  if create_gradients weight && training then
    grad ← conv_replicated NDIM weight part_rect num_par_n num_par_c num_par_h
                           num_par_w out_channels;
    Some (rect, ip, Some grad)
  else Some (rect, ip, None).

(** [FFModel::map_weight_with_dim<NDIM>]; the inner [switch] has one case
    for every [TDIM] from 1 to [LEGION_MAX_DIM]. *)
Definition map_weight_with_dim (LEGION_MAX_DIM NDIM : Z) (training : bool)
    (weight : ParallelTensorBase) (info : WeightInfo)
    (parallel_op : option addr) (op : option WeightOp) : option MappedWeight :=
  (* Step 0: check we are the owner or the owner is NULL *)
  '(owner, idx) ←
     match owner_op weight with
     | None => Some (parallel_op, -1)
     | Some o =>
         _ ← assert (bool_decide (Some o = parallel_op));
         Some (Some o, owner_idx weight)
     end;
  _ ← assert (bool_decide (parallel_op ≠ None));
  op ← op;
  let tdim := wo_output_num_dims op in
  r ← match wo_type op with
      | OP_LINEAR | OP_EMBEDDING | OP_MULTIHEAD_ATTENTION =>
          if (1 <=? tdim) && (tdim <=? LEGION_MAX_DIM)
          then map_linear_weight NDIM tdim training weight info op
          else None
      | OP_CONV2D | OP_BATCHNORM =>
          map_conv_weight NDIM training weight info op
      | _ => None
      end;
  Some (mkMappedWeight owner idx r.1.1 r.1.2 r.2).

(** [FFModel::map_weight]; [op] holds the members of the object that
    [parallel_op] points to. *)
Definition map_weight (LEGION_MAX_DIM : Z) (training : bool)
    (weight : ParallelTensorBase) (info : WeightInfo)
    (parallel_op : option addr) (op : option WeightOp) : option MappedWeight :=
  if (1 <=? num_dims weight) && (num_dims weight <=? LEGION_MAX_DIM)
  then map_weight_with_dim LEGION_MAX_DIM (num_dims weight) training weight info
                           parallel_op op
  else None.

(** What [create_linear_replica] leaves in the object it returns: the
    guid, the element type, the member [size] of the first [NDIM] entries
    of [dims], the rectangle behind [region_grad] and the partition behind
    [part_grad]. *)
Record Replica := mkReplica {
  rp_guid : Z;
  rp_data_type : DataType;
  rp_sizes : list Z;
  rp_rect : Rect;
  rp_part : IndexPartition
}.

(** [FFModel::create_linear_replica<NDIM, TDIM>]: [guid] is the member
    [parallel_tensor_global_guid] on entry, [dims] the array that the
    caller passes and [part_rect] the domain of [task_is]. The result is
    the member [parallel_tensor_global_guid] on return and the replica. *)
Definition create_linear_replica (NDIM TDIM : Z) (training : bool) (guid : Z)
    (dims : list Z) (part_rect : Rect) (data_type : DataType)
    : option (Z * Replica) :=
  (* No need to create replica for INFERENCE *)
  _ ← assert training;
  _ ← assert (2 <=? NDIM);
  num_parts ← num_parts_of TDIM part_rect;
  sizes ← tabulate NDIM (fun i => zget dims (NDIM - 1 - i));
  _ ← weight_field_size data_type;
  hi ← tabulate NDIM (fun i => d ← zget dims (NDIM - 1 - i); Some (d - 1));
  let rect := mkRect (ZEROES NDIM) hi in
  d0 ← zget dims 0; np0 ← zget num_parts 0;
  _ ← assert (d0 =? np0);
  q ← cdiv d0 np0;
  hi ← zset hi (NDIM - 1) (q - 1);        (* replication dim *)
  d1 ← zget dims 1; npl ← zget num_parts (TDIM - 1);
  q ← cdiv d1 npl;
  hi ← zset hi (NDIM - 2) (q - 1);        (* sample dim *)
  let extent := mkRect (ZEROES NDIM) hi in
  transform ← zero_transform NDIM TDIM;
  h ← zget hi (NDIM - 1);
  transform ← set_entry transform (NDIM - 1) 0 (h + 1);
  h ← zget hi (NDIM - 2);
  transform ← set_entry transform (NDIM - 2) (TDIM - 1) (h + 1);
  let ip := mkIndexPartition rect part_rect transform extent in
  _ ← assert (is_index_partition_disjoint ip);
  _ ← assert (is_index_partition_complete ip);
  Some (TensorFactory.size_t_wrap (guid + 1),
        mkReplica guid data_type sizes rect ip).

End WeightMapper.


(* ===================================================================== *)
(** *** FFModel::get_parallel_tensor_from_tensor and the linking of
        tensors to parallel tensors in FFModel::compile (model.cc) *)
(* ===================================================================== *)

Module TensorLookup.
Import Common.

(** The members of [TensorBase] and of [Layer] that the functions read;
    [ly_outputs] and [ly_weights] hold the slots in use, a weight slot
    may hold the null pointer. *)
Record TensorObj := mkTensorObj {
  tb_guid : Z;
  tb_parallel_tensor : option addr;
  tb_owner_layer : option addr;
  tb_owner_idx : Z
}.

Record LayerObj := mkLayerObj {
  ly_op_type : OperatorType;
  ly_guid : Z;
  ly_outputs : list addr;
  ly_numWeights : Z;
  ly_weights : list (option addr)
}.

(** The members of [Op] that the functions read; [mo_outputs] and
    [mo_weights] hold the slots in use. [mo_input_tensor_guid] is the
    member of the subclass [NoOp]: an operator of another class has none,
    and the cast to [NoOp *] followed by the read is undefined. *)
Record OpObj := mkOpObj {
  mo_type : OperatorType;
  mo_layer_guid : Z;
  mo_outputs : list addr;
  mo_input_tensor_guid : option Z;
  mo_numWeights : Z;
  mo_weights : list addr
}.

Record Store := mkStore {
  tensor_objs : gmap addr TensorObj;
  layer_objs : gmap addr LayerObj;
  op_objs : gmap addr OpObj
}.

(** The test of the loop that matches input operators by [tensor_guid]. *)
Definition same_input (S : Store) (tensor_guid : Z) (p : addr) : option bool :=
  op ← op_objs S !! p;
  if bool_decide (mo_type op = OP_INPUT) then
    g ← mo_input_tensor_guid op;
    Some (bool_decide (tensor_guid = g))
  else Some false.

(** The test of the loop that matches operators by [layer_guid]. *)
Definition same_layer (S : Store) (layer : LayerObj) (p : addr) : option bool :=
  op ← op_objs S !! p;
  Some (bool_decide (mo_layer_guid op = ly_guid layer)).

(** [for (auto const &op : operators) if (test) { assert(mapped_op ==
    nullptr); mapped_op = op; }] *)
Definition find_op (operators : list addr) (test : addr → option bool)
    : option (option addr) :=
  for_each_opt operators (fun p mapped_op =>
    b ← test p;
    if b : bool then
      _ ← assert (bool_decide (mapped_op = None));
      Some (Some p)
    else Some mapped_op) None.

(** [FFModel::get_parallel_tensor_from_tensor]: the value left in the
    reference parameter [parallel_tensor]; the function returns [true]
    whenever it returns. *)
Definition get_parallel_tensor_from_tensor (S : Store) (operators : list addr)
    (tensor : TensorObj) : option addr :=
  (* check if tensor->parallel_tensor is already set *)
  match tb_parallel_tensor tensor with
  | Some pt => Some pt
  | None =>
      match tb_owner_layer tensor with
      | Some lp =>
          layer ← layer_objs S !! lp;
          mapped_op ←
            (if bool_decide (ly_op_type layer = OP_INPUT) then
               (* We use tensor_guid to match input operators *)
               out0 ← zget (ly_outputs layer) 0;
               t0 ← tensor_objs S !! out0;
               find_op operators (same_input S (tb_guid t0))
             else find_op operators (same_layer S layer));
          match mapped_op with
          | Some p =>
              op ← op_objs S !! p;
              zget (mo_outputs op) (tb_owner_idx tensor)
          | None => None
          end
      | None => None
      end
  end.

(** The test that the function applies to the operators when it looks for
    the one built from [layer]. *)
Definition owner_test (S : Store) (layer : LayerObj) (p : addr) : option bool :=
  if bool_decide (ly_op_type layer = OP_INPUT) then
    out0 ← zget (ly_outputs layer) 0;
    t0 ← tensor_objs S !! out0;
    same_input S (tb_guid t0) p
  else same_layer S layer p.

(** [tensor->parallel_tensor = pt] *)
Definition set_parallel_tensor (S : Store) (tp pt : addr) : option Store :=
  t ← tensor_objs S !! tp;
  Some (mkStore
          (<[tp := mkTensorObj (tb_guid t) (Some pt) (tb_owner_layer t)
                               (tb_owner_idx t)]> (tensor_objs S))
          (layer_objs S) (op_objs S)).

(** The loop of [compile] that looks for the input operator of a tensor:
    unlike the lookup above, the last operator that matches wins. *)
Definition last_input_op (S : Store) (operators : list addr) (tensor_guid : Z)
    : option (option addr) :=
  for_each_opt operators (fun p parallel_tensor =>
    op ← op_objs S !! p;
    if bool_decide (mo_type op = OP_INPUT) then
      g ← mo_input_tensor_guid op;
      if bool_decide (g = tensor_guid) then
        out ← zget (mo_outputs op) 0; Some (Some out)
      else Some parallel_tensor
    else Some parallel_tensor) None.

(** The loop of [compile] that looks for the operator built from [layer]
    and takes its weight [i]. *)
Definition last_weight_op (S : Store) (operators : list addr) (layer : LayerObj)
    (i : Z) : option (option addr) :=
  for_each_opt operators (fun p parallel_weight =>
    op ← op_objs S !! p;
    if bool_decide (mo_layer_guid op = ly_guid layer) then
      _ ← assert (bool_decide (mo_type op = ly_op_type layer));
      _ ← assert (mo_numWeights op =? ly_numWeights layer);
      w ← zget (mo_weights op) i; Some (Some w)
    else Some parallel_weight) None.

(** The body of the loop over [layers] that [compile] runs after the
    operators have been rebuilt from the optimised graph. *)
Definition relink_layer (operators : list addr) (lp : addr) (S : Store)
    : option Store :=
  layer ← layer_objs S !! lp;
  (* map inputs to parallel tensor *)
  S ← (if bool_decide (ly_op_type layer = OP_INPUT) then
         tp ← zget (ly_outputs layer) 0;
         tensor ← tensor_objs S !! tp;
         parallel_tensor ← last_input_op S operators (tb_guid tensor);
         pt ← parallel_tensor;
         set_parallel_tensor S tp pt
       else Some S);
  (* map weights to parallel_tensor *)
  for_range 0 (ly_numWeights layer) (fun i S =>
    w ← zget (ly_weights layer) i;
    weight ← w;
    parallel_weight ← last_weight_op S operators layer i;
    pw ← parallel_weight;
    set_parallel_tensor S weight pw) S.

Definition relink (layers operators : list addr) (S : Store) : option Store :=
  for_each_opt layers (relink_layer operators) S.

(** The tensor at [tp] has a parallel tensor. *)
Definition linked (S : Store) (tp : addr) : Prop :=
  ∃ t pt, tensor_objs S !! tp = Some t ∧ tb_parallel_tensor t = Some pt.

(** [S'] holds the layers, the operators and the tensors of [S], with
    none of the links to parallel tensors removed. *)
Definition relinked (S S' : Store) : Prop :=
  layer_objs S' = layer_objs S ∧ op_objs S' = op_objs S ∧
  ∀ tp t, tensor_objs S !! tp = Some t →
    ∃ t', tensor_objs S' !! tp = Some t' ∧ tb_guid t' = tb_guid t ∧
          tb_owner_layer t' = tb_owner_layer t ∧ tb_owner_idx t' = tb_owner_idx t ∧
          (is_Some (tb_parallel_tensor t) → is_Some (tb_parallel_tensor t')).

(** What the loop body leaves behind for a layer: the tensor of an input
    layer is linked, and some input operator carries its guid; every
    weight of the layer is linked, and some operator was built from the
    layer; and the operators built from a layer with weights have its
    kind and its number of weights. *)
Definition layer_linked (S : Store) (operators : list addr) (layer : LayerObj)
    : Prop :=
  (ly_op_type layer = OP_INPUT →
   ∃ tp t, zget (ly_outputs layer) 0 = Some tp ∧
     tensor_objs S !! tp = Some t ∧ is_Some (tb_parallel_tensor t) ∧
     ∃ p op, p ∈ operators ∧ op_objs S !! p = Some op ∧
       mo_type op = OP_INPUT ∧ mo_input_tensor_guid op = Some (tb_guid t)) ∧
  (∀ i, 0 ≤ i < ly_numWeights layer →
   ∃ wt, zget (ly_weights layer) i = Some (Some wt) ∧ linked S wt ∧
     ∃ p op, p ∈ operators ∧ op_objs S !! p = Some op ∧
       mo_layer_guid op = ly_guid layer) ∧
  (0 < ly_numWeights layer →
   ∀ p op, p ∈ operators → op_objs S !! p = Some op →
     mo_layer_guid op = ly_guid layer →
     mo_type op = ly_op_type layer ∧ mo_numWeights op = ly_numWeights layer).

(** A model of two layers, an input layer and a dense layer with one
    weight, and the two operators rebuilt from them. *)
Definition relink_store : Store :=
  mkStore
    {[ 10%N := mkTensorObj 7 None (Some 1%N) 0;
       11%N := mkTensorObj 8 None None 0 ]}
    {[ 1%N := mkLayerObj OP_INPUT 100 [10%N] 0 [];
       2%N := mkLayerObj OP_LINEAR 101 [12%N] 1 [Some 11%N] ]}
    {[ 20%N := mkOpObj OP_INPUT 100 [30%N] (Some 7) 0 [];
       21%N := mkOpObj OP_LINEAR 101 [31%N] None 1 [32%N] ]}.

End TensorLookup.

(* ===================================================================== *)
(** *** FFModel::compile: the fusion loop (model.cc) *)
(* ===================================================================== *)

Module Compile.
Import Common Fusion.

(** The check in the body of the [while] loop: no input of
    [new_operators[i]] is owned by an operator later in the list. *)
Definition check_order (h : Heap) (new_operators : list addr) : option unit :=
  for_each_opt (seq 0 (length new_operators)) (fun i _ =>
    p ← new_operators !! i; op ← ops h !! p;
    for_each_opt (inputs op) (fun input _ =>
      t ← tens h !! input;
      for_each_opt (seq (i + 1) (length new_operators - (i + 1))) (fun j _ =>
        q ← new_operators !! j;
        assert (negb (bool_decide (owner_op t = Some q)))) tt) tt) tt.

(** How a run of the loop ends: it leaves the loop, an assertion fails (or
    a read is undefined), or the bound on the number of rounds that the
    model puts on the [while] is used up. *)
Inductive Outcome (A : Type) :=
  | Finished (a : A)
  | Aborted
  | OutOfFuel.
Arguments Finished {A} a.
Arguments Aborted {A}.
Arguments OutOfFuel {A}.

(** [while (apply_fusion(operators, new_operators)) { ...; operators =
    new_operators; }] with at most [fuel] calls of [apply_fusion]. The
    result is the heap, the member [operators] and, as ghost data, the
    number of rounds that fused a pair. *)
Fixpoint fusion_loop (F : FusedOpClass) (fuel : nat) (h : Heap)
    (operators : list addr) (rounds : nat) : Outcome (Heap * list addr * nat) :=
  match fuel with
  | O => OutOfFuel
  | S fuel =>
      match apply_fusion F h operators with
      | None => Aborted
      | Some (h', None) => Finished (h', operators, rounds)
      | Some (h', Some (new_operators, _)) =>
          match check_order h' new_operators with
          | None => Aborted
          | Some _ => fusion_loop F fuel h' new_operators (S rounds)
          end
      end
  end.

End Compile.

(* ===================================================================== *)
(** *** Running the operators: FFModel::forward, FFModel::backward,
        FFModel::get_final_operator and friends (model.cc) *)
(* ===================================================================== *)

Module Schedule.
Import Common Fusion.

(** The calls into classes that are declared outside the sources, in the
    order in which they are made. *)
Inductive Call :=
  | Op_init (op : addr)
  | Op_forward (op : addr)
  | Op_backward (op : addr)
  | Op_zero_grad (op : addr)
  | Metrics_compute (logit label : addr)
  | Loss_backward (logit label : addr).

#[global] Instance Call_eq_dec : EqDecision Call.
Proof. solve_decision. Defined.

(** The [while] loop of [get_final_operator], started at [idx] with [count]
    operators left below and at [idx]; with none left, [idx] is [-1] and
    [operators[idx]] is a read before the vector. *)
Fixpoint final_scan (h : Heap) (operators : list addr) (count : nat) (idx : Z)
    : option Z :=
  match count with
  | O => _ ← zget operators idx; None
  | S count =>
      p ← zget operators idx; op ← ops h !! p;
      if input_or_weight op then final_scan h operators count (idx - 1)
      else Some idx
  end.

(** [FFModel::get_final_operator] *)
Definition get_final_operator (h : Heap) (operators : list addr) : option addr :=
  idx ← final_scan h operators (length operators) (Z.of_nat (length operators) - 1);
  p ← zget operators idx; op ← ops h !! p;
  (* assert that the final operator has exactly one output *)
  _ ← assert (bool_decide (length (outputs op) = 1%nat));
  Some p.

(** [FFModel::init_operators] *)
Definition init_operators (operators : list addr) : option (list Call) :=
  for_range 0 (Z.of_nat (length operators)) (fun i calls =>
    p ← zget operators i; Some (calls ++ [Op_init p])) [].

(** [FFModel::forward]: the new [iter_config.seq_length] and the calls. *)
Definition forward (operators : list addr) (seq_length : Z)
    : option (Z * list Call) :=
  calls ← for_range 0 (Z.of_nat (length operators)) (fun i calls =>
             p ← zget operators i; Some (calls ++ [Op_forward p])) [];
  Some (seq_length, calls).

(** [FFModel::compute_metrics] *)
Definition compute_metrics (h : Heap) (operators : list addr)
    (parallel_label_tensor : addr) : option (list Call) :=
  final_operator ← get_final_operator h operators;
  op ← ops h !! final_operator;
  _ ← assert (bool_decide (length (outputs op) = 1%nat));
  out ← zget (outputs op) 0;
  Some [Metrics_compute out parallel_label_tensor].

(** A loop [for (int l = n - 1; l >= 0; l--)]. *)
Fixpoint down_loop {S} (count : nat) (body : Z → S → option S) (s : S) : option S :=
  match count with
  | O => Some s
  | Datatypes.S c => s' ← body (Z.of_nat c) s; down_loop c body s'
  end.

(** [FFModel::backward]; [training] says whether the computation mode is
    training. The macro [ENABLE_RESNET_INPUT_GRADIENT_OPTIMIZATION] is
    taken to be undefined. *)
Definition backward (h : Heap) (operators : list addr) (training : bool)
    (parallel_label_tensor : addr) (seq_length : Z) : option (Z * list Call) :=
  _ ← assert training;
  (* Compute metrics *)
  calls1 ← compute_metrics h operators parallel_label_tensor;
  (* Compute the gradients of the final operator wrt loss *)
  final_operator ← get_final_operator h operators;
  op ← ops h !! final_operator;
  _ ← assert (bool_decide (length (outputs op) = 1%nat));
  out ← zget (outputs op) 0;
  let calls2 := calls1 ++ [Loss_backward out parallel_label_tensor] in
  (* Perform backpropagation *)
  calls3 ← down_loop (length operators) (fun l calls =>
              p ← zget operators l; Some (calls ++ [Op_backward p])) calls2;
  Some (seq_length, calls3).

(** [FFModel::zero_gradients] *)
Definition zero_gradients (operators : list addr) : option (list Call) :=
  down_loop (length operators) (fun l calls =>
    p ← zget operators l; Some (calls ++ [Op_zero_grad p])) [].

(** The conversion of a [size_t] to [int]: the number in the range of
    [int] that is congruent to it modulo [2 ^ 32]. *)
Definition to_int (v : Z) : Z := (v + 2 ^ 31) mod 2 ^ 32 - 2 ^ 31.

(** [FFModel::get_bwd_edge_map]: the key [None] is the null pointer;
    [get_volume] is the member function of the tensor, declared outside the
    sources; the [size_t] it returns initialises the [int] of the pair
    [std::pair<Op *, int>]. *)
Definition get_bwd_edge_map (get_volume : ParallelTensorBase → Z) (h : Heap)
    (operators : list addr) : option (gmap (option addr) (list (addr * Z))) :=
  for_each_opt operators (fun p bwd_edge_map =>
    op ← ops h !! p;
    for_range 0 (Z.of_nat (length (inputs op))) (fun i bwd_edge_map =>
      input ← zget (inputs op) i; t ← tens h !! input;
      let src := owner_op t in
      Some (<[src := default [] (bwd_edge_map !! src)
                       ++ [(p, to_int (get_volume t))]]>
              bwd_edge_map)) bwd_edge_map) ∅.

(** The pairs that [get_bwd_edge_map] pushes, in the order of the pushes,
    each with the key it is pushed under. *)
Definition bwd_edges (get_volume : ParallelTensorBase → Z) (h : Heap)
    (operators : list addr) : list (option addr * (addr * Z)) :=
  p ← operators;
  input ← default [] (inputs <$> ops h !! p);
  match tens h !! input with
  | Some t => [(owner_op t, (p, to_int (get_volume t)))]
  | None => []
  end.

(** The map holds, under every key, the second components of the pairs
    pushed under that key, in the order of the pushes, and has no entry for
    a key that nothing was pushed under. *)
Definition edge_inv (m : gmap (option addr) (list (addr * Z)))
    (edges : list (option addr * (addr * Z))) : Prop :=
  ∀ src, m !! src =
         match filter (fun e => e.1 = src) edges with
         | [] => None
         | es => Some (snd <$> es)
         end.

(** Every operator of the list is an object, and so is every tensor in
    its input slots. *)
Definition well_formed (h : Heap) (operators : list addr) : Prop :=
  Forall (fun p => ∃ op, ops h !! p = Some op ∧
            Forall (fun input => is_Some (tens h !! input)) (inputs op)) operators.

Section Metrics.
(** [PerfMetrics], its default constructor and its member [update], all
    declared outside the sources. *)
Context {PerfMetrics : Type} (perf : PerfMetrics)
        (update : PerfMetrics → PerfMetrics → PerfMetrics).

(** [FFModel::update_metrics_task] on the results of [task->futures];
    [all_metrics.print] is left out. *)
Definition update_metrics_task (futures : list PerfMetrics) : option PerfMetrics :=
  if bool_decide (length futures = 0%nat) then
    (* Create an empty future *)
    Some perf
  else
    _ ← assert (bool_decide (1 < length futures)%nat);
    all_metrics ← zget futures 0;
    for_range 1 (Z.of_nat (length futures)) (fun i all_metrics =>
      one_metrics ← zget futures i;
      Some (update all_metrics one_metrics)) all_metrics.
End Metrics.

End Schedule.

(* ===================================================================== *)
(** *** Aggregate::forward and Aggregate::backward (ops/aggregate.cc) *)
(* ===================================================================== *)

Module AggregateLaunch.
Import Common TensorFactory AggregateOp.

Inductive Privilege := READ_ONLY | READ_WRITE | WRITE_ONLY.

#[global] Instance Privilege_eq_dec : EqDecision Privilege.
Proof. solve_decision. Defined.

(** One [add_region_requirement] followed by [add_field]: the tensor whose
    partition and region are named, whether they are the gradient ones
    ([part_grad], [region_grad]), the privilege, and the index handed to
    [add_field]. *)
Record Requirement := mkRequirement {
  rr_tensor : addr;
  rr_grad : bool;
  rr_privilege : Privilege;
  rr_field : Z
}.

(** [Aggregate::forward]: the region requirements of the index launch, in
    the order in which they are added. *)
Definition forward (self : Aggregate) : option (list Requirement) :=
  (* gate_preds *)
  t ← zget (inputs self) 0;
  let launcher := [mkRequirement t false READ_WRITE 0] in
  (* gate_assign *)
  t ← zget (inputs self) 1;
  let launcher := launcher ++ [mkRequirement t false READ_WRITE 1] in
  (* exp_preds *)
  launcher ← for_range 0 (n self) (fun i launcher =>
                t ← zget (inputs self) (i + 4);
                Some (launcher ++ [mkRequirement t false READ_WRITE (i + 2)]))
              launcher;
  (* output *)
  t ← zget (outputs self) 0;
  Some (launcher ++ [mkRequirement t false WRITE_ONLY (n self + 2)]).

(** [Aggregate::backward] *)
Definition backward (self : Aggregate) : option (list Requirement) :=
  (* gate_preds *)
  t ← zget (inputs self) 0;
  let launcher := [mkRequirement t false READ_WRITE 0] in
  (* gate_assign *)
  t ← zget (inputs self) 1;
  let launcher := launcher ++ [mkRequirement t false READ_ONLY 1] in
  (* true gate_assign *)
  t ← zget (inputs self) 2;
  let launcher := launcher ++ [mkRequirement t false READ_ONLY 2] in
  (* full_gate gradients *)
  t ← zget (inputs self) 3;
  let launcher := launcher ++ [mkRequirement t true READ_WRITE 3] in
  (* exp_preds *)
  launcher ← for_range 0 (n self) (fun i launcher =>
                t ← zget (inputs self) (i + 4);
                Some (launcher ++ [mkRequirement t false READ_WRITE (i + 4)]))
              launcher;
  (* exp_preds gradients *)
  launcher ← for_range 0 (n self) (fun i launcher =>
                t ← zget (inputs self) (i + 4);
                Some (launcher ++ [mkRequirement t true READ_WRITE (i + n self + 4)]))
              launcher;
  (* output *)
  t ← zget (outputs self) 0;
  Some (launcher ++ [mkRequirement t true READ_WRITE (2 * n self + 4)]).

End AggregateLaunch.

(* ===================================================================== *)
(** *** FFModel::create_tensor and FFModel::aggregate
        (model.cc, aggregate.cc) *)
(* ===================================================================== *)

Module LayerBuilder.
Import Common RegionMapper.
Import Strings.String.

(** The members of [TensorBase] that the functions set; [tr_dims] holds
    the first [num_dims] entries of the member array. *)
Record TensorRec := mkTensorRec {
  tr_guid : Z;
  tr_data_type : DataType;
  tr_owner_layer : option addr;
  tr_owner_idx : Z;
  tr_create_gradients : bool;
  tr_dims : list Z
}.

Definition tr_num_dims (t : TensorRec) : Z := Z.of_nat (List.length (tr_dims t)).

(** The class [Layer] is declared outside the sources. A layer is recorded
    as the call of its constructor (kind, data type, the three slot counts
    and the input array), the tensor stored in [outputs[0]] and the calls
    of [add_int_property] and [add_float_property] on it, in order. *)
Inductive LayerCall :=
  | Add_int_property (key : string) (value : Z)
  | Add_float_property (key : string) (value : Q).

Record LayerRec := mkLayerRec {
  lr_op_type : OperatorType;
  lr_data_type : DataType;
  lr_numInputs : Z;
  lr_numWeights : Z;
  lr_numOutputs : Z;
  lr_inputs : list addr;
  lr_output0 : option addr;
  lr_calls : list LayerCall
}.

(** The members of [FFModel] that the functions touch, and the objects
    that [new] allocates. *)
Record Builder := mkBuilder {
  tensor_global_guid : Z;
  layers : list addr;
  layer_recs : gmap addr LayerRec;
  tensor_recs : gmap addr TensorRec;
  next_free : addr
}.

Definition key_n : string := "n".
Definition key_lambda_bal : string := "lambda_bal".

(** [template <int NDIM> FFModel::create_tensor] *)
Definition create_tensor_NDIM (m : Builder) (NDIM : Z) (dims : carray Z)
    (data_type : DataType) (owner_layer : option addr) (owner_idx : Z)
    (create_grad : bool) : option (Builder * addr) :=
  let tensor := next_free m in
  let guid := tensor_global_guid m in
  let m1 := mkBuilder (TensorFactory.size_t_wrap (guid + 1)) (layers m)
                      (layer_recs m) (tensor_recs m) (next_free m + 1)%N in
  let '(m2, owner, idx) :=
    match owner_layer with
    | None =>
        let input_layer := next_free m1 in
        (mkBuilder (tensor_global_guid m1) (layers m1 ++ [input_layer])
                   (<[input_layer := mkLayerRec OP_INPUT data_type 0 0 1 []
                                                (Some tensor) []]>
                      (layer_recs m1))
                   (tensor_recs m1) (next_free m1 + 1)%N,
         input_layer, 0)
    | Some l => (m1, l, owner_idx)
    end in
  ds ← tabulate NDIM (fun i => aget dims (NDIM - 1 - i));
  let t := mkTensorRec guid data_type (Some owner) idx create_grad ds in
  Some (mkBuilder (tensor_global_guid m2) (layers m2) (layer_recs m2)
                  (<[tensor := t]> (tensor_recs m2)) (next_free m2),
        tensor).

(** [FFModel::create_tensor(int numdim, ...)]: the macro expands to one
    case per dimension count from 1 to [LEGION_MAX_DIM]. *)
Definition create_tensor (LEGION_MAX_DIM : Z) (m : Builder) (numdim : Z)
    (dims : carray Z) (data_type : DataType) (layer : option addr) (idx : Z)
    (create_grad : bool) : option (Builder * addr) :=
  if (1 <=? numdim) && (numdim <=? LEGION_MAX_DIM)
  then create_tensor_NDIM m numdim dims data_type layer idx create_grad
  else None.

(** [FFModel::create_tensor_legion_ordering] *)
Definition create_tensor_legion_ordering (MAX_TENSOR_DIM LEGION_MAX_DIM : Z)
    (m : Builder) (numdim : Z) (dims : carray Z) (data_type : DataType)
    (layer : option addr) (idx : Z) (create_grad : bool)
    : option (Builder * addr) :=
  c_dims ← for_range 0 numdim
              (fun i c => d ← aget dims (numdim - 1 - i); aset c i d)
              (new_array MAX_TENSOR_DIM);
  create_tensor LEGION_MAX_DIM m numdim c_dims data_type layer idx create_grad.

(** [inputs[k]->...] *)
Definition input_rec (m : Builder) (inputs : list addr) (k : Z)
    : option TensorRec :=
  p ← zget inputs k; tensor_recs m !! p.

(** [FFModel::aggregate], the function that adds the layer. *)
Definition aggregate (MAX_TENSOR_DIM LEGION_MAX_DIM : Z) (m : Builder)
    (inputs : list addr) (n : Z) (lambda_bal : Q) : option (Builder * addr) :=
  let li := next_free m in
  let layer := mkLayerRec OP_AGGREGATE DT_FLOAT (n + 4) 0 1 inputs None [] in
  let m := mkBuilder (tensor_global_guid m) (layers m)
                     (<[li := layer]> (layer_recs m)) (tensor_recs m)
                     (next_free m + 1)%N in
  in4 ← input_rec m inputs 4;
  let num_dim := tr_num_dims in4 in
  (* Set output shape *)
  dims ← for_range 0 (num_dim - 1)
            (fun i a => d ← zget (tr_dims in4) i; aset a i d)
            (new_array MAX_TENSOR_DIM);
  in0 ← input_rec m inputs 0;
  d ← zget (tr_dims in0) (num_dim - 1);
  dims ← aset dims (num_dim - 1) d;
  '(m, out) ← create_tensor_legion_ordering MAX_TENSOR_DIM LEGION_MAX_DIM m
                 num_dim dims DT_FLOAT (Some li) 0 true;
  layer ← layer_recs m !! li;
  let layer := mkLayerRec (lr_op_type layer) (lr_data_type layer)
                 (lr_numInputs layer) (lr_numWeights layer)
                 (lr_numOutputs layer) (lr_inputs layer) (Some out)
                 (lr_calls layer ++ [Add_int_property key_n n;
                                     Add_float_property key_lambda_bal lambda_bal]) in
  Some (mkBuilder (tensor_global_guid m) (layers m ++ [li])
                  (<[li := layer]> (layer_recs m)) (tensor_recs m) (next_free m),
        out).

(** What [create_tensor_legion_ordering] leaves behind for the sizes
    [sizes]; without an owner layer it adds an input layer that owns the
    tensor. *)
Definition tensor_created (m : Builder) (sizes : list Z) (dt : DataType)
    (layer : option addr) (idx : Z) (cg : bool) : Builder :=
  match layer with
  | Some l =>
      mkBuilder (TensorFactory.size_t_wrap (tensor_global_guid m + 1)) (layers m)
        (layer_recs m)
        (<[next_free m := mkTensorRec (tensor_global_guid m) dt (Some l) idx cg sizes]>
           (tensor_recs m))
        (next_free m + 1)%N
  | None =>
      mkBuilder (TensorFactory.size_t_wrap (tensor_global_guid m + 1))
        (layers m ++ [(next_free m + 1)%N])
        (<[(next_free m + 1)%N :=
             mkLayerRec OP_INPUT dt 0 0 1 [] (Some (next_free m)) []]> (layer_recs m))
        (<[next_free m :=
             mkTensorRec (tensor_global_guid m) dt (Some (next_free m + 1)%N) 0 cg sizes]>
           (tensor_recs m))
        (next_free m + 1 + 1)%N
  end.

(** A model that holds the inputs of an aggregate layer with one expert:
    four gate tensors of shape [[4; 8]] and an expert prediction of shape
    [[16; 32]], at the addresses 1 to 5. *)
Definition gate_model : Builder :=
  mkBuilder 5 [] ∅
    (<[5%N := mkTensorRec 4 DT_FLOAT None 0 true [16; 32]]>
       (<[4%N := mkTensorRec 3 DT_FLOAT None 0 true [4; 8]]>
          (<[3%N := mkTensorRec 2 DT_FLOAT None 0 true [4; 8]]>
             (<[2%N := mkTensorRec 1 DT_FLOAT None 0 true [4; 8]]>
                (<[1%N := mkTensorRec 0 DT_FLOAT None 0 true [4; 8]]> ∅)))))
    10%N.

End LayerBuilder.

(* ===================================================================== *)
(** *** Concrete scenarios of section 8 *)
(* ===================================================================== *)

Module Scenarios.
Import Common TensorFactory AggregateOp Lifter RegionMapper.

Definition plain (s : Z) : ParallelDim := mkParallelDim s 1 (-1) false.
Definition replica : ParallelDim := mkParallelDim 1 1 (-1) true.

Definition tensor_at (guid : Z) (owner : addr) (ds : list ParallelDim)
    : ParallelTensorBase :=
  mkParallelTensor guid DT_FLOAT (Some owner) 0 true ds NO_REGION
                   (mkMachineView []).

(** Bounds large enough for the scenarios; the dimension limits and the
    validity check stand in for declarations outside the sources. *)
Definition scenario_externals : Externals := mkExternals 5 5 shape_invariants.
Definition scenario_limits : AggregateLimits := mkAggregateLimits 12 4 64.
Definition scenario_defaults : TensorDefaults := mkTensorDefaults 0 true 0.

(** S2: gate_preds, gate_assign and true_gate_assign [[4, 8, 1]], full_gate
    [[3, 8, 1]], three experts [[16, 32, 1]], [n = 3], [lambda_bal = 0.1]. *)
Definition S2_model : FFModel :=
  mkModel (mkConfig false 1 1) 1007 [] ∅
    (list_to_map
       [ (100%N, tensor_at 1000 1%N [plain 4; plain 8; replica]);
         (101%N, tensor_at 1001 2%N [plain 4; plain 8; replica]);
         (102%N, tensor_at 1002 3%N [plain 4; plain 8; replica]);
         (103%N, tensor_at 1003 4%N [plain 3; plain 8; replica]);
         (104%N, tensor_at 1004 5%N [plain 16; plain 32; replica]);
         (105%N, tensor_at 1005 6%N [plain 16; plain 32; replica]);
         (106%N, tensor_at 1006 7%N [plain 16; plain 32; replica]) ])
    200%N.

Definition S2_inputs : list addr := [100; 101; 102; 103; 104; 105; 106]%N.
Definition S2_this : addr := 8%N.

Definition S2_aggregate : option (FFModel * Aggregate) :=
  Aggregate_new scenario_externals scenario_limits scenario_defaults
                S2_model S2_this S2_inputs 3 (1 # 10).

(** The sizes and the data type of the single output of a constructed
    operator. *)
Definition output_shape (r : option (FFModel * Aggregate))
    : option (list Z * DataType) :=
  '(m, agg) ← r;
  out ← zget (outputs agg) 0;
  t ← tensors m !! out;
  Some (size <$> dims t, data_type t).

(** A simulator with unbounded memory and tensor queries that always
    succeed, to run [measure_operator_cost] on the S2 operator. *)
Definition roomy_simulator : CostExternals Z unit :=
  mkCostExternals Z unit 16 1000000
    (fun t _ => Some t)
    (fun t => fold_right Z.mul 1 (size <$> dims t))
    (fun t => mkDomain ((fun _ => 0) <$> dims t) ((fun d => size d - 1) <$> dims t))
    (fun _ _ => tt) (fun _ => false)
    (fun _ => 0)
    (fun sim vol _ => (sim + vol, Some (N.of_nat (Z.to_nat sim))))
    (fun sim => sim)
    (fun _ off => off)
    (fun sim _ cm => (sim, mkCostMetrics 1 1 (inputs_memory cm) (outputs_memory cm))).

(** An input layer over a logical tensor [[64, 128]] (S1). *)
Definition S1_store : gmap addr TensorBase :=
  {[ 10%N := mkTensor 7 DT_FLOAT [64; 128] None ]}.
Definition S1_layer : Layer := mkLayer OP_INPUT [10%N].
Definition S1_model (data_parallel : bool) : FFModel :=
  mkModel (mkConfig data_parallel 1 4) 1000 [] ∅ ∅ 300%N.

(** S6: dimensions [(16, 4, 0)] and [(8, 2, 1)] on a 4 x 2 task space. *)
Definition S6_tensor : ParallelTensorBase :=
  mkParallelTensor 1 DT_FLOAT (Some 1%N) 0 true
    [mkParallelDim 16 4 0 false; mkParallelDim 8 2 1 false]
    NO_REGION (mkMachineView [4; 2]).
Definition S6_task_space : Rect := mkRect [0; 0] [3; 1].
Definition S6_mapped : option Mapped :=
  map_tensor_with_dim2 2 2 true S6_task_space S6_tensor (Some 1%N).


(** A chain [input; linear; relu; softmax] on one machine view, the relu
    computing in place: its output shares the region of its input.
    Operators live at addresses 1 to 4, the output of operator [k] at
    address [10 + k]. *)
Definition chain_view : MachineView := mkMachineView [4].
Definition chain_tensor (k : Z) (owner : addr) (r : Z) : ParallelTensorBase :=
  mkParallelTensor k DT_FLOAT (Some owner) 0 true
    [mkParallelDim 64 4 0 false; mkParallelDim 1 1 (-1) true]
    (mkRegion r r r) chain_view.
Definition chain_heap : Fusion.Heap :=
  Fusion.mkHeap
    (list_to_map
       [ (1%N, Fusion.mkOp OP_INPUT [] [11%N] false);
         (2%N, Fusion.mkOp OP_LINEAR [11%N] [12%N] false);
         (3%N, Fusion.mkOp OP_RELU [12%N] [13%N] true);
         (4%N, Fusion.mkOp OP_SOFTMAX [13%N] [14%N] false) ])
    (list_to_map
       [ (11%N, chain_tensor 1 1%N 1); (12%N, chain_tensor 2 2%N 2);
         (13%N, chain_tensor 3 3%N 2); (14%N, chain_tensor 4 4%N 4) ]).
Definition chain_operators : list addr := [1; 2; 3; 4]%N.
Definition chain_fused
    : option (Fusion.Heap * option (list addr * Fusion.FusionEvent)) :=
  Fusion.apply_fusion (Fusion.bounded_fused_op 8) chain_heap chain_operators.

(** S3: [input; linear; relu; dropout; linear; softmax] on one machine
    view, no operator in place, every tensor with a region of its own.
    Operators at addresses 1 to 6, the output of operator [k] at [10 + k]. *)
Definition S3_heap : Fusion.Heap :=
  Fusion.mkHeap
    (list_to_map
       [ (1%N, Fusion.mkOp OP_INPUT [] [11%N] false);
         (2%N, Fusion.mkOp OP_LINEAR [11%N] [12%N] false);
         (3%N, Fusion.mkOp OP_RELU [12%N] [13%N] false);
         (4%N, Fusion.mkOp OP_DROPOUT [13%N] [14%N] false);
         (5%N, Fusion.mkOp OP_LINEAR [14%N] [15%N] false);
         (6%N, Fusion.mkOp OP_SOFTMAX [15%N] [16%N] false) ])
    (list_to_map
       [ (11%N, chain_tensor 1 1%N 1); (12%N, chain_tensor 2 2%N 2);
         (13%N, chain_tensor 3 3%N 3); (14%N, chain_tensor 4 4%N 4);
         (15%N, chain_tensor 5 5%N 5); (16%N, chain_tensor 6 6%N 6) ]).
Definition S3_operators : list addr := [1; 2; 3; 4; 5; 6]%N.

(** The state after the first successful pass over S3 ... *)
Definition S3_after_first : option (Fusion.Heap * list addr) :=
  match Fusion.apply_fusion (Fusion.bounded_fused_op 8) S3_heap S3_operators with
  | Some (h, Some (operators, _)) => Some (h, operators)
  | _ => None
  end.

(** ... and the second pass, run on it. *)
Definition S3_second_heap : Fusion.Heap :=
  match S3_after_first with Some (h, _) => h | None => S3_heap end.
Definition S3_second_operators : list addr :=
  match S3_after_first with Some (_, operators) => operators | None => [] end.
Definition S3_second
    : option (Fusion.Heap * option (list addr * Fusion.FusionEvent)) :=
  Fusion.apply_fusion (Fusion.bounded_fused_op 8) S3_second_heap
                      S3_second_operators.

(** A deterministic stand-in for the generator, the simulator and the
    operators' random configurations: the world is a counter, [std::rand]
    returns it and steps it, floats are integers, the cost of a strategy is
    the sum of the first degrees of its entries, and the acceptance test
    always fails. *)
Definition counter_environment : Search.Environment nat Z :=
  Search.mkEnvironment nat Z
    (fun w => (N.of_nat w, S w))
    2147483647
    (fun w op => (Search.mkParallelConfig 1 [Z.of_nat (w `mod` 3) + 1] [0], S w))
    (1 # 4)
    None
    (fun w strategy =>
       (map_fold (fun _ c acc => acc + default 0 (Search.dim c !! 0%nat)) 0 strategy, w))
    Z.ltb
    (fun _ _ _ _ => false).

(** The same environment with the counter as a binary number, for draws
    of the size of [RAND_MAX]. *)
Definition wide_environment : Search.Environment N Z :=
  Search.mkEnvironment N Z
    (fun w => (w, N.succ w))
    2147483647
    (fun w op => (Search.mkParallelConfig 1 [Z.of_N (w `mod` 3) + 1] [0], N.succ w))
    (1 # 4)
    None
    (fun w strategy =>
       (map_fold (fun _ c acc => acc + default 0 (Search.dim c !! 0%nat)) 0 strategy, w))
    Z.ltb
    (fun _ _ _ _ => false).

Definition two_operators : list addr := [1; 2]%N.
Definition data_parallel : gmap addr Search.ParallelConfig :=
  {[ 1%N := Search.mkParallelConfig 1 [4] [0; 1; 2; 3];
     2%N := Search.mkParallelConfig 1 [4] [0; 1; 2; 3] ]}.

(** A [MachineView] of five slots that its default constructor sets to 0,
    and dimension counts up to 5. *)
Definition zeroed_views : TaskSpace.Limits :=
  TaskSpace.mkLimits [Some 0; Some 0; Some 0; Some 0; Some 0] 5.

End Scenarios.

(* ===================================================================== *)
(** *** FFModel::create_operator_from_layer and
        FFModel::create_operators_from_layers (model.cc) *)
(* ===================================================================== *)

Module LayerLifter.
Import Common TensorFactory Lifter.

(** The operator classes whose static member function
    [create_operator_from_layer] the switch calls. *)
Inductive OpClass :=
  | MultiHeadAttention | BatchMatmul | Cast | Concat | Conv2D | Dropout
  | Embedding | ElementBinary | ElementUnary | Flat | Gather | LayerNorm
  | Linear | Pool2D | Reduce | Reshape | Softmax | Split | Transpose | TopK
  | Group_by | Aggregate.

#[global] Instance OpClass_eq_dec : EqDecision OpClass.
Proof. solve_decision. Defined.

(** A layer of the list [layers]: the members that the input case reads,
    and the input slots and the two slot counts. *)
Record LayerNode := mkLayerNode {
  ln_layer : Layer;
  ln_numInputs : Z;
  ln_inputs : list addr;
  ln_numOutputs : Z
}.

Definition World : Type := FFModel * gmap addr TensorBase.

Section Lift.
(** The member functions of the operator classes and the output slots of
    an operator ([numOutputs] is their number) are declared outside the
    sources. A class function gets the model by reference, the layer and
    the inputs, and returns the operator it allocates. *)
Context (ext : Externals).
Context (create : OpClass → World → Layer → list addr → option (World * addr)).
Context (outputs_of : World → addr → option (list addr)).

(** A case of the switch: the operator that the class function returns is
    appended to [operators] and returned. *)
Definition via (c : OpClass) (w : World) (layer : Layer) (inputs : list addr)
    : option (World * addr) :=
  '(w, op) ← create c w layer inputs;
  let m := w.1 in
  Some ((mkModel (config m) (parallel_tensor_global_guid m) (operators m ++ [op])
                 (op_objects m) (tensors m) (next_free m), w.2), op).

(** [FFModel::create_operator_from_layer] *)
Definition create_operator_from_layer (w : World) (layer : Layer)
    (inputs : list addr) : option (World * addr) :=
  match l_op_type layer with
  | OP_INPUT =>
      '(m, store, op) ← create_operator_from_layer_input ext w.1 w.2 layer inputs;
      Some ((m, store), op)
  | OP_MULTIHEAD_ATTENTION => via MultiHeadAttention w layer inputs
  | OP_BATCHMATMUL => via BatchMatmul w layer inputs
  | OP_CAST => via Cast w layer inputs
  | OP_CONCAT => via Concat w layer inputs
  | OP_CONV2D => via Conv2D w layer inputs
  | OP_DROPOUT => via Dropout w layer inputs
  | OP_EMBEDDING => via Embedding w layer inputs
  | OP_EW_ADD | OP_EW_SUB | OP_EW_MUL | OP_EW_DIV | OP_EW_MAX | OP_EW_MIN =>
      via ElementBinary w layer inputs
  | OP_EXP | OP_SIN | OP_COS
  | OP_SCALAR_MULTIPLY | OP_SCALAR_ADD | OP_SCALAR_SUB | OP_SCALAR_TRUE_DIV
  | OP_POW | OP_RELU | OP_SIGMOID | OP_TANH | OP_IDENTITY | OP_GELU | OP_ELU =>
      via ElementUnary w layer inputs
  | OP_FLAT => via Flat w layer inputs
  | OP_GATHER => via Gather w layer inputs
  | OP_LAYERNORM => via LayerNorm w layer inputs
  | OP_LINEAR => via Linear w layer inputs
  | OP_POOL2D => via Pool2D w layer inputs
  | OP_REDUCE_SUM => via Reduce w layer inputs
  | OP_RESHAPE => via Reshape w layer inputs
  | OP_SOFTMAX => via Softmax w layer inputs
  | OP_SPLIT => via Split w layer inputs
  | OP_TRANSPOSE => via Transpose w layer inputs
  | OP_TOPK => via TopK w layer inputs
  | OP_GROUP_BY => via Group_by w layer inputs
  | OP_AGGREGATE => via Aggregate w layer inputs
  | OP_AGG_SPEC => via Aggregate w layer inputs
  | _ => None
  end.

(** The body of the loop over [layers]; [map] is the local
    [tensors_to_parallel_tensors]. *)
Definition lift_layer (l : LayerNode) (s : World * gmap addr addr)
    : option (World * gmap addr addr) :=
  let '(w, map) := s in
  inputs ← for_range 0 (ln_numInputs l) (fun i inputs =>
              (* create new input tensors *)
              t ← zget (ln_inputs l) i;
              pt ← map !! t;
              Some (inputs ++ [pt])) [];
  '(w, op) ← create_operator_from_layer w (ln_layer l) inputs;
  outs ← outputs_of w op;
  _ ← assert (Z.of_nat (length outs) =? ln_numOutputs l);
  map ← for_range 0 (Z.of_nat (length outs)) (fun i map =>
           t ← zget (l_outputs (ln_layer l)) i;
           pt ← zget outs i;
           Some (<[t := pt]> map)) map;
  Some (w, map).

(** [FFModel::create_operators_from_layers]; the map that the function
    drops when it returns is kept in the result. *)
Definition create_operators_from_layers (layers : list LayerNode) (w : World)
    : option (World * gmap addr addr) :=
  for_each_opt layers lift_layer (w, ∅).

End Lift.

(** The layer kinds that the switch of [create_operator_from_layer] has no
    case for. *)
Definition not_lifted : list OperatorType :=
  [ OP_WEIGHT; OP_NOOP; OP_REPARTITION; OP_REPLICATE; OP_REDUCTION; OP_COMBINE;
    OP_FUSED_PARALLEL; OP_MEAN; OP_CACHE; OP_REVERSE; OP_BATCHNORM; OP_FUSED ].

(** The tensor [t] is one of the outputs of a layer before position [j]. *)
Definition produced_before (layers : list LayerNode) (j : nat) (t : addr) : Prop :=
  ∃ (j' : nat) l' k, (j' < j)%nat ∧ layers !! j' = Some l' ∧
    0 ≤ k < ln_numOutputs l' ∧ zget (l_outputs (ln_layer l')) k = Some t.

(** A run on two layers: the input layer of S1 and a relu layer that reads
    its tensor. The class functions are stood in for by one that returns
    the operator at address 500 and leaves the model alone, and every
    operator has one output. *)
Definition relu_layers : list LayerNode :=
  [mkLayerNode Scenarios.S1_layer 0 [] 1;
   mkLayerNode (mkLayer OP_RELU [11%N]) 1 [10%N] 1].
Definition fixed_class : OpClass → World → Layer → list addr → option (World * addr) :=
  fun _ w _ _ => Some (w, 500%N).
Definition one_output : World → addr → option (list addr) :=
  fun _ _ => Some [300%N].

End LayerLifter.

(** ** Properties *)
Module CommonProofs.
Import Common.

(** Inverts a run of the failure monad that ended in [Some]: every bound
    computation succeeded. *)
Ltac bind_inv H :=
  repeat match type of H with
  | mbind _ ?x = Some _ =>
      let E := fresh "E" in
      destruct x eqn:E; cbn [mbind option_bind] in H; [|discriminate H]
  | match ?p with (_, _) => _ end = Some _ => destruct p
  end.

Lemma zget_Some {A} (a : list A) i x :
  zget a i = Some x ↔ 0 ≤ i ∧ a !! Z.to_nat i = Some x.
Proof.
  unfold zget. destruct (Z.leb_spec 0 i); split; try tauto.
  - intros [=].
  - intros [? _]. lia.
Qed.

Lemma zget_lt {A} (a : list A) i x :
  zget a i = Some x → 0 ≤ i < Z.of_nat (length a).
Proof.
  intros [? H]%zget_Some. apply lookup_lt_Some in H. lia.
Qed.

Lemma aset_Some {A} (a a' : carray A) i v :
  aset a i v = Some a' →
  0 ≤ i < Z.of_nat (length a) ∧ length a' = length a ∧ aget a' i = Some v ∧
  ∀ j, j ≠ i → aget a' j = aget a j.
Proof.
  unfold aset. destruct (Z.leb_spec 0 i), (Z.ltb_spec i (Z.of_nat (length a)));
    simpl; intros Heq; try discriminate; injection Heq as <-.
  split; [lia|]. split; [apply length_insert|]. split.
  - unfold aget, zget. destruct (Z.leb_spec 0 i); [|lia].
    rewrite list_lookup_insert_eq by lia. done.
  - intros j Hj. unfold aget, zget. destruct (Z.leb_spec 0 j); [|done].
    rewrite list_lookup_insert_ne by lia. done.
Qed.

Lemma assert_Some c u : assert c = Some u → c = true.
Proof. by destruct c. Qed.

(** Invariant rule for the bounded loop. *)
Lemma for_loop_inv {St} (P : Z → St → Prop) (body : Z → St → option St) count :
  ∀ i s s',
    for_loop count i body s = Some s' →
    P i s →
    (∀ j s1 s2, i ≤ j < i + Z.of_nat count → P j s1 →
                body j s1 = Some s2 → P (j + 1) s2) →
    P (i + Z.of_nat count) s'.
Proof.
  induction count as [|c IH]; intros i s s' Hrun HP Hstep; simpl in Hrun.
  - injection Hrun as <-. by replace (i + Z.of_nat 0) with i by lia.
  - destruct (body i s) as [s1|] eqn:Hb; simpl in Hrun; [|done].
    replace (i + Z.of_nat (S c)) with ((i + 1) + Z.of_nat c) by lia.
    apply (IH _ s1); [done| |].
    + apply (Hstep i s); [lia|done|done].
    + intros j ? ? ? ? ?. eapply Hstep; [lia|done|done].
Qed.

Lemma for_range_inv {St} (P : Z → St → Prop) (body : Z → St → option St) lo hi s s' :
  for_range lo hi body s = Some s' →
  lo ≤ hi →
  P lo s →
  (∀ j s1 s2, lo ≤ j < hi → P j s1 → body j s1 = Some s2 → P (j + 1) s2) →
  P hi s'.
Proof.
  unfold for_range. intros Hrun Hle HP Hstep.
  pose proof (for_loop_inv P body _ lo s s' Hrun HP) as H.
  replace (lo + Z.of_nat (Z.to_nat (hi - lo))) with hi in H by lia.
  apply H. intros j s1 s2 ?. apply Hstep. lia.
Qed.

Lemma for_range_ext {St} (body1 body2 : Z → St → option St) lo hi s :
  (∀ i c, body1 i c = body2 i c) →
  for_range lo hi body1 s = for_range lo hi body2 s.
Proof.
  intros Hext. unfold for_range. generalize (Z.to_nat (hi - lo)) as count.
  intros count. revert lo s.
  induction count as [|c IH]; intros lo s; simpl; [done|].
  rewrite Hext. destruct (body2 lo s); simpl; [apply IH | done].
Qed.

(** Progress rule for the bounded loop: an invariant that lets every
    iteration run makes the whole loop run. *)
Lemma for_range_progress {St} (P : Z → St → Prop) (body : Z → St → option St)
    lo hi s :
  lo ≤ hi → P lo s →
  (∀ j s1, lo ≤ j < hi → P j s1 → ∃ s2, body j s1 = Some s2 ∧ P (j + 1) s2) →
  ∃ s', for_range lo hi body s = Some s' ∧ P hi s'.
Proof.
  intros Hle HP Hstep. unfold for_range.
  assert (Hgen : ∀ count i s0, i + Z.of_nat count = hi → lo ≤ i → P i s0 →
            ∃ s', for_loop count i body s0 = Some s' ∧ P hi s').
  { induction count as [|c IH]; intros i s0 Hi Hlo HP0; simpl.
    - exists s0. split; [done|]. by replace hi with i by lia.
    - destruct (Hstep i s0) as (s2 & -> & HP2); [lia|done|]. simpl.
      apply IH; [lia|lia|done]. }
  apply Hgen; [lia|lia|done].
Qed.

(** When the range is empty the loop does nothing. *)
Lemma for_range_empty {St} (body : Z → St → option St) lo hi s :
  hi ≤ lo → for_range lo hi body s = Some s.
Proof.
  intros H. unfold for_range. by replace (Z.to_nat (hi - lo)) with O by lia.
Qed.

(** A loop that copies [src i] into slot [i]. *)
Lemma copy_loop {A} (src : Z → option A) (a a' : carray A) hi :
  for_range 0 hi (fun i c => d ← src i; aset c i d) a = Some a' →
  length a' = length a ∧
  (∀ i, 0 ≤ i < hi → aget a' i = src i ∧ is_Some (src i)) ∧
  (∀ i, hi ≤ i → aget a' i = aget a i).
Proof.
  intros Hrun. destruct (Z.le_gt_cases 0 hi) as [Hle|Hgt].
  - apply (for_range_inv
      (fun k c => length c = length a ∧
                  (∀ i, 0 ≤ i < k → aget c i = src i ∧ is_Some (src i)) ∧
                  (∀ i, k ≤ i → aget c i = aget a i)) _ _ _ _ _ Hrun Hle).
    + split; [done|]. split; [intros; lia | done].
    + intros j c1 c2 Hj (Hlen & Hlo & Hhi) Hb.
      destruct (src j) as [d|] eqn:Hs; simpl in Hb; [|done].
      apply aset_Some in Hb as (_ & Hl & Hget & Hother).
      split; [congruence|]. split.
      * intros i Hi. destruct (decide (i = j)) as [->|Hne].
        -- rewrite Hget, Hs. by split.
        -- rewrite Hother by done. apply Hlo. lia.
      * intros i Hi. rewrite Hother by lia. apply Hhi. lia.
  - rewrite for_range_empty in Hrun by lia. injection Hrun as <-.
    split; [done|]. split; [intros; lia | done].
Qed.

(** The copying loop runs to completion when the source has the entries
    and the array has the slots. *)
Lemma copy_loop_total {A} (src : Z → option A) (a : carray A) hi :
  hi ≤ Z.of_nat (length a) →
  (∀ i, 0 ≤ i < hi → is_Some (src i)) →
  is_Some (for_range 0 hi (fun i c => d ← src i; aset c i d) a).
Proof.
  unfold for_range. rewrite Z.sub_0_r. intros Hlen Hsrc.
  assert (Hgen : ∀ count i (c : carray A),
            0 ≤ i → i + Z.of_nat count ≤ Z.of_nat (length c) →
            (∀ j, i ≤ j < i + Z.of_nat count → is_Some (src j)) →
            is_Some (for_loop count i (fun i c => d ← src i; aset c i d) c)).
  { induction count as [|n IH]; intros i c Hi Hc Hs; simpl; [by eexists|].
    destruct (Hs i) as [d ->]; [lia|]. simpl.
    assert (Hset : aset c i d = Some (<[Z.to_nat i := Some d]> c)).
    { unfold aset. destruct (Z.leb_spec 0 i); [|lia].
      by destruct (Z.ltb_spec i (Z.of_nat (length c))); [|lia]. }
    rewrite Hset. simpl.
    apply IH; [lia| |].
    - rewrite length_insert. lia.
    - intros j Hj. apply Hs. lia. }
  destruct (Z.le_gt_cases 0 hi).
  - apply Hgen; [lia|lia|]. intros j Hj. apply Hsrc. lia.
  - replace (Z.to_nat hi) with O by lia. by eexists.
Qed.

(** Invariant rule for a loop over consecutive indices. *)
Lemma for_each_opt_seq_inv {St} (P : nat → St → Prop)
    (body : nat → St → option St) n :
  ∀ a s s',
    for_each_opt (seq a n) body s = Some s' →
    P a s →
    (∀ j s1 s2, (a ≤ j < a + n)%nat → P j s1 → body j s1 = Some s2 → P (S j) s2) →
    P (a + n)%nat s'.
Proof.
  induction n as [|n IH]; intros a s s' Hrun HP Hstep; simpl in Hrun.
  - injection Hrun as <-. by rewrite Nat.add_0_r.
  - destruct (body a s) as [s1|] eqn:Hb; simpl in Hrun; [|done].
    replace (a + S n)%nat with (S a + n)%nat by lia.
    apply (IH _ s1); [done| |].
    + apply (Hstep a s); [lia|done|done].
    + intros j ? ? ? ? ?. eapply Hstep; [lia|done|done].
Qed.

Lemma for_each_opt_app {A St} (l1 l2 : list A) (body : A → St → option St) s :
  for_each_opt (l1 ++ l2) body s = s' ← for_each_opt l1 body s; for_each_opt l2 body s'.
Proof.
  revert s. induction l1 as [|a l1 IH]; intros s; simpl; [done|].
  destruct (body a s); simpl; [apply IH|done].
Qed.

End CommonProofs.

Module TensorFactoryProofs.
Import Common TensorFactory CommonProofs.

Lemma read_reversed_spec (a : carray ParallelDim) ndim count :
  ∀ i ds, read_reversed a ndim count i = Some ds →
    length ds = count ∧
    ∀ k, (k < count)%nat → ds !! k = aget a (ndim - 1 - (i + Z.of_nat k)).
Proof.
  induction count as [|c IH]; intros i ds H; simpl in H.
  - injection H as <-. split; [done|]. intros; lia.
  - destruct (aget a (ndim - 1 - i)) as [d|] eqn:Hd; simpl in H; [|done].
    destruct (read_reversed a ndim c (i + 1)) as [rest|] eqn:Hr; simpl in H; [|done].
    injection H as <-. apply IH in Hr as [Hlen Hk].
    split; [simpl; lia|].
    intros [|k] Hlt; simpl.
    + rewrite <- Hd. f_equal. lia.
    + rewrite Hk by lia. f_equal. lia.
Qed.

Lemma read_reversed_total (a : carray ParallelDim) ndim count :
  ∀ i, (∀ k, (k < count)%nat → is_Some (aget a (ndim - 1 - (i + Z.of_nat k)))) →
       is_Some (read_reversed a ndim count i).
Proof.
  induction count as [|c IH]; intros i H; simpl; [by eexists|].
  destruct (H O) as [d Hd]; [lia|].
  replace (ndim - 1 - (i + Z.of_nat 0)) with (ndim - 1 - i) in Hd by lia.
  rewrite Hd. simpl.
  destruct (IH (i + 1)) as [rest ->]; [|by eexists].
  intros k Hk. destruct (H (S k)) as [x Hx]; [lia|].
  exists x. rewrite <- Hx. f_equal. lia.
Qed.

(** What [create_parallel_tensor_legion_ordering] leaves behind: the two
    reversals cancel, so the tensor's dimensions are the first [numdim]
    entries of the array passed in, in the same order. *)
Lemma create_parallel_tensor_legion_ordering_spec ext m numdim
    (dims0 : carray ParallelDim) dt op idx cg g m' p :
  create_parallel_tensor_legion_ordering ext m numdim dims0 dt op idx cg g
    = Some (m', p) →
  ∃ t, tensors m' !! p = Some t ∧
       p = next_free m ∧
       tensors m' = <[p := t]> (tensors m) ∧
       config m' = config m ∧
       1 ≤ numdim ≤ LEGION_MAX_DIM ext ∧
       check_valid ext t = true ∧
       data_type t = dt ∧
       create_gradients t = cg ∧
       num_dims t = numdim ∧
       (∀ i, 0 ≤ i < numdim → zget (dims t) i = aget dims0 i ∧ is_Some (aget dims0 i)) ∧
       match op with
       | Some o => owner_op t = Some o ∧ owner_idx t = idx ∧
                   operators m' = operators m ∧ op_objects m' = op_objects m ∧
                   next_free m' = (next_free m + 1)%N
       | None => owner_op t = Some (next_free m + 1)%N ∧ owner_idx t = 0 ∧
                 operators m' = operators m ++ [(next_free m + 1)%N] ∧
                 op_objects m' =
                   <[(next_free m + 1)%N := NoOp_new OP_INPUT g p]> (op_objects m) ∧
                 next_free m' = (next_free m + 1 + 1)%N
       end.
Proof.
  unfold create_parallel_tensor_legion_ordering, create_parallel_tensor,
    create_parallel_tensor_NDIM.
  intros H.
  destruct (for_range 0 numdim _ _) as [c_dims|] eqn:Hc; simpl in H; [|done].
  destruct (Z.leb_spec 1 numdim), (Z.leb_spec numdim (LEGION_MAX_DIM ext));
    simpl in H; try done.
  destruct (read_reversed c_dims numdim (Z.to_nat numdim) 0) as [ds|] eqn:Hds;
    [|by destruct op].
  apply read_reversed_spec in Hds as [Hlen Hds].
  apply (copy_loop (fun i => aget dims0 (numdim - 1 - i))) in Hc as (_ & Hcopy & _).
  assert (Hdims : ∀ i, 0 ≤ i < numdim →
            zget ds i = aget dims0 i ∧ is_Some (aget dims0 i)).
  { intros i Hi. unfold zget. destruct (Z.leb_spec 0 i); [|lia].
    rewrite Hds by lia.
    destruct (Hcopy (numdim - 1 - (0 + Z.of_nat (Z.to_nat i)))) as [-> Hsome]; [lia|].
    replace (numdim - 1 - (numdim - 1 - (0 + Z.of_nat (Z.to_nat i)))) with i in * by lia.
    done. }
  destruct op as [o|]; simpl in H.
  - destruct (assert _) eqn:Ha; simpl in H; [|done].
    apply assert_Some in Ha. injection H as <- <-. simpl.
    eexists. split; [apply lookup_insert_eq|].
    repeat split; simpl; try done; try lia.
    + unfold num_dims; simpl. lia.
    + by apply Hdims.
    + by apply Hdims.
  - destruct (assert _) eqn:Ha; simpl in H; [|done].
    apply assert_Some in Ha. injection H as <- <-. simpl.
    eexists. split; [apply lookup_insert_eq|].
    repeat split; simpl; try done; try lia.
    + unfold num_dims; simpl. lia.
    + by apply Hdims.
    + by apply Hdims.
Qed.

(** [create_parallel_tensor_legion_ordering] returns when the dimension
    count is within the two limits, the array holds that many entries and
    the validity check accepts the tensor made of them. *)
Lemma create_parallel_tensor_legion_ordering_total ext m numdim
    (dims0 : carray ParallelDim) dt op idx cg g :
  1 ≤ numdim ≤ LEGION_MAX_DIM ext →
  numdim ≤ MAX_TENSOR_DIM ext →
  (∀ i, 0 ≤ i < numdim → is_Some (aget dims0 i)) →
  (∀ t, num_dims t = numdim →
        (∀ i, 0 ≤ i < numdim → zget (dims t) i = aget dims0 i) →
        check_valid ext t = true) →
  is_Some (create_parallel_tensor_legion_ordering ext m numdim dims0 dt op idx cg g).
Proof.
  intros Hnd Hmax Hsrc Hvalid.
  unfold create_parallel_tensor_legion_ordering.
  destruct (copy_loop_total (fun i => aget dims0 (numdim - 1 - i))
              (new_array (MAX_TENSOR_DIM ext)) numdim) as [c_dims Hc].
  { unfold new_array. rewrite length_replicate. lia. }
  { intros i Hi. apply Hsrc. lia. }
  rewrite Hc. cbn [mbind option_bind].
  apply copy_loop in Hc as (_ & Hcopy & _).
  unfold create_parallel_tensor.
  destruct (Z.leb_spec 1 numdim); [|lia].
  destruct (Z.leb_spec numdim (LEGION_MAX_DIM ext)); [|lia]. simpl.
  unfold create_parallel_tensor_NDIM.
  destruct (read_reversed_total c_dims numdim (Z.to_nat numdim) 0) as [ds Hds].
  { intros k Hk. destruct (Hcopy (numdim - 1 - (0 + Z.of_nat k))) as [-> _]; [lia|].
    apply Hsrc. lia. }
  pose proof (read_reversed_spec _ _ _ _ _ Hds) as [Hlen Hk].
  assert (Hdims : ∀ i, 0 ≤ i < numdim → zget ds i = aget dims0 i).
  { intros i Hi. unfold zget. destruct (Z.leb_spec 0 i); [|lia].
    rewrite Hk by lia.
    destruct (Hcopy (numdim - 1 - (0 + Z.of_nat (Z.to_nat i)))) as [-> _]; [lia|].
    f_equal. lia. }
  assert (Hnum : Z.of_nat (length ds) = numdim) by lia.
  destruct op as [o|]; simpl; rewrite Hds; simpl;
    (rewrite Hvalid; [by eexists | done | done]).
Qed.

End TensorFactoryProofs.

Module AdjacencyGraphProofs.
Import AdjacencyGraph.

Lemma passes_spec `{Countable A} (f : option (gset A)) (x : A) :
  passes f x = true ↔ ∀ s, f = Some s → x ∈ s.
Proof.
  destruct f as [s|]; simpl.
  - rewrite bool_decide_eq_true. split.
    + intros Hx s' [= <-]. exact Hx.
    + intros Hx. by apply Hx.
  - split; [intros _ s' [=] | done].
Qed.

(** Membership in the result of a loop whose body only ever adds the
    elements described by [P]. *)
Lemma elem_of_for_each {A} (P : A → Edge → Prop) (l : list A)
    (body : A → gset Edge → gset Edge) (e : Edge) :
  (∀ a acc, e ∈ body a acc ↔ e ∈ acc ∨ P a e) →
  ∀ acc, e ∈ for_each l body acc ↔ e ∈ acc ∨ ∃ a, a ∈ l ∧ P a e.
Proof.
  intros Hbody. unfold for_each.
  induction l as [|a l IH]; intros acc; simpl.
  - split; [by left | intros [?|(a & Ha & _)]; [done | by apply elem_of_nil in Ha]].
  - rewrite IH, Hbody. split.
    + intros [[?|?]|(b & Hb & HP)].
      * by left.
      * right. exists a. split; [left | done].
      * right. exists b. split; [by right | done].
    + intros [?|(b & Hb & HP)].
      * left. by left.
      * apply elem_of_cons in Hb as [->|Hb].
        -- left. by right.
        -- right. by exists b.
Qed.

Lemma guard_body (c : bool) (f : gset Edge → gset Edge) (Q : Prop) e acc :
  (e ∈ f acc ↔ e ∈ acc ∨ Q) →
  e ∈ (if c then f acc else acc) ↔ e ∈ acc ∨ (c = true ∧ Q).
Proof.
  intros Hf. destruct c.
  - rewrite Hf. tauto.
  - split; [by left | intros [?|[? _]]; done].
Qed.

Lemma query_edges_spec g q e :
  e ∈ query_edges g q ↔ stored g e ∧ satisfies q e.
Proof.
  unfold query_edges.
  rewrite (elem_of_for_each
    (fun kv e => passes (srcs q) kv.1 = true ∧
       ∃ kv2, kv2 ∈ map_to_list kv.2 ∧ passes (dsts q) kv2.1 = true ∧
       ∃ kv3, kv3 ∈ map_to_list kv2.2 ∧ passes (srcIdxs q) kv3.1 = true ∧
       ∃ d, d ∈ elements kv3.2 ∧ passes (dstIdxs q) d = true ∧
            e = mkEdge kv.1 kv2.1 kv3.1 d)).
  - split.
    + intros [Hin|([s1 m1] & Hm1 & Hp1 & [s2 m2] & Hm2 & Hp2 &
                   [s3 m3] & Hm3 & Hp3 & d & Hd & Hp4 & ->)].
      { by apply not_elem_of_empty in Hin. }
      simpl in *.
      apply elem_of_map_to_list in Hm1, Hm2, Hm3.
      apply elem_of_elements in Hd.
      split.
      * exists m1, m2, m3. simpl. done.
      * unfold satisfies. simpl.
        by rewrite <- !passes_spec.
    + intros [(m1 & m2 & s & H1 & H2 & H3 & H4) (Q1 & Q2 & Q3 & Q4)].
      right. exists (src e, m1). split; [by apply elem_of_map_to_list|].
      simpl. split; [by apply passes_spec|].
      exists (dst e, m2). split; [by apply elem_of_map_to_list|].
      simpl. split; [by apply passes_spec|].
      exists (srcIdx e, s). split; [by apply elem_of_map_to_list|].
      simpl. split; [by apply passes_spec|].
      exists (dstIdx e). split; [by apply elem_of_elements|].
      split; [by apply passes_spec|]. by destruct e.
  - intros kv acc. apply guard_body.
    rewrite (elem_of_for_each
      (fun kv2 e => passes (dsts q) kv2.1 = true ∧
         ∃ kv3, kv3 ∈ map_to_list kv2.2 ∧ passes (srcIdxs q) kv3.1 = true ∧
         ∃ d, d ∈ elements kv3.2 ∧ passes (dstIdxs q) d = true ∧
              e = mkEdge kv.1 kv2.1 kv3.1 d)); [naive_solver|].
    intros kv2 acc2. apply guard_body.
    rewrite (elem_of_for_each
      (fun kv3 e => passes (srcIdxs q) kv3.1 = true ∧
         ∃ d, d ∈ elements kv3.2 ∧ passes (dstIdxs q) d = true ∧
              e = mkEdge kv.1 kv2.1 kv3.1 d)); [naive_solver|].
    intros kv3 acc3. apply guard_body.
    rewrite (elem_of_for_each
      (fun d e => passes (dstIdxs q) d = true ∧
              e = mkEdge kv.1 kv2.1 kv3.1 d)); [naive_solver|].
    intros d acc4. apply guard_body.
    rewrite elem_of_union, elem_of_singleton. tauto.
Qed.

Lemma satisfies_query_all e : satisfies query_all e.
Proof. unfold satisfies, query_all; simpl. by repeat split. Qed.

(** C10. [AdjacencyMultiDiGraph::query_edges] returns exactly the stored
    edges [(src, dst, srcIdx, dstIdx)] that satisfy every filter present in
    the query, a filter applying only when its optional field has a value;
    with all four filters absent it returns every stored edge. *)
Theorem query_edges_exact (g : AdjacencyMultiDiGraph) (q : EdgeQuery) (e : Edge) :
  (e ∈ query_edges g q ↔ stored g e ∧ satisfies q e) ∧
  (e ∈ query_edges g query_all ↔ stored g e).
Proof.
  split; [apply query_edges_spec|].
  rewrite query_edges_spec. split; [by intros [? _]|].
  intros Hs. split; [done | apply satisfies_query_all].
Qed.

(** [add_node] creates an empty inner map for the node and nothing creates
    an entry for a destination: in a graph built by the member functions
    every inner map is empty. *)
Lemma built_inner_empty g :
  built g → ∀ n m1, adjacency g !! n = Some m1 → m1 = ∅.
Proof.
  induction 1 as [idx | g Hg IH | g e g' Hg IH Hadd]; intros n m1 Hn.
  - simpl in Hn. by rewrite lookup_empty in Hn.
  - simpl in Hn. unfold touch in Hn.
    destruct (adjacency g !! mkNode (next_node_idx g)) eqn:Hnode.
    + by apply (IH n).
    + destruct (decide (n = mkNode (next_node_idx g))) as [->|Hne].
      * rewrite lookup_insert_eq in Hn. by injection Hn as <-.
      * rewrite lookup_insert_ne in Hn by done. by apply (IH n).
  - unfold add_edge in Hadd.
    destruct (adjacency g !! src e) as [m|] eqn:Hsrc; simpl in Hadd; [|done].
    rewrite (IH _ _ Hsrc), lookup_empty in Hadd. done.
Qed.

(** On every graph built by [add_node] and [add_edge], [add_edge] ends in
    the exception of [at]: the inner map of the source node has no entry
    for the destination. Such a graph stores no edge, and [query_edges]
    returns the empty set on it. *)
Theorem add_edge_out_of_range g e q :
  built g → add_edge g e = None ∧ query_edges g q = ∅.
Proof.
  intros Hg. split.
  - unfold add_edge.
    destruct (adjacency g !! src e) as [m|] eqn:Hsrc; simpl; [|done].
    by rewrite (built_inner_empty g Hg _ _ Hsrc), lookup_empty.
  - apply set_eq. intros x. rewrite query_edges_spec. split.
    + intros [(m1 & m2 & s & H1 & H2 & _) _].
      by rewrite (built_inner_empty g Hg _ _ H1), lookup_empty in H2.
    + intros Hx. by apply not_elem_of_empty in Hx.
Qed.

Lemma add_edge_out_of_range_witness :
  let g := (add_node (add_node (mkGraph 0 ∅)).2).2 in
  built g ∧
  add_edge g (mkEdge (mkNode 0) (mkNode 1) 0 0) = None ∧
  query_edges g query_all = ∅.
Proof.
  assert (Hg : built (add_node (add_node (mkGraph 0 ∅)).2).2)
    by (apply built_node, built_node, built_empty).
  split; [exact Hg|].
  exact (add_edge_out_of_range _ (mkEdge (mkNode 0) (mkNode 1) 0 0) query_all Hg).
Defined.

End AdjacencyGraphProofs.

Module OperatorParamsProofs.
Import Common OperatorParams.

(** C9. [get_op_parameters] returns [nullopt] for every operator whose kind
    is noop, mean, cache, reverse or batchnorm, and for any kind outside its
    dispatch list; it returns an attribute record for every operator whose
    kind appears in the dispatch list. *)
Theorem get_op_parameters_dispatch
    {Op : Type} (op_type : Op → OperatorType)
    (Params : OpClass → Type) (get_params : ∀ c, Op → Params c) (op : Op) :
  (op_type op ∈ omitted_list → get_op_parameters op_type Params get_params op = None) ∧
  (op_type op ∉ dispatch_list → get_op_parameters op_type Params get_params op = None) ∧
  (op_type op ∈ dispatch_list → is_Some (get_op_parameters op_type Params get_params op)).
Proof.
  unfold get_op_parameters, via, omitted_list, dispatch_list.
  destruct (op_type op); (split; [|split]); intros H;
    first [ reflexivity
          | by eexists
          | exfalso; apply H; repeat first [ by left | right ]
          | exfalso; repeat (apply elem_of_cons in H as [H|H]; [discriminate|]);
            by apply elem_of_nil in H ].
Qed.

End OperatorParamsProofs.
Module AggregateProofs.
Import Common TensorFactory AggregateOp CommonProofs TensorFactoryProofs.

Lemma Aggregate_new_shape ext lim dflt model this _inputs _n _lambda_bal model' agg :
  Aggregate_new ext lim dflt model this _inputs _n _lambda_bal = Some (model', agg) →
  ∃ out t gate_preds expert,
    numOutputs agg = 1 ∧ outputs agg = [out] ∧
    tensors model' !! out = Some t ∧
    input_tensor model (inputs agg) 0 = Some gate_preds ∧
    input_tensor model (inputs agg) 4 = Some expert ∧
    data_type t = DT_FLOAT ∧
    num_dims t = num_dims expert ∧
    2 ≤ num_dims expert ∧
    (∀ i, 0 ≤ i < num_dims expert - 2 → zget (dims t) i = zget (dims expert) i) ∧
    zget (dims t) (num_dims expert - 2) = zget (dims gate_preds) (num_dims expert - 2) ∧
    zget (dims t) (num_dims expert - 1) = zget (dims gate_preds) (num_dims expert - 1).
Proof.
  unfold Aggregate_new. intros H. bind_inv H.
  injection H as <- <-. simpl.
  match goal with
  | E : create_parallel_tensor_legion_ordering _ _ _ _ _ _ _ _ _ = Some _ |- _ =>
      apply create_parallel_tensor_legion_ordering_spec in E
        as (t & Ht & _ & _ & _ & Hnd & _ & Hdt & _ & Hnum & Hdims & _)
  end.
  apply (copy_loop (fun i => zget (dims p7) i)) in E22 as (_ & Hlo & _).
  apply aset_Some in E24 as (_ & _ & Hget2 & Hoth2).
  apply aset_Some in E26 as (_ & _ & Hget3 & Hoth3).
  pose proof (zget_lt _ _ _ E23) as Hge.
  exists a, t, p, p7.
  repeat split; try done; try lia.
  - intros i Hi. destruct (Hdims i) as [-> _]; [lia|].
    rewrite Hoth3, Hoth2 by lia. apply Hlo. lia.
  - destruct (Hdims (num_dims p7 - 2)) as [-> _]; [lia|].
    rewrite Hoth3 by lia. by rewrite Hget2, E23.
  - destruct (Hdims (num_dims p7 - 1)) as [-> _]; [lia|].
    by rewrite Hget3, E25.
Qed.

(** C7. For every Aggregate operator that its constructor builds, the
    single output has as many dimensions as the first expert input; its
    dimensions below [num_dim - 2] are those of the first expert input and
    its last two are those of gate_preds at the same positions. In scenario
    S2 the output shape is [[16, 8, 1]] with data type float. *)
Theorem Aggregate_output_shape ext lim dflt model this _inputs _n _lambda_bal
    model' agg :
  Aggregate_new ext lim dflt model this _inputs _n _lambda_bal = Some (model', agg) →
  (∃ out t gate_preds expert,
    numOutputs agg = 1 ∧ outputs agg = [out] ∧
    tensors model' !! out = Some t ∧
    input_tensor model (inputs agg) 0 = Some gate_preds ∧
    input_tensor model (inputs agg) 4 = Some expert ∧
    data_type t = DT_FLOAT ∧
    num_dims t = num_dims expert ∧
    (∀ i, 0 ≤ i < num_dims expert - 2 → zget (dims t) i = zget (dims expert) i) ∧
    zget (dims t) (num_dims expert - 2) = zget (dims gate_preds) (num_dims expert - 2) ∧
    zget (dims t) (num_dims expert - 1) = zget (dims gate_preds) (num_dims expert - 1)) ∧
  Scenarios.output_shape Scenarios.S2_aggregate = Some ([16; 8; 1], DT_FLOAT).
Proof.
  intros H. split; [|by vm_compute].
  apply Aggregate_new_shape in H
    as (out & t & g & e & H1 & H2 & H3 & H4 & H5 & H6 & H7 & _ & H8 & H9 & H10).
  by exists out, t, g, e.
Qed.

Lemma Aggregate_output_shape_witness :
  ∃ m a, Scenarios.S2_aggregate = Some (m, a) ∧
    (∃ out t gate_preds expert,
      numOutputs a = 1 ∧ outputs a = [out] ∧
      tensors m !! out = Some t ∧
      input_tensor Scenarios.S2_model (inputs a) 0 = Some gate_preds ∧
      input_tensor Scenarios.S2_model (inputs a) 4 = Some expert ∧
      data_type t = DT_FLOAT ∧
      num_dims t = num_dims expert ∧
      (∀ i, 0 ≤ i < num_dims expert - 2 → zget (dims t) i = zget (dims expert) i) ∧
      zget (dims t) (num_dims expert - 2) = zget (dims gate_preds) (num_dims expert - 2) ∧
      zget (dims t) (num_dims expert - 1) = zget (dims gate_preds) (num_dims expert - 1)) ∧
    Scenarios.output_shape Scenarios.S2_aggregate = Some ([16; 8; 1], DT_FLOAT).
Proof.
  assert (Hsome : is_Some Scenarios.S2_aggregate) by (vm_compute; eauto).
  destruct Hsome as [[m a] E].
  exists m, a. split; [exact E|].
  exact (Aggregate_output_shape _ _ _ _ _ _ _ _ _ _ E).
Defined.

(** The member array of a constructed operator has exactly the [n + 4]
    operand slots. *)
Lemma Aggregate_new_inputs ext lim dflt model this _inputs _n _lambda_bal model' agg :
  Aggregate_new ext lim dflt model this _inputs _n _lambda_bal = Some (model', agg) →
  numInputs agg = n agg + 4 ∧ 0 < n agg ∧
  Z.of_nat (length (inputs agg)) ≤ n agg + 4 ∧
  (∀ p t, tensors model !! p = Some t → p ≠ next_free model →
          tensors model' !! p = Some t).
Proof.
  unfold Aggregate_new. intros H. bind_inv H.
  injection H as <- <-. simpl in *.
  match goal with
  | E : create_parallel_tensor_legion_ordering _ _ _ _ _ _ _ _ _ = Some _ |- _ =>
      apply create_parallel_tensor_legion_ordering_spec in E
        as (t & _ & -> & Hts & _)
  end.
  match goal with E : assert (0 <? _) = Some _ |- _ => apply assert_Some in E end.
  repeat split; try lia.
  - rewrite length_take. lia.
  - intros q t' Hq Hne. rewrite Hts. by rewrite lookup_insert_ne.
Qed.

Section CostProofs.
Context {Sim Meta : Type} (cx : CostExternals Sim Meta).

(** With fewer than [i + 4 + count] slots the first loop cannot run to
    completion: it stops at [return false] or reads an empty slot. *)
Lemma collect_sub_inputs_short model inputs mv count :
  ∀ i, 0 ≤ i → (1 ≤ count)%nat →
    Z.of_nat (length inputs) < i + 4 + Z.of_nat count →
    collect_sub_inputs cx model inputs mv count i = None ∨
    collect_sub_inputs cx model inputs mv count i = Some None.
Proof.
  induction count as [|c IH]; intros i Hi Hc Hlen; [lia|]. simpl.
  destruct (input_tensor model inputs (i + 4)) as [t|] eqn:Ht; simpl; [|by left].
  destruct (get_sub_tensor cx t mv) as [sub|]; [|by right].
  assert (Hlt : i + 4 < Z.of_nat (length inputs)).
  { unfold input_tensor in Ht.
    destruct (zget inputs (i + 4)) as [p|] eqn:Hp; [|done].
    apply zget_lt in Hp. lia. }
  destruct (IH (i + 1)) as [-> | ->]; try lia; simpl; auto.
Qed.

(** When every [get_sub_tensor] call succeeds, the first loop on such an
    array ends in the read of an empty slot. *)
Lemma collect_sub_inputs_overrun model inputs mv count :
  (∀ t, is_Some (get_sub_tensor cx t mv)) →
  ∀ i, 0 ≤ i → (1 ≤ count)%nat →
    Z.of_nat (length inputs) < i + 4 + Z.of_nat count →
    collect_sub_inputs cx model inputs mv count i = None.
Proof.
  intros Hsub.
  induction count as [|c IH]; intros i Hi Hc Hlen; [lia|]. simpl.
  destruct (input_tensor model inputs (i + 4)) as [t|] eqn:Ht; simpl; [|done].
  destruct (Hsub t) as [sub ->].
  assert (Hlt : i + 4 < Z.of_nat (length inputs)).
  { unfold input_tensor in Ht.
    destruct (zget inputs (i + 4)) as [p|] eqn:Hp; [|done].
    apply zget_lt in Hp. lia. }
  rewrite IH by lia. done.
Qed.

(** The outcomes of a call that does return: the flag is [false] only
    on a failed [get_sub_tensor]; a null allocation yields the maximal
    run time for both passes, and otherwise the backward time is zero. *)
Lemma measure_operator_cost_outcomes model self sim mv cm flag sim' cm' :
  measure_operator_cost cx model self sim mv cm = Some (flag, sim', cm') →
  (flag = false ∧ sim' = sim ∧ cm' = cm) ∨
  (flag = true ∧
   ((forward_time cm' = MAXIMUM_TASK_RUN_TIME cx ∧
     backward_time cm' = MAXIMUM_TASK_RUN_TIME cx) ∨
    backward_time cm' = 0%Q)).
Proof.
  unfold measure_operator_cost.
  destruct (assert (numInputs self <=? MAX_NUM_INPUTS cx));
    cbn [mbind option_bind]; [|done].
  destruct (collect_sub_inputs _ _ _ _ _ _) as [[subs|]|];
    cbn [mbind option_bind]; [| |done].
  2: { intros [= <- <- <-]. by left. }
  destruct (input_tensor model (inputs self) 0) as [in0|];
    cbn [mbind option_bind]; [|done].
  destruct (get_sub_tensor cx in0 mv) as [sub_pred|].
  2: { intros [= <- <- <-]. by left. }
  destruct (input_tensor model (inputs self) 1) as [in1|];
    cbn [mbind option_bind]; [|done].
  destruct (get_sub_tensor cx in1 mv) as [sub_assign|].
  2: { intros [= <- <- <-]. by left. }
  destruct (zget (outputs self) 0 ≫= _) as [out0|];
    cbn [mbind option_bind]; [|done].
  destruct (get_sub_tensor cx out0 mv) as [sub_output|].
  2: { intros [= <- <- <-]. by left. }
  destruct (allocate_inputs _ _ _ _) as [[sim1 ptrs] oom].
  destruct (allocate cx sim1 _ _) as [sim2 assign_ptr].
  destruct (allocate cx sim2 _ _) as [sim3 pred_ptr].
  destruct (allocate cx sim3 _ _) as [sim4 output_ptr].
  destruct (_ || _).
  - intros [= <- <- <-]. right. split; [done|]. by left.
  - destruct (assert (negb _)); cbn [mbind option_bind]; [|done].
    destruct (zget subs 0); cbn [mbind option_bind]; [|done].
    destruct (inner_measure_operator_cost _ _ _ _) as [sim5 cm5].
    intros [= <- <- <-]. right. split; [done|]. by right.
Qed.
End CostProofs.

(** On an operator built by the constructor the first loop of
    [measure_operator_cost] runs its index over [[0, numInputs)] while it
    reads slot [i + 4]: the call never returns [true], and when every
    [get_sub_tensor] call succeeds it ends in the read of slot [n + 4],
    which holds no tensor. *)
Lemma measure_operator_cost_constructed
    {Sim Meta : Type} (cx : CostExternals Sim Meta)
    ext lim dflt model this _inputs _n _lambda_bal model' agg sim mv cm :
  Aggregate_new ext lim dflt model this _inputs _n _lambda_bal = Some (model', agg) →
  (measure_operator_cost cx model' agg sim mv cm = None ∨
   measure_operator_cost cx model' agg sim mv cm = Some (false, sim, cm)) ∧
  ((∀ t, is_Some (get_sub_tensor cx t mv)) →
   measure_operator_cost cx model' agg sim mv cm = None).
Proof.
  intros H. apply Aggregate_new_inputs in H as (Hnum & Hn & Hlen & _).
  unfold measure_operator_cost. split.
  - destruct (assert (numInputs agg <=? _)); simpl; [|by left].
    destruct (collect_sub_inputs_short cx model' (inputs agg) mv
                (Z.to_nat (numInputs agg)) 0) as [-> | ->]; try lia; auto.
  - intros Hsub. destruct (assert (numInputs agg <=? _)); simpl; [|done].
    rewrite collect_sub_inputs_overrun; try done; lia.
Qed.

(** C8, at the operator of scenario S2 with a simulator that never runs
    out of memory and tensor queries that always succeed: the call does not
    return [true]; it reads input slot 7 of an operator with 7 inputs. *)
Theorem measure_operator_cost_S2_overrun :
  ∃ m a, Scenarios.S2_aggregate = Some (m, a) ∧
         numInputs a = 7 ∧ length (inputs a) = 7%nat ∧
         measure_operator_cost Scenarios.roomy_simulator m a 0
           (mkMachineView []) (mkCostMetrics 0 0 0 0) = None.
Proof.
  assert (Hsome : is_Some Scenarios.S2_aggregate) by (vm_compute; eauto).
  destruct Hsome as [[m a] E].
  exists m, a. split; [exact E|].
  pose proof (measure_operator_cost_constructed Scenarios.roomy_simulator
                _ _ _ _ _ _ _ _ _ _ 0 (mkMachineView []) (mkCostMetrics 0 0 0 0) E)
    as [_ Hnone].
  split; [|split].
  - revert E. vm_compute. by intros [= <- <-].
  - revert E. vm_compute. by intros [= <- <-].
  - apply Hnone. intros t. by eexists.
Qed.

End AggregateProofs.

Module LifterProofs.
Import Common TensorFactory Lifter CommonProofs TensorFactoryProofs.

Lemma int_mul_Some a b c : int_mul a b = Some c → c = a * b.
Proof. unfold int_mul. by destruct (_ && _); intros [= <-]. Qed.

(** What a run of the block that returns leaves behind. *)
Lemma create_operator_from_layer_input_post ext m store layer inputs m' store' ret :
  create_operator_from_layer_input ext m store layer inputs = Some (m', store', ret) →
  input_lifted m store layer m' store' ret.
Proof.
  unfold create_operator_from_layer_input, input_lifted. intros H. bind_inv H.
  injection H as <- <- <-.
  rename t into tensor, a into tp, a0 into pt, f into m1, f0 into m2,
         E2 into Hloop, E3 into Hset, E4 into Hcreate, E6 into Hdp, E7 into Hlast.
  apply create_parallel_tensor_legion_ordering_spec in Hcreate
    as (t & Ht & Hp & Hts & Hcfg & Hnd & _ & Hdt & _ & Hnum & Hdims & Hown).
  cbn beta iota in Hown. destruct Hown as (Hown & _ & Hops & Hobjs & Hfree).
  rewrite (for_range_ext _
             (fun i c => d ← (s ← zget (t_dims tensor) i;
                              Some (mkParallelDim s 1 (-1) false));
                         aset c i d)) in Hloop
    by (intros i c; by destruct (zget (t_dims tensor) i)).
  apply (copy_loop (fun j => s ← zget (t_dims tensor) j;
                             Some (mkParallelDim s 1 (-1) false))) in Hloop
    as (_ & Hlo & _).
  apply aset_Some in Hset as (_ & _ & Hget & Hoth).
  set (noop := (next_free m + 1)%N) in *.
  assert (Hlen : 0 ≤ t_num_dims tensor) by (unfold t_num_dims; lia).
  assert (Hd1 : ∀ j s, zget (t_dims tensor) j = Some s →
            zget (dims t) j = Some (mkParallelDim s 1 (-1) false)).
  { intros j s Hj. pose proof (zget_lt _ _ _ Hj) as Hr.
    destruct (Hdims j) as [-> _]; [unfold t_num_dims; lia|].
    rewrite Hoth by (unfold t_num_dims; lia).
    destruct (Hlo j) as [-> _]; [unfold t_num_dims; lia|]. by rewrite Hj. }
  assert (Hd2 : zget (dims t) (t_num_dims tensor) = Some (mkParallelDim 1 1 (-1) true)).
  { destruct (Hdims (t_num_dims tensor)) as [-> _]; [lia|]. done. }
  exists tp, tensor, pt, t, noop.
  split; [done|]. split; [done|]. split; [apply lookup_insert_eq|].
  rewrite <- Hcfg.
  destruct (only_data_parallel (config m1)).
  - destruct (int_mul _ _) as [deg|] eqn:Hmul; [|done].
    cbn [mbind option_bind] in Hdp. injection Hdp as <-.
    apply int_mul_Some in Hmul. subst deg.
    unfold push_Repartition in *. simpl in *.
    rewrite Hops in *. rewrite last_snoc in Hlast. injection Hlast as <-.
    repeat split; try done.
    + rewrite lookup_insert_ne by (unfold noop; rewrite Hfree; lia). rewrite Hobjs.
      by rewrite lookup_insert_eq.
    + exists (next_free m1). repeat split.
      * by rewrite <- app_assoc.
      * by rewrite lookup_insert_eq.
  - injection Hdp as <-.
    rewrite Hops in *. rewrite last_snoc in Hlast. injection Hlast as <-.
    repeat split; try done.
    by rewrite Hobjs, lookup_insert_eq.
Qed.

(** The block returns on a liftable layer. *)
Lemma create_operator_from_layer_input_total ext m store layer :
  liftable ext m store layer →
  is_Some (create_operator_from_layer_input ext m store layer []).
Proof.
  intros (tp & tensor & Htp & Hstore & Hnone & Hmax & Hleg & Hvalid & Hint).
  unfold create_operator_from_layer_input.
  rewrite Htp. cbn [mbind option_bind assert bool_decide decide_rel].
  rewrite bool_decide_eq_true_2 by done. cbn [mbind option_bind].
  rewrite Hstore. cbn [mbind option_bind].
  set (N := t_num_dims tensor) in *.
  assert (HN : 0 ≤ N) by (unfold N, t_num_dims; lia).
  set (src := fun j => s ← zget (t_dims tensor) j;
                       Some (mkParallelDim s 1 (-1) false)).
  rewrite (for_range_ext _ (fun i c => d ← src i; aset c i d))
    by (intros i c; unfold src; by destruct (zget (t_dims tensor) i)).
  assert (Hsrc : ∀ i, 0 ≤ i < N → is_Some (src i)).
  { intros i Hi. unfold src, zget. destruct (Z.leb_spec 0 i); [|lia].
    destruct (lookup_lt_is_Some_2 (t_dims tensor) (Z.to_nat i)) as [s ->];
      [unfold N, t_num_dims in Hi; lia | by eexists]. }
  destruct (copy_loop_total src (new_array (MAX_TENSOR_DIM ext)) N) as [dims1 H1];
    [unfold new_array; rewrite length_replicate; lia | done |].
  rewrite H1. cbn [mbind option_bind].
  apply copy_loop in H1 as (Hlen1 & Hlo & _).
  unfold new_array in Hlen1. rewrite length_replicate in Hlen1.
  assert (H2 : aset dims1 N (mkParallelDim 1 1 (-1) true)
               = Some (<[Z.to_nat N := Some (mkParallelDim 1 1 (-1) true)]> dims1)).
  { unfold aset. destruct (Z.leb_spec 0 N); [|lia].
    by destruct (Z.ltb_spec N (Z.of_nat (length dims1))); [|lia]. }
  rewrite H2. cbn [mbind option_bind].
  apply aset_Some in H2 as (_ & _ & Hget & Hoth).
  set (dims2 := <[Z.to_nat N := Some (mkParallelDim 1 1 (-1) true)]> dims1) in *.
  assert (Hdims2 : ∀ i, 0 ≤ i < N + 1 →
            aget dims2 i = (lifted_dims tensor) !! Z.to_nat i ∧
            is_Some (aget dims2 i)).
  { intros i Hi. unfold lifted_dims. destruct (decide (i = N)) as [->|Hne].
    - rewrite Hget. split; [|by eexists].
      rewrite lookup_app_r by (rewrite length_fmap; unfold N, t_num_dims; lia).
      rewrite length_fmap.
      by replace (Z.to_nat N - length (t_dims tensor))%nat with O
        by (unfold N, t_num_dims; lia).
    - rewrite Hoth by done. destruct (Hlo i) as [-> Hsome]; [lia|].
      split; [|done].
      rewrite lookup_app_l by (rewrite length_fmap; unfold N, t_num_dims in *; lia).
      rewrite list_lookup_fmap. unfold src, zget.
      destruct (Z.leb_spec 0 i); [|lia].
      by destruct (t_dims tensor !! Z.to_nat i). }
  destruct (create_parallel_tensor_legion_ordering_total ext m (N + 1) dims2
              (t_data_type tensor) None 0 true (tensor_guid tensor))
    as [[m1 pt] Hc]; [lia | lia | by intros i Hi; apply Hdims2 | |].
  { intros t Hnum Hd. apply Hvalid. apply list_eq. intros k.
    destruct (decide (k < Z.to_nat (N + 1))%nat) as [Hlt|Hge].
    - specialize (Hd (Z.of_nat k)). unfold zget in Hd.
      destruct (Z.leb_spec 0 (Z.of_nat k)); [|lia].
      rewrite Nat2Z.id in Hd. rewrite Hd by lia.
      destruct (Hdims2 (Z.of_nat k)) as [-> _]; [lia|]. by rewrite Nat2Z.id.
    - rewrite !lookup_ge_None_2; [done| |].
      + unfold lifted_dims. rewrite length_app, length_fmap. simpl.
        unfold N, t_num_dims in Hge. lia.
      + unfold num_dims in Hnum. lia. }
  rewrite Hc. cbn [mbind option_bind].
  rewrite Hnone. rewrite bool_decide_eq_true_2 by done.
  cbn [mbind option_bind assert].
  apply create_parallel_tensor_legion_ordering_spec in Hc
    as (t & _ & _ & _ & Hcfg & _ & _ & _ & _ & _ & _ & _ & _ & Hops & _).
  rewrite Hcfg.
  destruct (only_data_parallel (config m)) eqn:Hdp.
  - assert (Hmul : int_mul (numNodes (config m)) (workersPerNode (config m))
                   = Some (numNodes (config m) * workersPerNode (config m))).
    { unfold int_mul. specialize (Hint eq_refl).
      destruct (Z.leb_spec (- 2 ^ 31) (numNodes (config m) * workersPerNode (config m)));
        [|lia].
      by destruct (Z.ltb_spec (numNodes (config m) * workersPerNode (config m)) (2 ^ 31));
        [|lia]. }
    rewrite Hmul. cbn [mbind option_bind]. unfold push_Repartition. simpl.
    rewrite last_snoc. by eexists.
  - cbn [mbind option_bind]. rewrite Hops, last_snoc. by eexists.
Qed.

(** C6. For an OP_INPUT layer over an N-dimensional logical tensor the
    lifter creates a parallel tensor of N+1 dimensions: the first N copy the
    logical sizes with degree 1, parallel_idx -1 and no replica mark, the
    appended last one has size 1, degree 1, parallel_idx -1 and is a replica
    dimension; the tensor is owned by a fresh input operator. With
    [only_data_parallel] set a Repartition operator over dimension N-1 with
    degree [numNodes * workersPerNode] is appended and returned. *)
Theorem create_operator_from_layer_input_spec ext m store layer :
  liftable ext m store layer →
  ∃ m' store' ret,
    create_operator_from_layer_input ext m store layer [] = Some (m', store', ret) ∧
    input_lifted m store layer m' store' ret.
Proof.
  intros Hl.
  destruct (create_operator_from_layer_input_total _ _ _ _ Hl)
    as [[[m' store'] ret] E].
  exists m', store', ret. split; [done|].
  by apply create_operator_from_layer_input_post in E.
Qed.

Lemma S1_liftable :
  liftable Scenarios.scenario_externals (Scenarios.S1_model true)
           Scenarios.S1_store Scenarios.S1_layer.
Proof.
  exists 10%N, (mkTensor 7 DT_FLOAT [64; 128] None).
  split; [done|]. split; [done|]. split; [done|].
  split; [by vm_compute|]. split; [by vm_compute|]. split.
  - intros t Ht. unfold Scenarios.scenario_externals, check_valid, shape_invariants.
    rewrite Ht. by vm_compute.
  - intros _. by vm_compute.
Defined.

Lemma create_operator_from_layer_input_witness :
  liftable Scenarios.scenario_externals (Scenarios.S1_model true)
           Scenarios.S1_store Scenarios.S1_layer ∧
  ∃ m' store' ret,
    create_operator_from_layer_input Scenarios.scenario_externals
      (Scenarios.S1_model true) Scenarios.S1_store Scenarios.S1_layer []
      = Some (m', store', ret) ∧
    input_lifted (Scenarios.S1_model true) Scenarios.S1_store Scenarios.S1_layer
                 m' store' ret.
Proof.
  split; [exact S1_liftable|].
  exact (create_operator_from_layer_input_spec _ _ _ _ S1_liftable).
Defined.

(** S1 with [only_data_parallel]: the input operator and the repartition
    operator are appended, and the latter is returned. *)
Example input_layer_S1 :
  (λ r, (operators (r.1).1, r.2)) <$>
    create_operator_from_layer_input Scenarios.scenario_externals
      (Scenarios.S1_model true) Scenarios.S1_store Scenarios.S1_layer []
  = Some ([301; 302]%N, 302%N).
Proof. by vm_compute. Qed.

End LifterProofs.

Module RegionMapperProofs.
Import Common RegionMapper CommonProofs.

Lemma tabulate_spec {A} n (f : Z → option A) l :
  tabulate n f = Some l →
  length l = Z.to_nat n ∧
  ∀ i, 0 ≤ i < n → ∃ v, f i = Some v ∧ zget l i = Some v.
Proof.
  unfold tabulate. intros H. apply mapM_Some in H.
  pose proof (Forall2_length _ _ _ H) as Hlen. rewrite length_seqZ in Hlen.
  split; [done|]. intros i Hi.
  assert (Hs : seqZ 0 n !! Z.to_nat i = Some i).
  { rewrite lookup_seqZ. lia. }
  destruct (Forall2_lookup_l _ _ _ _ _ H Hs) as (v & Hv & Hf).
  exists v. split; [done|].
  unfold zget. destruct (Z.leb_spec 0 i); [done|lia].
Qed.

Lemma zget_ZEROES n i : 0 ≤ i < n → zget (ZEROES n) i = Some 0.
Proof.
  intros Hi. unfold zget, ZEROES. destruct (Z.leb_spec 0 i); [|lia].
  apply lookup_replicate_2. lia.
Qed.


(** On a non-negative size and a positive number of parts the truncating
    quotient of the source is the ceiling. *)
Lemma extent_is_ceiling s nparts :
  0 ≤ s → 1 ≤ nparts → (s - 1 + nparts) ÷ nparts = ceil_div s nparts.
Proof.
  intros Hs Hn. unfold ceil_div.
  rewrite Z.quot_div_nonneg by lia.
  assert (Hlow : (s - 1 + nparts) / nparts * nparts ≤ s - 1 + nparts)
    by (rewrite Z.mul_comm; apply Z.mul_div_le; lia).
  assert (Hup : s - 1 + nparts < ((s - 1 + nparts) / nparts + 1) * nparts).
  { pose proof (Z.mod_pos_bound (s - 1 + nparts) nparts).
    pose proof (Z.div_mod (s - 1 + nparts) nparts). lia. }
  assert (Hlow' : (- s) / nparts * nparts ≤ - s)
    by (rewrite Z.mul_comm; apply Z.mul_div_le; lia).
  assert (Hup' : - s < ((- s) / nparts + 1) * nparts).
  { pose proof (Z.mod_pos_bound (- s) nparts).
    pose proof (Z.div_mod (- s) nparts). lia. }
  nia.
Qed.

Lemma ceil_div_spec s nparts :
  1 ≤ nparts →
  (ceil_div s nparts - 1) * nparts < s ≤ ceil_div s nparts * nparts.
Proof.
  intros Hn. unfold ceil_div.
  pose proof (Z.mod_pos_bound (- s) nparts).
  pose proof (Z.div_mod (- s) nparts). nia.
Qed.

Lemma points_of_spec los : ∀ his p,
  p ∈ points_of los his ↔ Forall2 Z.le los p ∧ Forall2 Z.le p his.
Proof.
  induction los as [|l los IH]; intros [|h his] p; simpl.
  - rewrite list_elem_of_singleton. split.
    + intros ->. split; constructor.
    + intros [H _]. by inversion H.
  - split; [by intros ?%elem_of_nil|].
    intros [H1 H2]. inversion H1; subst. inversion H2.
  - split; [by intros ?%elem_of_nil|].
    intros [H1 H2]. inversion H1; subst. inversion H2.
  - rewrite list_elem_of_bind. split.
    + intros (x & Hp & Hx). apply list_elem_of_bind in Hp as (q & Hp & Hq).
      apply list_elem_of_singleton in Hp as ->.
      apply IH in Hq as [Hq1 Hq2]. apply elem_of_seqZ in Hx.
      split; constructor; try done; lia.
    + intros [H1 H2]. inversion H1 as [|? x ? q Hlx Hq1]; subst.
      inversion H2 as [|? ? ? ? Hxh Hq2]; subst.
      exists x. split.
      * apply list_elem_of_bind. exists q. split; [by apply list_elem_of_singleton|].
        by apply IH.
      * apply elem_of_seqZ. lia.
Qed.

Lemma points_spec r p : p ∈ points r ↔ in_rect r p.
Proof. apply points_of_spec. Qed.

Lemma is_index_partition_disjoint_spec ip :
  is_index_partition_disjoint ip = true ↔ partition_disjoint ip.
Proof.
  unfold is_index_partition_disjoint, partition_disjoint.
  rewrite bool_decide_eq_true, Forall_forall. split.
  - intros H c1 c2 x Hc1 Hc2 Hs1 Hs2.
    apply points_spec in Hc1, Hc2.
    specialize (H c1 Hc1). rewrite Forall_forall in H.
    destruct (H c2 Hc2) as [?|Hno]; [done|].
    rewrite Forall_forall in Hno. exfalso.
    apply (Hno x); [|done]. apply points_spec. by destruct Hs1.
  - intros H c1 Hc1. apply Forall_forall. intros c2 Hc2.
    destruct (decide (c1 = c2)) as [?|Hne]; [by left|right].
    apply Forall_forall. intros x _ [Hs1 Hs2]. apply Hne.
    apply (H c1 c2 x); try done; by apply points_spec.
Qed.

Lemma is_index_partition_complete_spec ip :
  is_index_partition_complete ip = true ↔ partition_complete ip.
Proof.
  unfold is_index_partition_complete, partition_complete.
  rewrite bool_decide_eq_true, Forall_forall. split.
  - intros H x Hx. apply points_spec in Hx.
    specialize (H x Hx). apply Exists_exists in H as (c & Hc & Hs).
    exists c. split; [by apply points_spec|done].
  - intros H x Hx. apply points_spec in Hx.
    destruct (H x Hx) as (c & Hc & Hs).
    apply Exists_exists. exists c. split; [by apply points_spec|done].
Qed.





(** S6: a tensor with dimensions [(16, 4, 0)] and [(8, 2, 1)] mapped onto a
    4 x 2 task space gets tiles of 4 x 4 points, one per task; the partition
    is disjoint and complete and each of the 8 subregions has 16 points. *)
Theorem S6_region_map :
  ∃ mp ip,
    Scenarios.S6_mapped = Some mp ∧ m_part mp = Some ip ∧
    m_rect mp = mkRect [0; 0] [15; 7] ∧
    ip_extent ip = mkRect [0; 0] [3; 3] ∧
    ip_transform ip = [[4; 0]; [0; 4]] ∧
    partition_disjoint ip ∧ partition_complete ip ∧
    length (points (ip_colors ip)) = 8%nat ∧
    Forall (fun c => volume ip c = 16%nat) (points (ip_colors ip)).
Proof.
  eexists. eexists. split; [by vm_compute|]. split; [done|].
  split; [done|]. split; [done|]. split; [done|]. split; [|split; [|split]].
  - rewrite <- is_index_partition_disjoint_spec. by vm_compute.
  - rewrite <- is_index_partition_complete_spec. by vm_compute.
  - by vm_compute.
  - refine (bool_decide_unpack _ _). vm_compute. exact I.
Qed.

End RegionMapperProofs.

Module FusionProofs.
Import Common Fusion CommonProofs.

(** A loop with early return: an invariant of the heap survives the
    iterations that go on, and a returned value comes from one of the
    indices, run on a heap that satisfies the invariant. *)
Lemma first_return_inv {I R} (P : Heap → Prop) (indices : list I)
    (body : Heap → I → option (Heap * option R)) :
  (∀ h0 i h1, i ∈ indices → P h0 → body h0 i = Some (h1, None) → P h1) →
  ∀ h h' r,
    first_return indices h body = Some (h', r) → P h →
    (r = None → P h') ∧
    ∀ res, r = Some res →
      ∃ i h0, i ∈ indices ∧ P h0 ∧ body h0 i = Some (h', Some res).
Proof.
  induction indices as [|i rest IH]; intros Hbody h h' r Hrun HP; simpl in Hrun.
  - injection Hrun as <- <-. split; [done|]. intros ? [=].
  - destruct (body h i) as [[h1 [res|]]|] eqn:Hb; simpl in Hrun; [| |done].
    + injection Hrun as <- <-. split; [done|].
      intros ? [= <-]. exists i, h. split; [left|done].
    + assert (HP1 : P h1) by (eapply Hbody; [left|done|done]).
      destruct (IH (fun h0 j h2 Hj => Hbody h0 j h2 (list_elem_of_further _ _ _ Hj))
                  h1 h' r Hrun HP1) as [HP' Hres].
      split; [done|]. intros res Hr. destruct (Hres res Hr) as (j & h0 & Hj & HP0 & Hb0).
      exists j, h0. split; [by right|done].
Qed.

Lemma frame_refl p h : frame p h h.
Proof. by repeat split. Qed.

Lemma frame_trans p h1 h2 h3 : frame p h1 h2 → frame p h2 h3 → frame p h1 h3.
Proof.
  intros (T1 & K1 & O1 & F1) (T2 & K2 & O2 & F2). repeat split.
  - congruence.
  - intros q. by rewrite K2.
  - intros q. by rewrite O2.
  - intros q Hq. by rewrite F2, F1.
Qed.

Lemma set_inputs_frame h p op ins :
  ops h !! p = Some op → frame p h (set_inputs h p op ins).
Proof.
  intros Hop. unfold frame, set_inputs, kind, outs. simpl. repeat split.
  - intros q. destruct (decide (q = p)) as [->|Hne].
    + by rewrite lookup_insert_eq, Hop.
    + by rewrite lookup_insert_ne.
  - intros q. destruct (decide (q = p)) as [->|Hne].
    + by rewrite lookup_insert_eq, Hop.
    + by rewrite lookup_insert_ne.
  - intros q Hne. by rewrite lookup_insert_ne.
Qed.

Lemma find_output_spec h fused_op r k :
  find_output h fused_op r = Some k →
  ∃ fo, output_slot h fused_op r k fo.
Proof.
  unfold find_output, output_slot. intros H.
  destruct (ops h !! fused_op) as [fop|] eqn:Hfop; simpl in H; [|done].
  destruct (for_each_opt _ _ _) as [found|] eqn:Hloop; simpl in H; [|done].
  subst found.
  pose (P := fun (m : nat) (found : option nat) =>
    match found with
    | Some k0 => (k0 < m)%nat ∧
        (∃ fo fot, outputs fop !! k0 = Some fo ∧ tens h !! fo = Some fot ∧
                   region fot = r) ∧
        ∀ k' fo' fot', (k' < m)%nat → outputs fop !! k' = Some fo' →
                       tens h !! fo' = Some fot' → region fot' = r → k' = k0
    | None => ∀ k' fo' fot', (k' < m)%nat → outputs fop !! k' = Some fo' →
                             tens h !! fo' = Some fot' → region fot' ≠ r
    end).
  assert (HP : P (0 + length (outputs fop))%nat (Some k)).
  { apply (for_each_opt_seq_inv P _ _ _ _ _ Hloop).
    - simpl. intros; lia.
    - intros j s1 s2 Hj HP1 Hb.
      destruct (outputs fop !! j) as [fo|] eqn:Hfo; simpl in Hb; [|done].
      destruct (tens h !! fo) as [fot|] eqn:Hfot; simpl in Hb; [|done].
      destruct (bool_decide (region fot = r)) eqn:Hr.
      + apply bool_decide_eq_true in Hr.
        destruct (assert _) eqn:Ha; simpl in Hb; [|done].
        apply assert_Some, bool_decide_eq_true in Ha. subst s1.
        injection Hb as <-. simpl in *. split; [lia|]. split; [by eauto|].
        intros k' fo' fot' Hk' Ho' Ht' Hr'.
        destruct (decide (k' = j)) as [|Hne]; [done|].
        exfalso. apply (HP1 k' fo' fot'); [lia|done|done|done].
      + apply bool_decide_eq_false in Hr. injection Hb as <-.
        destruct s1 as [k0|]; simpl in *.
        * destruct HP1 as (Hlt & Hex & Huniq). split; [lia|]. split; [done|].
          intros k' fo' fot' Hk' Ho' Ht' Hr'.
          destruct (decide (k' = j)) as [->|Hne].
          -- rewrite Hfo in Ho'. injection Ho' as <-. rewrite Hfot in Ht'.
             injection Ht' as <-. done.
          -- apply (Huniq k' fo' fot'); [lia|done|done|done].
        * intros k' fo' fot' Hk' Ho' Ht'.
          destruct (decide (k' = j)) as [->|Hne].
          -- rewrite Hfo in Ho'. injection Ho' as <-. rewrite Hfot in Ht'.
             by injection Ht' as <-.
          -- apply (HP1 k' fo' fot'); [lia|done|done]. }
  simpl in HP. destruct HP as (Hlt & (fo & fot & Ho & Ht & Hr) & Huniq).
  exists fo, fop, fot. repeat split; try done.
  intros k' fo' fot' Ho' Ht' Hr'.
  apply (Huniq k' fo' fot'); try done. by apply lookup_lt_Some in Ho'.
Qed.

Lemma output_slot_frame p h h' fused_op r k fo :
  frame p h h' → output_slot h fused_op r k fo ↔ output_slot h' fused_op r k fo.
Proof.
  intros (HT & _ & HO & _). unfold output_slot. rewrite HT.
  specialize (HO fused_op). unfold outs in HO.
  split; intros (fop & fot & Hf & Hrest).
  - rewrite Hf in HO. destruct (ops h' !! fused_op) as [fop'|]; [|done].
    injection HO as HO. exists fop', fot. rewrite HO. by split.
  - rewrite Hf in HO. destruct (ops h !! fused_op) as [fop'|]; [|done].
    injection HO as HO. exists fop', fot. rewrite <- HO. by split.
Qed.

Lemma rewrite_input_spec fused_op pl pi p idx h h' :
  rewrite_input fused_op pl pi p idx h = Some h' →
  frame p h h' ∧
  ∃ op t tb new,
    ops h !! p = Some op ∧ inputs op !! idx = Some t ∧ tens h !! t = Some tb ∧
    (inputs <$> ops h' !! p) = Some (<[idx := new]> (inputs op)) ∧
    if bool_decide (owner_op tb = Some pl) || bool_decide (owner_op tb = Some pi)
    then ∃ k, output_slot h fused_op (region tb) k new
    else new = t.
Proof.
  unfold rewrite_input. intros H.
  destruct (ops h !! p) as [op|] eqn:Hop; simpl in H; [|done].
  destruct (inputs op !! idx) as [t|] eqn:Ht; simpl in H; [|done].
  destruct (tens h !! t) as [tb|] eqn:Htb; simpl in H; [|done].
  destruct (_ || _) eqn:Hown.
  - destruct (find_output h fused_op (region tb)) as [k|] eqn:Hk; simpl in H; [|done].
    destruct (ops h !! fused_op) as [fop|] eqn:Hfop; simpl in H; [|done].
    destruct (outputs fop !! k) as [new|] eqn:Hnew; simpl in H; [|done].
    injection H as <-. split; [by apply set_inputs_frame|].
    exists op, t, tb, new. rewrite Hown. repeat split; try done.
    + unfold set_inputs. simpl. by rewrite lookup_insert_eq.
    + exists k. apply find_output_spec in Hk as (fo & Hslot).
      destruct Hslot as (fop' & fot & Hf' & Ho' & Hrest).
      rewrite Hfop in Hf'. injection Hf' as <-. rewrite Hnew in Ho'.
      injection Ho' as <-. by exists fop, fot.
  - injection H as <-. split; [apply frame_refl|].
    exists op, t, tb, t. rewrite Hown. repeat split; try done.
    rewrite Hop. simpl. by rewrite list_insert_id.
Qed.

(** The loop over the inputs of one operator. *)
Lemma rewrite_op_spec fused_op pl pi p h h' :
  rewrite_op fused_op pl pi p h = Some h' →
  frame p h h' ∧ rewritten h h' fused_op pl pi p.
Proof.
  unfold rewrite_op. intros H.
  destruct (ops h !! p) as [op|] eqn:Hop; simpl in H; [|done].
  pose (P := fun (m : nat) (hm : Heap) =>
    frame p h hm ∧
    ∃ ins, (inputs <$> ops hm !! p) = Some ins ∧
      length ins = length (inputs op) ∧
      (∀ idx, (m ≤ idx)%nat → ins !! idx = inputs op !! idx) ∧
      ∀ idx t tb, (idx < m)%nat → inputs op !! idx = Some t → tens h !! t = Some tb →
        if bool_decide (owner_op tb = Some pl) || bool_decide (owner_op tb = Some pi)
        then ∃ k fo, output_slot h fused_op (region tb) k fo ∧ ins !! idx = Some fo
        else ins !! idx = Some t).
  assert (HP : P (0 + length (inputs op))%nat h').
  { apply (for_each_opt_seq_inv P _ _ _ _ _ H).
    - split; [apply frame_refl|]. exists (inputs op). rewrite Hop.
      repeat split; try done. intros; lia.
    - intros j h1 h2 Hj (Hfr & ins & Hins & Hlen & Hrest & Hdone) Hb.
      apply rewrite_input_spec in Hb
        as (Hfr2 & op1 & t & tb & new & Hop1 & Ht & Htb & Hins2 & Hnew).
      rewrite Hop1 in Hins. injection Hins as Hins. rewrite Hins in *.
      split; [by eapply frame_trans|].
      exists (<[j := new]> ins). split; [done|].
      split; [by rewrite length_insert|]. split.
      + intros idx Hidx. rewrite list_lookup_insert_ne by lia. apply Hrest. lia.
      + intros idx t' tb' Hidx Ht' Htb'.
        destruct (decide (idx = j)) as [->|Hne].
        * rewrite Hrest in Ht by lia. rewrite Ht' in Ht. injection Ht as <-.
          pose proof Hfr as (HT & _). rewrite HT, Htb' in Htb. injection Htb as <-.
          rewrite list_lookup_insert_eq by lia.
          destruct (_ || _).
          -- destruct Hnew as [k Hk]. exists k, new. split; [|done].
             by apply (output_slot_frame p h h1).
          -- by subst.
        * rewrite list_lookup_insert_ne by done. apply Hdone; [lia|done|done]. }
  destruct HP as (Hfr & ins & Hins & Hlen & _ & Hdone).
  split; [done|]. unfold rewritten.
  destruct (ops h' !! p) as [op'|] eqn:Hop'; [|done]. injection Hins as <-.
  exists op, op'. repeat split; try done.
  intros idx t tb Ht Htb.
  specialize (Hdone idx t tb (lookup_lt_Some _ _ _ Ht) Ht Htb).
  destruct (_ || _); [|done].
  destruct Hdone as (k & fo & Hslot & Hfo). exists k, fo. split; [|done].
  by apply (output_slot_frame p h h').
Qed.

Lemma rewritten_frame h2 ha hb fused_op pl pi p p' :
  rewritten h2 ha fused_op pl pi p' → frame p ha hb → p ≠ p' →
  rewritten h2 hb fused_op pl pi p'.
Proof.
  intros (op & op' & H1 & H2 & Hlen & Hin) Hfr Hne.
  exists op, op'. split; [done|]. split.
  { destruct Hfr as (_ & _ & _ & Hother). rewrite Hother by done. done. }
  split; [done|]. intros idx t tb Ht Htb. specialize (Hin idx t tb Ht Htb).
  destruct (_ || _); [|done].
  destruct Hin as (k & fo & Hslot & Hfo). exists k, fo. split; [|done].
  by apply (output_slot_frame p ha hb).
Qed.

Lemma kept_snoc operators l a n :
  kept operators l a (S n) =
  kept operators l a n ++
    (if bool_decide ((a + n)%nat = l) then [] else option_list (operators !! (a + n)%nat)).
Proof.
  unfold kept. rewrite seq_S, omap_app. f_equal. simpl.
  destruct (bool_decide _); [done|]. by destruct (operators !! _).
Qed.

(** The rebuilding loop: shape of the new list, and what happened to the
    inputs of the operators after position [i]. *)
Lemma rebuild_spec operators i l fused_op pl pi h2 h3 new_operators :
  rebuild operators i l fused_op pl pi h2 = Some (h3, new_operators) →
  (length new_operators + 1 = length operators)%nat ∧
  new_operators =
    take i operators ++
    fused_op :: kept operators l (i + 1) (length operators - (i + 1)) ∧
  tens h3 = tens h2 ∧ (∀ q, kind h3 q = kind h2 q) ∧
  (NoDup operators →
   ∀ j p, (i < j)%nat → j ≠ l → operators !! j = Some p →
          rewritten h2 h3 fused_op pl pi p).
Proof.
  unfold rebuild. intros H.
  destruct (for_each_opt _ _ _) as [[h' new']|] eqn:Hloop; simpl in H; [|done].
  destruct (assert _) eqn:Ha; simpl in H; [|done].
  apply assert_Some, bool_decide_eq_true in Ha. injection H as <- <-.
  pose (P := fun (j : nat) (s : Heap * list addr) =>
    tens s.1 = tens h2 ∧ (∀ q, kind s.1 q = kind h2 q) ∧
    (∀ q, outs s.1 q = outs h2 q) ∧
    s.2 = take i operators ++ fused_op :: kept operators l (i + 1) (j - (i + 1)) ∧
    (NoDup operators →
      (∀ j' p, (j ≤ j')%nat → operators !! j' = Some p → ops s.1 !! p = ops h2 !! p) ∧
      (∀ j' p, (i < j' < j)%nat → j' ≠ l → operators !! j' = Some p →
               rewritten h2 s.1 fused_op pl pi p))).
  assert (HP : P ((i + 1) + (length operators - (i + 1)))%nat (h', new')).
  { apply (for_each_opt_seq_inv P _ _ _ _ _ Hloop).
    - unfold P. simpl. repeat split; try done.
      + rewrite Nat.sub_diag. reflexivity.
      + intros; lia.
    - intros j [h1 n1] [h4 n4] Hj (HT & HK & HO & Hnew & Hnd) Hb. simpl in *.
      assert (Hjs : (S j - (i + 1) = S (j - (i + 1)))%nat) by lia.
      assert (Hji : (i + 1 + (j - (i + 1)) = j)%nat) by lia.
      destruct (bool_decide (j = l)) eqn:Hjl.
      + injection Hb as <- <-. apply bool_decide_eq_true in Hjl.
        unfold P. simpl. repeat split; try done.
        * rewrite Hjs, kept_snoc, Hji. rewrite bool_decide_eq_true_2 by done.
          by rewrite app_nil_r.
        * intros j' p Hj' Hp. apply (proj1 (Hnd H) j' p); [lia|done].
        * intros j' p Hj' Hne Hp. apply (proj2 (Hnd H) j' p); [lia|done|done].
      + apply bool_decide_eq_false in Hjl.
        destruct (operators !! j) as [p|] eqn:Hp; simpl in Hb; [|done].
        destruct (rewrite_op fused_op pl pi p h1) as [h5|] eqn:Hrw; simpl in Hb; [|done].
        injection Hb as <- <-.
        apply rewrite_op_spec in Hrw as [Hfr Hrew].
        pose proof Hfr as (HT' & HK' & HO' & Hother).
        unfold P. simpl. split; [congruence|]. split; [intros q; by rewrite HK'|].
        split; [intros q; by rewrite HO'|]. split.
        * rewrite Hjs, kept_snoc, Hji, Hp. rewrite bool_decide_eq_false_2 by done.
          simpl. rewrite Hnew. rewrite <- !app_assoc. done.
        * intros Hnodup. destruct (Hnd Hnodup) as [Hlater Hearlier]. split.
          -- intros j' p' Hj' Hp'. rewrite Hother; [apply (Hlater j'); [lia|done]|].
             intros ->. assert (j' = j) by (eapply NoDup_lookup; done). lia.
          -- intros j' p' Hj' Hne Hp'.
             destruct (decide (j' = j)) as [->|Hnej].
             ++ rewrite Hp in Hp'. injection Hp' as <-.
                destruct Hrew as (op & op' & H1 & H2 & Hlen & Hin).
                exists op, op'. split; [rewrite <- H1; symmetry; by apply (Hlater j)|].
                split; [done|]. split; [done|].
                intros idx t tb Ht Htb. apply (Hin idx t tb Ht). by rewrite HT.
             ++ apply (rewritten_frame h2 h1 h5 fused_op pl pi p p').
                ** apply (Hearlier j'); [lia|done|done].
                ** done.
                ** intros ->. assert (j' = j) by (eapply NoDup_lookup; done). lia. }
  destruct HP as (HT & HK & _ & Hnew & Hnd). simpl in *.
  split; [done|]. split.
  { rewrite Hnew.
    by replace (i + 1 + (length operators - (i + 1)) - (i + 1))%nat
         with (length operators - (i + 1))%nat by lia. }
  split; [done|]. split; [done|].
  intros Hnodup j p Hij Hjl Hp. apply (proj2 (Hnd Hnodup) j p); [|done|done].
  apply lookup_lt_Some in Hp. lia.
Qed.

(** From [add_operator] on: the types and flags of the operators other
    than the fused one are left alone, a fused operator that was already in
    the list keeps its own, and a success returns what [rebuild] built. *)
Lemma incorporate_spec F operators i l pl pi h1 fused_op alloc h' r :
  incorporate F operators i l pl pi h1 fused_op alloc = Some (h', r) →
  (∀ q, q ≠ fused_op → kind h' q = kind h1 q) ∧
  (alloc = false → kind h' fused_op = kind h1 fused_op) ∧
  (r = None → alloc = true → kind h' fused_op = None) ∧
  ∀ new_operators ev, r = Some (new_operators, ev) →
    ev_i ev = i ∧ ev_l ev = l ∧
    rebuild operators i l (ev_fused ev) pl pi (ev_heap ev) = Some (h', new_operators).
Proof.
  unfold incorporate. intros H.
  destruct (add_operator F h1 fused_op pl) as [[[ok slots] tens']|]; [|done].
  destruct (ops h1 !! fused_op) as [fop|] eqn:Hfop; simpl in H; [|done].
  set (h2 := mkHeap _ tens') in H.
  assert (HK2 : ∀ q, kind h2 q = kind h1 q).
  { intros q. unfold kind, h2. simpl.
    destruct (decide (q = fused_op)) as [->|Hne].
    - by rewrite lookup_insert_eq, Hfop.
    - by rewrite lookup_insert_ne. }
  destruct ok.
  - destruct (rebuild operators i l fused_op pl pi h2) as [[h3 new_ops]|] eqn:Hrb; [|done].
    injection H as <- <-.
    pose proof (rebuild_spec _ _ _ _ _ _ _ _ _ Hrb) as (_ & _ & _ & HK3 & _).
    split; [intros q _; by rewrite HK3|]. split; [intros _; by rewrite HK3|].
    split; [done|]. intros ? ? [= <- <-]. simpl. done.
  - destruct alloc; injection H as <- <-.
    + split.
      { intros q Hne. rewrite <- HK2. unfold kind. simpl. by rewrite lookup_delete_ne. }
      split; [done|]. split; [|done].
      intros _ _. unfold kind. simpl. by rewrite lookup_delete_eq.
    + split; [intros q _; apply HK2|]. split; [intros _; apply HK2|]. done.
Qed.

(** One attempt for a pair: on going on, every type and flag is as
    before; on success the seed passed the checks of the source. *)
Lemma try_pair_spec F operators l h i h' r :
  try_pair F operators l h i = Some (h', r) →
  (r = None → ∀ q, kind h' q = kind h q) ∧
  ∀ new_operators ev, r = Some (new_operators, ev) →
    ∃ pl pi opi,
      operators !! l = Some pl ∧ operators !! i = Some pi ∧
      ops h !! pi = Some opi ∧
      input_or_weight opi = false ∧ is_parallel_op opi = false ∧
      (op_type opi = OP_FUSED ∨ has_inplace_output opi = false) ∧
      ev_i ev = i ∧ ev_l ev = l ∧
      rebuild operators i l (ev_fused ev) pl pi (ev_heap ev) = Some (h', new_operators).
Proof.
  unfold try_pair. intros H. bind_inv H.
  rename a into pl, a0 into pi, o into opl, o0 into opi.
  destruct (bool_decide (_ = _)) in H.
  2: { injection H as <- <-. split; [done|]. intros ? ? [=]. }
  destruct (bool_decide (op_type opi = OP_FUSED)) eqn:Hfused.
  { apply bool_decide_eq_true in Hfused.
    apply incorporate_spec in H as (Hother & Hsame & _ & Hres). split.
    - intros _ q. destruct (decide (q = pi)) as [->|Hne]; [by apply Hsame|by apply Hother].
    - intros new_ops ev Hr. destruct (Hres _ _ Hr) as (Hi & Hl & Hrb).
      exists pl, pi, opi. repeat split; try done.
      + unfold input_or_weight. by rewrite Hfused.
      + unfold is_parallel_op. by rewrite Hfused.
      + by left. }
  destruct (has_inplace_output opi) eqn:Hinplace.
  { injection H as <- <-. split; [done|]. intros ? ? [=]. }
  destruct (input_or_weight opi) eqn:Hiw.
  { injection H as <- <-. split; [done|]. intros ? ? [=]. }
  destruct (is_parallel_op opi) eqn:Hpar.
  { injection H as <- <-. split; [done|]. intros ? ? [=]. }
  cbv zeta in H.
  set (f := fresh (dom (ops h))) in H.
  assert (Hfresh : ops h !! f = None).
  { apply not_elem_of_dom. apply is_fresh. }
  apply incorporate_spec in H as (Hother & _ & Hgone & Hres). split.
  - intros Hr q. destruct (decide (q = f)) as [->|Hne].
    + rewrite Hgone by done. unfold kind. by rewrite Hfresh.
    + rewrite Hother by done. unfold kind. simpl. by rewrite lookup_insert_ne.
  - intros new_ops ev Hr. destruct (Hres _ _ Hr) as (Hi & Hl & Hrb).
    exists pl, pi, opi. repeat split; try done. by right.
Qed.

Lemma kind_lookup h0 h p op :
  (∀ q, kind h0 q = kind h q) → ops h0 !! p = Some op →
  ∃ op0, ops h !! p = Some op0 ∧ op_type op0 = op_type op ∧
         has_inplace_output op0 = has_inplace_output op.
Proof.
  intros HK Hop. specialize (HK p). unfold kind in HK. rewrite Hop in HK.
  destruct (ops h !! p) as [op0|]; [|done]. injection HK as H1 H2.
  by exists op0.
Qed.

(** A successful pass: the pair it fused, what the source checked of the
    two operators (as they are in the heap the pass started from), and the
    rebuilding that produced the result. *)
Lemma apply_fusion_event F h operators h' new_operators ev :
  apply_fusion F h operators = Some (h', Some (new_operators, ev)) →
  ∃ pl pi opl opi,
    (ev_i ev < ev_l ev)%nat ∧ (1 ≤ ev_l ev)%nat ∧
    (ev_l ev + 1 < length operators)%nat ∧
    operators !! ev_l ev = Some pl ∧ operators !! ev_i ev = Some pi ∧
    ops h !! pl = Some opl ∧ ops h !! pi = Some opi ∧
    input_or_weight opl = false ∧ is_parallel_op opl = false ∧
    input_or_weight opi = false ∧ is_parallel_op opi = false ∧
    (op_type opi = OP_FUSED ∨ has_inplace_output opi = false) ∧
    rebuild operators (ev_i ev) (ev_l ev) (ev_fused ev) pl pi (ev_heap ev)
      = Some (h', new_operators).
Proof.
  unfold apply_fusion. intros H.
  destruct operators as [|o0 rest] eqn:Hops; [done|]. rewrite <- Hops in *.
  set (K := fun h0 : Heap => ∀ q, kind h0 q = kind h q).
  assert (Hinner : ∀ l indices h0 h1 r,
    first_return indices h0 (try_pair F operators l) = Some (h1, r) → K h0 →
    (r = None → K h1) ∧
    ∀ res, r = Some res →
      ∃ i hi, i ∈ indices ∧ K hi ∧ try_pair F operators l hi i = Some (h1, Some res)).
  { intros l indices h0 h1 r Hrun HK.
    refine (first_return_inv K indices (try_pair F operators l) _ h0 h1 r Hrun HK).
    intros ha i hb _ HKa Hb q.
    apply try_pair_spec in Hb as [Hsame _]. rewrite Hsame by done. apply HKa. }
  match type of H with
  | first_return ?indices _ ?body = _ =>
      assert (Houter : ∀ h0 l h1, l ∈ indices → K h0 →
                body h0 l = Some (h1, None) → K h1)
  end.
  { intros h0 l h1 _ HK0 Hb. cbv beta in Hb.
    destruct (operators !! l) as [pl|]; simpl in Hb; [|done].
    destruct (ops h0 !! pl) as [opl|]; simpl in Hb; [|done].
    destruct (input_or_weight opl); [by injection Hb as <-|].
    destruct (is_parallel_op opl); [by injection Hb as <-|].
    destruct (find_start h0 operators l opl) as [start|]; simpl in Hb; [|done].
    by apply (Hinner _ _ _ _ _ Hb HK0). }
  destruct (first_return_inv K _ _ Houter _ _ _ H (fun q => eq_refl)) as [_ Hres].
  destruct (Hres _ eq_refl) as (l & hl & Hl & HKl & Hb). cbv beta in Hb.
  apply elem_of_seq in Hl.
  destruct (operators !! l) as [pl|] eqn:Hpl; simpl in Hb; [|done].
  destruct (ops hl !! pl) as [opl|] eqn:Hopl; simpl in Hb; [|done].
  destruct (input_or_weight opl) eqn:Hiw; [done|].
  destruct (is_parallel_op opl) eqn:Hpar; [done|].
  destruct (find_start hl operators l opl) as [start|]; simpl in Hb; [|done].
  apply Hinner in Hb as [_ Hres2]; [|done].
  destruct (Hres2 _ eq_refl) as (i & hi & Hi & HKi & Htry).
  apply elem_of_seq in Hi.
  apply try_pair_spec in Htry as [_ Hev].
  destruct (Hev _ _ eq_refl)
    as (pl' & pi & opi & Hpl' & Hpi & Hopi & Hiw' & Hpar' & Hinp & Hei & Hel & Hrb).
  rewrite Hpl in Hpl'. injection Hpl' as <-.
  destruct (kind_lookup _ _ _ _ HKl Hopl) as (opl0 & Hopl0 & Hty_l & _).
  destruct (kind_lookup _ _ _ _ HKi Hopi) as (opi0 & Hopi0 & Hty_i & Hfl_i).
  exists pl, pi, opl0, opi0. rewrite Hei, Hel.
  unfold input_or_weight, is_parallel_op in *.
  rewrite Hty_l, Hty_i, Hfl_i.
  repeat split; try done; lia.
Qed.



(** C4, as the source has it. The pass never fuses a pair in which either
    operator is an input operator, a weight operator or a parallel operator,
    and it never seeds a new fused operator with an operator that has an
    in-place output; the in-place flag of the operator being fused in is
    not looked at. *)
Theorem apply_fusion_pair_checks F h operators h' new_operators ev :
  apply_fusion F h operators = Some (h', Some (new_operators, ev)) →
  ∃ pl pi opl opi,
    operators !! ev_l ev = Some pl ∧ operators !! ev_i ev = Some pi ∧
    ops h !! pl = Some opl ∧ ops h !! pi = Some opi ∧
    input_or_weight opl = false ∧ is_parallel_op opl = false ∧
    input_or_weight opi = false ∧ is_parallel_op opi = false ∧
    (op_type opi = OP_FUSED ∨ has_inplace_output opi = false).
Proof.
  intros H.
  apply apply_fusion_event in H
    as (pl & pi & opl & opi & _ & _ & _ & Hpl & Hpi & Hopl & Hopi & H1 & H2 & H3 & H4 & H5 & _).
  by exists pl, pi, opl, opi.
Qed.

Lemma apply_fusion_pair_checks_witness :
  ∃ h' new_operators ev,
    Scenarios.S3_second = Some (h', Some (new_operators, ev)) ∧
    ∃ pl pi opl opi,
      Scenarios.S3_second_operators !! ev_l ev = Some pl ∧
      Scenarios.S3_second_operators !! ev_i ev = Some pi ∧
      ops Scenarios.S3_second_heap !! pl = Some opl ∧
      ops Scenarios.S3_second_heap !! pi = Some opi ∧
      input_or_weight opl = false ∧ is_parallel_op opl = false ∧
      input_or_weight opi = false ∧ is_parallel_op opi = false ∧
      (op_type opi = OP_FUSED ∨ has_inplace_output opi = false).
Proof.
  assert (Hrun : ∃ h' new_operators ev,
            Scenarios.S3_second = Some (h', Some (new_operators, ev)))
    by (vm_compute; eauto).
  destruct Hrun as (h' & new_operators & ev & E).
  exists h', new_operators, ev. split; [exact E|].
  exact (apply_fusion_pair_checks _ _ _ _ _ _ E).
Defined.

(** C4, as the specification words it, fails: in the chain [input; linear;
    relu; softmax] whose relu computes in place, the pass fuses the relu
    (position 2) into the linear operator (position 1). *)
Lemma inplace_operator_is_fused_in :
  (∃ h' ev opl,
     Scenarios.chain_fused = Some (h', Some ([1; 5; 4]%N, ev)) ∧
     ev_i ev = 1%nat ∧ ev_l ev = 2%nat ∧
     Scenarios.chain_operators !! 2%nat = Some 3%N ∧
     ops Scenarios.chain_heap !! 3%N = Some opl ∧
     op_type opl = OP_RELU ∧ has_inplace_output opl = true) ∧
  ¬ fused_in_never_inplace (bounded_fused_op 8) Scenarios.chain_heap
                           Scenarios.chain_operators.
Proof.
  assert (Hrun : ∃ h' ev,
            Scenarios.chain_fused = Some (h', Some ([1; 5; 4]%N, ev)) ∧
            ev_i ev = 1%nat ∧ ev_l ev = 2%nat)
    by (vm_compute; eauto).
  destruct Hrun as (h' & ev & E & Hi & Hl).
  split.
  - exists h', ev, (mkOp OP_RELU [12%N] [13%N] true).
    repeat split; try done.
  - intros Hall.
    specialize (Hall h' [1; 5; 4]%N ev 3%N (mkOp OP_RELU [12%N] [13%N] true) E).
    rewrite Hl in Hall. by specialize (Hall eq_refl eq_refl).
Qed.

End FusionProofs.

Module SearchProofs.
Import Common Search CommonProofs.

Section SearchProofs.
Context {World Float : Type} (X : Environment World Float).

(** [randf() < 0.0f] never holds. *)
Lemma randf_not_negative w : Qltb (randf X w).1 0 = false.
Proof.
  unfold randf, Qltb. destruct (std_rand X w) as [r w']. simpl.
  apply negb_false_iff, Qle_bool_iff. unfold Qle. simpl. lia.
Qed.





(** The default path of [rewrite]: it is taken when propagation is off,
    and when the draw of [randf] is not below [PROPAGATION_CHANCE]. *)
Lemma rewrite_default_path operators current0 use_propagation w next w' :
  use_propagation = false ∨
    Qltb (randf X w).1 (PROPAGATION_CHANCE X) = false →
  rewrite X operators current0 use_propagation w = Some (next, w') →
  let w1 := (std_rand X w).2 in
  let r := (std_rand X w1).1 in
  let w2 := (std_rand X w1).2 in
  let opId := (N.to_nat r `mod` length operators)%nat in
  operators ≠ [] ∧
  ((opId = length operators - 1)%nat ∧ next = current0 ∧ w' = w2 ∨
   (opId < length operators - 1)%nat ∧
   ∃ op, operators !! opId = Some op ∧
         next = <[op := (get_random_parallel_config X w2 op).1]> current0 ∧
         w' = (get_random_parallel_config X w2 op).2).
Proof.
  unfold rewrite. intros Hdefault H. cbv zeta.
  assert (Hneg : Qltb (randf X w).1
                   (if use_propagation then PROPAGATION_CHANCE X else 0%Q) = false).
  { destruct Hdefault as [->|Hge]; [apply randf_not_negative|].
    destruct use_propagation; [done|apply randf_not_negative]. }
  unfold randf in *. destruct (std_rand X w) as [r1 w1]. simpl in *.
  rewrite Hneg in H.
  destruct (std_rand X w1) as [r w2]. simpl.
  destruct (bool_decide (length operators = 0%nat)) eqn:Hlen; [done|].
  apply bool_decide_eq_false in Hlen.
  split; [by intros ->|].
  destruct (bool_decide (_ = _)) eqn:Hlast.
  - apply bool_decide_eq_true in Hlast. injection H as <- <-. by left.
  - apply bool_decide_eq_false in Hlast. right.
    pose proof (Nat.mod_upper_bound (N.to_nat r) (length operators) Hlen).
    split; [lia|].
    destruct (operators !! _) as [op|] eqn:Hop; simpl in H; [|done].
    exists op. split; [done|].
    destruct (get_random_parallel_config X w2 op) as [cfg w3].
    by injection H as <- <-.
Qed.

(** On a non-empty operator list [rewrite] always returns. *)
Lemma rewrite_total operators current0 use_propagation w :
  operators ≠ [] → is_Some (rewrite X operators current0 use_propagation w).
Proof.
  intros Hne. unfold rewrite.
  destruct (randf X w) as [r w1].
  destruct (Qltb r _).
  { destruct (propagate X); by eexists. }
  destruct (std_rand X w1) as [r2 w2].
  assert (Hlen : length operators ≠ 0%nat) by (by destruct operators).
  rewrite bool_decide_eq_false_2 by done.
  destruct (bool_decide _); [by eexists|].
  pose proof (Nat.mod_upper_bound (N.to_nat r2) (length operators) Hlen) as Hlt.
  destruct (lookup_lt_is_Some_2 operators _ Hlt) as [op ->]. simpl.
  destruct (get_random_parallel_config X w2 op). by eexists.
Qed.

(** On a non-empty list an iteration of the loop always goes through. *)
Lemma mcmc_step_total operators alpha use_propagation reset_span iter s :
  operators ≠ [] →
  is_Some (mcmc_step X operators alpha use_propagation reset_span iter s).
Proof.
  intros Hne. unfold mcmc_step.
  set (s1 := if bool_decide _ then _ else s). clearbody s1.
  destruct (rewrite_total operators (current s1) use_propagation (world s1) Hne)
    as [[next w1] ->]. simpl.
  destruct (simulate_runtime X w1 next) as [c w2].
  destruct (randf X w2) as [rn w3].
  destruct (lt X c (best_runtime s1)); destruct (lt X c (current_runtime s1));
    try destruct (accepts X rn alpha c (current_runtime s1)); by eexists.
Qed.



(** With [budget = SIZE_MAX] the test [iter <= budget] holds for every
    [size_t], so that the loop is never left. *)
Lemma mcmc_loop_runs_on operators alpha use_propagation reset_span fuel :
  operators ≠ [] →
  ∀ iter s, 0 ≤ iter ≤ SIZE_MAX →
    mcmc_loop X fuel operators alpha use_propagation reset_span SIZE_MAX iter s
      = Running.
Proof.
  intros Hne. unfold SIZE_MAX.
  induction fuel as [|fuel IH]; intros iter s Hi; simpl.
  - by destruct (Z.leb_spec iter (2 ^ 64 - 1)); [|lia].
  - destruct (Z.leb_spec iter (2 ^ 64 - 1)); [|lia].
    destruct (mcmc_step_total operators alpha use_propagation reset_span iter s Hne)
      as [s1 ->].
    apply IH. pose proof (Z.mod_pos_bound (iter + 1) (2 ^ 64)). lia.
Qed.

End SearchProofs.






(** With [budget = SIZE_MAX], the value of [DefaultConfig::searchBudget],
    the loop of [mcmc_optimize] is never left: on a non-empty operator
    list the search is still running after any number of iterations. *)
Theorem mcmc_optimize_unbounded {World Float : Type}
    (X : Environment World Float) operators best0 alpha use_propagation w :
  operators ≠ [] →
  ∀ fuel,
    mcmc_optimize X fuel operators best0 SIZE_MAX alpha use_propagation w = Running.
Proof.
  intros Hne fuel. unfold mcmc_optimize.
  rewrite (mcmc_loop_runs_on X operators alpha use_propagation
             (reset_span_of SIZE_MAX) fuel Hne 0 (mcmc_init X best0 w));
    [done|unfold SIZE_MAX; lia].
Qed.

Lemma mcmc_optimize_unbounded_witness :
  Scenarios.two_operators ≠ [] ∧
  ∀ fuel,
    mcmc_optimize Scenarios.counter_environment fuel Scenarios.two_operators
      Scenarios.data_parallel SIZE_MAX 0 false 0%nat = Running.
Proof.
  assert (Hne : Scenarios.two_operators ≠ []) by discriminate.
  split; [exact Hne|].
  exact (mcmc_optimize_unbounded Scenarios.counter_environment
           Scenarios.two_operators Scenarios.data_parallel 0 false 0%nat Hne).
Defined.

(** C3, as the source has it. [rewrite] takes its default path when
    propagation is off, and when the draw of [randf] is not below
    [PROPAGATION_CHANCE]. On that path it draws
    [opId = rand() % operators.size()] among all operators; when that is the
    terminal operator it returns the assignment unchanged, otherwise it
    replaces the entry of [operators[opId]] by a new random configuration.
    Every other entry is unchanged, and the terminal operator's entry is
    never mutated. *)
Theorem rewrite_default_frame {World Float : Type} (X : Environment World Float)
    operators current0 use_propagation w :
  operators ≠ [] →
  NoDup operators →
  use_propagation = false ∨
    Qltb (randf X w).1 (PROPAGATION_CHANCE X) = false →
  let w1 := (std_rand X w).2 in
  let r := (std_rand X w1).1 in
  let w2 := (std_rand X w1).2 in
  let opId := (N.to_nat r `mod` length operators)%nat in
  ∃ next w',
    rewrite X operators current0 use_propagation w = Some (next, w') ∧
    ((opId = length operators - 1)%nat ∧ next = current0 ∨
     (opId < length operators - 1)%nat ∧
     ∃ op, operators !! opId = Some op ∧
           next = <[op := (get_random_parallel_config X w2 op).1]> current0) ∧
    (∀ p, operators !! opId ≠ Some p → next !! p = current0 !! p) ∧
    (∀ t, last operators = Some t → next !! t = current0 !! t).
Proof.
  intros Hne Hnodup Hdefault.
  destruct (rewrite_total X operators current0 use_propagation w Hne)
    as [[next w'] H].
  cbv zeta. exists next, w'. split; [done|].
  apply (rewrite_default_path X _ _ _ _ _ _ Hdefault) in H. cbv zeta in H.
  destruct H as [_ [(Hid & -> & _)|(Hlt & op & Hop & -> & _)]].
  - split; [by left|]. by split.
  - split; [right; split; [done|by exists op]|]. split.
    + intros p Hp. rewrite lookup_insert_ne; [done|]. intros ->. done.
    + intros t Ht. rewrite last_lookup in Ht.
      rewrite lookup_insert_ne; [done|]. intros ->.
      pose proof (NoDup_lookup _ _ _ _ Hnodup Hop Ht) as Heq.
      replace (Init.Nat.pred (length operators)) with (length operators - 1)%nat in Heq by lia.
      lia.
Qed.

Lemma rewrite_default_frame_witness :
  Scenarios.two_operators ≠ [] ∧ NoDup Scenarios.two_operators ∧
  (true = false ∨
   Qltb (randf Scenarios.wide_environment 1000000001%N).1
        (PROPAGATION_CHANCE Scenarios.wide_environment) = false) ∧
  ∃ next w',
    rewrite Scenarios.wide_environment Scenarios.two_operators
            Scenarios.data_parallel true 1000000001%N = Some (next, w') ∧
    ((N.to_nat 1000000002 `mod` 2 = 2 - 1)%nat ∧ next = Scenarios.data_parallel ∨
     (N.to_nat 1000000002 `mod` 2 < 2 - 1)%nat ∧
     ∃ op, Scenarios.two_operators !! (N.to_nat 1000000002 `mod` 2)%nat = Some op ∧
           next = <[op := (get_random_parallel_config
                             Scenarios.wide_environment 1000000003%N op).1]>
                    Scenarios.data_parallel) ∧
    (∀ p, Scenarios.two_operators !! (N.to_nat 1000000002 `mod` 2)%nat ≠ Some p →
          next !! p = Scenarios.data_parallel !! p) ∧
    (∀ t, last Scenarios.two_operators = Some t →
          next !! t = Scenarios.data_parallel !! t).
Proof.
  assert (Hne : Scenarios.two_operators ≠ []) by discriminate.
  assert (Hnodup : NoDup Scenarios.two_operators)
    by (refine (bool_decide_unpack _ _); vm_compute; exact I).
  assert (Hdefault : true = false ∨
            Qltb (randf Scenarios.wide_environment 1000000001%N).1
                 (PROPAGATION_CHANCE Scenarios.wide_environment) = false)
    by (right; reflexivity).
  split; [exact Hne|]. split; [exact Hnodup|]. split; [exact Hdefault|].
  exact (rewrite_default_frame Scenarios.wide_environment
           Scenarios.two_operators Scenarios.data_parallel true 1000000001%N
           Hne Hnodup Hdefault).
Defined.

(** C3, as the specification words it, fails: with two operators, each
    with an entry in the assignment, and a draw that selects the last one,
    [rewrite] returns the assignment as it was after the two draws of
    [std::rand], so that no non-terminal operator had its entry replaced by
    a configuration drawn for it. *)
Lemma rewrite_may_replace_nothing :
  rewrite Scenarios.counter_environment Scenarios.two_operators
          Scenarios.data_parallel false 0%nat
    = Some (Scenarios.data_parallel, 2%nat) ∧
  ¬ replaces_nonterminal Scenarios.counter_environment Scenarios.two_operators
                         Scenarios.data_parallel Scenarios.data_parallel.
Proof.
  split; [by vm_compute|].
  intros (opId & op & w & Hlt & Hop & Heq).
  destruct opId as [|opId]; [|simpl in Hlt; lia].
  injection Hop as <-.
  apply (f_equal (fun m => device_ids <$> m !! 1%N)) in Heq.
  rewrite lookup_insert_eq in Heq. vm_compute in Heq. discriminate Heq.
Qed.

End SearchProofs.

Module TilingProofs.
Import Common RegionMapper Tiling CommonProofs RegionMapperProofs.

Lemma in_rect_lookup r x :
  in_rect r x ↔
  length (lo r) = length x ∧ length (hi r) = length x ∧
  ∀ i v, x !! i = Some v →
    ∃ l h, lo r !! i = Some l ∧ hi r !! i = Some h ∧ l ≤ v ≤ h.
Proof.
  unfold in_rect. rewrite !Forall2_same_length_lookup. split.
  - intros [[Hl1 H1] [Hl2 H2]]. split; [done|]. split; [done|].
    intros i v Hv.
    destruct (lookup_lt_is_Some_2 (lo r) i) as [l Hl];
      [rewrite Hl1; by apply lookup_lt_Some in Hv|].
    destruct (lookup_lt_is_Some_2 (hi r) i) as [h Hh];
      [rewrite <- Hl2; by apply lookup_lt_Some in Hv|].
    exists l, h. split; [done|]. split; [done|].
    split; [by apply (H1 i) | by apply (H2 i)].
  - intros (Hl1 & Hl2 & H). split; (split; [done|]).
    + intros i l v Hl Hv. destruct (H i v Hv) as (l' & h & Hl' & _ & Hle & _).
      unfold Point in *. rewrite Hl in Hl'. by injection Hl' as <-.
    + intros i v h Hv Hh. destruct (H i v Hv) as (l & h' & _ & Hh' & _ & Hle).
      unfold Point in *. rewrite Hh in Hh'. by injection Hh' as <-.
Qed.

Lemma dot_hot (row : list Z) : ∀ (c : list Z) (e : Z) (p : option nat),
  length row = length c →
  (∀ j v, row !! j = Some v → v = if bool_decide (p = Some j) then e else 0) →
  dot row c = match p with
              | Some j => match c !! j with Some x => e * x | None => 0 end
              | None => 0
              end.
Proof.
  unfold dot.
  induction row as [|r row IH]; intros [|x c] e p Hlen Hrow; simpl in *; try lia.
  - destruct p as [j|]; [|done]. by destruct j.
  - rewrite (IH c e (shift p)); [|lia|].
    + pose proof (Hrow O r eq_refl) as Hr.
      destruct p as [[|j]|]; simpl; case_bool_decide; simplify_eq; lia.
    + intros j v Hj. rewrite (Hrow (S j) v Hj).
      destruct p as [[|k]|]; simpl; repeat case_bool_decide; simplify_eq; done.
Qed.

Section Tiles.
Variables (N T : nat) (ph eh clo chi : list Z) (t : list (list Z)).
Variable col : nat → option nat.

Local Abbreviation TL := (tiles N ph eh clo chi t).
Local Abbreviation bs := (base col).
Local Abbreviation colour := (colour_of N eh clo col).

Hypothesis Hph : length ph = N.
Hypothesis Heh : length eh = N.
Hypothesis Hclo : length clo = T.
Hypothesis Hchi : length chi = T.
Hypothesis Ht : length t = N.
Hypothesis Hrow : ∀ i row, t !! i = Some row →
  length row = T ∧
  ∃ e', eh !! i = Some e' ∧
        ∀ j v, row !! j = Some v →
               v = if bool_decide (col i = Some j) then e' + 1 else 0.
Hypothesis He : ∀ i e', eh !! i = Some e' → 0 ≤ e'.

Lemma image_lookup c i e' :
  length c = T → eh !! i = Some e' →
  lo (image TL c) !! i = Some (bs c i e') ∧
  hi (image TL c) !! i = Some (bs c i e' + e').
Proof using Hph Heh Hclo Hchi Ht Hrow.
  intros Hc Hei. unfold image, tiles, apply_transform; simpl.
  pose proof (lookup_lt_Some _ _ _ Hei) as Hi.
  destruct (lookup_lt_is_Some_2 t i) as [row Hr]; [lia|].
  destruct (Hrow i row Hr) as (Hlen & e2 & He2 & Hents).
  rewrite Hei in He2. injection He2 as <-.
  unfold Point. rewrite !lookup_zip_with, list_lookup_fmap, Hr, Hei. simpl.
  rewrite lookup_replicate_2 by lia. simpl.
  rewrite (dot_hot row c (e' + 1) (col i)) by (done || lia).
  unfold base. split; f_equal; lia.
Qed.

Lemma image_length c :
  length (lo (image TL c)) = N ∧ length (hi (image TL c)) = N.
Proof using Hph Heh Hclo Hchi Ht Hrow.
  unfold image, tiles, apply_transform; simpl.
  rewrite !length_zip_with, length_fmap, length_replicate. lia.
Qed.

Lemma subspace_tiles c x :
  length c = T →
  subspace TL c x ↔
  length x = N ∧
  ∀ i v, x !! i = Some v →
    ∃ h e', ph !! i = Some h ∧ eh !! i = Some e' ∧
            0 ≤ v ≤ h ∧ bs c i e' ≤ v ≤ bs c i e' + e'.
Proof using Hph Heh Hclo Hchi Ht Hrow.
  intros Hc. unfold subspace. rewrite !in_rect_lookup.
  destruct (image_length c) as [Hil Hih]. split.
  - intros [(Hl1 & Hl2 & H1) (_ & _ & H2)]. simpl in *.
    split; [lia|]. intros i v Hv.
    destruct (H1 i v Hv) as (l & h & Hl & Hh & Hlv).
    destruct (H2 i v Hv) as (l2 & h2 & Hl2' & Hh2 & Hlv2).
    pose proof (lookup_lt_Some _ _ _ Hv) as Hi.
    destruct (lookup_lt_is_Some_2 eh i) as [e' Hei]; [lia|].
    destruct (image_lookup c i e' Hc Hei) as [Hlo Hhi].
    pose proof (eq_trans (eq_sym Hlo) Hl2') as E1. injection E1 as <-.
    pose proof (eq_trans (eq_sym Hhi) Hh2) as E2. injection E2 as <-.
    apply lookup_replicate in Hl as [-> _].
    exists h, e'. simpl in *. repeat split; try done; lia.
  - intros [Hlen H]. split.
    + split; [simpl; rewrite length_replicate; lia|]. split; [simpl; lia|].
      intros i v Hv. destruct (H i v Hv) as (h & e' & Hh & Hei & Hv1 & Hv2).
      exists 0, h. split; [|done].
      simpl. apply lookup_replicate_2. apply lookup_lt_Some in Hv. lia.
    + split; [lia|]. split; [lia|].
      intros i v Hv. destruct (H i v Hv) as (h & e' & Hh & Hei & Hv1 & Hv2).
      destruct (image_lookup c i e' Hc Hei) as [Hlo Hhi].
      by exists (bs c i e'), (bs c i e' + e').
Qed.

Lemma color_spec c :
  in_rect (ip_colors TL) c ↔
  length c = T ∧
  ∀ j x, c !! j = Some x →
    ∃ l u, clo !! j = Some l ∧ chi !! j = Some u ∧ l ≤ x ≤ u.
Proof using Hph Heh Hclo Hchi Ht Hrow.
  rewrite in_rect_lookup. simpl. split.
  - intros (H1 & H2 & H). split; [lia|done].
  - intros [H1 H]. split; [lia|]. split; [lia|done].
Qed.

(** Disjointness. *)
Hypothesis Hhit : ∀ j l u, clo !! j = Some l → chi !! j = Some u →
  l = u ∨ ∃ i, (i < N)%nat ∧ col i = Some j.

Lemma tiles_disjoint : partition_disjoint TL.
Proof using Hph Heh Hclo Hchi Ht Hrow He Hhit.
  intros c1 c2 x Hc1 Hc2 Hs1 Hs2.
  apply color_spec in Hc1 as [Hl1 Hc1]. apply color_spec in Hc2 as [Hl2 Hc2].
  apply subspace_tiles in Hs1 as [Hx Hs1]; [|done].
  apply subspace_tiles in Hs2 as [_ Hs2]; [|done].
  apply list_eq_same_length with T; [done|done|].
  intros j x1 x2 Hj H1 H2.
  destruct (Hc1 j x1 H1) as (l & u & Hl & Hu & Hx1).
  destruct (Hc2 j x2 H2) as (l' & u' & Hl' & Hu' & Hx2).
  rewrite Hl in Hl'. rewrite Hu in Hu'. injection Hl' as <-. injection Hu' as <-.
  destruct (Hhit j l u Hl Hu) as [->|(i & Hi & Hcol)]; [lia|].
  destruct (lookup_lt_is_Some_2 x i) as [v Hv]; [lia|].
  destruct (Hs1 i v Hv) as (h & e' & Hh & Hei & _ & Hb1).
  destruct (Hs2 i v Hv) as (h2 & e2 & _ & Hei2 & _ & Hb2).
  rewrite Hei in Hei2. injection Hei2 as <-.
  unfold base in Hb1, Hb2. rewrite Hcol in Hb1, Hb2.
  unfold Point in *. rewrite H1 in Hb1. rewrite H2 in Hb2.
  pose proof (He i e' Hei).
  destruct (Z.lt_trichotomy x1 x2) as [Hlt|[Heq|Hgt]]; [exfalso; nia | done | exfalso; nia].
Qed.

(** Completeness. *)
Hypothesis Hcover : ∀ i h e', ph !! i = Some h → eh !! i = Some e' →
  match col i with
  | Some j => ∃ l u, clo !! j = Some l ∧ chi !! j = Some u ∧
                     l ≤ 0 ∧ h < (e' + 1) * (u + 1)
  | None => h ≤ e'
  end.
Hypothesis Hinj : ∀ i i' j, (i < N)%nat → (i' < N)%nat →
  col i = Some j → col i' = Some j → i = i'.
Hypothesis Hfree : ∀ j l u, clo !! j = Some l → chi !! j = Some u → l ≤ u.

Lemma tiles_complete : partition_complete TL.
Proof using Hph Heh Hclo Hchi Ht Hrow He Hcover Hinj Hfree.
  intros x Hx. apply in_rect_lookup in Hx as (Hl1 & Hl2 & Hx). simpl in *.
  rewrite length_replicate in Hl1.
  set (c := colour x <$> seq 0 T).
  assert (Hlen : length c = T) by (unfold c; by rewrite length_fmap, length_seq).
  assert (Hc : ∀ j, (j < T)%nat → c !! j = Some (colour x j)).
  { intros j Hj. unfold c. rewrite list_lookup_fmap, lookup_seq_lt by done. done. }
  assert (Hown : ∀ i j, (i < N)%nat → col i = Some j →
            ∃ k, list_find (fun i => col i = Some j) (seq 0 N) = Some (k, i)).
  { intros i j Hi Hcol.
    destruct (list_find (fun i => col i = Some j) (seq 0 N)) as [[k i']|] eqn:Hf.
    - apply list_find_Some in Hf as (Hk & Hcol' & _).
      apply lookup_seq in Hk as [-> Hk]. simpl in *.
      exists k. by rewrite (Hinj k i j Hk Hi Hcol' Hcol).
    - exfalso. apply list_find_None in Hf. rewrite Forall_forall in Hf.
      apply (Hf i); [|done]. apply elem_of_seq. lia. }
  exists c. split.
  - apply color_spec. split; [done|]. intros j v Hj.
    pose proof (lookup_lt_Some _ _ _ Hj) as Hjt. rewrite Hlen in Hjt.
    rewrite Hc in Hj by done. injection Hj as <-.
    destruct (lookup_lt_is_Some_2 clo j) as [l Hl]; [lia|].
    destruct (lookup_lt_is_Some_2 chi j) as [u Hu]; [lia|].
    exists l, u. split; [done|]. split; [done|].
    unfold colour_of.
    destruct (list_find _ _) as [[k i]|] eqn:Hf.
    + apply list_find_Some in Hf as (Hk & Hcol & _).
      apply lookup_seq in Hk as [-> Hk]. simpl in *.
      destruct (lookup_lt_is_Some_2 x k) as [v Hv]; [lia|].
      destruct (Hx k v Hv) as (l0 & h & Hl0 & Hh & Hv0).
      apply lookup_replicate in Hl0 as [-> _].
      destruct (lookup_lt_is_Some_2 eh k) as [e' Hei]; [lia|].
      pose proof (Hcover k h e' Hh Hei) as Hcov. rewrite Hcol in Hcov.
      destruct Hcov as (l' & u' & Hl' & Hu' & Hle & Hlt).
      rewrite Hl in Hl'. rewrite Hu in Hu'. injection Hl' as <-. injection Hu' as <-.
      unfold Point in *. rewrite Hv, Hei. simpl.
      pose proof (He k e' Hei).
      rewrite Z.quot_div_nonneg by lia.
      split.
      * pose proof (Z.div_pos v (e' + 1)). lia.
      * assert (v / (e' + 1) < u + 1); [|lia].
        apply Z.div_lt_upper_bound; lia.
    + rewrite Hl. simpl. pose proof (Hfree j l u Hl Hu). lia.
  - apply subspace_tiles; [done|]. split; [lia|]. intros i v Hv.
    destruct (Hx i v Hv) as (l0 & h & Hl0 & Hh & Hv0).
    apply lookup_replicate in Hl0 as [-> Hi].
    destruct (lookup_lt_is_Some_2 eh i) as [e' Hei]; [lia|].
    exists h, e'. split; [done|]. split; [done|]. split; [done|].
    pose proof (Hcover i h e' Hh Hei) as Hcov. pose proof (He i e' Hei).
    unfold base. destruct (col i) as [j|] eqn:Hcol; [|lia].
    destruct Hcov as (l & u & Hl & Hu & Hle & Hlt).
    pose proof (lookup_lt_Some _ _ _ Hl) as Hjt.
    rewrite Hc by lia. unfold colour_of.
    destruct (Hown i j Hi Hcol) as [k ->].
    unfold Point in *. rewrite Hv, Hei. simpl.
    rewrite Z.quot_div_nonneg by lia.
    pose proof (Z.div_mod v (e' + 1)). pose proof (Z.mod_pos_bound v (e' + 1)). lia.
Qed.

End Tiles.

Lemma tabulate_fn {A} n (f : Z → option A) (g : Z → A) :
  (∀ i, 0 ≤ i < n → f i = Some (g i)) →
  tabulate n f = Some (g <$> seqZ 0 n).
Proof.
  intros H. unfold tabulate. apply mapM_Some_2.
  apply Forall2_fmap_r, Forall_Forall2_diag, Forall_forall.
  intros i Hi. apply elem_of_seqZ in Hi. apply H. lia.
Qed.

Lemma lookup_fmap_seqZ {A} (g : Z → A) n (i : nat) :
  (Z.of_nat i < n) → (g <$> seqZ 0 n) !! i = Some (g (Z.of_nat i)).
Proof.
  intros Hi. rewrite list_lookup_fmap, lookup_seqZ_lt by lia. simpl. f_equal.
Qed.

Lemma lookup_fmap_seqZ_Some {A} (g : Z → A) n (i : nat) v :
  (g <$> seqZ 0 n) !! i = Some v → Z.of_nat i < n ∧ v = g (Z.of_nat i).
Proof.
  intros H. pose proof (lookup_lt_Some _ _ _ H) as Hlt.
  rewrite length_fmap, length_seqZ in Hlt.
  rewrite lookup_fmap_seqZ in H by lia. injection H as <-. split; [lia|done].
Qed.

Section Grid.
Variables (N T : Z) (w np : Z → Z) (axis : Z → option Z) (clo chi : list Z).

Local Abbreviation tw := (tile_width w np).
Local Abbreviation GR := (grid N T w np axis clo chi).
Local Abbreviation gcol := (grid_col T axis).

Lemma grid_col_Some i j :
  (Z.of_nat j < T) → gcol i = Some j ↔ axis (Z.of_nat i) = Some (Z.of_nat j).
Proof.
  intros Hj. unfold grid_col. destruct (axis (Z.of_nat i)) as [a|]; simpl; [|done].
  case_bool_decide; split; intros Heq; simplify_eq; try lia.
  - f_equal. lia.
  - f_equal. lia.
Qed.

Lemma grid_rows (i : nat) row :
  ((fun i => (fun j => if bool_decide (axis i = Some j) then tile_width w np i else 0)
               <$> seqZ 0 T) <$> seqZ 0 N) !! i = Some row →
  length row = Z.to_nat T ∧
  ∃ e', ((fun i => tile_width w np i - 1) <$> seqZ 0 N) !! i = Some e' ∧
        ∀ j v, row !! j = Some v →
               v = if bool_decide (gcol i = Some j) then e' + 1 else 0.
Proof.
  intros Hr. apply lookup_fmap_seqZ_Some in Hr as [Hi ->].
  split; [by rewrite length_fmap, length_seqZ|].
  exists (tw (Z.of_nat i) - 1). split; [by apply lookup_fmap_seqZ|].
  intros j v Hv. apply lookup_fmap_seqZ_Some in Hv as [Hj ->].
  replace (tw (Z.of_nat i) - 1 + 1) with (tw (Z.of_nat i)) by lia.
  pose proof (grid_col_Some i j Hj) as Hcol.
  repeat case_bool_decide; try done; tauto.
Qed.

Hypothesis Hsize : ∀ i, 0 ≤ i < N → 1 ≤ w i ∧ 1 ≤ np i.

Lemma tile_width_pos i : 0 ≤ i < N → 1 ≤ tw i ∧ w i ≤ tw i * np i.
Proof using Hsize.
  intros Hi. destruct (Hsize i Hi) as [Hw Hn]. unfold tile_width.
  rewrite extent_is_ceiling by lia.
  pose proof (ceil_div_spec (w i) (np i) Hn). nia.
Qed.

Hypothesis HT : 0 ≤ T.
Hypothesis Hclo : Z.of_nat (length clo) = T.
Hypothesis Hchi : Z.of_nat (length chi) = T.

(** Every task axis is either a single point or the axis of a dimension. *)
Hypothesis Hhit : ∀ (j : nat) l u, clo !! j = Some l → chi !! j = Some u →
  l = u ∨ ∃ i, 0 ≤ i < N ∧ axis i = Some (Z.of_nat j).

Lemma grid_disjoint : partition_disjoint GR.
Proof using HT Hclo Hchi Hsize Hhit.
  apply (tiles_disjoint (Z.to_nat N) (Z.to_nat T) _ _ clo chi _ gcol).
  - by rewrite length_fmap, length_seqZ.
  - by rewrite length_fmap, length_seqZ.
  - lia.
  - lia.
  - by rewrite length_fmap, length_seqZ.
  - apply grid_rows.
  - intros i e' He. apply lookup_fmap_seqZ_Some in He as [Hi ->].
    pose proof (tile_width_pos (Z.of_nat i)). lia.
  - intros j l u Hl Hu. destruct (Hhit j l u Hl Hu) as [?|(i & Hi & Ha)]; [by left|right].
    exists (Z.to_nat i). split; [lia|].
    apply grid_col_Some; [apply lookup_lt_Some in Hl; lia|].
    by rewrite Z2Nat.id by lia.
Qed.

(** A dimension with a task axis is cut into at most as many tiles as the
    axis has points, starting at the origin; one without is not cut; no two
    dimensions share an axis; no axis is empty. *)
Hypothesis Hcover : ∀ i, 0 ≤ i < N →
  match axis i with
  | Some a =>
      if bool_decide (0 ≤ a < T) then
        ∃ l u, zget clo a = Some l ∧ zget chi a = Some u ∧ l ≤ 0 ∧ np i ≤ u + 1
      else np i = 1
  | None => np i = 1
  end.
Hypothesis Hinj : ∀ i i' a, 0 ≤ i < N → 0 ≤ i' < N → 0 ≤ a < T →
  axis i = Some a → axis i' = Some a → i = i'.
Hypothesis Hfree : ∀ (j : nat) l u, clo !! j = Some l → chi !! j = Some u → l ≤ u.

Lemma grid_complete : partition_complete GR.
Proof using HT Hclo Hchi Hsize Hcover Hinj Hfree.
  apply (tiles_complete (Z.to_nat N) (Z.to_nat T) _ _ clo chi _ gcol).
  - by rewrite length_fmap, length_seqZ.
  - by rewrite length_fmap, length_seqZ.
  - lia.
  - lia.
  - by rewrite length_fmap, length_seqZ.
  - apply grid_rows.
  - intros i e' He. apply lookup_fmap_seqZ_Some in He as [Hi ->].
    pose proof (tile_width_pos (Z.of_nat i)). lia.
  - intros i h e' Hh He.
    apply lookup_fmap_seqZ_Some in Hh as [Hi ->].
    apply lookup_fmap_seqZ_Some in He as [_ ->].
    pose proof (tile_width_pos (Z.of_nat i)) as [Hpos Hle]; [lia|].
    pose proof (Hcover (Z.of_nat i)) as Hcov.
    unfold grid_col. destruct (axis (Z.of_nat i)) as [a|]; simpl.
    + case_bool_decide.
      * destruct Hcov as (l & u & Hl & Hu & Hl0 & Hnp); [lia|].
        apply zget_Some in Hl as [_ Hl]. apply zget_Some in Hu as [_ Hu].
        exists l, u. split; [done|]. split; [done|]. split; [done|]. nia.
      * rewrite Hcov in Hle by lia. lia.
    + rewrite Hcov in Hle by lia. lia.
  - intros i i' j Hi Hi' Hc Hc'.
    assert (Hj : Z.of_nat j < T).
    { unfold grid_col in Hc. destruct (axis (Z.of_nat i)); simpl in Hc; [|done].
      case_bool_decide; simplify_eq. lia. }
    apply grid_col_Some in Hc, Hc'; try done.
    apply Nat2Z.inj. apply (Hinj _ _ (Z.of_nat j)); try done; lia.
  - apply Hfree.
Qed.

End Grid.

(** A dimension that is cut into one part and has no task axis lies whole
    in every tile. *)
Lemma grid_whole_dim N T (w np : Z → Z) (axis : Z → option Z) clo chi (a : nat) :
  0 ≤ N → 0 ≤ T →
  Z.of_nat (length clo) = T → Z.of_nat (length chi) = T →
  axis (Z.of_nat a) = None → np (Z.of_nat a) = 1 →
  ∀ (c x : list Z) v, in_rect (mkRect clo chi) c →
    subspace (grid N T w np axis clo chi) c x →
    0 ≤ v ≤ w (Z.of_nat a) - 1 →
    subspace (grid N T w np axis clo chi) c (<[a := v]> x).
Proof.
  intros HN HT Hclo Hchi Hax Hnp c x v Hc Hs Hv.
  assert (Hcl : length c = Z.to_nat T).
  { apply in_rect_lookup in Hc as (Hl & _). simpl in Hl. lia. }
  pose proof (subspace_tiles (Z.to_nat N) (Z.to_nat T)
                ((fun i => w i - 1) <$> seqZ 0 N)
                ((fun i => tile_width w np i - 1) <$> seqZ 0 N) clo chi
                ((fun i => (fun j => if bool_decide (axis i = Some j)
                                     then tile_width w np i else 0)
                             <$> seqZ 0 T) <$> seqZ 0 N)
                (grid_col T axis)) as Hchar.
  assert (Hiff : ∀ y, subspace (grid N T w np axis clo chi) c y ↔
            length y = Z.to_nat N ∧
            ∀ i u, y !! i = Some u →
              ∃ h e', ((fun i => w i - 1) <$> seqZ 0 N) !! i = Some h ∧
                      ((fun i => tile_width w np i - 1) <$> seqZ 0 N) !! i = Some e' ∧
                      0 ≤ u ≤ h ∧
                      base (grid_col T axis) c i e' ≤ u
                      ≤ base (grid_col T axis) c i e' + e').
  { intros y. apply Hchar; try done; try lia.
    - by rewrite length_fmap, length_seqZ.
    - by rewrite length_fmap, length_seqZ.
    - by rewrite length_fmap, length_seqZ.
    - apply grid_rows. }
  apply Hiff in Hs as [Hlen Hs]. apply Hiff. unfold Point in *.
  split; [by rewrite length_insert|].
  intros i u Hu. destruct (decide (i = a)) as [->|Hne].
  - pose proof (lookup_lt_Some _ _ _ Hu) as Ha. rewrite length_insert in Ha.
    rewrite list_lookup_insert_eq in Hu by done. injection Hu as <-.
    exists (w (Z.of_nat a) - 1), (tile_width w np (Z.of_nat a) - 1).
    split; [apply lookup_fmap_seqZ; lia|]. split; [apply lookup_fmap_seqZ; lia|].
    split; [done|].
    unfold base, grid_col. rewrite Hax. simpl.
    unfold tile_width. rewrite Hnp, Z.quot_1_r. lia.
  - rewrite list_lookup_insert_ne in Hu by done. by apply Hs.
Qed.

(** The tile of a colour depends only on the coordinates of the colour
    along the task axes that some dimension is cut along. *)
Lemma grid_subspace_cong N T (w np : Z → Z) (axis : Z → option Z) clo chi
    (c c' x : list Z) :
  0 ≤ N → 0 ≤ T →
  Z.of_nat (length clo) = T → Z.of_nat (length chi) = T →
  in_rect (mkRect clo chi) c → in_rect (mkRect clo chi) c' →
  (∀ i a, 0 ≤ i < N → axis i = Some a → 0 ≤ a < T →
          c !! Z.to_nat a = c' !! Z.to_nat a) →
  subspace (grid N T w np axis clo chi) c x →
  subspace (grid N T w np axis clo chi) c' x.
Proof.
  intros HN HT Hclo Hchi Hc Hc' Hsame Hs.
  assert (Hcl : length c = Z.to_nat T).
  { apply in_rect_lookup in Hc as (Hl & _). simpl in Hl. lia. }
  assert (Hcl' : length c' = Z.to_nat T).
  { apply in_rect_lookup in Hc' as (Hl & _). simpl in Hl. lia. }
  pose proof (subspace_tiles (Z.to_nat N) (Z.to_nat T)
                ((fun i => w i - 1) <$> seqZ 0 N)
                ((fun i => tile_width w np i - 1) <$> seqZ 0 N) clo chi
                ((fun i => (fun j => if bool_decide (axis i = Some j)
                                     then tile_width w np i else 0)
                             <$> seqZ 0 T) <$> seqZ 0 N)
                (grid_col T axis)) as Hchar.
  assert (Hiff : ∀ k, length k = Z.to_nat T →
            subspace (grid N T w np axis clo chi) k x ↔
            length x = Z.to_nat N ∧
            ∀ i u, x !! i = Some u →
              ∃ h e', ((fun i => w i - 1) <$> seqZ 0 N) !! i = Some h ∧
                      ((fun i => tile_width w np i - 1) <$> seqZ 0 N) !! i = Some e' ∧
                      0 ≤ u ≤ h ∧
                      base (grid_col T axis) k i e' ≤ u
                      ≤ base (grid_col T axis) k i e' + e').
  { intros k Hk. apply Hchar; try done; try lia.
    - by rewrite length_fmap, length_seqZ.
    - by rewrite length_fmap, length_seqZ.
    - by rewrite length_fmap, length_seqZ.
    - apply grid_rows. }
  apply Hiff in Hs as [Hlen Hs]; [|done]. apply Hiff; [done|]. split; [done|].
  intros i u Hu. destruct (Hs i u Hu) as (h & e' & Hh & He & Hu1 & Hu2).
  exists h, e'. split; [done|]. split; [done|]. split; [done|].
  assert (Hb : base (grid_col T axis) c' i e' = base (grid_col T axis) c i e'); [|lia].
  unfold base, grid_col.
  destruct (axis (Z.of_nat i)) as [a|] eqn:Ha; simpl; [|done].
  case_bool_decide as Hr; [|done].
  rewrite <- (Hsame (Z.of_nat i) a); [done| |done|done].
  apply lookup_lt_Some in Hu. lia.
Qed.

End TilingProofs.

(* ===================================================================== *)
(** *** Partitions that number the task points in mixed radix *)
(* ===================================================================== *)

Module RadixProofs.
Import Common RegionMapper Tiling CommonProofs RegionMapperProofs TilingProofs.

Lemma dot_zero (row : list Z) : ∀ c, Forall (fun v => v = 0) row → dot row c = 0.
Proof.
  unfold dot. induction row as [|r row IH]; intros [|x c] Hrow; simpl; try done.
  apply Forall_cons in Hrow as [-> Hrow]. rewrite IH by done. lia.
Qed.

Lemma radix_row_length q nps : length (radix_row q nps) = length nps.
Proof. revert q. induction nps as [|n r IH]; intros q; simpl; [done|]. by rewrite IH. Qed.

Lemma dot_radix_row nps : ∀ q (c : list Z),
  length c = length nps → dot (radix_row q nps) c = q * radix_index nps c.
Proof.
  unfold dot. induction nps as [|n r IH]; intros q [|x c] Hlen; simpl in *; try lia.
  rewrite IH by lia. lia.
Qed.

Lemma product_pos nps : Forall (Z.le 1) nps → 1 ≤ product nps.
Proof.
  induction 1 as [|n r Hn _ IH]; unfold product in *; simpl; [lia|]. nia.
Qed.

Lemma radix_index_bound nps : ∀ c,
  Forall2 (fun n x => 0 ≤ x < n) nps c →
  0 ≤ radix_index nps c < product nps.
Proof.
  induction nps as [|n r IH]; intros c Hc.
  - apply Forall2_nil_inv_l in Hc as ->. unfold product. simpl. lia.
  - apply Forall2_cons_inv_l in Hc as (x & c' & Hx & Hc' & ->).
    specialize (IH c' Hc'). unfold product in *. simpl. nia.
Qed.

Lemma radix_index_inj nps : ∀ c c',
  Forall2 (fun n x => 0 ≤ x < n) nps c →
  Forall2 (fun n x => 0 ≤ x < n) nps c' →
  radix_index nps c = radix_index nps c' → c = c'.
Proof.
  induction nps as [|n r IH]; intros c c' Hc Hc' Heq.
  - apply Forall2_nil_inv_l in Hc as ->. by apply Forall2_nil_inv_l in Hc' as ->.
  - apply Forall2_cons_inv_l in Hc as (x & c1 & Hx & Hc1 & ->).
    apply Forall2_cons_inv_l in Hc' as (x' & c2 & Hx' & Hc2 & ->).
    simpl in Heq.
    assert (Hi : radix_index r c1 = radix_index r c2) by nia.
    assert (x = x') by nia. subst x'. f_equal. by apply IH.
Qed.

Lemma radix_digits_spec nps : ∀ k,
  Forall (Z.le 1) nps → 0 ≤ k < product nps →
  Forall2 (fun n x => 0 ≤ x < n) nps (radix_digits nps k) ∧
  radix_index nps (radix_digits nps k) = k.
Proof.
  induction nps as [|n r IH]; intros k Hn Hk.
  - unfold product in Hk. simpl in *. split; [constructor|lia].
  - apply Forall_cons in Hn as [Hn Hr]. unfold product in Hk. simpl in Hk.
    fold (product r) in Hk.
    assert (Hdiv : 0 ≤ k `div` n < product r).
    { split; [apply Z.div_pos; lia|]. apply Z.div_lt_upper_bound; lia. }
    destruct (IH (k `div` n) Hr Hdiv) as [Hall Hidx]. simpl. split.
    + constructor; [|done]. apply Z.mod_pos_bound. lia.
    + rewrite Hidx. pose proof (Z.div_mod k n). lia.
Qed.

Section RadixPartition.
Variables (N T : nat) (ph eh chi : list Z) (q : Z) (t : list (list Z)).

Let nps := (fun u => u + 1) <$> chi.
Let RP := mkIndexPartition (mkRect (replicate (S N) 0) ph) (mkRect (replicate T 0) chi) t
                           (mkRect (replicate (S N) 0) eh).

Hypothesis Hph : length ph = S N.
Hypothesis Heh : length eh = S N.
Hypothesis Hchi : length chi = T.
Hypothesis Ht : length t = S N.
Hypothesis Hq : 1 ≤ q.
Hypothesis Hpos : Forall (Z.le 0) chi.
Hypothesis Hrows : ∀ i row, t !! i = Some row →
  if decide (i = N) then row = radix_row q nps else row = replicate T 0.
Hypothesis Hsame : ∀ i, (i < N)%nat → eh !! i = ph !! i.
Hypothesis Hlast_e : eh !! N = Some (q - 1).
Hypothesis Hlast_p : ph !! N = Some (q * product nps - 1).

Lemma radix_colours (c : list Z) :
  in_rect (mkRect (replicate T 0) chi) c ↔ Forall2 (fun n x => 0 ≤ x < n) nps c.
Proof using All.
  rewrite in_rect_lookup. simpl. rewrite length_replicate.
  rewrite Forall2_same_length_lookup. unfold nps. rewrite length_fmap. split.
  - intros (Hl1 & Hl2 & H). split; [lia|].
    intros i n x Hn Hx. rewrite list_lookup_fmap in Hn.
    destruct (H i x Hx) as (l & h & Hl & Hh & Hlx).
    apply lookup_replicate in Hl as [-> _].
    unfold Point in *. rewrite Hh in Hn. simpl in Hn. injection Hn as <-. lia.
  - intros [Hl H]. split; [lia|]. split; [lia|].
    intros i v Hv. pose proof (lookup_lt_Some _ _ _ Hv) as Hi.
    destruct (lookup_lt_is_Some_2 chi i) as [u Hu]; [lia|].
    exists 0, u. split; [apply lookup_replicate_2; lia|]. split; [done|].
    specialize (H i (u + 1) v). rewrite list_lookup_fmap, Hu in H.
    specialize (H eq_refl Hv). lia.
Qed.

Lemma radix_image c i :
  length c = T → (i < S N)%nat →
  ∃ e, eh !! i = Some e ∧
    lo (image RP c) !! i = Some (if decide (i = N) then q * radix_index nps c else 0) ∧
    hi (image RP c) !! i = Some ((if decide (i = N) then q * radix_index nps c else 0) + e).
Proof using All.
  intros Hc Hi. unfold image, RP, apply_transform; simpl.
  destruct (lookup_lt_is_Some_2 eh i) as [e He]; [lia|].
  destruct (lookup_lt_is_Some_2 t i) as [row Hr]; [lia|].
  exists e. split; [done|].
  unfold Point. rewrite !lookup_zip_with, list_lookup_fmap, Hr, He. simpl.
  change (0 :: replicate N 0) with (replicate (S N) 0).
  rewrite lookup_replicate_2 by lia. simpl.
  pose proof (Hrows i row Hr) as Hrow.
  destruct (decide (i = N)) as [->|Hne].
  - rewrite Hrow. rewrite dot_radix_row by (unfold nps; rewrite length_fmap; lia).
    split; f_equal; lia.
  - rewrite Hrow. rewrite dot_zero by (apply Forall_forall; intros v Hv;
      by apply elem_of_replicate in Hv as [-> _]).
    split; f_equal; lia.
Qed.

Lemma radix_subspace c x :
  length c = T →
  subspace RP c x ↔
  length x = S N ∧
  ∀ i v, x !! i = Some v →
    ∃ h, ph !! i = Some h ∧ 0 ≤ v ≤ h ∧
         (i = N → q * radix_index nps c ≤ v ≤ q * radix_index nps c + q - 1).
Proof using All.
  intros Hc. unfold subspace. rewrite !in_rect_lookup.
  assert (Hil : length (lo (image RP c)) = S N ∧ length (hi (image RP c)) = S N).
  { unfold image, RP, apply_transform; simpl.
    change (0 :: replicate N 0) with (replicate (S N) 0).
    rewrite !length_zip_with, length_fmap, length_replicate. lia. }
  destruct Hil as [Hil Hih]. split.
  - intros [(Hl1 & Hl2 & H1) (_ & _ & H2)]. simpl in Hl1, Hl2, H1.
    change (0 :: replicate N 0) with (replicate (S N) 0) in *.
    split; [lia|]. intros i v Hv.
    destruct (H1 i v Hv) as (l & h & Hl & Hh & Hlv).
    destruct (H2 i v Hv) as (l2 & h2 & Hl2' & Hh2 & Hlv2).
    pose proof (lookup_lt_Some _ _ _ Hv) as Hi.
    destruct (radix_image c i Hc) as (e & He & Hlo & Hhi); [lia|].
    pose proof (eq_trans (eq_sym Hlo) Hl2') as E1. injection E1 as <-.
    pose proof (eq_trans (eq_sym Hhi) Hh2) as E2. injection E2 as <-.
    apply lookup_replicate in Hl as [-> _].
    exists h. split; [done|]. split; [lia|]. intros ->.
    rewrite decide_True in Hlv2 by done.
    rewrite Hlast_e in He. injection He as <-. lia.
  - intros [Hlen H]. split.
    + unfold RP. cbn [ip_parent lo hi].
      split; [rewrite length_replicate; lia|]. split; [lia|].
      intros i v Hv. destruct (H i v Hv) as (h & Hh & Hv1 & _).
      exists 0, h. split; [|done].
      apply lookup_replicate_2. apply lookup_lt_Some in Hv. lia.
    + split; [lia|]. split; [lia|].
      intros i v Hv. destruct (H i v Hv) as (h & Hh & Hv1 & Hv2).
      pose proof (lookup_lt_Some _ _ _ Hv) as Hi.
      destruct (radix_image c i Hc) as (e & He & Hlo & Hhi); [lia|].
      eexists _, _. split; [exact Hlo|]. split; [exact Hhi|].
      destruct (decide (i = N)) as [->|Hne].
      * rewrite Hlast_e in He. injection He as <-. specialize (Hv2 eq_refl). lia.
      * rewrite Hsame in He by lia. rewrite Hh in He. injection He as <-. lia.
Qed.

Lemma radix_disjoint : partition_disjoint RP.
Proof using All.
  intros c1 c2 x Hc1 Hc2 Hs1 Hs2. simpl in Hc1, Hc2.
  apply radix_colours in Hc1, Hc2.
  pose proof (Forall2_length _ _ _ Hc1) as Hl1.
  pose proof (Forall2_length _ _ _ Hc2) as Hl2.
  unfold nps in Hl1, Hl2. rewrite length_fmap in Hl1, Hl2.
  apply radix_subspace in Hs1 as [Hlen H1]; [|lia].
  apply radix_subspace in Hs2 as [_ H2]; [|lia].
  destruct (lookup_lt_is_Some_2 x N) as [v Hv]; [lia|].
  destruct (H1 N v Hv) as (_ & _ & _ & Hr1).
  destruct (H2 N v Hv) as (_ & _ & _ & Hr2).
  specialize (Hr1 eq_refl). specialize (Hr2 eq_refl).
  apply (radix_index_inj nps); [done|done|]. nia.
Qed.

Lemma radix_complete : partition_complete RP.
Proof using All.
  intros x Hx. unfold RP in Hx. cbn [ip_parent] in Hx. apply in_rect_lookup in Hx as (Hl1 & Hl2 & Hx).
  cbn [lo hi] in Hl1, Hl2, Hx. rewrite length_replicate in Hl1.
  destruct (lookup_lt_is_Some_2 x N) as [v Hv]; [lia|].
  destruct (Hx N v Hv) as (l & h & Hl & Hh & Hlv).
  apply lookup_replicate in Hl as [-> _].
  pose proof (eq_trans (eq_sym Hh) Hlast_p) as E. injection E as ->.
  assert (Hnps : Forall (Z.le 1) nps).
  { unfold nps. apply Forall_fmap. eapply Forall_impl; [exact Hpos|].
    intros u Hu. simpl. lia. }
  pose proof (product_pos nps Hnps) as Hprod.
  assert (Hk : 0 ≤ v `div` q < product nps).
  { split; [apply Z.div_pos; lia|]. apply Z.div_lt_upper_bound; lia. }
  destruct (radix_digits_spec nps (v `div` q) Hnps Hk) as [Hdig Hidx].
  exists (radix_digits nps (v `div` q)). split.
  - simpl. by apply radix_colours.
  - apply radix_subspace.
    + apply Forall2_length in Hdig. rewrite <- Hdig. unfold nps.
      by rewrite length_fmap.
    + split; [lia|]. intros i u Hu.
      destruct (Hx i u Hu) as (l & h & Hl' & Hh' & Hlu).
      apply lookup_replicate in Hl' as [-> _].
      exists h. split; [done|]. split; [done|]. intros ->.
      pose proof (eq_trans (eq_sym Hv) Hu) as E. injection E as <-. rewrite Hidx.
      pose proof (Z.div_mod v q). pose proof (Z.mod_pos_bound v q). lia.
Qed.

End RadixPartition.

Lemma product_take_S (l : list Z) (j : nat) v :
  l !! j = Some v → product (take (S j) l) = product (take j l) * v.
Proof.
  intros Hv. rewrite (take_S_r _ _ _ Hv). unfold product.
  rewrite foldr_app. simpl. generalize (take j l) as l0.
  induction l0 as [|a l0 IH]; simpl; [lia|]. rewrite IH. lia.
Qed.

Lemma product_app (l1 l2 : list Z) : product (l1 ++ l2) = product l1 * product l2.
Proof.
  unfold product. induction l1 as [|a l1 IH]; simpl; [lia|]. rewrite IH. lia.
Qed.

Lemma product_take_le (l : list Z) (j : nat) :
  Forall (Z.le 1) l → 1 ≤ product (take j l) ≤ product l.
Proof.
  intros Hl. rewrite <- (take_drop j l) at 3. rewrite product_app.
  pose proof (product_pos (take j l) (Forall_take _ _ _ Hl)) as H1.
  pose proof (product_pos (drop j l) (Forall_drop _ _ _ Hl)) as H2.
  nia.
Qed.

Lemma radix_row_S nps : ∀ q (j : nat) a n,
  radix_row q nps !! j = Some a → nps !! j = Some n → (S j < length nps)%nat →
  radix_row q nps !! S j = Some (a * n).
Proof.
  induction nps as [|m r IH]; intros q j a n Ha Hn Hlt; [done|].
  destruct j as [|j]; simpl in *.
  - injection Ha as <-. injection Hn as <-. destruct r as [|m' r]; [simpl in Hlt; lia|].
    done.
  - apply (IH (q * m) j a n); [done|done|lia].
Qed.

Lemma radix_row_head q nps : (0 < length nps)%nat → radix_row q nps !! 0%nat = Some q.
Proof. destruct nps; simpl; [lia|done]. Qed.

Lemma row_step (R : list Z) (k T : nat) v :
  R !! k = Some v → (k < T)%nat →
  <[k := v]> (take k R ++ replicate (T - k) 0) = take (S k) R ++ replicate (T - S k) 0.
Proof.
  intros Hv Hk. pose proof (lookup_lt_Some _ _ _ Hv) as Hlt.
  rewrite (take_S_r _ _ _ Hv).
  replace (T - k)%nat with (S (T - S k)) by lia. simpl.
  rewrite insert_app_r_alt by (rewrite length_take; lia).
  rewrite length_take. replace (k - k `min` length R)%nat with 0%nat by lia.
  simpl. by rewrite <- app_assoc.
Qed.

Lemma fmap_const_seqZ {A} (a : A) n : (fun _ : Z => a) <$> seqZ 0 n = replicate (Z.to_nat n) a.
Proof.
  apply list_eq. intros i. destruct (decide (i < Z.to_nat n)%nat) as [Hi|Hi].
  - rewrite lookup_fmap_seqZ by lia. by rewrite lookup_replicate_2.
  - rewrite !lookup_ge_None_2; [done| |].
    + rewrite length_replicate. lia.
    + rewrite length_fmap, length_seqZ. lia.
Qed.

End RadixProofs.

Module TaskSpaceProofs.
Import Common RegionMapper Tiling TaskSpace CommonProofs RegionMapperProofs TilingProofs.

Lemma NoDup_filter_fmap_lookup {A B} (f : A → B) (P : B → Prop)
    `{!∀ x, Decision (P x)} (l : list A) :
  ∀ i i' a b, NoDup (filter P (f <$> l)) →
    l !! i = Some a → l !! i' = Some b → P (f a) → f a = f b → i = i'.
Proof.
  induction l as [|x l IH]; intros i i' a b Hnd Hi Hi' HP Heq; [done|].
  rewrite fmap_cons, filter_cons in Hnd.
  assert (Hin : ∀ k c, l !! k = Some c → P (f c) → f c ∈ filter P (f <$> l)).
  { intros k c Hk Hc. apply list_elem_of_filter. split; [done|].
    apply list_elem_of_fmap. exists c. split; [done|]. by eapply list_elem_of_lookup_2. }
  destruct i as [|i], i' as [|i']; simpl in *; simplify_eq; try done.
  - exfalso. rewrite decide_True in Hnd by done.
    apply NoDup_cons in Hnd as [Hnot _]. apply Hnot. rewrite Heq.
    apply (Hin i' b); [done|]. by rewrite <- Heq.
  - exfalso. assert (HPx : P (f b)) by (by rewrite <- Heq).
    rewrite decide_True in Hnd by done.
    apply NoDup_cons in Hnd as [Hnot _]. apply Hnot. rewrite <- Heq.
    by apply (Hin i a).
  - f_equal. apply (IH i i' a b); try done.
    destruct (decide (P (f x))); [by apply NoDup_cons in Hnd as [_ ?]|done].
Qed.

Lemma aset_printable (a a' : list (option Z)) i v :
  aset a i v = Some a' → printable a → printable a'.
Proof.
  intros Hset Hp j Hj. destruct (aset_Some _ _ _ _ Hset) as (_ & _ & Hget & Hoth).
  destruct (decide (j = i)) as [->|Hne]; [rewrite Hget; by eexists|].
  rewrite Hoth by done. by apply Hp.
Qed.

Section Axes.
Variables (L : Limits) (tensor : ParallelTensorBase).
Hypothesis Hmap : mappable L tensor.
Hypothesis Hprint : printable (default_dim L).

Let k := Z.of_nat (length (task_axes tensor)).

Lemma axes_range i d :
  zget (dims tensor) i = Some d → 0 ≤ parallel_idx d → parallel_idx d < k.
Proof using Hmap.
  intros Hd Hp. destruct Hmap as (_ & _ & _ & _ & _ & Hperm).
  assert (Hin : parallel_idx d ∈ task_axes tensor).
  { unfold task_axes. apply list_elem_of_filter. split; [done|].
    apply list_elem_of_fmap. exists d. split; [done|].
    apply zget_Some in Hd as [_ Hd]. by eapply list_elem_of_lookup_2. }
  rewrite Hperm in Hin. apply elem_of_seqZ in Hin. unfold k. lia.
Qed.

Lemma axes_inj i i' d d' :
  zget (dims tensor) i = Some d → zget (dims tensor) i' = Some d' →
  0 ≤ parallel_idx d → parallel_idx d = parallel_idx d' → i = i'.
Proof using Hmap.
  intros Hd Hd' Hp Heq. destruct Hmap as (_ & _ & _ & _ & _ & Hperm).
  apply zget_Some in Hd as [Hi Hd]. apply zget_Some in Hd' as [Hi' Hd'].
  assert (Hnd : NoDup (task_axes tensor)) by (rewrite Hperm; apply NoDup_seqZ).
  pose proof (NoDup_filter_fmap_lookup parallel_idx (fun idx => 0 ≤ idx)
                (dims tensor) _ _ d d' Hnd Hd Hd' Hp Heq). lia.
Qed.

Lemma axes_hit j :
  0 ≤ j < k → ∃ i d, zget (dims tensor) i = Some d ∧ parallel_idx d = j.
Proof using Hmap.
  intros Hj. destruct Hmap as (_ & _ & _ & _ & _ & Hperm).
  assert (Hin : j ∈ task_axes tensor).
  { rewrite Hperm. apply elem_of_seqZ. unfold k in Hj. lia. }
  unfold task_axes in Hin. apply list_elem_of_filter in Hin as [_ Hin].
  apply list_elem_of_fmap in Hin as (d & -> & Hd).
  apply list_elem_of_lookup in Hd as [i Hd].
  exists (Z.of_nat i), d. split; [|done].
  apply zget_Some. split; [lia|]. by rewrite Nat2Z.id.
Qed.

Lemma axis_degree_hit i d :
  zget (dims tensor) i = Some d → 0 ≤ parallel_idx d →
  axis_degree tensor (parallel_idx d) = degree d.
Proof using Hmap.
  intros Hd Hp. unfold axis_degree.
  destruct (list_find _ _) as [[n d0]|] eqn:Hf.
  - apply list_find_Some in Hf as (Hn & Heq & _).
    assert (Hd0 : zget (dims tensor) (Z.of_nat n) = Some d0).
    { apply zget_Some. split; [lia|]. by rewrite Nat2Z.id. }
    pose proof (axes_inj _ _ _ _ Hd Hd0 Hp (eq_sym Heq)) as ->.
    rewrite Hd in Hd0. by injection Hd0 as <-.
  - exfalso. apply list_find_None in Hf. rewrite Forall_forall in Hf.
    apply (Hf d); [|done]. apply zget_Some in Hd as [_ Hd].
    by eapply list_elem_of_lookup_2.
Qed.

Lemma axis_degree_none j :
  (∀ d, d ∈ dims tensor → parallel_idx d ≠ j) → axis_degree tensor j = 1.
Proof.
  intros H. unfold axis_degree.
  destruct (list_find _ _) as [[n d0]|] eqn:Hf; [|done].
  apply list_find_Some in Hf as (Hn & Heq & _). exfalso.
  apply (H d0); [by eapply list_elem_of_lookup_2|done].
Qed.

Let kk := Z.max 1 k.

Lemma view_of_tensor_spec :
  ∃ view, view_of_tensor L tensor = Some view ∧ ndims view = kk ∧
          printable (dim view) ∧
          ∀ j, 0 ≤ j < kk → aget (dim view) j = Some (axis_degree tensor j).
Proof using Hmap Hprint.
  unfold view_of_tensor.
  pose proof Hmap as (Hnd & Hslots & Hk & _ & _ & Hperm).
  destruct (for_range_progress
    (fun i v =>
       Z.of_nat (length (dim v)) = VIEW_SLOTS L ∧ printable (dim v) ∧
       ndims v = Z.of_nat (length (filter (fun idx => 0 ≤ idx)
                   (parallel_idx <$> take (Z.to_nat i) (dims tensor)))) ∧
       ∀ i0 d, 0 ≤ i0 < i → zget (dims tensor) i0 = Some d → 0 ≤ parallel_idx d →
               aget (dim v) (parallel_idx d) = Some (degree d))
    (fun i view =>
       d ← zget (dims tensor) i;
       if 0 <=? parallel_idx d then
         dim' ← aset (dim view) (parallel_idx d) (degree d);
         Some (mkView (ndims view + 1) dim')
       else Some view)
    0 (num_dims tensor) (mkView 0 (default_dim L)))
    as (v & Hrun & Hlen & Hpr & Hn & Hdim).
  - lia.
  - simpl. split; [done|]. split; [done|].
    split; [done|]. intros; lia.
  - intros j v Hj (Hlen & Hpr & Hn & Hdim).
    destruct (lookup_lt_is_Some_2 (dims tensor) (Z.to_nat j)) as [d Hd];
      [unfold num_dims in Hj; lia|].
    assert (Hz : zget (dims tensor) j = Some d) by (apply zget_Some; split; [lia|done]).
    rewrite Hz. simpl.
    replace (Z.to_nat (j + 1)) with (S (Z.to_nat j)) by lia.
    rewrite (take_S_r _ _ d Hd), fmap_app, filter_app, length_app. simpl.
    rewrite filter_cons, filter_nil.
    destruct (Z.leb_spec 0 (parallel_idx d)) as [Hp|Hp].
    + pose proof (axes_range j d Hz Hp) as Hlt. fold k in Hk.
      assert (Hset : aset (dim v) (parallel_idx d) (degree d)
                     = Some (<[Z.to_nat (parallel_idx d) := Some (degree d)]> (dim v))).
      { unfold aset. destruct (Z.leb_spec 0 (parallel_idx d)); [|lia].
        by destruct (Z.ltb_spec (parallel_idx d) (Z.of_nat (length (dim v)))); [|lia]. }
      rewrite Hset. simpl. eexists. split; [done|]. simpl.
      pose proof (aset_printable _ _ _ _ Hset Hpr) as Hpr'.
      apply aset_Some in Hset as (_ & Hl' & Hget & Hoth).
      split; [lia|]. split; [done|]. split.
      * rewrite decide_True by done. simpl. lia.
      * intros i0 d0 Hi0 Hd0 Hp0. destruct (decide (i0 = j)) as [->|Hne].
        -- rewrite Hz in Hd0. by injection Hd0 as <-.
        -- rewrite Hoth; [apply (Hdim i0 d0); try done; lia|].
           intros Heq. apply Hne. by apply (axes_inj i0 j d0 d).
    + eexists. split; [done|]. split; [done|]. split; [done|]. split.
      * rewrite decide_False by lia. simpl. lia.
      * intros i0 d0 Hi0 Hd0 Hp0. destruct (decide (i0 = j)) as [->|Hne].
        -- rewrite Hz in Hd0. injection Hd0 as <-. lia.
        -- apply (Hdim i0 d0); try done; lia.
  - rewrite Hrun. cbn [mbind option_bind].
    assert (Hall : take (Z.to_nat (num_dims tensor)) (dims tensor) = dims tensor).
    { apply take_ge. unfold num_dims. lia. }
    rewrite Hall in Hn. fold (task_axes tensor) in Hn. fold k in Hn.
    destruct (Z.eqb_spec (ndims v) 0) as [Hz|Hnz].
    + assert (Hset : aset (dim v) 0 1 = Some (<[Z.to_nat 0 := Some 1]> (dim v))).
      { unfold aset. simpl. by destruct (Z.ltb_spec 0 (Z.of_nat (length (dim v)))); [|lia]. }
      rewrite Hset. simpl. eexists. split; [done|]. simpl.
      pose proof (aset_printable _ _ _ _ Hset Hpr) as Hpr'.
      apply aset_Some in Hset as (_ & _ & Hget & _).
      split; [unfold kk; lia|]. split; [done|]. intros j Hj.
      assert (j = 0) as -> by (unfold kk in Hj; lia).
      rewrite Hget. f_equal. symmetry. apply axis_degree_none.
      intros d Hd Hp.
      assert (Hin : 0 ∈ task_axes tensor).
      { unfold task_axes. apply list_elem_of_filter. split; [done|].
        apply list_elem_of_fmap. by exists d. }
      assert (Hk0 : k = 0) by lia. unfold k in Hk0.
      destruct (task_axes tensor); [by apply elem_of_nil in Hin | simpl in Hk0; lia].
    + exists v. split; [done|]. split; [unfold kk; lia|]. split; [done|].
      intros j Hj.
      destruct (axes_hit j) as (i & d & Hd & <-); [unfold kk in Hj; lia|].
      assert (Hp : 0 ≤ parallel_idx d) by lia.
      rewrite (axis_degree_hit i d Hd Hp).
      apply (Hdim i d); try done. apply zget_lt in Hd. unfold num_dims. lia.
Qed.

Lemma view_key_spec view :
  ndims view = kk →
  (∀ j, 0 ≤ j < kk → aget (dim view) j = Some (axis_degree tensor j)) →
  view_key view = Some (mkMachineView (axis_degree tensor <$> seqZ 0 kk)).
Proof.
  intros Hn Hd. unfold view_key. rewrite Hn.
  by rewrite (tabulate_fn kk _ (axis_degree tensor)).
Qed.

End Axes.

Lemma tabulate_fmap {A B} n (f : Z → option A) (h : A → B) l :
  tabulate n f = Some l →
  tabulate n (fun i => x ← f i; Some (h x)) = Some (h <$> l).
Proof.
  unfold tabulate. rewrite !mapM_Some. intros H.
  apply Forall2_fmap_r. eapply Forall2_impl; [exact H|].
  intros i x Hx. simpl in Hx. by rewrite Hx.
Qed.

Lemma view_key_length view key :
  view_key view = Some key → length (axis_extents key) = Z.to_nat (ndims view).
Proof.
  unfold view_key. destruct (tabulate _ _) as [l|] eqn:Hl; simpl; [|done].
  intros [= <-]. simpl. by apply tabulate_spec in Hl as [? _].
Qed.

Lemma get_or_create_task_is_view_spec L s view key :
  cache_ok L s → view_key view = Some key → 1 ≤ ndims view ≤ LEGION_MAX_DIM L →
  printable (dim view) →
  ∃ s' task_is,
    get_or_create_task_is_view L s view = Some (s', task_is) ∧
    cache_ok L s' ∧
    all_task_is s' !! key = Some task_is ∧
    index_spaces s' !! task_is =
      Some (mkRect (ZEROES (ndims view)) ((fun d => d - 1) <$> axis_extents key)) ∧
    (∀ key' is', all_task_is s !! key' = Some is' → all_task_is s' !! key' = Some is') ∧
    (∀ h r, index_spaces s !! h = Some r → index_spaces s' !! h = Some r) ∧
    (is_Some (all_task_is s !! key) → s' = s).
Proof.
  intros [Hc1 Hc2] Hkey Hn Hpr. unfold get_or_create_task_is_view.
  rewrite Hkey. cbn [mbind option_bind].
  pose proof (view_key_length _ _ Hkey) as Hlen.
  destruct (all_task_is s !! key) as [task_is|] eqn:Hfind.
  - exists s, task_is. split; [done|]. split; [by split|]. split; [done|].
    destruct (Hc1 _ _ Hfind) as [_ Hdom]. split.
    { rewrite Hdom. do 3 f_equal. lia. }
    split; [done|]. split; [done|done].
  - destruct (Z.leb_spec 1 (ndims view)); [|lia].
    destruct (Z.leb_spec (ndims view) (LEGION_MAX_DIM L)); [|lia].
    cbn [andb assert mbind option_bind].
    unfold view_key in Hkey.
    destruct (tabulate (ndims view) (fun i => aget (dim view) i)) as [l|] eqn:Hl;
      simpl in Hkey; [|done].
    injection Hkey as <-. simpl in *.
    rewrite (tabulate_fmap _ _ (fun d => d - 1) l Hl). cbn [mbind option_bind].
    destruct (Hpr 0) as [d0 ->]; [lia|]. destruct (Hpr 1) as [d1 ->]; [lia|].
    destruct (Hpr 2) as [d2 ->]; [lia|]. destruct (Hpr 3) as [d3 ->]; [lia|].
    cbn [mbind option_bind].
    eexists _, _. split; [done|]. simpl.
    assert (Hfresh : index_spaces s !! next_index_space s = None).
    { destruct (index_spaces s !! next_index_space s) eqn:E; [|done].
      pose proof (Hc2 _ (mk_is_Some _ _ E)). lia. }
    split; [split|].
    + intros key' is'. simpl. destruct (decide (key' = mkMachineView l)) as [->|Hne].
      * rewrite lookup_insert_eq. intros [= <-]. simpl.
        rewrite lookup_insert_eq. split; [lia|]. do 3 f_equal. lia.
      * rewrite lookup_insert_ne by done. intros Hk.
        destruct (Hc1 _ _ Hk) as [Hr Hdom]. split; [done|].
        rewrite lookup_insert_ne; [done|]. intros <-. by rewrite Hfresh in Hdom.
    + intros h. simpl. destruct (decide (h = next_index_space s)) as [->|Hne].
      * intros _. lia.
      * rewrite lookup_insert_ne by done. intros Hh. pose proof (Hc2 _ Hh). lia.
    + split; [apply lookup_insert_eq|]. split; [apply lookup_insert_eq|].
      split.
      * intros key' is' Hk. rewrite lookup_insert_ne; [done|]. intros <-.
        by rewrite Hfind in Hk.
      * split.
        -- intros h r Hh. rewrite lookup_insert_ne; [done|]. intros <-.
           by rewrite Hfresh in Hh.
        -- by intros [? ?].
Qed.

Lemma zget_fmap_seqZ {A} (g : Z → A) n i :
  0 ≤ i < n → zget (g <$> seqZ 0 n) i = Some (g i).
Proof.
  intros Hi. apply zget_Some. split; [lia|].
  rewrite lookup_fmap_seqZ by lia. by rewrite Z2Nat.id by lia.
Qed.

Section Mapping.
Variables (L : Limits) (tensor : ParallelTensorBase).
Hypothesis Hmap : mappable L tensor.

Let k := Z.of_nat (length (task_axes tensor)).
Let kk := Z.max 1 k.
Let dz (i : Z) : ParallelDim :=
  default (mkParallelDim 0 0 0 false) (dims tensor !! Z.to_nat i).
Let w (i : Z) := size (dz i).
Let np (i : Z) := degree (dz i).
Let axis (i : Z) : option Z := Some (parallel_idx (dz i)).

Lemma dz_spec i : 0 ≤ i < num_dims tensor → zget (dims tensor) i = Some (dz i).
Proof.
  intros Hi. apply zget_Some. split; [lia|]. unfold dz.
  destruct (lookup_lt_is_Some_2 (dims tensor) (Z.to_nat i)) as [d ->];
    [unfold num_dims in Hi; lia | done].
Qed.

Lemma dz_valid i :
  0 ≤ i < num_dims tensor →
  1 ≤ w i ∧ 1 ≤ np i ∧ (parallel_idx (dz i) < 0 → np i = 1).
Proof using Hmap.
  intros Hi. destruct Hmap as (_ & _ & _ & _ & Hall & _).
  rewrite Forall_forall in Hall. apply Hall.
  pose proof (dz_spec i Hi) as Hd. apply zget_Some in Hd as [_ Hd].
  by eapply list_elem_of_lookup_2.
Qed.

Lemma axis_degree_pos j : 1 ≤ axis_degree tensor j.
Proof using Hmap.
  unfold axis_degree. destruct (list_find _ _) as [[n d]|] eqn:Hf; [|lia].
  apply list_find_Some in Hf as (Hn & _ & _).
  destruct Hmap as (_ & _ & _ & _ & Hall & _). rewrite Forall_forall in Hall.
  apply Hall. by eapply list_elem_of_lookup_2.
Qed.

Lemma task_rect_of_eq :
  task_rect_of tensor =
  mkRect (ZEROES kk) ((fun j => axis_degree tensor j - 1) <$> seqZ 0 kk).
Proof. done. Qed.

Lemma task_grid_ok :
  partition_disjoint (grid (num_dims tensor) kk w np axis (ZEROES kk)
                        ((fun j => axis_degree tensor j - 1) <$> seqZ 0 kk)) ∧
  partition_complete (grid (num_dims tensor) kk w np axis (ZEROES kk)
                        ((fun j => axis_degree tensor j - 1) <$> seqZ 0 kk)).
Proof using Hmap.
  assert (Hkk : 1 ≤ kk) by (unfold kk; lia).
  assert (Hlo : ∀ (j : nat) l, ZEROES kk !! j = Some l → l = 0 ∧ Z.of_nat j < kk).
  { intros j l Hl. unfold ZEROES in Hl. apply lookup_replicate in Hl. lia. }
  split.
  - apply grid_disjoint.
    + intros i Hi. pose proof (dz_valid i Hi). tauto.
    + lia.
    + unfold ZEROES. rewrite length_replicate. lia.
    + rewrite length_fmap, length_seqZ. lia.
    + intros j l u Hl Hu. apply Hlo in Hl as [-> Hj].
      apply lookup_fmap_seqZ_Some in Hu as [_ ->].
      destruct (decide (k = 0)) as [Hk0|Hk0].
      * left. assert (j = 0%nat) as -> by (unfold kk in Hj; lia). simpl.
        rewrite axis_degree_none; [done|].
        intros d Hd Hp.
        assert (Hin : 0 ∈ task_axes tensor).
        { unfold task_axes. apply list_elem_of_filter. split; [done|].
          apply list_elem_of_fmap. by exists d. }
        unfold k in Hk0. destruct (task_axes tensor); [by apply elem_of_nil in Hin|].
        simpl in Hk0. lia.
      * right. destruct (axes_hit L tensor Hmap (Z.of_nat j)) as (i & d & Hd & Hp).
        { fold k. unfold kk in Hj. lia. }
        exists i. pose proof (zget_lt _ _ _ Hd) as Hi. fold (num_dims tensor) in Hi.
        split; [done|]. unfold axis. rewrite (dz_spec i Hi) in Hd.
        injection Hd as ->. by rewrite Hp.
  - apply grid_complete.
    + intros i Hi. pose proof (dz_valid i Hi). tauto.
    + lia.
    + unfold ZEROES. rewrite length_replicate. lia.
    + rewrite length_fmap, length_seqZ. lia.
    + intros i Hi. unfold axis. pose proof (dz_valid i Hi) as (_ & _ & Hneg).
      case_bool_decide as Ha.
      * exists 0, (axis_degree tensor (parallel_idx (dz i)) - 1).
        split; [apply zget_ZEROES; lia|]. split.
        { apply zget_Some. split; [lia|].
          rewrite lookup_fmap_seqZ by lia. by rewrite Z2Nat.id by lia. }
        split; [done|].
        rewrite (axis_degree_hit L tensor Hmap i (dz i)); [unfold np; lia| |lia].
        by apply dz_spec.
      * apply Hneg. destruct (Z.lt_ge_cases (parallel_idx (dz i)) 0); [done|].
        pose proof (axes_range L tensor Hmap i (dz i) (dz_spec i Hi)) as Hr.
        fold k in Hr. unfold kk in Ha. lia.
    + intros i i' a Hi Hi' Ha Hax Hax'. unfold axis in *. simplify_eq.
      apply (axes_inj L tensor Hmap i i' (dz i) (dz i')); try (by apply dz_spec); lia.
    + intros j l u Hl Hu. apply Hlo in Hl as [-> Hj].
      apply lookup_fmap_seqZ_Some in Hu as [_ ->].
      pose proof (axis_degree_pos (Z.of_nat j)). lia.
Qed.

Lemma map_tensor_with_dim2_mappable training o op :
  owner_op tensor = Some o → op = Some o ∨ op = None →
  ∃ m,
    map_tensor_with_dim2 (num_dims tensor) kk training (task_rect_of tensor)
                         tensor op = Some m ∧
    m_owner_op m = Some o ∧ m_owner_idx m = owner_idx tensor ∧
    m_rect m = mkRect (ZEROES (num_dims tensor))
                      ((fun i => w i - 1) <$> seqZ 0 (num_dims tensor)) ∧
    m_has_grad m = create_gradients tensor && training ∧
    m_part m =
      match op with
      | None => None
      | Some _ => Some (grid (num_dims tensor) kk w np axis (ZEROES kk)
                          ((fun j => axis_degree tensor j - 1) <$> seqZ 0 kk))
      end.
Proof using Hmap.
  intros Hown Hop. unfold map_tensor_with_dim2. rewrite Hown.
  assert (Hchk : bool_decide (Some o = op) || bool_decide (op = None) = true).
  { destruct Hop as [->| ->].
    - by rewrite bool_decide_eq_true_2.
    - rewrite (bool_decide_eq_true_2 (None = None)) by done. apply orb_true_r. }
  rewrite Hchk. cbn [assert mbind option_bind].
  pose proof Hmap as (_ & _ & _ & [fs Hfs] & _ & _).
  rewrite Hfs. cbn [mbind option_bind].
  rewrite (tabulate_fn (num_dims tensor) _ (fun i => w i - 1))
    by (intros i Hi; by rewrite (dz_spec i Hi)).
  cbn [mbind option_bind].
  destruct op as [p|].
  2: { eexists. split; [done|]. simpl. done. }
  rewrite (tabulate_fn (num_dims tensor) _ (fun i => tile_width w np i - 1)).
  2: { intros i Hi. rewrite (dz_spec i Hi). cbn [mbind option_bind].
       unfold ext_hi_of. cbn [hi lo].
       rewrite zget_fmap_seqZ, zget_ZEROES by done. cbn [mbind option_bind].
       pose proof (dz_valid i Hi) as (_ & Hn & _). unfold cdiv.
       destruct (Z.eqb_spec (degree (dz i)) 0) as [E|_]; [unfold np in Hn; lia|].
       cbn [mbind option_bind]. unfold tile_width, w, np. do 2 f_equal. f_equal. lia. }
  cbn [mbind option_bind].
  rewrite (tabulate_fn (num_dims tensor) _
             (fun i => (fun j => if bool_decide (axis i = Some j)
                                 then tile_width w np i else 0) <$> seqZ 0 kk)).
  2: { intros i Hi. apply tabulate_fn. intros j Hj.
       rewrite (dz_spec i Hi). cbn [mbind option_bind hi lo].
       rewrite zget_fmap_seqZ, zget_ZEROES by done. cbn [mbind option_bind].
       f_equal. unfold axis.
       destruct (Z.eqb_spec (parallel_idx (dz i)) j) as [->|Hne].
       - rewrite bool_decide_eq_true_2 by done. lia.
       - rewrite bool_decide_eq_false_2; [done|]. intros [= ?]. done. }
  cbn [mbind option_bind].
  destruct task_grid_ok as [Hdis Hcom].
  match goal with
  | |- context [assert (is_index_partition_disjoint ?ip)] =>
      assert (is_index_partition_disjoint ip = true) as ->
        by (apply is_index_partition_disjoint_spec; exact Hdis);
      assert (is_index_partition_complete ip = true) as ->
        by (apply is_index_partition_complete_spec; exact Hcom)
  end.
  cbn [assert mbind option_bind].
  eexists. split; [done|]. simpl. done.
Qed.

End Mapping.

Lemma region_hi_dims (l : list ParallelDim) d0 :
  (fun i => size (default d0 (l !! Z.to_nat i)) - 1) <$> seqZ 0 (Z.of_nat (length l))
  = (fun d => size d - 1) <$> l.
Proof.
  apply list_eq. intros i. destruct (decide (i < length l)%nat) as [Hi|Hi].
  - rewrite lookup_fmap_seqZ by lia. rewrite Nat2Z.id.
    rewrite list_lookup_fmap.
    destruct (lookup_lt_is_Some_2 l i Hi) as [d ->]. done.
  - rewrite !lookup_ge_None_2; [done| |].
    + rewrite length_fmap. lia.
    + rewrite length_fmap, length_seqZ. lia.
Qed.

Lemma cache_ok_empty L : cache_ok L (mkTaskSpaces ∅ 0 ∅).
Proof.
  split; simpl.
  - intros key task_is H. by rewrite lookup_empty in H.
  - intros handle [r H]. by rewrite lookup_empty in H.
Qed.

(** [FFModel::map_tensor] goes through on every mappable shape, whatever
    task index spaces are cached, when the default constructor of
    [MachineView] initialises the four slots of [dim] that the [printf] of
    [get_or_create_task_is] reads: none of its assertions fails and no
    array is read or written out of bounds, nor read where it holds no
    value. The tensor gets the task index space
    [task_rect_of], a region over [[0, size - 1]] in every dimension and,
    when an operator is passed, a partition of the whole region into
    pairwise disjoint tiles, one per point of the task space. *)
Theorem map_tensor_succeeds L s training tensor o op :
  cache_ok L s → mappable L tensor → printable (default_dim L) →
  owner_op tensor = Some o → op = Some o ∨ op = None →
  ∃ s' parallel_is m,
    map_tensor L s training tensor op = Some (s', parallel_is, m) ∧
    cache_ok L s' ∧
    get_index_space_domain s' parallel_is = Some (task_rect_of tensor) ∧
    m_owner_op m = Some o ∧ m_owner_idx m = owner_idx tensor ∧
    m_rect m = mkRect (ZEROES (num_dims tensor)) ((fun d => size d - 1) <$> dims tensor) ∧
    m_has_grad m = create_gradients tensor && training ∧
    (op = None → m_part m = None) ∧
    (op ≠ None →
     ∃ ip, m_part m = Some ip ∧ ip_parent ip = m_rect m ∧
           ip_colors ip = task_rect_of tensor ∧
           partition_disjoint ip ∧ partition_complete ip).
Proof.
  intros Hcache Hmap Hprint Hown Hop.
  pose proof Hmap as (Hnd & Hslots & Hk & _ & _ & _).
  set (k := Z.of_nat (length (task_axes tensor))) in *.
  set (kk := Z.max 1 k).
  assert (Hkn : k ≤ num_dims tensor).
  { unfold k, task_axes, num_dims.
    pose proof (length_filter (fun idx => 0 ≤ idx) (parallel_idx <$> dims tensor)) as Hf.
    rewrite length_fmap in Hf. lia. }
  unfold map_tensor.
  destruct (Z.leb_spec 1 (num_dims tensor)); [|lia].
  destruct (Z.leb_spec (num_dims tensor) (LEGION_MAX_DIM L)); [|lia].
  cbn [andb assert mbind option_bind].
  unfold map_tensor_with_dim, get_or_create_task_is_tensor.
  destruct (view_of_tensor_spec L tensor Hmap Hprint)
    as (view & Hview & Hn & Hpr & Hdim).
  fold k kk in Hn, Hdim.
  pose proof (view_key_spec tensor view Hn Hdim) as Hkey. fold k kk in Hkey.
  rewrite Hview. cbn [mbind option_bind].
  destruct (get_or_create_task_is_view_spec L s view _ Hcache Hkey)
    as (s1 & task_is & Hgoc & Hcache1 & Hfind1 & Hdom1 & _ & _ & _);
    [unfold kk in *; lia|done|].
  rewrite Hgoc. cbn [mbind option_bind].
  rewrite Hown. rewrite bool_decide_eq_true_2 by done.
  cbn [assert mbind option_bind].
  assert (Hdom : get_index_space_domain s1 task_is = Some (task_rect_of tensor)).
  { unfold get_index_space_domain. rewrite Hdom1, Hn. simpl.
    by rewrite <- list_fmap_compose. }
  rewrite Hdom. cbn [mbind option_bind].
  assert (HT : Z.of_nat (length (lo (task_rect_of tensor))) = kk).
  { simpl. unfold ZEROES. rewrite length_replicate. fold k kk. lia. }
  rewrite HT.
  destruct (Z.leb_spec 1 kk); [|lia].
  destruct (Z.leb_spec kk (LEGION_MAX_DIM L)); [|unfold kk in *; lia].
  cbn [andb assert mbind option_bind].
  destruct (map_tensor_with_dim2_mappable L tensor Hmap training o op Hown Hop)
    as (m & Hm & Ho & Hidx & Hrect & Hgrad & Hpart).
  fold k kk in Hm, Hpart.
  assert (Hrect' : m_rect m = mkRect (ZEROES (num_dims tensor))
                                     ((fun d => size d - 1) <$> dims tensor)).
  { rewrite Hrect. f_equal. unfold num_dims. apply region_hi_dims. }
  destruct op as [p|].
  - destruct (get_or_create_task_is_view_spec L s1 view _ Hcache1 Hkey)
      as (s2 & part_is & Hgoc2 & _ & Hfind2 & _ & _ & _ & Hsame);
      [unfold kk in *; lia|done|].
    rewrite Hgoc2. cbn [mbind option_bind].
    rewrite (Hsame (mk_is_Some _ _ Hfind1)) in *.
    rewrite Hfind1 in Hfind2. injection Hfind2 as <-.
    rewrite Hdom. cbn [mbind option_bind]. rewrite Hm. cbn [mbind option_bind].
    exists s1, task_is, m. split; [done|]. split; [done|]. split; [done|].
    split; [done|]. split; [done|]. split; [done|]. split; [done|].
    split; [done|]. intros _.
    eexists. split; [exact Hpart|]. split; [by rewrite Hrect|]. split; [done|].
    apply (task_grid_ok L tensor Hmap).
  - rewrite Hm. cbn [mbind option_bind].
    exists s1, task_is, m. split; [done|]. split; [done|]. split; [done|].
    split; [done|]. split; [done|]. split; [done|]. split; [done|].
    split; [done|]. done.
Qed.

Lemma S6_mappable : mappable Scenarios.zeroed_views Scenarios.S6_tensor.
Proof.
  unfold mappable. split; [by vm_compute|]. split; [by vm_compute|].
  split; [by vm_compute|]. split; [by eexists|]. split.
  - repeat constructor; simpl; lia.
  - done.
Defined.

Lemma zeroed_views_printable : printable (default_dim Scenarios.zeroed_views).
Proof.
  intros i Hi. exists 0.
  assert (i = 0 ∨ i = 1 ∨ i = 2 ∨ i = 3) as [->|[->|[->| ->]]] by lia; reflexivity.
Defined.

Lemma map_tensor_succeeds_witness :
  ∃ s' parallel_is m,
    map_tensor Scenarios.zeroed_views (mkTaskSpaces ∅ 0 ∅) true
      Scenarios.S6_tensor (Some 1%N) = Some (s', parallel_is, m) ∧
    cache_ok Scenarios.zeroed_views s' ∧
    get_index_space_domain s' parallel_is = Some (task_rect_of Scenarios.S6_tensor) ∧
    m_owner_op m = Some 1%N ∧ m_owner_idx m = owner_idx Scenarios.S6_tensor ∧
    m_rect m = mkRect (ZEROES (num_dims Scenarios.S6_tensor))
                      ((fun d => size d - 1) <$> dims Scenarios.S6_tensor) ∧
    m_has_grad m = create_gradients Scenarios.S6_tensor && true ∧
    (Some 1%N = None → m_part m = None) ∧
    (Some 1%N ≠ None →
     ∃ ip, m_part m = Some ip ∧ ip_parent ip = m_rect m ∧
           ip_colors ip = task_rect_of Scenarios.S6_tensor ∧
           partition_disjoint ip ∧ partition_complete ip).
Proof.
  exact (map_tensor_succeeds Scenarios.zeroed_views (mkTaskSpaces ∅ 0 ∅) true
           Scenarios.S6_tensor 1%N (Some 1%N)
           (cache_ok_empty _) S6_mappable zeroed_views_printable
           eq_refl (or_introl eq_refl)).
Defined.

Lemma cache_ok_inj L s key1 key2 h :
  cache_ok L s → all_task_is s !! key1 = Some h → all_task_is s !! key2 = Some h →
  key1 = key2.
Proof.
  intros [Hc _] H1 H2.
  destruct (Hc _ _ H1) as [_ Hd1]. destruct (Hc _ _ H2) as [_ Hd2].
  rewrite Hd1 in Hd2. injection Hd2 as _ Hhi.
  destruct key1 as [l1], key2 as [l2]. simpl in *. f_equal.
  revert Hhi. clear. revert l2.
  induction l1 as [|a l1 IH]; intros [|b l2] Heq; simpl in *; try done.
  injection Heq as Hab Hrest. f_equal; [lia|by apply IH].
Qed.

(** [get_or_create_task_is(MachineView const &)] is a cache. For a view
    of between one and [LEGION_MAX_DIM] axes whose first four slots of
    [dim] hold a value (the [printf] reads them), the index space it
    returns is the one [get_task_is] finds afterwards and the one every
    later call returns, without creating anything; the index spaces of the
    views known before stay; and no other view shares the index space. *)
Theorem task_is_cache_round_trip L s view key :
  cache_ok L s → view_key view = Some key → 1 ≤ ndims view ≤ LEGION_MAX_DIM L →
  printable (dim view) →
  ∃ s' task_is,
    get_or_create_task_is_view L s view = Some (s', task_is) ∧
    cache_ok L s' ∧
    get_task_is_view s' view = Some task_is ∧
    get_or_create_task_is_view L s' view = Some (s', task_is) ∧
    (∀ view' h, get_task_is_view s view' = Some h →
                get_task_is_view s' view' = Some h) ∧
    (∀ view' key', view_key view' = Some key' →
                   get_task_is_view s' view' = Some task_is → key' = key).
Proof.
  intros Hc Hkey Hn Hpr.
  destruct (get_or_create_task_is_view_spec L s view key Hc Hkey Hn Hpr)
    as (s' & task_is & Hrun & Hc' & Hfind & _ & Hmono & _ & _).
  exists s', task_is. split; [done|]. split; [done|]. split.
  { unfold get_task_is_view. rewrite Hkey. done. }
  split.
  { unfold get_or_create_task_is_view. rewrite Hkey. cbn [mbind option_bind].
    by rewrite Hfind. }
  split.
  - intros view' h. unfold get_task_is_view.
    destruct (view_key view') as [k'|]; cbn [mbind option_bind]; [|done].
    apply Hmono.
  - intros view' key' Hk'. unfold get_task_is_view. rewrite Hk'.
    cbn [mbind option_bind]. intros H'.
    by apply (cache_ok_inj L s' key' key task_is).
Qed.

Lemma task_is_cache_round_trip_witness :
  ∃ s' task_is,
    get_or_create_task_is_view Scenarios.zeroed_views (mkTaskSpaces ∅ 0 ∅)
      (mkView 2 [Some 4; Some 2; Some 0; Some 0; Some 0]) = Some (s', task_is) ∧
    cache_ok Scenarios.zeroed_views s' ∧
    get_task_is_view s' (mkView 2 [Some 4; Some 2; Some 0; Some 0; Some 0])
      = Some task_is ∧
    get_or_create_task_is_view Scenarios.zeroed_views s'
      (mkView 2 [Some 4; Some 2; Some 0; Some 0; Some 0]) = Some (s', task_is) ∧
    (∀ view' h, get_task_is_view (mkTaskSpaces ∅ 0 ∅) view' = Some h →
                get_task_is_view s' view' = Some h) ∧
    (∀ view' key', view_key view' = Some key' →
                   get_task_is_view s' view' = Some task_is →
                   key' = mkMachineView [4; 2]).
Proof.
  apply (task_is_cache_round_trip Scenarios.zeroed_views (mkTaskSpaces ∅ 0 ∅)
           (mkView 2 [Some 4; Some 2; Some 0; Some 0; Some 0])
           (mkMachineView [4; 2])).
  - apply cache_ok_empty.
  - reflexivity.
  - simpl. lia.
  - intros i Hi.
    assert (i = 0 ∨ i = 1 ∨ i = 2 ∨ i = 3) as [->|[->|[->| ->]]] by lia;
      by eexists.
Defined.




End TaskSpaceProofs.

Module PartitionsProofs.
Import Common RegionMapper Tiling TaskSpace Partitions.
Import CommonProofs RegionMapperProofs TilingProofs TaskSpaceProofs.

Lemma select_NN_in_range MAXD LMD n t :
  1 ≤ n ≤ LMD → 1 ≤ t ≤ LMD → LMD ≤ MAXD →
  select_NN MAXD LMD ((n - 1) * MAXD + t - 1) = Some (n, t).
Proof.
  intros Hn Ht Hm. unfold select_NN.
  destruct (Z.leb_spec 0 ((n - 1) * MAXD + t - 1)); [|nia].
  destruct (Z.ltb_spec 0 MAXD); [|lia]. cbn [andb].
  replace ((n - 1) * MAXD + t - 1) with ((t - 1) + (n - 1) * MAXD) by lia.
  rewrite Z.div_add, Z.mod_add by lia.
  rewrite Z.div_small, Z.mod_small by lia.
  replace (0 + (n - 1) + 1) with n by lia. replace (t - 1 + 1) with t by lia.
  destruct (Z.leb_spec n LMD); [|lia]. destruct (Z.leb_spec t LMD); [|lia]. done.
Qed.

Section Cut.
Variables (skip : Z → bool) (dims : list ParallelDim) (part_rect rect : Rect).

Let N := Z.of_nat (length dims).
Let T := Z.of_nat (length (lo part_rect)).
Let dz (i : Z) : ParallelDim :=
  default (mkParallelDim 0 0 0 false) (dims !! Z.to_nat i).
Let w (i : Z) := default 0 (hi rect !! Z.to_nat i) + 1.
Let np (i : Z) := if skip i then 1 else degree (dz i).
Let axis (i : Z) : option Z := if skip i then None else axis_of T (dz i).

Hypothesis Hanch : anchored N rect.
Hypothesis Hcut : cut_along skip dims part_rect.

Lemma cut_dz i : 0 ≤ i < N → zget dims i = Some (dz i).
Proof using All.
  intros Hi. apply zget_Some. split; [lia|]. unfold dz.
  destruct (lookup_lt_is_Some_2 dims (Z.to_nat i)) as [d ->]; [lia|done].
Qed.

Lemma cut_w i : 0 ≤ i < N → zget (hi rect) i = Some (w i - 1) ∧ 1 ≤ w i.
Proof using All.
  intros Hi. destruct Hanch as (_ & Hlen & Hpos).
  destruct (lookup_lt_is_Some_2 (hi rect) (Z.to_nat i)) as [h Hh]; [lia|].
  unfold w. unfold Point in Hh |- *. rewrite Hh. simpl. split.
  - apply zget_Some. split; [lia|]. rewrite Hh. f_equal. lia.
  - rewrite Forall_forall in Hpos. pose proof (Hpos h (list_elem_of_lookup_2 _ _ _ Hh)). lia.
Qed.

Lemma cut_rect : rect = mkRect (ZEROES N) ((fun i => w i - 1) <$> seqZ 0 N).
Proof using All.
  transitivity (mkRect (lo rect) (hi rect)); [by destruct rect|].
  pose proof Hanch as (Hlo & Hlen & _). f_equal; [done|].
  apply list_eq. intros i. destruct (decide (i < length (hi rect))%nat) as [Hi|Hi].
  - rewrite lookup_fmap_seqZ by lia.
    destruct (cut_w (Z.of_nat i)) as [Hw _]; [lia|].
    apply zget_Some in Hw as [_ Hw]. rewrite Nat2Z.id in Hw. done.
  - rewrite !lookup_ge_None_2; [done| |lia].
    rewrite length_fmap, length_seqZ. lia.
Qed.

Lemma cut_dim i :
  0 ≤ i < N → skip i = false →
  1 ≤ degree (dz i) ∧
  match axis_of T (dz i) with
  | Some a => 0 ≤ a < T ∧ a = parallel_idx (dz i) ∧
              zget (lo part_rect) a = Some 0 ∧
              zget (hi part_rect) a = Some (degree (dz i) - 1)
  | None => degree (dz i) = 1
  end.
Proof using All.
  intros Hi Hs. pose proof Hcut as (_ & Hd & _).
  destruct (Hd i (dz i) (cut_dz i Hi) Hs) as [Hdeg Hax]. split; [done|].
  change (Z.of_nat (length (lo part_rect))) with T in Hax.
  destruct (axis_of T (dz i)) as [a|] eqn:Hax0; [|done].
  unfold axis_of in Hax0. case_bool_decide; simplify_eq. tauto.
Qed.

Lemma cut_inj i i' a :
  0 ≤ i < N → 0 ≤ i' < N → axis i = Some a → axis i' = Some a → i = i'.
Proof using All.
  intros Hi Hi' Hax Hax'. unfold axis in *.
  destruct (skip i) eqn:Hs; [done|]. destruct (skip i') eqn:Hs'; [done|].
  pose proof Hcut as (_ & _ & Hinj & _).
  change (Z.of_nat (length (lo part_rect))) with T in Hinj.
  apply (Hinj i i' (dz i) (dz i')); try done; try (by apply cut_dz).
  by rewrite Hax, Hax'.
Qed.

Lemma cut_size i : 0 ≤ i < N → 1 ≤ w i ∧ 1 ≤ np i.
Proof using All.
  intros Hi. split; [by apply cut_w|]. unfold np.
  destruct (skip i) eqn:Hs; [lia|]. by destruct (cut_dim i Hi Hs).
Qed.

Lemma cut_lengths : 0 ≤ T ∧ Z.of_nat (length (lo part_rect)) = T ∧
                    Z.of_nat (length (hi part_rect)) = T.
Proof using All.
  destruct Hcut as (Hl & _). unfold T. lia.
Qed.

Lemma cut_complete :
  partition_complete (grid N T w np axis (lo part_rect) (hi part_rect)).
Proof using All.
  destruct cut_lengths as (HT & Hl1 & Hl2).
  apply grid_complete; try done.
  - apply cut_size.
  - intros i Hi. unfold axis, np. destruct (skip i) eqn:Hs; [done|].
    destruct (cut_dim i Hi Hs) as [Hdeg Hax].
    destruct (axis_of T (dz i)) as [a|] eqn:Hax0; [|done].
    destruct Hax as (Hr & _ & Hlo & Hhi).
    rewrite bool_decide_eq_true_2 by done.
    exists 0, (degree (dz i) - 1).
    split; [done|]. split; [done|]. lia.
  - intros i i' a Hi Hi' Ha. apply cut_inj; done.
  - intros j l u Hl Hu. pose proof Hcut as (_ & _ & _ & Hle).
    rewrite Forall2_same_length_lookup in Hle. destruct Hle as [_ Hle].
    by apply (Hle j).
Qed.

Lemma cut_disjoint :
  (∀ i, skip i = false) → axes_used dims part_rect →
  partition_disjoint (grid N T w np axis (lo part_rect) (hi part_rect)).
Proof using All.
  intros Hskip Hused.
  destruct cut_lengths as (HT & Hl1 & Hl2).
  apply grid_disjoint; try done.
  - apply cut_size.
  - intros j l u Hl Hu. destruct (Hused j l u Hl Hu) as [?|(d & Hin & Hp)]; [by left|].
    right. apply list_elem_of_lookup_1 in Hin as [i Hi].
    exists (Z.of_nat i). pose proof (lookup_lt_Some _ _ _ Hi). split; [lia|].
    unfold axis. rewrite Hskip. unfold axis_of, dz. rewrite Nat2Z.id, Hi. simpl.
    apply lookup_lt_Some in Hl.
    rewrite bool_decide_eq_true_2 by (unfold T; lia). by rewrite Hp.
Qed.

Lemma cut_grid_eq tr ex :
  tr = ip_transform (grid N T w np axis (lo part_rect) (hi part_rect)) →
  ex = ip_extent (grid N T w np axis (lo part_rect) (hi part_rect)) →
  mkIndexPartition rect part_rect tr ex
  = grid N T w np axis (lo part_rect) (hi part_rect).
Proof using All.
  intros -> ->. unfold grid. cbn [ip_transform ip_extent].
  rewrite <- cut_rect. f_equal. by destruct part_rect.
Qed.

Lemma cut_ext_hi i nparts :
  0 ≤ i < N → nparts = np i →
  ext_hi_of rect i nparts = Some (tile_width w np i - 1).
Proof using All.
  intros Hi ->. unfold ext_hi_of.
  destruct (cut_w i Hi) as [Hw _]. rewrite Hw. cbn [mbind option_bind].
  pose proof Hanch as (Hlo & _). rewrite Hlo, zget_ZEROES by done.
  cbn [mbind option_bind]. unfold cdiv.
  destruct (cut_size i Hi) as [_ Hnp].
  destruct (Z.eqb_spec (np i) 0); [lia|]. cbn [mbind option_bind].
  unfold tile_width. do 2 f_equal. f_equal. lia.
Qed.

Lemma disjoint_dim2_cut :
  (∀ i, skip i = false) → axes_used dims part_rect →
  ∃ ip, create_disjoint_partition_with_dim2 N T dims part_rect rect = Some ip ∧
        ip = grid N T w np axis (lo part_rect) (hi part_rect) ∧
        partition_disjoint ip ∧ partition_complete ip.
Proof using All.
  intros Hskip Hused. unfold create_disjoint_partition_with_dim2.
  rewrite (tabulate_fn N _ (fun i => tile_width w np i - 1)).
  2: { intros i Hi. rewrite (cut_dz i Hi). cbn [mbind option_bind].
       apply cut_ext_hi; [done|]. unfold np. by rewrite Hskip. }
  cbn [mbind option_bind].
  rewrite (tabulate_fn N _
             (fun i => (fun j => if bool_decide (axis i = Some j)
                                 then tile_width w np i else 0) <$> seqZ 0 T)).
  2: { intros i Hi. apply tabulate_fn. intros j Hj.
       rewrite (cut_dz i Hi). cbn [mbind option_bind hi lo].
       rewrite zget_fmap_seqZ, zget_ZEROES by done. cbn [mbind option_bind].
       f_equal. unfold axis. rewrite Hskip. unfold axis_of.
       destruct (Z.eqb_spec (parallel_idx (dz i)) j) as [->|Hne].
       - rewrite (bool_decide_eq_true_2 (0 ≤ j < T)) by done.
         rewrite bool_decide_eq_true_2 by done. lia.
       - destruct (decide (0 ≤ parallel_idx (dz i) < T)) as [Hr|Hr].
         + rewrite (bool_decide_eq_true_2 _ Hr).
           rewrite bool_decide_eq_false_2; [done|]. intros [= ?]. done.
         + rewrite (bool_decide_eq_false_2 _ Hr).
           by rewrite bool_decide_eq_false_2. }
  cbn [mbind option_bind].
  rewrite cut_grid_eq by done.
  pose proof (cut_disjoint Hskip Hused) as Hdis.
  pose proof cut_complete as Hcom.
  rewrite (proj2 (is_index_partition_disjoint_spec _) Hdis).
  rewrite (proj2 (is_index_partition_complete_spec _) Hcom).
  cbn [assert mbind option_bind]. eexists. split; [done|]. done.
Qed.

Lemma aliased_dim2_cut aliased_dim :
  (∀ i, skip i = (i =? aliased_dim)) →
  ∃ ip, create_aliased_partition_with_dim2 N T dims aliased_dim part_rect rect
          = Some ip ∧
        ip = grid N T w np axis (lo part_rect) (hi part_rect) ∧
        partition_complete ip.
Proof using All.
  intros Hskip. unfold create_aliased_partition_with_dim2.
  rewrite (tabulate_fn N _ (fun i => tile_width w np i - 1)).
  2: { intros i Hi. rewrite (cut_dz i Hi). cbn [mbind option_bind].
       apply cut_ext_hi; [done|]. unfold np. rewrite Hskip.
       by rewrite (Z.eqb_sym aliased_dim i). }
  cbn [mbind option_bind].
  rewrite (tabulate_fn N _
             (fun i => (fun j => if bool_decide (axis i = Some j)
                                 then tile_width w np i else 0) <$> seqZ 0 T)).
  2: { intros i Hi. apply tabulate_fn. intros j Hj.
       rewrite (cut_dz i Hi). cbn [mbind option_bind hi lo].
       rewrite zget_fmap_seqZ, zget_ZEROES by done. cbn [mbind option_bind].
       f_equal. unfold axis. rewrite Hskip. unfold axis_of.
       destruct (Z.eqb_spec i aliased_dim) as [->|Hna]; cbn [negb].
       - rewrite andb_false_r. by rewrite bool_decide_eq_false_2.
       - rewrite andb_true_r.
         destruct (Z.eqb_spec (parallel_idx (dz i)) j) as [->|Hne].
         + rewrite (bool_decide_eq_true_2 (0 ≤ j < T)) by done.
           rewrite bool_decide_eq_true_2 by done. lia.
         + destruct (decide (0 ≤ parallel_idx (dz i) < T)) as [Hr|Hr].
           * rewrite (bool_decide_eq_true_2 _ Hr).
             rewrite bool_decide_eq_false_2; [done|]. intros [= ?]. done.
           * rewrite (bool_decide_eq_false_2 _ Hr).
             by rewrite bool_decide_eq_false_2. }
  cbn [mbind option_bind].
  rewrite cut_grid_eq by done.
  pose proof cut_complete as Hcom.
  rewrite (proj2 (is_index_partition_complete_spec _) Hcom).
  cbn [assert mbind option_bind]. eexists. split; [done|]. done.
Qed.

End Cut.

(** [create_disjoint_partition] goes through whenever the dimensions are
    cut along the task space and every task axis with more than one point
    is the axis of a dimension: both assertions hold, so the partition it
    returns is disjoint and complete. Sizes need not be divisible by the
    degrees. *)
Theorem create_disjoint_partition_succeeds MAXD LMD num_dims dims part_rect rect :
  LMD ≤ MAXD →
  num_dims = Z.of_nat (length dims) → 1 ≤ num_dims ≤ LMD →
  1 ≤ Z.of_nat (length (lo part_rect)) ≤ LMD →
  anchored num_dims rect →
  cut_along (fun _ => false) dims part_rect →
  axes_used dims part_rect →
  ∃ ip, create_disjoint_partition MAXD LMD num_dims dims part_rect rect = Some ip ∧
        ip_parent ip = rect ∧ ip_colors ip = part_rect ∧
        partition_disjoint ip ∧ partition_complete ip.
Proof.
  intros Hm -> Hn Ht Hanch Hcut Hused. unfold create_disjoint_partition.
  rewrite select_NN_in_range by done. cbn [mbind option_bind].
  destruct (disjoint_dim2_cut (fun _ => false) dims part_rect rect Hanch Hcut)
    as (ip & Hrun & Hip & Hdis & Hcom); [done|done|].
  exists ip. split; [done|]. split; [|split; [|done]].
  - rewrite Hip. unfold grid. cbn [ip_parent]. symmetry.
    exact (cut_rect _ dims part_rect rect Hanch Hcut).
  - rewrite Hip. unfold grid. cbn [ip_colors]. by destruct part_rect.
Qed.

(** [create_aliased_partition] goes through whenever the dimensions other
    than the aliased one are cut along the task space. The partition is
    complete, and every tile holds the aliased dimension whole: moving a
    point of a tile along that dimension stays in the tile. *)
Theorem create_aliased_partition_succeeds MAXD LMD num_dims dims aliased_dim
    part_rect rect :
  LMD ≤ MAXD →
  num_dims = Z.of_nat (length dims) → 1 ≤ num_dims ≤ LMD →
  1 ≤ Z.of_nat (length (lo part_rect)) ≤ LMD →
  anchored num_dims rect →
  cut_along (fun i => i =? aliased_dim) dims part_rect →
  ∃ ip, create_aliased_partition MAXD LMD num_dims dims aliased_dim part_rect rect
          = Some ip ∧
        ip_parent ip = rect ∧ ip_colors ip = part_rect ∧
        partition_complete ip ∧
        ∀ (c x : list Z) v h,
          in_rect part_rect c → subspace ip c x →
          zget (hi rect) aliased_dim = Some h → 0 ≤ v ≤ h →
          subspace ip c (<[Z.to_nat aliased_dim := v]> x).
Proof.
  intros Hm -> Hn Ht Hanch Hcut. unfold create_aliased_partition.
  rewrite select_NN_in_range by done. cbn [mbind option_bind].
  destruct (aliased_dim2_cut (fun i => i =? aliased_dim) dims part_rect rect
              Hanch Hcut aliased_dim) as (ip & Hrun & Hip & Hcom); [done|].
  exists ip. split; [done|]. split; [|split; [|split; [done|]]].
  - rewrite Hip. unfold grid. cbn [ip_parent]. symmetry.
    exact (cut_rect _ dims part_rect rect Hanch Hcut).
  - rewrite Hip. unfold grid. cbn [ip_colors]. by destruct part_rect.
  - intros c x v h Hc Hs Hh Hv. rewrite Hip in Hs |- *.
    pose proof Hcut as (Hlen & _).
    apply zget_Some in Hh as [Ha Hh].
    apply grid_whole_dim; try done; try lia.
    + rewrite Z2Nat.id by lia. by rewrite Z.eqb_refl.
    + rewrite Z2Nat.id by lia. by rewrite Z.eqb_refl.
    + rewrite Z2Nat.id by lia. unfold Point in *. rewrite Hh. simpl. lia.
Qed.





Lemma zset_Some {A} (a : list A) i v :
  0 ≤ i < Z.of_nat (length a) → zset a i v = Some (<[Z.to_nat i := v]> a).
Proof.
  intros Hi. unfold zset. destruct (Z.leb_spec 0 i); [|lia].
  by destruct (Z.ltb_spec i (Z.of_nat (length a))); [|lia].
Qed.

Lemma insert_fmap_seqZ {A} (g : Z → A) n k v :
  0 ≤ k < n →
  <[Z.to_nat k := v]> (g <$> seqZ 0 n)
  = (fun i => if bool_decide (i = k) then v else g i) <$> seqZ 0 n.
Proof.
  intros Hk. apply list_eq. intros i.
  destruct (decide (i < Z.to_nat n)%nat) as [Hi|Hi].
  - rewrite (lookup_fmap_seqZ _ n i) by lia.
    destruct (decide (i = Z.to_nat k)) as [->|Hne].
    + rewrite list_lookup_insert_eq by (rewrite length_fmap, length_seqZ; lia).
      rewrite bool_decide_eq_true_2 by lia. done.
    + rewrite list_lookup_insert_ne by done.
      rewrite lookup_fmap_seqZ by lia.
      rewrite bool_decide_eq_false_2 by lia. done.
  - rewrite !lookup_ge_None_2; [done| |].
    + rewrite length_fmap, length_seqZ. lia.
    + rewrite length_insert, length_fmap, length_seqZ. lia.
Qed.

Lemma fmap_seqZ_ext {A} (f g : Z → A) n :
  (∀ i, 0 ≤ i < n → f i = g i) → f <$> seqZ 0 n = g <$> seqZ 0 n.
Proof.
  intros H. apply list_eq. intros i.
  destruct (decide (i < Z.to_nat n)%nat) as [Hi|Hi].
  - rewrite !lookup_fmap_seqZ by lia. f_equal. apply H. lia.
  - rewrite !lookup_ge_None_2; [done| |]; rewrite length_fmap, length_seqZ; lia.
Qed.


Lemma S6_anchored : anchored 2 (mkRect [0; 0] [15; 7]).
Proof. split; [done|]. split; [done|]. repeat constructor; lia. Defined.

Lemma S6_cut_along skip :
  cut_along skip (dims Scenarios.S6_tensor) Scenarios.S6_task_space.
Proof.
  split; [done|]. split; [|split].
  - intros i d Hz _. apply zget_Some in Hz as [Hi Hz].
    destruct (Z.to_nat i) as [|[|n]]; simpl in Hz; simplify_eq; simpl.
    + split; [lia|]. done.
    + split; [lia|]. done.
  - intros i i' d d' Hz Hz' _ _ _ Heq.
    apply zget_Some in Hz as [Hi Hz]. apply zget_Some in Hz' as [Hi' Hz'].
    destruct (Z.to_nat i) as [|[|n]] eqn:E; simpl in Hz; simplify_eq;
      destruct (Z.to_nat i') as [|[|n']] eqn:E'; simpl in Hz'; simplify_eq;
      try discriminate Heq; lia.
  - repeat constructor; simpl; lia.
Defined.

Lemma S6_axes_used : axes_used (dims Scenarios.S6_tensor) Scenarios.S6_task_space.
Proof.
  intros j l u Hl Hu. right.
  destruct j as [|[|j]]; simpl in Hl; simplify_eq.
  - eexists. split; [apply list_elem_of_here|done].
  - eexists. split; [apply list_elem_of_further, list_elem_of_here|done].
Defined.

Lemma create_disjoint_partition_succeeds_witness :
  ∃ ip, create_disjoint_partition 5 5 2 (dims Scenarios.S6_tensor)
          Scenarios.S6_task_space (mkRect [0; 0] [15; 7]) = Some ip ∧
        ip_parent ip = mkRect [0; 0] [15; 7] ∧
        ip_colors ip = Scenarios.S6_task_space ∧
        partition_disjoint ip ∧ partition_complete ip.
Proof.
  apply create_disjoint_partition_succeeds.
  - lia.
  - reflexivity.
  - lia.
  - simpl. lia.
  - exact S6_anchored.
  - apply S6_cut_along.
  - exact S6_axes_used.
Defined.

Lemma create_aliased_partition_succeeds_witness :
  ∃ ip, create_aliased_partition 5 5 2 (dims Scenarios.S6_tensor) 1
          Scenarios.S6_task_space (mkRect [0; 0] [15; 7]) = Some ip ∧
        ip_parent ip = mkRect [0; 0] [15; 7] ∧
        ip_colors ip = Scenarios.S6_task_space ∧
        partition_complete ip ∧
        ∀ (c x : list Z) v h,
          in_rect Scenarios.S6_task_space c → subspace ip c x →
          zget (hi (mkRect [0; 0] [15; 7])) 1 = Some h → 0 ≤ v ≤ h →
          subspace ip c (<[Z.to_nat 1 := v]> x).
Proof.
  apply create_aliased_partition_succeeds.
  - lia.
  - reflexivity.
  - lia.
  - simpl. lia.
  - exact S6_anchored.
  - apply S6_cut_along.
Defined.



End PartitionsProofs.

Module CompileProofs.
Import Common Fusion Compile CommonProofs FusionProofs.

Lemma apply_fusion_shrinks F h operators h' new_operators ev :
  apply_fusion F h operators = Some (h', Some (new_operators, ev)) →
  (length new_operators + 1 = length operators)%nat ∧
  (2 ≤ length new_operators)%nat.
Proof.
  intros H.
  apply apply_fusion_event in H
    as (pl & pi & opl & opi & Hil & Hl1 & Hln & _ & _ & _ & _ & _ & _ & _ & _ & _ & Hrb).
  apply rebuild_spec in Hrb as (Hlen & _). lia.
Qed.

(** The fusion loop of [compile] terminates: every round that fuses a pair
    leaves one operator fewer, so a run on [n] operators calls
    [apply_fusion] at most [n] times. It ends in a failed assertion or
    leaves a non-empty list on which [apply_fusion] has just returned
    [false], shorter than the list it started from by the number of rounds. *)
Theorem fusion_loop_terminates F fuel h operators :
  operators ≠ [] → (length operators ≤ fuel)%nat →
  fusion_loop F fuel h operators 0 = Aborted ∨
  ∃ h0 h' operators' rounds,
    fusion_loop F fuel h operators 0 = Finished (h', operators', rounds) ∧
    apply_fusion F h0 operators' = Some (h', None) ∧
    (length operators' + rounds = length operators)%nat ∧
    operators' ≠ [] ∧
    (rounds = 0%nat → operators' = operators ∧ h0 = h).
Proof.
  intros Hne Hfuel.
  assert (Hgen : ∀ fuel h ops r,
    ops ≠ [] → (length ops ≤ fuel)%nat →
    fusion_loop F fuel h ops r = Aborted ∨
    ∃ h0 h' ops' r',
      fusion_loop F fuel h ops r = Finished (h', ops', r') ∧
      apply_fusion F h0 ops' = Some (h', None) ∧
      (length ops' + r' = length ops + r)%nat ∧ (r ≤ r')%nat ∧ ops' ≠ [] ∧
      (r' = r → ops' = ops ∧ h0 = h)).
  { clear. induction fuel as [|fuel IH]; intros h ops r Hne Hfuel.
    - destruct ops; [done|simpl in Hfuel; lia].
    - simpl. destruct (apply_fusion F h ops) as [[h1 [[new ev]|]]|] eqn:Hrun.
      + destruct (check_order h1 new); [|by left].
        apply apply_fusion_shrinks in Hrun as [Hlen Hnew].
        destruct (IH h1 new (S r))
          as [Hab|(h0 & h' & ops' & r' & Hfin & Hlast & Hl & Hr & Hn & _)].
        * intros ->. simpl in Hnew. lia.
        * lia.
        * by left.
        * right. exists h0, h', ops', r'. split; [done|]. split; [done|].
          split; [lia|]. split; [lia|]. split; [done|]. intros ->. lia.
      + right. exists h, h1, ops, r. done.
      + by left. }
  destruct (Hgen fuel h operators 0%nat Hne Hfuel)
    as [?|(h0 & h' & ops' & r' & Hfin & Hlast & Hl & _ & Hn & Hz)]; [by left|].
  right. exists h0, h', ops', r'. split; [done|]. split; [done|].
  split; [lia|]. split; [done|]. done.
Qed.

Lemma fusion_loop_terminates_witness :
  fusion_loop (bounded_fused_op 8) 4 Scenarios.chain_heap Scenarios.chain_operators 0
    = Aborted ∨
  ∃ h0 h' operators' rounds,
    fusion_loop (bounded_fused_op 8) 4 Scenarios.chain_heap
      Scenarios.chain_operators 0 = Finished (h', operators', rounds) ∧
    apply_fusion (bounded_fused_op 8) h0 operators' = Some (h', None) ∧
    (length operators' + rounds = length Scenarios.chain_operators)%nat ∧
    operators' ≠ [] ∧
    (rounds = 0%nat → operators' = Scenarios.chain_operators ∧ h0 = Scenarios.chain_heap).
Proof.
  apply (fusion_loop_terminates (bounded_fused_op 8) 4 Scenarios.chain_heap
           Scenarios.chain_operators).
  - done.
  - simpl. lia.
Defined.

End CompileProofs.

Module ScheduleProofs.
Import Common Fusion Schedule CommonProofs.

Lemma final_scan_spec h operators count :
  ∀ i, (count ≤ length operators)%nat →
    final_scan h operators count (Z.of_nat count - 1) = Some i ↔
    0 ≤ i < Z.of_nat count ∧
    (∃ p op, operators !! Z.to_nat i = Some p ∧ ops h !! p = Some op ∧
             input_or_weight op = false) ∧
    ∀ j, (Z.to_nat i < j < count)%nat →
      ∃ q o, operators !! j = Some q ∧ ops h !! q = Some o ∧
             input_or_weight o = true.
Proof.
  induction count as [|c IH]; intros i Hc.
  - simpl. split.
    + destruct (zget operators (0 - 1)); simpl; done.
    + intros [? _]. lia.
  - cbn [final_scan].
    replace (Z.of_nat (S c) - 1) with (Z.of_nat c) by lia.
    destruct (lookup_lt_is_Some_2 operators c) as [p Hp]; [lia|].
    assert (Hz : zget operators (Z.of_nat c) = Some p).
    { apply zget_Some. split; [lia|]. by rewrite Nat2Z.id. }
    rewrite Hz. cbn [mbind option_bind].
    destruct (ops h !! p) as [op|] eqn:Hop; cbn [mbind option_bind].
    2: { split; [done|]. intros (Hi & (p' & op' & Hp' & Hop' & _) & Hlater).
         destruct (decide (Z.to_nat i = c)) as [Heq|Hne].
         - rewrite Heq, Hp in Hp'. injection Hp' as <-. congruence.
         - destruct (Hlater c) as (q & o & Hq & Ho & _); [lia|].
           rewrite Hp in Hq. injection Hq as <-. congruence. }
    destruct (input_or_weight op) eqn:Hiw.
    + replace (Z.of_nat c - 1 + 1) with (Z.of_nat c) in * by lia.
      rewrite IH by lia. split.
      * intros (Hi & Hstop & Hlater). split; [lia|]. split; [done|].
        intros j Hj. destruct (decide (j = c)) as [->|Hne].
        -- by exists p, op.
        -- apply Hlater. lia.
      * intros (Hi & (p' & op' & Hp' & Hop' & Hiw') & Hlater).
        assert (Z.to_nat i ≠ c).
        { intros Heq. rewrite Heq, Hp in Hp'. injection Hp' as <-. congruence. }
        split; [lia|]. split; [by exists p', op'|].
        intros j Hj. apply Hlater. lia.
    + split.
      * intros [= <-]. split; [lia|]. rewrite Nat2Z.id. split; [by exists p, op|].
        intros j Hj. lia.
      * intros (Hi & _ & Hlater).
        destruct (decide (Z.to_nat i = c)) as [Heq|Hne]; [f_equal; lia|].
        destruct (Hlater c) as (q & o & Hq & Ho & Hiwo); [lia|].
        rewrite Hp in Hq. injection Hq as <-. congruence.
Qed.

(** [get_final_operator] returns the last operator of the list that is
    neither an input nor a weight, provided it has exactly one output; it
    fails when there is no such operator (the scan runs off the front of
    the vector), in particular on an empty model, and when that operator
    has another number of outputs. *)
Theorem get_final_operator_spec h operators p :
  get_final_operator h operators = Some p ↔
  ∃ pre post op,
    operators = pre ++ p :: post ∧
    ops h !! p = Some op ∧ input_or_weight op = false ∧
    length (outputs op) = 1%nat ∧
    Forall (fun q => ∃ o, ops h !! q = Some o ∧ input_or_weight o = true) post.
Proof.
  unfold get_final_operator. split.
  - intros H.
    destruct (final_scan h operators (length operators)
                (Z.of_nat (length operators) - 1)) as [i|] eqn:Hscan;
      cbn [mbind option_bind] in H; [|done].
    apply final_scan_spec in Hscan as (Hi & (q & op & Hq & Hop & Hiw) & Hlater); [|done].
    assert (Hz : zget operators i = Some q) by (apply zget_Some; split; [lia|done]).
    rewrite Hz in H. cbn [mbind option_bind] in H. rewrite Hop in H.
    cbn [mbind option_bind] in H.
    destruct (assert _) eqn:Ha; cbn [mbind option_bind] in H; [|done].
    injection H as <-. apply assert_Some, bool_decide_eq_true in Ha.
    exists (take (Z.to_nat i) operators), (drop (S (Z.to_nat i)) operators), op.
    split; [by rewrite <- (take_drop_middle operators (Z.to_nat i) q Hq) at 1|].
    split; [done|]. split; [done|]. split; [done|].
    apply Forall_forall. intros x Hx. apply list_elem_of_lookup_1 in Hx as [k Hk].
    rewrite lookup_drop in Hk.
    destruct (Hlater (S (Z.to_nat i) + k)%nat) as (q' & o & Hq' & Ho & Hiwo).
    { apply lookup_lt_Some in Hk. lia. }
    rewrite Hk in Hq'. injection Hq' as <-. by exists o.
  - intros (pre & post & op & -> & Hop & Hiw & Hout & Hpost).
    assert (Hscan : final_scan h (pre ++ p :: post) (length (pre ++ p :: post))
                      (Z.of_nat (length (pre ++ p :: post)) - 1)
                    = Some (Z.of_nat (length pre))).
    { apply final_scan_spec; [done|]. rewrite Nat2Z.id. split.
      - rewrite length_app. simpl. lia.
      - split.
        + exists p, op. split; [|done]. by rewrite list_lookup_middle.
        + intros j Hj. rewrite length_app in Hj. simpl in Hj.
          destruct (lookup_lt_is_Some_2 post (j - S (length pre))) as [q Hq]; [lia|].
          rewrite Forall_forall in Hpost.
          destruct (Hpost q (list_elem_of_lookup_2 _ _ _ Hq)) as (o & Ho & Hiwo).
          exists q, o. split; [|done].
          rewrite lookup_app_r by lia. rewrite lookup_cons_ne_0 by lia.
          rewrite <- Hq. f_equal. lia. }
    rewrite Hscan. cbn [mbind option_bind].
    assert (Hz : zget (pre ++ p :: post) (Z.of_nat (length pre)) = Some p).
    { apply zget_Some. split; [lia|]. rewrite Nat2Z.id. by rewrite list_lookup_middle. }
    rewrite Hz. cbn [mbind option_bind]. rewrite Hop. cbn [mbind option_bind].
    rewrite bool_decide_eq_true_2 by done. done.
Qed.

Lemma up_loop_calls (mk : addr → Call) operators calls :
  for_range 0 (Z.of_nat (length operators)) (fun i calls =>
    p ← zget operators i; Some (calls ++ [mk p])) calls
  = Some (calls ++ (mk <$> operators)).
Proof.
  unfold for_range. rewrite Z.sub_0_r, Nat2Z.id.
  assert (Hgen : ∀ n k calls, (k + n ≤ length operators)%nat →
    for_loop n (Z.of_nat k) (fun i calls =>
      p ← zget operators i; Some (calls ++ [mk p])) calls
    = Some (calls ++ (mk <$> take n (drop k operators)))).
  { induction n as [|n IH]; intros k c Hk; simpl.
    - by rewrite app_nil_r.
    - destruct (lookup_lt_is_Some_2 operators k) as [p Hp]; [lia|].
      assert (Hz : zget operators (Z.of_nat k) = Some p).
      { apply zget_Some. split; [lia|]. by rewrite Nat2Z.id. }
      rewrite Hz. cbn [mbind option_bind].
      replace (Z.of_nat k + 1) with (Z.of_nat (S k)) by lia.
      rewrite IH by lia. rewrite (drop_S _ _ _ Hp). simpl.
      by rewrite <- app_assoc. }
  etrans; [apply (Hgen (length operators) 0%nat calls); lia|].
  by rewrite drop_0, firstn_all.
Qed.

Lemma down_loop_calls (mk : addr → Call) operators :
  ∀ n calls, (n ≤ length operators)%nat →
    down_loop n (fun l calls =>
      p ← zget operators l; Some (calls ++ [mk p])) calls
    = Some (calls ++ (mk <$> reverse (take n operators))).
Proof.
  induction n as [|n IH]; intros calls Hn; simpl.
  - by rewrite app_nil_r.
  - destruct (lookup_lt_is_Some_2 operators n) as [p Hp]; [lia|].
    assert (Hz : zget operators (Z.of_nat n) = Some p).
    { apply zget_Some. split; [lia|]. by rewrite Nat2Z.id. }
    rewrite Hz. cbn [mbind option_bind]. rewrite IH by lia.
    rewrite (take_S_r _ _ _ Hp), reverse_app. simpl.
    by rewrite <- app_assoc.
Qed.

(** [backward] first computes the metrics and the loss gradient on the
    only output of the final operator and then visits the operators in
    exactly the reverse of the order in which [forward] visits them;
    [zero_gradients] visits them in that reverse order too. [backward]
    makes no call at all when the mode is not training or the model has no
    final operator. *)
Theorem backward_reverses_forward h operators label seq_length :
  forward operators seq_length = Some (seq_length, Op_forward <$> operators) ∧
  zero_gradients operators = Some (Op_zero_grad <$> reverse operators) ∧
  backward h operators false label seq_length = None ∧
  (get_final_operator h operators = None →
   backward h operators true label seq_length = None) ∧
  (∀ p, get_final_operator h operators = Some p →
     ∃ op out, ops h !! p = Some op ∧ outputs op = [out] ∧
       backward h operators true label seq_length
       = Some (seq_length,
               [Metrics_compute out label; Loss_backward out label]
               ++ (Op_backward <$> reverse operators))).
Proof.
  split; [|split; [|split; [|split]]].
  - unfold forward. by rewrite up_loop_calls.
  - unfold zero_gradients. rewrite down_loop_calls by done.
    by rewrite firstn_all.
  - done.
  - intros Hnone. unfold backward, compute_metrics. rewrite Hnone. done.
  - intros p Hp. pose proof Hp as Hfin.
    apply get_final_operator_spec in Hp as (pre & post & op & _ & Hop & _ & Hlen & _).
    destruct (outputs op) as [|out [|]] eqn:Hout; simpl in Hlen; try lia.
    exists op, out. split; [done|]. split; [done|].
    unfold backward, compute_metrics. rewrite Hfin. cbn [assert mbind option_bind].
    rewrite Hop. cbn [mbind option_bind]. rewrite Hout.
    rewrite bool_decide_eq_true_2 by done. cbn [assert mbind option_bind].
    change (zget [out] 0) with (Some out). cbn [mbind option_bind].
    rewrite down_loop_calls by done. by rewrite firstn_all.
Qed.

Section Edges.
Variables (get_volume : ParallelTensorBase → Z) (h : Heap).

Lemma edge_inv_push m edges src x :
  edge_inv m edges →
  edge_inv (<[src := default [] (m !! src) ++ [x]]> m) (edges ++ [(src, x)]).
Proof.
  intros Hinv src'. rewrite filter_app, filter_cons, filter_nil. simpl.
  destruct (decide (src = src')) as [<-|Hne].
  - rewrite lookup_insert_eq, (Hinv src).
    destruct (filter _ edges) as [|e es]; simpl; [done|].
    by rewrite fmap_app.
  - rewrite lookup_insert_ne by done. rewrite app_nil_r. apply Hinv.
Qed.

Lemma inputs_loop p (ins : list addr) m edges :
  Forall (fun input => is_Some (tens h !! input)) ins →
  edge_inv m edges →
  ∃ m',
    for_range 0 (Z.of_nat (length ins)) (fun i bwd_edge_map =>
      input ← zget ins i; t ← tens h !! input;
      Some (<[owner_op t := default [] (bwd_edge_map !! owner_op t)
                             ++ [(p, to_int (get_volume t))]]> bwd_edge_map)) m = Some m' ∧
    edge_inv m'
      (edges ++ (input ← ins;
                 match tens h !! input with
                 | Some t => [(owner_op t, (p, to_int (get_volume t)))]
                 | None => []
                 end)).
Proof.
  intros Hall Hinv.
  destruct (for_range_progress
    (fun i m' => edge_inv m'
       (edges ++ (input ← take (Z.to_nat i) ins;
                  match tens h !! input with
                  | Some t => [(owner_op t, (p, to_int (get_volume t)))]
                  | None => []
                  end)))
    (fun i bwd_edge_map =>
      input ← zget ins i; t ← tens h !! input;
      Some (<[owner_op t := default [] (bwd_edge_map !! owner_op t)
                             ++ [(p, to_int (get_volume t))]]> bwd_edge_map))
    0 (Z.of_nat (length ins)) m) as (m' & Hrun & HP).
  - lia.
  - simpl. by rewrite app_nil_r.
  - intros j m1 Hj Hm1.
    destruct (lookup_lt_is_Some_2 ins (Z.to_nat j)) as [input Hin]; [lia|].
    assert (Hz : zget ins j = Some input) by (apply zget_Some; split; [lia|done]).
    rewrite Hz. cbn [mbind option_bind].
    rewrite Forall_forall in Hall.
    destruct (Hall input (list_elem_of_lookup_2 _ _ _ Hin)) as [t Ht].
    rewrite Ht. cbn [mbind option_bind]. eexists. split; [done|].
    replace (Z.to_nat (j + 1)) with (S (Z.to_nat j)) by lia.
    rewrite (take_S_r _ _ _ Hin), bind_app. simpl. rewrite Ht.
    rewrite app_nil_r, app_assoc. by apply edge_inv_push.
  - exists m'. split; [done|]. by rewrite Nat2Z.id, firstn_all in HP.
Qed.

Lemma operators_loop operators : ∀ m edges,
  well_formed h operators → edge_inv m edges →
  ∃ m',
    for_each_opt operators (fun p bwd_edge_map =>
      op ← ops h !! p;
      for_range 0 (Z.of_nat (length (inputs op))) (fun i bwd_edge_map =>
        input ← zget (inputs op) i; t ← tens h !! input;
        let src := owner_op t in
        Some (<[src := default [] (bwd_edge_map !! src) ++ [(p, to_int (get_volume t))]]>
                bwd_edge_map)) bwd_edge_map) m = Some m' ∧
    edge_inv m' (edges ++ bwd_edges get_volume h operators).
Proof.
  induction operators as [|p operators IH]; intros m edges Hwf Hinv.
  - exists m. split; [done|]. unfold bwd_edges. simpl. by rewrite app_nil_r.
  - apply Forall_cons in Hwf as [(op & Hop & Hins) Hwf].
    cbn [for_each_opt]. rewrite Hop. cbn [mbind option_bind].
    destruct (inputs_loop p (inputs op) m edges Hins Hinv) as (m1 & -> & Hinv1).
    cbn [mbind option_bind].
    destruct (IH m1 _ Hwf Hinv1) as (m' & Hrun & Hinv').
    exists m'. split; [done|].
    unfold bwd_edges in *. cbn [mbind list_bind]. rewrite Hop. simpl.
    by rewrite app_assoc.
Qed.
End Edges.

Lemma to_int_range v : - 2 ^ 31 ≤ to_int v < 2 ^ 31.
Proof. unfold to_int. pose proof (Z.mod_pos_bound (v + 2 ^ 31) (2 ^ 32)). lia. Qed.

Lemma to_int_small v : - 2 ^ 31 ≤ v < 2 ^ 31 → to_int v = v.
Proof. intros Hv. unfold to_int. rewrite Z.mod_small by lia. lia. Qed.

Lemma bwd_edges_elem get_volume h operators src p n :
  (src, (p, n)) ∈ bwd_edges get_volume h operators →
  ∃ op input t, p ∈ operators ∧ ops h !! p = Some op ∧ input ∈ inputs op ∧
    tens h !! input = Some t ∧ owner_op t = src ∧ n = to_int (get_volume t).
Proof.
  unfold bwd_edges. intros H.
  apply list_elem_of_bind in H as (q & H & Hq).
  apply list_elem_of_bind in H as (input & H & Hinput).
  destruct (ops h !! q) as [op|] eqn:Hop; simpl in Hinput;
    [|by apply elem_of_nil in Hinput].
  destruct (tens h !! input) as [t|] eqn:Ht; [|by apply elem_of_nil in H].
  apply list_elem_of_singleton in H. injection H as -> -> ->.
  by exists op, input, t.
Qed.

(** [get_bwd_edge_map] lists under every producer the operators that read
    one of its tensors, in the order of the operator list and, for one
    operator, of its inputs; an operator that reads the tensors of a
    producer [k] times is listed [k] times, and the tensors that no
    operator owns are collected under the null pointer. A producer whose
    outputs nobody reads has no entry. The number listed with a reader is
    the volume of the tensor read converted to [int]: the volume itself
    when that is below [2 ^ 31], and a number congruent to it modulo
    [2 ^ 32] otherwise. *)
Theorem get_bwd_edge_map_spec get_volume h operators :
  well_formed h operators →
  ∃ m, get_bwd_edge_map get_volume h operators = Some m ∧
       (∀ src, m !! src =
               match filter (fun e => e.1 = src) (bwd_edges get_volume h operators) with
               | [] => None
               | es => Some (snd <$> es)
               end) ∧
       ∀ src p n, (src, (p, n)) ∈ bwd_edges get_volume h operators →
         ∃ op input t,
           p ∈ operators ∧ ops h !! p = Some op ∧ input ∈ inputs op ∧
           tens h !! input = Some t ∧ owner_op t = src ∧
           - 2 ^ 31 ≤ n < 2 ^ 31 ∧ (n - get_volume t) mod 2 ^ 32 = 0 ∧
           (0 ≤ get_volume t < 2 ^ 31 → n = get_volume t).
Proof.
  intros Hwf.
  destruct (operators_loop get_volume h operators ∅ [] Hwf) as (m & Hrun & Hinv).
  { intros src. by rewrite lookup_empty. }
  exists m. split; [done|]. split; [exact Hinv|].
  intros src p n Hin.
  destruct (bwd_edges_elem _ _ _ _ _ _ Hin) as (op & input & t & ? & ? & ? & ? & ? & ->).
  exists op, input, t. do 5 (split; [done|]).
  split; [apply to_int_range|]. split.
  - unfold to_int.
    rewrite (Z.mod_eq (get_volume t + 2 ^ 31) (2 ^ 32)) by lia.
    replace (get_volume t + 2 ^ 31 - 2 ^ 32 * ((get_volume t + 2 ^ 31) / 2 ^ 32)
             - 2 ^ 31 - get_volume t)
      with (- ((get_volume t + 2 ^ 31) / 2 ^ 32) * 2 ^ 32) by lia.
    apply Z.mod_mul. lia.
  - intros Hv. apply to_int_small. lia.
Qed.

(** [update_metrics_task] returns an empty [PerfMetrics] when the task has
    no futures, fails its assertion when it has exactly one, and folds
    [update] over the results from left to right otherwise. *)
Theorem update_metrics_task_spec {PerfMetrics : Type} (perf : PerfMetrics)
    (update : PerfMetrics → PerfMetrics → PerfMetrics) futures :
  update_metrics_task perf update futures =
  match futures with
  | [] => Some perf
  | [_] => None
  | first :: others => Some (foldl update first others)
  end.
Proof.
  unfold update_metrics_task. destruct futures as [|f0 [|f1 rest]]; [done|done|].
  rewrite bool_decide_eq_false_2 by done.
  rewrite bool_decide_eq_true_2 by (simpl; lia).
  cbn [assert mbind option_bind]. change (zget (f0 :: f1 :: rest) 0) with (Some f0).
  cbn [mbind option_bind]. unfold for_range.
  assert (Hgen : ∀ others pre acc,
    for_loop (length others) (Z.of_nat (length pre))
      (fun i all_metrics =>
         one_metrics ← zget (pre ++ others) i;
         Some (update all_metrics one_metrics)) acc
    = Some (foldl update acc others)).
  { clear. induction others as [|x others IH]; intros pre acc; simpl; [done|].
    assert (Hz : zget (pre ++ x :: others) (Z.of_nat (length pre)) = Some x).
    { apply zget_Some. split; [lia|]. rewrite Nat2Z.id. by rewrite list_lookup_middle. }
    rewrite Hz. cbn [mbind option_bind].
    replace (Z.of_nat (length pre) + 1) with (Z.of_nat (length (pre ++ [x])))
      by (rewrite length_app; simpl; lia).
    replace (pre ++ x :: others) with ((pre ++ [x]) ++ others)
      by (by rewrite <- app_assoc).
    apply IH. }
  replace (Z.to_nat (Z.of_nat (length (f0 :: f1 :: rest)) - 1))
    with (length (f1 :: rest)) by (simpl; lia).
  apply (Hgen (f1 :: rest) [f0] f0).
Qed.

Lemma chain_well_formed : well_formed Scenarios.chain_heap Scenarios.chain_operators.
Proof.
  unfold well_formed, Scenarios.chain_operators.
  repeat (apply Forall_cons; split;
          [eexists; split; [reflexivity|simpl; repeat constructor; by eexists]|]).
  apply Forall_nil. done.
Defined.

Lemma get_bwd_edge_map_spec_witness :
  ∃ m, get_bwd_edge_map (fun t => size (default (mkParallelDim 0 0 0 false)
                                         (dims t !! 0%nat)))
         Scenarios.chain_heap Scenarios.chain_operators = Some m ∧
       (∀ src, m !! src =
               match filter (fun e => e.1 = src)
                       (bwd_edges (fun t => size (default (mkParallelDim 0 0 0 false)
                                                    (dims t !! 0%nat)))
                          Scenarios.chain_heap Scenarios.chain_operators) with
               | [] => None
               | es => Some (snd <$> es)
               end) ∧
       ∀ src p n,
         (src, (p, n)) ∈ bwd_edges (fun t => size (default (mkParallelDim 0 0 0 false)
                                                     (dims t !! 0%nat)))
                           Scenarios.chain_heap Scenarios.chain_operators →
         ∃ op input t,
           p ∈ Scenarios.chain_operators ∧
           ops Scenarios.chain_heap !! p = Some op ∧ input ∈ inputs op ∧
           tens Scenarios.chain_heap !! input = Some t ∧ owner_op t = src ∧
           - 2 ^ 31 ≤ n < 2 ^ 31 ∧
           (n - size (default (mkParallelDim 0 0 0 false) (dims t !! 0%nat)))
             mod 2 ^ 32 = 0 ∧
           (0 ≤ size (default (mkParallelDim 0 0 0 false) (dims t !! 0%nat)) < 2 ^ 31 →
            n = size (default (mkParallelDim 0 0 0 false) (dims t !! 0%nat))).
Proof.
  apply (get_bwd_edge_map_spec
           (fun t => size (default (mkParallelDim 0 0 0 false) (dims t !! 0%nat)))).
  exact chain_well_formed.
Defined.

End ScheduleProofs.

Module AggregateLaunchProofs.
Import Common TensorFactory AggregateOp AggregateLaunch.
Import CommonProofs TensorFactoryProofs AggregateProofs.

Lemma expert_loop (ins : list addr) n (mk : addr → Z → Requirement) (f : Z → Z) l0 :
  0 ≤ n → Z.of_nat (length ins) = n + 4 →
  (∀ t i, rr_tensor (mk t i) = t ∧ rr_field (mk t i) = f i) →
  ∃ l, for_range 0 n (fun i launcher =>
         t ← zget ins (i + 4); Some (launcher ++ [mk t i])) l0 = Some (l0 ++ l) ∧
       rr_tensor <$> l = drop 4 ins ∧ rr_field <$> l = f <$> seqZ 0 n.
Proof.
  intros Hn Hlen Hmk.
  destruct (for_range_progress
    (fun i launcher => ∃ l, launcher = l0 ++ l ∧
       rr_tensor <$> l = take (Z.to_nat i) (drop 4 ins) ∧
       rr_field <$> l = f <$> seqZ 0 i)
    (fun i launcher => t ← zget ins (i + 4); Some (launcher ++ [mk t i]))
    0 n l0) as (l' & Hrun & l & -> & Ht & Hf).
  - done.
  - exists []. by rewrite app_nil_r.
  - intros j s Hj (l & -> & Ht & Hf).
    destruct (lookup_lt_is_Some_2 ins (Z.to_nat (j + 4))) as [t Hin]; [lia|].
    assert (Hz : zget ins (j + 4) = Some t) by (apply zget_Some; split; [lia|done]).
    rewrite Hz. cbn [mbind option_bind]. eexists. split; [done|].
    exists (l ++ [mk t j]). split; [by rewrite app_assoc|].
    rewrite !fmap_app. simpl. destruct (Hmk t j) as [-> ->]. split.
    + replace (Z.to_nat (j + 1)) with (S (Z.to_nat j)) by lia.
      rewrite (take_S_r _ _ t); [by rewrite Ht|].
      rewrite lookup_drop. rewrite <- Hin. f_equal. lia.
    + rewrite Hf. replace (j + 1) with (j + 1) by done.
      rewrite (seqZ_app 0 j 1) by lia. by rewrite fmap_app.
  - exists l. split; [done|]. split; [|done].
    rewrite Ht. apply take_ge. rewrite length_drop. lia.
Qed.

Lemma input_tensor_lt model (ins : list addr) k t :
  input_tensor model ins k = Some t → 0 ≤ k < Z.of_nat (length ins).
Proof.
  unfold input_tensor. destruct (zget ins k) eqn:E; simpl; [|done].
  intros _. by apply zget_lt in E.
Qed.

Lemma Aggregate_new_slots ext lim dflt model this _inputs _n _lambda_bal model' agg :
  Aggregate_new ext lim dflt model this _inputs _n _lambda_bal = Some (model', agg) →
  0 < n agg ∧ Z.of_nat (length (inputs agg)) = n agg + 4 ∧
  ∃ out, outputs agg = [out].
Proof.
  intros H. pose proof (Aggregate_new_inputs _ _ _ _ _ _ _ _ _ _ H) as (_ & Hn & Hle & _).
  split; [done|].
  unfold Aggregate_new in H. bind_inv H. injection H as <- <-. simpl in *.
  split; [|by eexists].
  destruct (decide (_n = 1)) as [->|Hne].
  - repeat match goal with
    | E : input_tensor _ _ _ = Some _ |- _ => apply input_tensor_lt in E
    end. lia.
  - match goal with
    | E : for_range 1 _n _ _ = Some _ |- _ => rename E into Hloop
    end.
    assert (Hlast : 1 < _n → _n + 3 < Z.of_nat (length (take (Z.to_nat (_n + 4)) _inputs)));
      [|lia].
    apply (for_range_inv
      (fun i (_ : unit) =>
         1 < i → i + 3 < Z.of_nat (length (take (Z.to_nat (_n + 4)) _inputs)))
      _ _ _ _ _ Hloop); [lia|lia|].
    intros j [] [] Hj _ Hb _.
    destruct (input_tensor _ _ (j + 4)) eqn:Hslot; simpl in Hb; [|done].
    apply input_tensor_lt in Hslot. lia.
Qed.

(** Every [Aggregate] that the constructor builds can be launched:
    [forward] and [backward] read only input slots that the constructor
    filled. [forward] adds [n + 3] region requirements, for inputs 0 and 1,
    the [n] expert inputs and the output, and [backward] adds [2 n + 5],
    for inputs 0 to 3, the expert inputs, the expert inputs again (their
    gradients) and the output; the index handed to [add_field] is the
    position of the requirement. These are the counts that the tasks
    assert. *)
Theorem launch_reads_filled_slots ext lim dflt model this _inputs _n _lambda_bal
    model' agg :
  Aggregate_new ext lim dflt model this _inputs _n _lambda_bal = Some (model', agg) →
  ∃ fwd bwd,
    forward agg = Some fwd ∧ backward agg = Some bwd ∧
    Z.of_nat (length fwd) = n agg + 3 ∧ Z.of_nat (length bwd) = 2 * n agg + 5 ∧
    rr_tensor <$> fwd = take 2 (inputs agg) ++ drop 4 (inputs agg) ++ outputs agg ∧
    rr_tensor <$> bwd = take 4 (inputs agg) ++ drop 4 (inputs agg)
                        ++ drop 4 (inputs agg) ++ outputs agg ∧
    rr_field <$> fwd = seqZ 0 (n agg + 3) ∧
    rr_field <$> bwd = seqZ 0 (2 * n agg + 5).
Proof.
  intros H. apply Aggregate_new_slots in H as (Hn & Hlen & out & Hout).
  destruct (inputs agg) as [|i0 [|i1 [|i2 [|i3 experts]]]] eqn:Hins;
    simpl in Hlen; try lia.
  assert (Hexp : Z.of_nat (length experts) = n agg) by lia.
  unfold forward, backward. rewrite Hins, Hout.
  change (zget (i0 :: i1 :: i2 :: i3 :: experts) 0) with (Some i0).
  change (zget (i0 :: i1 :: i2 :: i3 :: experts) 1) with (Some i1).
  change (zget (i0 :: i1 :: i2 :: i3 :: experts) 2) with (Some i2).
  change (zget (i0 :: i1 :: i2 :: i3 :: experts) 3) with (Some i3).
  change (zget [out] 0) with (Some out).
  cbn [mbind option_bind].
  set (ins := i0 :: i1 :: i2 :: i3 :: experts).
  assert (Hil : Z.of_nat (length ins) = n agg + 4) by (unfold ins; simpl; lia).
  destruct (expert_loop ins (n agg)
              (fun t i => mkRequirement t false READ_WRITE (i + 2)) (fun i => i + 2)
              ([mkRequirement i0 false READ_WRITE 0] ++ [mkRequirement i1 false READ_WRITE 1]))
    as (lf & -> & Htf & Hff); [lia|done|done|].
  destruct (expert_loop ins (n agg)
              (fun t i => mkRequirement t false READ_WRITE (i + 4)) (fun i => i + 4)
              ((([mkRequirement i0 false READ_WRITE 0] ++ [mkRequirement i1 false READ_ONLY 1])
                ++ [mkRequirement i2 false READ_ONLY 2]) ++ [mkRequirement i3 true READ_WRITE 3]))
    as (lb1 & -> & Htb1 & Hfb1); [lia|done|done|].
  cbn [mbind option_bind].
  match goal with
  | |- context [for_range 0 (n agg) _ ?l0] =>
      destruct (expert_loop ins (n agg)
                  (fun t i => mkRequirement t true READ_WRITE (i + n agg + 4))
                  (fun i => i + n agg + 4) l0)
        as (lb2 & -> & Htb2 & Hfb2); [lia|done|done|]
  end.
  cbn [mbind option_bind].
  assert (Hlf : length lf = length experts).
  { rewrite <- (length_fmap rr_tensor), Htf. unfold ins. simpl. done. }
  assert (Hlb1 : length lb1 = length experts).
  { rewrite <- (length_fmap rr_tensor), Htb1. unfold ins. simpl. done. }
  assert (Hlb2 : length lb2 = length experts).
  { rewrite <- (length_fmap rr_tensor), Htb2. unfold ins. simpl. done. }
  assert (Hshift : ∀ a k, 0 ≤ k → (fun i => i + a) <$> seqZ 0 k = seqZ a k).
  { intros a k Hk. transitivity (Z.add a <$> seqZ 0 k).
    - apply list_fmap_ext. intros; lia.
    - rewrite fmap_add_seqZ. f_equal. lia. }
  assert (Hone : ∀ m, seqZ m 1 = [m]).
  { intros m. unfold seqZ. simpl. f_equal. }
  eexists _, _. split; [done|]. split; [done|].
  split; [rewrite !length_app; simpl; lia|].
  split; [rewrite !length_app; simpl; lia|].
  rewrite !fmap_app. simpl. rewrite Htf, Htb1, Htb2, Hff, Hfb1, Hfb2.
  unfold ins. simpl. rewrite !Hshift by lia.
  split; [done|]. split; [by rewrite <- !app_assoc|]. split.
  - replace (n agg + 3) with (2 + (n agg + 1)) by lia.
    rewrite (seqZ_app 0 2 (n agg + 1)) by lia.
    rewrite (seqZ_app (0 + 2) (n agg) 1) by lia.
    rewrite Hone. simpl. do 3 f_equal. f_equal. lia.
  - replace (2 * n agg + 5) with (4 + (n agg + (n agg + 1))) by lia.
    rewrite (seqZ_app 0 4) by lia.
    rewrite (seqZ_app (0 + 4) (n agg)) by lia.
    rewrite (seqZ_app (0 + 4 + n agg) (n agg) 1) by lia.
    rewrite Hone. simpl. rewrite <- !app_assoc. simpl.
    assert (Hsh2 : (fun i => i + n agg + 4) <$> seqZ 0 (n agg)
                   = seqZ (0 + 4 + n agg) (n agg)).
    { transitivity (Z.add (n agg + 4) <$> seqZ 0 (n agg)).
      - apply list_fmap_ext. intros; lia.
      - rewrite fmap_add_seqZ. f_equal. lia. }
    rewrite Hsh2. repeat (f_equal; try lia).
Qed.

Lemma launch_reads_filled_slots_witness :
  ∃ m a, Scenarios.S2_aggregate = Some (m, a) ∧
    ∃ fwd bwd,
      forward a = Some fwd ∧ backward a = Some bwd ∧
      Z.of_nat (length fwd) = n a + 3 ∧ Z.of_nat (length bwd) = 2 * n a + 5 ∧
      rr_tensor <$> fwd = take 2 (inputs a) ++ drop 4 (inputs a) ++ outputs a ∧
      rr_tensor <$> bwd = take 4 (inputs a) ++ drop 4 (inputs a)
                          ++ drop 4 (inputs a) ++ outputs a ∧
      rr_field <$> fwd = seqZ 0 (n a + 3) ∧
      rr_field <$> bwd = seqZ 0 (2 * n a + 5).
Proof.
  assert (Hsome : is_Some Scenarios.S2_aggregate) by (vm_compute; eauto).
  destruct Hsome as [[m a] E].
  exists m, a. split; [exact E|].
  exact (launch_reads_filled_slots _ _ _ _ _ _ _ _ _ _ E).
Defined.

End AggregateLaunchProofs.

(* ===================================================================== *)
(** *** Properties of the weight mapping *)
(* ===================================================================== *)

Module WeightMapperProofs.
Import Common RegionMapper Tiling Partitions WeightMapper.
Import CommonProofs RegionMapperProofs TilingProofs RadixProofs TaskSpaceProofs
       PartitionsProofs.

(** [map_weight] never maps the weight of an embedding or of a multi-head
    attention operator: [map_weight_with_dim] sends both kinds to
    [map_linear_weight], whose first statement asserts that the operator is
    a linear one. *)
Theorem map_weight_rejects_embedding LMD training weight info parallel_op op :
  wo_type op = OP_EMBEDDING ∨ wo_type op = OP_MULTIHEAD_ATTENTION →
  map_weight LMD training weight info parallel_op (Some op) = None.
Proof.
  intros Hty. unfold map_weight.
  destruct ((1 <=? num_dims weight) && (num_dims weight <=? LMD)); [|done].
  unfold map_weight_with_dim.
  destruct (match owner_op weight with
            | Some o => _
            | None => _
            end) as [[owner idx]|]; cbn [mbind option_bind]; [|done].
  destruct (assert _); cbn [mbind option_bind]; [|done].
  assert (Hlin : ∀ T, map_linear_weight (num_dims weight) T training weight info op = None).
  { intros T. unfold map_linear_weight.
    rewrite bool_decide_eq_false_2; [done|]. destruct Hty as [-> | ->]; done. }
  destruct Hty as [-> | ->];
    (destruct ((1 <=? wo_output_num_dims op) && (wo_output_num_dims op <=? LMD));
     [by rewrite Hlin|done]).
Qed.

Lemma map_weight_rejects_embedding_witness :
  map_weight 5 true Scenarios.S6_tensor (mkWeightInfo PS true) (Some 1%N)
    (Some (mkWeightOp OP_EMBEDDING (mkRect [0; 0] [3; 1]) 2)) = None.
Proof.
  apply map_weight_rejects_embedding. by left.
Defined.

Lemma zero_transform_eq N T :
  zero_transform N T = Some ((fun _ : Z => (fun _ : Z => 0) <$> seqZ 0 T) <$> seqZ 0 N).
Proof.
  unfold zero_transform. apply tabulate_fn. intros i _. by apply tabulate_fn.
Qed.

Lemma image_zero_transform parent colors N T ext c :
  0 ≤ N → Z.of_nat (length (lo ext)) = N → Z.of_nat (length (hi ext)) = N →
  image (mkIndexPartition parent colors
           ((fun _ : Z => (fun _ : Z => 0) <$> seqZ 0 T) <$> seqZ 0 N) ext) c
  = ext.
Proof.
  intros HN Hlo Hhi. unfold image, apply_transform. cbn [ip_transform ip_extent].
  assert (Hz : (fun row => dot row c)
                 <$> ((fun _ : Z => (fun _ : Z => 0) <$> seqZ 0 T) <$> seqZ 0 N)
               = replicate (Z.to_nat N) 0).
  { rewrite <- list_fmap_compose. apply list_eq. intros i.
    destruct (decide (i < Z.to_nat N)%nat) as [Hi|Hi].
    - rewrite lookup_fmap_seqZ by lia. rewrite lookup_replicate_2 by lia.
      f_equal. simpl. apply dot_zero. apply Forall_forall. intros v Hv.
      apply list_elem_of_fmap in Hv as (? & -> & _). done.
    - rewrite !lookup_ge_None_2; [done| |].
      + rewrite length_replicate. lia.
      + rewrite length_fmap, length_seqZ. lia. }
  rewrite Hz. destruct ext as [l h]. simpl in *.
  assert (Hadd : ∀ l : list Z, zip_with Z.add (replicate (length l) 0) l = l).
  { clear. induction l as [|a l IH]; simpl; [done|]. by rewrite IH. }
  replace (Z.to_nat N) with (length l) at 1 by lia.
  replace (Z.to_nat N) with (length h) by lia.
  by rewrite !Hadd.
Qed.

Lemma size_hi_eq (weight : ParallelTensorBase) :
  size_hi (num_dims weight) weight = Some ((fun d => size d - 1) <$> dims weight).
Proof.
  unfold size_hi.
  rewrite (tabulate_fn (num_dims weight) _
             (fun i => size (default (mkParallelDim 0 0 0 false)
                               (dims weight !! Z.to_nat i)) - 1)).
  - unfold num_dims. by rewrite region_hi_dims.
  - intros i Hi.
    destruct (lookup_lt_is_Some_2 (dims weight) (Z.to_nat i)) as [di Hdi];
      [unfold num_dims in *; lia|].
    assert (Hzi : zget (dims weight) i = Some di)
      by (apply zget_Some; split; [lia|done]).
    rewrite Hzi, Hdi. done.
Qed.

Lemma axis_points_anchored T pr :
  anchored T pr → axis_points pr = (fun u => u + 1) <$> hi pr.
Proof.
  intros (Hlo & Hlen & _). unfold axis_points. rewrite Hlo. unfold ZEROES.
  rewrite <- Hlen, Nat2Z.id. generalize (hi pr) as l.
  induction l as [|h l IH]; simpl; [done|]. rewrite IH. f_equal. lia.
Qed.

Lemma set_entry_zero N T i j v :
  0 ≤ i < N → 0 ≤ j < T →
  set_entry ((fun _ : Z => (fun _ : Z => 0) <$> seqZ 0 T) <$> seqZ 0 N) i j v
  = Some ((fun i' => if bool_decide (i' = i)
                     then (fun j' => if bool_decide (j' = j) then v else 0) <$> seqZ 0 T
                     else (fun _ : Z => 0) <$> seqZ 0 T) <$> seqZ 0 N).
Proof.
  intros Hi Hj. unfold set_entry. rewrite zget_fmap_seqZ by lia.
  cbn [mbind option_bind].
  rewrite zset_Some by (rewrite length_fmap, length_seqZ; lia).
  cbn [mbind option_bind].
  rewrite zset_Some by (rewrite length_fmap, length_seqZ; lia).
  rewrite (insert_fmap_seqZ (fun _ => 0) T) by lia.
  by rewrite insert_fmap_seqZ by lia.
Qed.

Lemma set_entry_row N r (row zrow : list Z) j v :
  0 ≤ r < N → 0 ≤ j < Z.of_nat (length row) →
  set_entry ((fun i => if bool_decide (i = r) then row else zrow) <$> seqZ 0 N) r j v
  = Some ((fun i => if bool_decide (i = r) then <[Z.to_nat j := v]> row else zrow)
            <$> seqZ 0 N).
Proof.
  intros Hr Hj. unfold set_entry. rewrite zget_fmap_seqZ by lia.
  rewrite bool_decide_eq_true_2 by done. cbn [mbind option_bind].
  rewrite zset_Some by lia. cbn [mbind option_bind].
  rewrite zset_Some by (rewrite length_fmap, length_seqZ; lia).
  rewrite insert_fmap_seqZ by lia. f_equal.
  apply fmap_seqZ_ext. intros i Hi. by destruct (bool_decide (i = r)).
Qed.

Lemma quot_exact out np : 1 ≤ np → 0 ≤ out → Z.rem out np = 0 →
  (out - 1 + np) ÷ np = out ÷ np.
Proof.
  intros Hnp Hout Hrem.
  pose proof (Z.quot_rem' out np) as Hq. rewrite Hrem in Hq.
  set (q := out ÷ np) in *. replace (out - 1 + np) with (np - 1 + q * np) by lia.
  rewrite Z.quot_add by nia. rewrite Z.quot_small by lia. lia.
Qed.

Lemma last_zget {A} (l : list A) d :
  last l = Some d → zget l (Z.of_nat (length l) - 1) = Some d.
Proof.
  intros Hd. rewrite last_lookup in Hd. apply zget_Some.
  assert (l ≠ []) by (intros ->; done).
  assert (0 < length l)%nat by (destruct l; simpl; [done|lia]).
  split; [lia|]. rewrite <- Hd. f_equal. lia.
Qed.

Lemma num_parts_of_eq T pr :
  Z.of_nat (length (lo pr)) = T → length (hi pr) = length (lo pr) →
  num_parts_of T pr = Some (axis_points pr).
Proof.
  intros Hlen Hlen2. unfold num_parts_of.
  rewrite (tabulate_fn T _ (fun i => default 0 (axis_points pr !! Z.to_nat i))).
  - f_equal. apply list_eq. intros i.
    assert (Hal : length (axis_points pr) = Z.to_nat T).
    { unfold axis_points. rewrite length_zip_with. lia. }
    destruct (decide (i < Z.to_nat T)%nat) as [Hi|Hi].
    + rewrite lookup_fmap_seqZ by lia. rewrite Nat2Z.id.
      destruct (lookup_lt_is_Some_2 (axis_points pr) i) as [v ->]; [lia|]. done.
    + rewrite !lookup_ge_None_2; [done|lia|].
      rewrite length_fmap, length_seqZ. lia.
  - intros i Hi.
    destruct (lookup_lt_is_Some_2 (lo pr) (Z.to_nat i)) as [l Hl]; [lia|].
    destruct (lookup_lt_is_Some_2 (hi pr) (Z.to_nat i)) as [h Hh]; [lia|].
    assert (Hzl : zget (lo pr) i = Some l) by (apply zget_Some; split; [lia|done]).
    assert (Hzh : zget (hi pr) i = Some h) by (apply zget_Some; split; [lia|done]).
    rewrite Hzl, Hzh. cbn [mbind option_bind]. unfold axis_points.
    unfold Point in *. rewrite lookup_zip_with, Hh, Hl. done.
Qed.

Lemma anchored_facts T pr :
  1 ≤ T → anchored T pr →
  Z.of_nat (length (lo pr)) = T ∧ Forall2 Z.le (lo pr) (hi pr) ∧
  lo pr !! 0%nat = Some 0.
Proof.
  intros HT (Hlo & Hlen & Hpos). rewrite Hlo. unfold ZEROES.
  split; [rewrite length_replicate; lia|]. split.
  - apply Forall2_same_length_lookup. split; [rewrite length_replicate; lia|].
    intros i l u Hl Hu. apply lookup_replicate in Hl as [-> _].
    rewrite Forall_forall in Hpos. apply Hpos. by eapply list_elem_of_lookup_2.
  - apply lookup_replicate_2. lia.
Qed.

Lemma anchored_four pr :
  anchored 4 pr → hi pr !! 2%nat = Some 0 →
  ∃ uw uh un, pr = mkRect [0; 0; 0; 0] [uw; uh; 0; un] ∧ 0 ≤ uw ∧ 0 ≤ uh ∧ 0 ≤ un.
Proof.
  intros (Hlo & Hlen & Hpos) H2. destruct pr as [l h]. simpl in *.
  destruct h as [|uw [|uh [|uc [|un [|]]]]]; simpl in Hlen; try lia.
  simpl in H2. injection H2 as ->.
  exists uw, uh, un. rewrite Hlo. split; [done|].
  apply Forall_cons in Hpos as [? Hpos]. apply Forall_cons in Hpos as [? Hpos].
  apply Forall_cons in Hpos as [? Hpos]. apply Forall_cons in Hpos as [? Hpos]. done.
Qed.

(** The loop that multiplies the point counts of the task axes after the
    first. *)
Lemma num_batches_loop (nps : list Z) T :
  1 ≤ T → Z.of_nat (length nps) = T → Forall (Z.le 1) nps →
  product (drop 1 nps) < 2 ^ 31 →
  for_range 1 T (fun i num_batches => p ← zget nps i; int_mul num_batches p) 1
  = Some (product (drop 1 nps)).
Proof.
  intros HT Hlen Hpos Hbound.
  destruct (for_range_progress
              (fun k nb => nb = product (take (Z.to_nat (k - 1)) (drop 1 nps)))
              (fun i num_batches => p ← zget nps i; int_mul num_batches p)
              1 T 1) as (nb & Hrun & Hnb).
  - done.
  - done.
  - intros k nb Hk ->.
    destruct (lookup_lt_is_Some_2 nps (Z.to_nat k)) as [n Hn]; [lia|].
    assert (Hz : zget nps k = Some n) by (apply zget_Some; split; [lia|done]).
    rewrite Hz. cbn [mbind option_bind].
    assert (Hd : drop 1 nps !! Z.to_nat (k - 1) = Some n).
    { rewrite lookup_drop. rewrite <- Hn. f_equal. lia. }
    replace (Z.to_nat (k + 1 - 1)) with (S (Z.to_nat (k - 1))) by lia.
    rewrite (product_take_S _ _ _ Hd).
    pose proof (product_take_le (drop 1 nps) (S (Z.to_nat (k - 1)))
                  (Forall_drop _ _ _ Hpos)) as Hle.
    rewrite (product_take_S _ _ _ Hd) in Hle.
    unfold int_mul.
    destruct (Z.leb_spec (- 2 ^ 31) (product (take (Z.to_nat (k - 1)) (drop 1 nps)) * n));
      [|lia].
    destruct (Z.ltb_spec (product (take (Z.to_nat (k - 1)) (drop 1 nps)) * n) (2 ^ 31));
      [|lia].
    eexists. split; done.
  - rewrite Hrun. f_equal. rewrite Hnb. f_equal. apply take_ge.
    rewrite length_drop. lia.
Qed.

(** The loop that fills the last row of the transform. *)
Lemma transform_loop N T q (nps : list Z) :
  1 ≤ N → 1 ≤ T → Z.of_nat (length nps) = T →
  for_range 1 T (fun i transform =>
      prev ← entry transform (N - 1) (i - 1);
      p ← zget nps (i - 1);
      set_entry transform (N - 1) i (prev * p))
    ((fun i => if bool_decide (i = N - 1)
               then (fun j => if bool_decide (j = 0) then q else 0) <$> seqZ 0 T
               else (fun _ : Z => 0) <$> seqZ 0 T) <$> seqZ 0 N)
  = Some ((fun i => if bool_decide (i = N - 1) then radix_row q nps
                    else replicate (Z.to_nat T) 0) <$> seqZ 0 N).
Proof.
  intros HN HT Hlen.
  set (R := radix_row q nps).
  assert (HR : length R = Z.to_nat T) by (unfold R; rewrite radix_row_length; lia).
  set (M := fun k : Z =>
              (fun i => if bool_decide (i = N - 1)
                        then take (Z.to_nat k) R ++ replicate (Z.to_nat T - Z.to_nat k) 0
                        else replicate (Z.to_nat T) 0) <$> seqZ 0 N).
  assert (H1 : (fun i => if bool_decide (i = N - 1)
               then (fun j => if bool_decide (j = 0) then q else 0) <$> seqZ 0 T
               else (fun _ : Z => 0) <$> seqZ 0 T) <$> seqZ 0 N = M 1).
  { unfold M. apply fmap_seqZ_ext. intros i Hi. rewrite fmap_const_seqZ.
    destruct (bool_decide (i = N - 1)); [|done].
    apply list_eq. intros j. destruct (decide (j < Z.to_nat T)%nat) as [Hj|Hj].
    - rewrite lookup_fmap_seqZ by lia. destruct j as [|j].
      + rewrite bool_decide_eq_true_2 by done.
        rewrite lookup_app_l by (rewrite length_take; lia).
        rewrite lookup_take_lt by lia. unfold R. by rewrite radix_row_head by lia.
      + rewrite bool_decide_eq_false_2 by lia.
        rewrite lookup_app_r by (rewrite length_take; lia).
        rewrite length_take. rewrite lookup_replicate_2; [done|]. lia.
    - rewrite !lookup_ge_None_2; [done| |].
      + rewrite length_app, length_take, length_replicate. lia.
      + rewrite length_fmap, length_seqZ. lia. }
  assert (HT' : (fun i => if bool_decide (i = N - 1) then R
                    else replicate (Z.to_nat T) 0) <$> seqZ 0 N = M T).
  { unfold M. apply fmap_seqZ_ext. intros i Hi.
    destruct (bool_decide (i = N - 1)); [|done].
    rewrite Nat.sub_diag. simpl. rewrite app_nil_r.
    by rewrite take_ge by lia. }
  rewrite H1, HT'.
  destruct (for_range_progress (fun k tr => tr = M k)
              (fun i transform =>
                 prev ← entry transform (N - 1) (i - 1);
                 p ← zget nps (i - 1);
                 set_entry transform (N - 1) i (prev * p))
              1 T (M 1)) as (tr & Hrun & ->); [done|done| |done].
  intros k tr Hk ->.
  destruct (lookup_lt_is_Some_2 R (Z.to_nat (k - 1))) as [r Hr]; [lia|].
  destruct (lookup_lt_is_Some_2 nps (Z.to_nat (k - 1))) as [n Hn]; [lia|].
  assert (Hrk : R !! Z.to_nat k = Some (r * n)).
  { replace (Z.to_nat k) with (S (Z.to_nat (k - 1))) by lia.
    apply radix_row_S; [done|done|lia]. }
  assert (Hrow : zget (M k) (N - 1)
                 = Some (take (Z.to_nat k) R ++ replicate (Z.to_nat T - Z.to_nat k) 0)).
  { unfold M. rewrite zget_fmap_seqZ by lia. by rewrite bool_decide_eq_true_2. }
  unfold entry, set_entry. rewrite Hrow. cbn [mbind option_bind].
  assert (Hprev : zget (take (Z.to_nat k) R ++ replicate (Z.to_nat T - Z.to_nat k) 0) (k - 1)
                  = Some r).
  { apply zget_Some. split; [lia|].
    rewrite lookup_app_l by (rewrite length_take; lia).
    rewrite lookup_take_lt by lia. done. }
  rewrite Hprev. cbn [mbind option_bind].
  assert (Hz : zget nps (k - 1) = Some n) by (apply zget_Some; split; [lia|done]).
  rewrite Hz. cbn [mbind option_bind].
  rewrite zset_Some by (rewrite length_app, length_take, length_replicate; lia).
  cbn [mbind option_bind].
  rewrite zset_Some by (unfold M; rewrite length_fmap, length_seqZ; lia).
  eexists. split; [done|].
  unfold M. rewrite insert_fmap_seqZ by lia.
  apply fmap_seqZ_ext. intros i Hi.
  destruct (bool_decide (i = N - 1)); [|done].
  replace (Z.to_nat T - Z.to_nat (k + 1))%nat with (Z.to_nat T - S (Z.to_nat k))%nat by lia.
  replace (Z.to_nat (k + 1)) with (S (Z.to_nat k)) by lia.
  apply row_step; [done|lia].
Qed.

(** The region and partition of a convolution weight that is synchronised
    through a parameter server. *)
Lemma conv_ps_ok (weight : ParallelTensorBase) (pr : Rect) :
  1 ≤ num_dims weight → Forall2 Z.le (lo pr) (hi pr) →
  ∃ ip,
    conv_ps (num_dims weight) weight pr
    = Some (mkRect (ZEROES (num_dims weight)) ((fun d => size d - 1) <$> dims weight),
            ip) ∧
    ip_parent ip
    = mkRect (ZEROES (num_dims weight)) ((fun d => size d - 1) <$> dims weight) ∧
    ip_colors ip = pr ∧
    partition_complete ip ∧
    ∀ c x, subspace ip c x ↔
           in_rect (mkRect (ZEROES (num_dims weight))
                           ((fun d => size d - 1) <$> dims weight)) x.
Proof.
  intros Hnd Hle. unfold conv_ps. rewrite size_hi_eq. cbn [mbind option_bind].
  rewrite zero_transform_eq. cbn [mbind option_bind].
  set (rect := mkRect (ZEROES (num_dims weight)) ((fun d => size d - 1) <$> dims weight)).
  match goal with
  | |- context [is_index_partition_complete ?p] => set (ip := p)
  end.
  assert (Hsub : ∀ c x, subspace ip c x ↔ in_rect rect x).
  { intros c x. unfold subspace, ip.
    rewrite image_zero_transform.
    - cbn [ip_parent]. split; [by intros [? ?]|by intros ?].
    - lia.
    - unfold rect. simpl. unfold ZEROES. rewrite length_replicate. lia.
    - unfold rect. simpl. rewrite length_fmap. unfold num_dims. done. }
  assert (Hcom : partition_complete ip).
  { intros x Hx. exists (lo pr). split.
    - unfold ip. cbn [ip_colors]. split; [|done].
      apply Forall2_same_length_lookup. split; [done|].
      intros i a b Ha Hb. rewrite Ha in Hb. injection Hb as <-. lia.
    - by apply Hsub. }
  rewrite (proj2 (is_index_partition_complete_spec _) Hcom).
  cbn [assert mbind option_bind]. exists ip. done.
Qed.

(** The region and partition of a linear weight that is synchronised
    through a parameter server. *)
Lemma linear_ps_ok (weight : ParallelTensorBase) (pr : Rect) T u0
    (num_parts : list Z) (d : ParallelDim) :
  1 ≤ num_dims weight → 1 ≤ T →
  Forall (fun d => 1 ≤ size d) (dims weight) →
  Z.of_nat (length (lo pr)) = T →
  Forall2 Z.le (lo pr) (hi pr) →
  lo pr !! 0%nat = Some 0 → hi pr !! 0%nat = Some u0 →
  zget num_parts 0 = Some (u0 + 1) →
  last (dims weight) = Some d → Z.rem (size d) (u0 + 1) = 0 →
  ∃ ip,
    linear_ps (num_dims weight) T weight pr num_parts (size d)
    = Some (mkRect (ZEROES (num_dims weight)) ((fun d => size d - 1) <$> dims weight),
            ip) ∧
    ip_parent ip
    = mkRect (ZEROES (num_dims weight)) ((fun d => size d - 1) <$> dims weight) ∧
    ip_colors ip = pr ∧
    partition_complete ip ∧
    ∀ (c c' x : list Z),
      in_rect pr c → in_rect pr c' → c !! 0%nat = c' !! 0%nat →
      subspace ip c x → subspace ip c' x.
Proof.
  intros Hnd HT Hsizes Hlen Hle Hl0 Hu0 Hnp0 Hlast Hrem.
  pose proof (Forall2_length _ _ _ Hle) as Hlen2.
  set (N := num_dims weight) in *.
  assert (Hu0pos : 0 ≤ u0).
  { rewrite Forall2_same_length_lookup in Hle. destruct Hle as [_ Hle].
    by apply (Hle 0%nat 0 u0). }
  set (dz := fun i => default (mkParallelDim 0 0 0 false) (dims weight !! Z.to_nat i)).
  assert (Hdz : ∀ i, 0 ≤ i < N → zget (dims weight) i = Some (dz i) ∧ 1 ≤ size (dz i)).
  { intros i Hi. unfold dz.
    destruct (lookup_lt_is_Some_2 (dims weight) (Z.to_nat i)) as [di Hd];
      [unfold N, num_dims in *; lia|].
    rewrite Hd. simpl. split; [apply zget_Some; split; [lia|done]|].
    rewrite Forall_forall in Hsizes. apply Hsizes. by eapply list_elem_of_lookup_2. }
  assert (Hd : dz (N - 1) = d).
  { destruct (Hdz (N - 1)) as [Hz _]; [lia|].
    apply last_zget in Hlast. fold (num_dims weight) in Hlast. fold N in Hlast.
    rewrite Hz in Hlast. by injection Hlast. }
  set (out := size d) in *.
  assert (Hout : 1 ≤ out).
  { destruct (Hdz (N - 1)) as [_ Ho]; [lia|]. by rewrite Hd in Ho. }
  set (w := fun i => size (dz i)).
  set (np := fun i => if bool_decide (i = N - 1) then u0 + 1 else 1).
  set (axis := fun i : Z => if bool_decide (i = N - 1) then Some 0 else None).
  assert (Hnp : ∀ i, 1 ≤ np i)
    by (intros i; unfold np; destruct (bool_decide (i = N - 1)); lia).
  assert (Htw : ∀ i, 0 ≤ i < N →
            tile_width w np i = if bool_decide (i = N - 1) then out ÷ (u0 + 1) else w i).
  { intros i Hi. unfold tile_width, np. destruct (decide (i = N - 1)) as [->|Hne].
    - rewrite !bool_decide_eq_true_2 by done. unfold w. rewrite Hd.
      apply quot_exact; [lia| |done]. fold out. lia.
    - rewrite !bool_decide_eq_false_2 by done. rewrite Z.quot_1_r. lia. }
  assert (Hcom : partition_complete (grid N T w np axis (lo pr) (hi pr))).
  { apply grid_complete; try done; try lia.
    - intros i Hi. split; [by destruct (Hdz i Hi)|done].
    - intros i Hi. unfold axis, np. destruct (bool_decide (i = N - 1)); [|done].
      rewrite bool_decide_eq_true_2 by lia.
      exists 0, u0. split; [by apply zget_Some|]. split; [by apply zget_Some|]. lia.
    - intros i i' a _ _ _. unfold axis.
      destruct (decide (i = N - 1)) as [Hi1|Hi1];
        [rewrite (bool_decide_eq_true_2 _ Hi1)|by rewrite (bool_decide_eq_false_2 _ Hi1)].
      destruct (decide (i' = N - 1)) as [Hi2|Hi2];
        [rewrite (bool_decide_eq_true_2 _ Hi2)|by rewrite (bool_decide_eq_false_2 _ Hi2)].
      lia.
    - intros j l u Hl Hu. rewrite Forall2_same_length_lookup in Hle.
      destruct Hle as [_ Hle]. by apply (Hle j). }
  assert (Hhi : (fun i => w i - 1) <$> seqZ 0 N = (fun d => size d - 1) <$> dims weight).
  { unfold w, dz, N, num_dims. apply region_hi_dims. }
  pose proof (size_hi_eq weight) as Hsz. fold N in Hsz. rewrite <- Hhi in Hsz.
  unfold linear_ps. rewrite Hsz. cbn [mbind option_bind].
  rewrite Hnp0. cbn [mbind option_bind].
  unfold crem, cdiv. destruct (Z.eqb_spec (u0 + 1) 0); [lia|].
  cbn [mbind option_bind]. rewrite Hrem. cbn [Z.eqb assert mbind option_bind].
  rewrite zset_Some by (rewrite length_fmap, length_seqZ; lia).
  cbn [mbind option_bind]. rewrite zero_transform_eq. cbn [mbind option_bind].
  rewrite set_entry_zero by lia. cbn [mbind option_bind].
  rewrite insert_fmap_seqZ by lia.
  match goal with
  | |- context [is_index_partition_complete ?p] =>
      assert (Hip : p = grid N T w np axis (lo pr) (hi pr))
  end.
  { unfold grid. f_equal.
    - by destruct pr.
    - apply fmap_seqZ_ext. intros i Hi.
      transitivity ((fun j : Z => if bool_decide (i = N - 1)
                                  then if bool_decide (j = 0) then out ÷ (u0 + 1) else 0
                                  else 0) <$> seqZ 0 T).
      { by destruct (bool_decide (i = N - 1)). }
      apply fmap_seqZ_ext. intros j Hj. rewrite Htw by done. unfold axis.
      repeat case_bool_decide; simplify_eq; lia.
    - f_equal. apply fmap_seqZ_ext. intros i Hi. rewrite Htw by done.
      by destruct (bool_decide (i = N - 1)). }
  rewrite Hip.
  rewrite (proj2 (is_index_partition_complete_spec _) Hcom).
  cbn [assert mbind option_bind]. rewrite <- Hhi.
  eexists. split; [done|].
  assert (Hcols : mkRect (lo pr) (hi pr) = pr) by (by destruct pr).
  split; [unfold grid; by cbn [ip_parent]|].
  split; [unfold grid; by cbn [ip_colors]|].
  split; [done|].
  intros c c' x Hc Hc' Hsame.
  assert (Hc1 : in_rect (mkRect (lo pr) (hi pr)) c) by (by rewrite Hcols).
  assert (Hc2 : in_rect (mkRect (lo pr) (hi pr)) c') by (by rewrite Hcols).
  apply grid_subspace_cong; try done; try lia.
  intros i a Hi Ha _. unfold axis in Ha.
  destruct (bool_decide (i = N - 1)); [|done]. by injection Ha as <-.
Qed.

(** The replicated region and partition of a linear weight. *)
Lemma linear_replicated_ok (weight : ParallelTensorBase) (pr : Rect) T u0 out :
  1 ≤ num_dims weight → 1 ≤ T → anchored T pr → hi pr !! 0%nat = Some u0 →
  1 ≤ out → Z.rem out (u0 + 1) = 0 →
  product (drop 1 ((fun u => u + 1) <$> hi pr)) * out < 2 ^ 31 →
  ∃ gip,
    linear_replicated (num_dims weight) T weight pr ((fun u => u + 1) <$> hi pr) out
    = Some (mkRect (ZEROES (num_dims weight))
              (<[Z.to_nat (num_dims weight - 1) :=
                   product (drop 1 ((fun u => u + 1) <$> hi pr)) * out - 1]>
                 ((fun d => size d - 1) <$> dims weight)), gip) ∧
    ip_parent gip
    = mkRect (ZEROES (num_dims weight))
        (<[Z.to_nat (num_dims weight - 1) :=
             product (drop 1 ((fun u => u + 1) <$> hi pr)) * out - 1]>
           ((fun d => size d - 1) <$> dims weight)) ∧
    ip_colors gip = pr ∧
    partition_disjoint gip ∧ partition_complete gip.
Proof.
  intros HN HT Hanch Hu0 Hout Hrem Hbound.
  pose proof Hanch as (Hlo & Hlen & Hpos).
  set (N := num_dims weight) in *.
  set (nps := (fun u => u + 1) <$> hi pr) in *.
  set (hi0 := (fun d => size d - 1) <$> dims weight).
  assert (Hnl : Z.of_nat (length nps) = T) by (unfold nps; by rewrite length_fmap).
  assert (Hnps : Forall (Z.le 1) nps).
  { unfold nps. apply Forall_fmap. eapply Forall_impl; [exact Hpos|].
    intros u Hu. simpl. lia. }
  assert (Hh0 : Z.of_nat (length hi0) = N) by (unfold hi0; by rewrite length_fmap).
  assert (Hu0pos : 0 ≤ u0).
  { rewrite Forall_forall in Hpos. apply Hpos. by eapply list_elem_of_lookup_2. }
  assert (Hn0 : nps !! 0%nat = Some (u0 + 1)).
  { unfold nps. rewrite list_lookup_fmap. unfold Point in *. by rewrite Hu0. }
  assert (Hsplit : nps = (u0 + 1) :: drop 1 nps).
  { destruct nps as [|n r]; [done|]. simpl in Hn0. injection Hn0 as ->.
    simpl. by rewrite drop_0. }
  pose proof (product_pos (drop 1 nps) (Forall_drop _ _ _ Hnps)) as Hnbpos.
  set (nb := product (drop 1 nps)) in *.
  set (qc := out ÷ (u0 + 1)).
  assert (Hqc : out = qc * (u0 + 1)).
  { pose proof (Z.quot_rem' out (u0 + 1)) as Hq. rewrite Hrem in Hq. unfold qc. lia. }
  assert (Hqpos : 1 ≤ qc) by nia.
  pose proof (size_hi_eq weight) as Hsz. fold N hi0 in Hsz.
  unfold linear_replicated. rewrite Hsz.
  cbn [mbind option_bind].
  rewrite (num_batches_loop nps T HT Hnl Hnps) by (fold nb; nia).
  cbn [mbind option_bind]. fold nb.
  unfold int_mul at 1.
  destruct (Z.leb_spec (- 2 ^ 31) (nb * out)); [|nia].
  destruct (Z.ltb_spec (nb * out) (2 ^ 31)); [|lia].
  cbn [andb mbind option_bind].
  rewrite zset_Some by lia. cbn [mbind option_bind].
  assert (Hz0 : zget nps 0 = Some (u0 + 1)) by (by apply zget_Some).
  rewrite Hz0. cbn [mbind option_bind].
  unfold cdiv. destruct (Z.eqb_spec (u0 + 1) 0); [lia|]. cbn [mbind option_bind].
  fold qc.
  rewrite zset_Some by (rewrite length_insert; lia). cbn [mbind option_bind].
  rewrite list_insert_insert_eq.
  rewrite zero_transform_eq. cbn [mbind option_bind].
  rewrite (set_entry_zero N T (N - 1) 0 qc) by lia. cbn [mbind option_bind].
  rewrite (transform_loop N T qc nps HN HT Hnl).
  cbn [mbind option_bind].
  set (ph := <[Z.to_nat (N - 1) := nb * out - 1]> hi0).
  set (eh := <[Z.to_nat (N - 1) := qc - 1]> hi0).
  set (t := (fun i => if bool_decide (i = N - 1) then radix_row qc nps
                      else replicate (Z.to_nat T) 0) <$> seqZ 0 N).
  assert (Hshape : mkIndexPartition (mkRect (ZEROES N) ph) pr t (mkRect (ZEROES N) eh)
                   = mkIndexPartition
                       (mkRect (replicate (S (Z.to_nat (N - 1))) 0) ph)
                       (mkRect (replicate (Z.to_nat T) 0) (hi pr)) t
                       (mkRect (replicate (S (Z.to_nat (N - 1))) 0) eh)).
  { unfold ZEROES. replace (S (Z.to_nat (N - 1))) with (Z.to_nat N) by lia.
    f_equal. destruct pr as [l h]. simpl in *. by rewrite Hlo. }
  assert (Hrows : ∀ (i : nat) row, t !! i = Some row →
            if decide (i = Z.to_nat (N - 1)) then row = radix_row qc nps
            else row = replicate (Z.to_nat T) 0).
  { intros i row Hr. unfold t in Hr. apply lookup_fmap_seqZ_Some in Hr as [Hi ->].
    destruct (decide (i = Z.to_nat (N - 1))) as [->|Hne].
    - rewrite bool_decide_eq_true_2 by lia. done.
    - rewrite bool_decide_eq_false_2 by lia. done. }
  assert (Hdis : partition_disjoint
                   (mkIndexPartition (mkRect (ZEROES N) ph) pr t (mkRect (ZEROES N) eh))).
  { rewrite Hshape.
    apply (radix_disjoint (Z.to_nat (N - 1)) (Z.to_nat T) ph eh (hi pr) qc t).
    - unfold ph. rewrite length_insert. lia.
    - unfold eh. rewrite length_insert. lia.
    - lia.
    - unfold t. rewrite length_fmap, length_seqZ. lia.
    - done.
    - done.
    - exact Hrows.
    - intros i Hi. unfold eh, ph. by rewrite !list_lookup_insert_ne by lia.
    - unfold eh. apply list_lookup_insert_eq. lia.
    - unfold ph. fold nps. rewrite Hsplit. unfold product. simpl. fold (product (drop 1 nps)).
      fold nb. replace (qc * ((u0 + 1) * nb) - 1) with (nb * out - 1) by nia.
      apply list_lookup_insert_eq. lia. }
  assert (Hcom : partition_complete
                   (mkIndexPartition (mkRect (ZEROES N) ph) pr t (mkRect (ZEROES N) eh))).
  { rewrite Hshape.
    apply (radix_complete (Z.to_nat (N - 1)) (Z.to_nat T) ph eh (hi pr) qc t).
    - unfold ph. rewrite length_insert. lia.
    - unfold eh. rewrite length_insert. lia.
    - lia.
    - unfold t. rewrite length_fmap, length_seqZ. lia.
    - done.
    - done.
    - exact Hrows.
    - intros i Hi. unfold eh, ph. by rewrite !list_lookup_insert_ne by lia.
    - unfold eh. apply list_lookup_insert_eq. lia.
    - unfold ph. fold nps. rewrite Hsplit. unfold product. simpl. fold (product (drop 1 nps)).
      fold nb. replace (qc * ((u0 + 1) * nb) - 1) with (nb * out - 1) by nia.
      apply list_lookup_insert_eq. lia. }
  rewrite (proj2 (is_index_partition_complete_spec _) Hcom).
  rewrite (proj2 (is_index_partition_disjoint_spec _) Hdis).
  cbn [assert mbind option_bind].
  eexists. split; [done|]. cbn [ip_parent ip_colors]. done.
Qed.

(** The replicated region and partition of a convolution weight. *)
Lemma conv_replicated_ok (weight : ParallelTensorBase) uw uh un out :
  1 ≤ num_dims weight → 0 ≤ uw → 0 ≤ uh → 0 ≤ un → 1 ≤ out →
  (un + 1) * (uh + 1) * (uw + 1) * out < 2 ^ 31 →
  ∃ gip,
    conv_replicated (num_dims weight) weight (mkRect [0; 0; 0; 0] [uw; uh; 0; un])
      (un + 1) 1 (uh + 1) (uw + 1) out
    = Some (mkRect (ZEROES (num_dims weight))
              (<[Z.to_nat (num_dims weight - 1) :=
                   (un + 1) * (uh + 1) * (uw + 1) * out - 1]>
                 ((fun d => size d - 1) <$> dims weight)), gip) ∧
    ip_parent gip
    = mkRect (ZEROES (num_dims weight))
        (<[Z.to_nat (num_dims weight - 1) :=
             (un + 1) * (uh + 1) * (uw + 1) * out - 1]>
           ((fun d => size d - 1) <$> dims weight)) ∧
    ip_colors gip = mkRect [0; 0; 0; 0] [uw; uh; 0; un] ∧
    partition_disjoint gip ∧ partition_complete gip.
Proof.
  intros HN Huw Huh Hun Hout Hbound.
  set (N := num_dims weight) in *.
  set (hi0 := (fun d => size d - 1) <$> dims weight).
  assert (Hh0 : Z.of_nat (length hi0) = N) by (unfold hi0; by rewrite length_fmap).
  assert (Hm : ∀ a b, 0 ≤ a → 0 ≤ b → a * b < 2 ^ 31 → int_mul a b = Some (a * b)).
  { intros a b Ha Hb Hab. unfold int_mul.
    destruct (Z.leb_spec (- 2 ^ 31) (a * b)); [|nia].
    by destruct (Z.ltb_spec (a * b) (2 ^ 31)); [|lia]. }
  assert (B1 : 1 ≤ (un + 1) * (uh + 1)) by nia.
  assert (B2 : 1 ≤ (un + 1) * (uh + 1) * (uw + 1)) by nia.
  assert (B3 : (un + 1) * (uh + 1) * (uw + 1) ≤ (un + 1) * (uh + 1) * (uw + 1) * out) by nia.
  assert (B4 : (un + 1) * (uh + 1) ≤ (un + 1) * (uh + 1) * (uw + 1)) by nia.
  assert (B5 : out * (uw + 1) * (uh + 1) ≤ (un + 1) * (uh + 1) * (uw + 1) * out) by nia.
  assert (B6 : 1 ≤ out * (uw + 1)) by nia.
  assert (B7 : out * (uw + 1) ≤ out * (uw + 1) * (uh + 1)) by nia.
  pose proof (size_hi_eq weight) as Hsz. fold N hi0 in Hsz.
  unfold conv_replicated. rewrite Hsz. cbn [mbind option_bind].
  rewrite (Hm (un + 1) (uh + 1)) by lia. cbn [mbind option_bind].
  rewrite (Hm ((un + 1) * (uh + 1)) (uw + 1)) by lia. cbn [mbind option_bind].
  rewrite (Hm ((un + 1) * (uh + 1) * (uw + 1)) out) by lia. cbn [mbind option_bind].
  rewrite zset_Some by lia. cbn [mbind option_bind].
  rewrite zset_Some by (rewrite length_insert; lia). cbn [mbind option_bind].
  rewrite list_insert_insert_eq.
  rewrite zero_transform_eq. cbn [mbind option_bind].
  assert (Hz : (fun _ : Z => (fun _ : Z => 0) <$> seqZ 0 4) <$> seqZ 0 N
               = (fun i => if bool_decide (i = N - 1) then [0; 0; 0; 0]
                           else [0; 0; 0; 0]) <$> seqZ 0 N).
  { apply fmap_seqZ_ext. intros i Hi. by destruct (bool_decide (i = N - 1)). }
  rewrite Hz.
  rewrite set_entry_row by (simpl; lia). cbn [mbind option_bind].
  rewrite (Hm out (uw + 1)) by lia. cbn [mbind option_bind].
  rewrite set_entry_row by (simpl; lia). cbn [mbind option_bind].
  rewrite (Hm (out * (uw + 1)) (uh + 1)) by lia. cbn [mbind option_bind].
  rewrite set_entry_row by (simpl; lia). cbn [mbind option_bind].
  rewrite (Hm (out * (uw + 1) * (uh + 1)) 1) by lia. cbn [mbind option_bind].
  rewrite set_entry_row by (simpl; lia). cbn [mbind option_bind].
  set (ph := <[Z.to_nat (N - 1) := (un + 1) * (uh + 1) * (uw + 1) * out - 1]> hi0).
  set (eh := <[Z.to_nat (N - 1) := out - 1]> hi0).
  match goal with
  | |- context [mkIndexPartition _ _ ?tr _] => set (t := tr)
  end.
  set (pr := mkRect [0; 0; 0; 0] [uw; uh; 0; un]).
  assert (Hshape : mkIndexPartition (mkRect (ZEROES N) ph) pr t (mkRect (ZEROES N) eh)
                   = mkIndexPartition
                       (mkRect (replicate (S (Z.to_nat (N - 1))) 0) ph)
                       (mkRect (replicate 4 0) [uw; uh; 0; un]) t
                       (mkRect (replicate (S (Z.to_nat (N - 1))) 0) eh)).
  { unfold ZEROES. by replace (S (Z.to_nat (N - 1))) with (Z.to_nat N) by lia. }
  assert (Hrows : ∀ (i : nat) row, t !! i = Some row →
            if decide (i = Z.to_nat (N - 1))
            then row = radix_row out ((fun u => u + 1) <$> [uw; uh; 0; un])
            else row = replicate 4 0).
  { intros i row Hr. unfold t in Hr. apply lookup_fmap_seqZ_Some in Hr as [Hi ->].
    destruct (decide (i = Z.to_nat (N - 1))) as [->|Hne].
    - rewrite bool_decide_eq_true_2 by lia. done.
    - rewrite bool_decide_eq_false_2 by lia. done. }
  assert (Hlp : ph !! Z.to_nat (N - 1)
                = Some (out * product ((fun u => u + 1) <$> [uw; uh; 0; un]) - 1)).
  { assert (Hv : out * product ((fun u => u + 1) <$> [uw; uh; 0; un]) - 1
                  = (un + 1) * (uh + 1) * (uw + 1) * out - 1)
      by (unfold product; simpl; lia).
    rewrite Hv. unfold ph. apply list_lookup_insert_eq. lia. }
  assert (Hdis : partition_disjoint
                   (mkIndexPartition (mkRect (ZEROES N) ph) pr t (mkRect (ZEROES N) eh))).
  { rewrite Hshape.
    apply (radix_disjoint (Z.to_nat (N - 1)) 4 ph eh [uw; uh; 0; un] out t).
    - unfold ph. rewrite length_insert. lia.
    - unfold eh. rewrite length_insert. lia.
    - done.
    - unfold t. rewrite length_fmap, length_seqZ. lia.
    - done.
    - repeat constructor; lia.
    - exact Hrows.
    - intros i Hi. unfold eh, ph. by rewrite !list_lookup_insert_ne by lia.
    - unfold eh. apply list_lookup_insert_eq. lia.
    - exact Hlp. }
  assert (Hcom : partition_complete
                   (mkIndexPartition (mkRect (ZEROES N) ph) pr t (mkRect (ZEROES N) eh))).
  { rewrite Hshape.
    apply (radix_complete (Z.to_nat (N - 1)) 4 ph eh [uw; uh; 0; un] out t).
    - unfold ph. rewrite length_insert. lia.
    - unfold eh. rewrite length_insert. lia.
    - done.
    - unfold t. rewrite length_fmap, length_seqZ. lia.
    - done.
    - repeat constructor; lia.
    - exact Hrows.
    - intros i Hi. unfold eh, ph. by rewrite !list_lookup_insert_ne by lia.
    - unfold eh. apply list_lookup_insert_eq. lia.
    - exact Hlp. }
  rewrite (proj2 (is_index_partition_complete_spec _) Hcom).
  rewrite (proj2 (is_index_partition_disjoint_spec _) Hdis).
  cbn [assert mbind option_bind].
  eexists. split; [done|]. cbn [ip_parent ip_colors]. done.
Qed.

(** On a convolution or batch normalisation operator whose weight is
    synchronised through a parameter server, [map_weight] gives every point
    of the task space the whole weight: the subregion of every colour is
    the entire region [[0, size - 1]]. The task space must have four axes,
    the third of them a single point. *)
Theorem map_conv_weight_replicates LMD training weight info o op :
  wo_type op = OP_CONV2D ∨ wo_type op = OP_BATCHNORM →
  owner_op weight = Some o →
  1 ≤ num_dims weight ≤ LMD →
  is_Some (weight_field_size (data_type weight)) →
  sync_type info = PS → has_initializer info = true →
  create_gradients weight && training = false →
  length (lo (wo_parallel_is op)) = 4%nat →
  Forall2 Z.le (lo (wo_parallel_is op)) (hi (wo_parallel_is op)) →
  lo (wo_parallel_is op) !! 2%nat = hi (wo_parallel_is op) !! 2%nat →
  ∃ m,
    map_weight LMD training weight info (Some o) (Some op) = Some m ∧
    mw_owner_op m = Some o ∧ mw_owner_idx m = owner_idx weight ∧
    mw_rect m = mkRect (ZEROES (num_dims weight)) ((fun d => size d - 1) <$> dims weight) ∧
    mw_grad m = None ∧
    ip_parent (mw_part m) = mw_rect m ∧ ip_colors (mw_part m) = wo_parallel_is op ∧
    partition_complete (mw_part m) ∧
    ∀ c x, subspace (mw_part m) c x ↔ in_rect (mw_rect m) x.
Proof.
  intros Hty Hown Hnd [fs Hfs] Hsync Hinit Hgrad Hlen Hle Hc.
  pose proof (Forall2_length _ _ _ Hle) as Hlen2. rewrite Hlen in Hlen2.
  destruct (conv_ps_ok weight (wo_parallel_is op)) as (ip & Hps & Hpar & Hcol & Hcom & Hsub);
    [lia|done|].
  unfold map_weight.
  destruct (Z.leb_spec 1 (num_dims weight)); [|lia].
  destruct (Z.leb_spec (num_dims weight) LMD); [|lia]. cbn [andb].
  unfold map_weight_with_dim. rewrite Hown.
  rewrite bool_decide_eq_true_2 by done. cbn [assert mbind option_bind].
  rewrite bool_decide_eq_true_2 by done. cbn [assert mbind option_bind].
  assert (Hconv :
    map_conv_weight (num_dims weight) training weight info op
    = Some (mkRect (ZEROES (num_dims weight)) ((fun d => size d - 1) <$> dims weight),
            ip, None)).
  { unfold map_conv_weight. rewrite Hsync, Hps.
    destruct (wo_parallel_is op) as [plo phi]. simpl in *.
    destruct plo as [|l0 [|l1 [|l2 [|l3 [|]]]]]; simpl in Hlen; try lia.
    destruct phi as [|h0 [|h1 [|h2 [|h3 [|]]]]]; simpl in Hlen2; try lia.
    simpl in Hc. injection Hc as ->.
    change (zget [h0; h1; h2; h3] 3) with (Some h3).
    change (zget [l0; l1; h2; l3] 3) with (Some l3).
    change (zget [h0; h1; h2; h3] 2) with (Some h2).
    change (zget [l0; l1; h2; l3] 2) with (Some h2).
    change (zget [h0; h1; h2; h3] 1) with (Some h1).
    change (zget [l0; l1; h2; l3] 1) with (Some l1).
    change (zget [h0; h1; h2; h3] 0) with (Some h0).
    change (zget [l0; l1; h2; l3] 0) with (Some l0).
    cbn [mbind option_bind].
    replace (h2 - h2 + 1 =? 1) with true by (symmetry; apply Z.eqb_eq; lia).
    cbn [assert mbind option_bind]. rewrite Hfs. cbn [mbind option_bind].
    destruct (lookup_lt_is_Some_2 (dims weight) (Z.to_nat (num_dims weight - 1)))
      as [d Hd]; [unfold num_dims in *; lia|].
    assert (Hz : zget (dims weight) (num_dims weight - 1) = Some d)
      by (apply zget_Some; split; [lia|done]).
    rewrite Hz. cbn [mbind option_bind].
    rewrite Hinit. cbn [assert mbind option_bind]. by rewrite Hgrad. }
  destruct Hty as [Hty|Hty]; rewrite Hty, Hconv; cbn [mbind option_bind];
    (eexists; split; [done|]; simpl; done).
Qed.

(** On a linear operator whose weight is synchronised through a parameter
    server, [map_weight] cuts the last dimension of the weight (the output
    channels) into as many equal parts as the first task axis has points
    and leaves the other dimensions whole; the partition is complete, and
    two points of the task space that agree on the first axis get the same
    subregion. The channel count must be a multiple of the number of
    parts. *)
Theorem map_linear_weight_replicates LMD training weight info o op u0 :
  wo_type op = OP_LINEAR →
  owner_op weight = Some o →
  1 ≤ num_dims weight ≤ LMD →
  1 ≤ wo_output_num_dims op ≤ LMD →
  is_Some (weight_field_size (data_type weight)) →
  Forall (fun d => 1 ≤ size d) (dims weight) →
  sync_type info = PS → has_initializer info = true →
  create_gradients weight && training = false →
  Z.of_nat (length (lo (wo_parallel_is op))) = wo_output_num_dims op →
  Forall2 Z.le (lo (wo_parallel_is op)) (hi (wo_parallel_is op)) →
  lo (wo_parallel_is op) !! 0%nat = Some 0 →
  hi (wo_parallel_is op) !! 0%nat = Some u0 →
  (∀ d, last (dims weight) = Some d → Z.rem (size d) (u0 + 1) = 0) →
  ∃ m,
    map_weight LMD training weight info (Some o) (Some op) = Some m ∧
    mw_owner_op m = Some o ∧ mw_owner_idx m = owner_idx weight ∧
    mw_rect m = mkRect (ZEROES (num_dims weight)) ((fun d => size d - 1) <$> dims weight) ∧
    mw_grad m = None ∧
    ip_parent (mw_part m) = mw_rect m ∧ ip_colors (mw_part m) = wo_parallel_is op ∧
    partition_complete (mw_part m) ∧
    ∀ (c c' x : list Z),
      in_rect (wo_parallel_is op) c → in_rect (wo_parallel_is op) c' →
      c !! 0%nat = c' !! 0%nat →
      subspace (mw_part m) c x → subspace (mw_part m) c' x.
Proof.
  intros Hty Hown Hnd HT [fs Hfs] Hsizes Hsync Hinit Hgrad Hlen Hle Hl0 Hu0 Hdiv.
  pose proof (Forall2_length _ _ _ Hle) as Hlen2.
  destruct (last (dims weight)) as [d|] eqn:Hlast.
  2: { apply last_None in Hlast. unfold num_dims in Hnd. rewrite Hlast in Hnd.
       simpl in Hnd. lia. }
  assert (Hnp0 : zget (axis_points (wo_parallel_is op)) 0 = Some (u0 + 1)).
  { apply zget_Some. split; [done|]. unfold axis_points.
    change (Z.to_nat 0) with 0%nat. unfold Point in *.
    rewrite lookup_zip_with, Hu0, Hl0. simpl. f_equal. lia. }
  destruct (linear_ps_ok weight (wo_parallel_is op) (wo_output_num_dims op) u0
              (axis_points (wo_parallel_is op)) d) as (ip & Hps & Hpar & Hcol & Hcom & Hcong);
    try done; try lia.
  { by apply Hdiv. }
  unfold map_weight.
  destruct (Z.leb_spec 1 (num_dims weight)); [|lia].
  destruct (Z.leb_spec (num_dims weight) LMD); [|lia]. cbn [andb].
  unfold map_weight_with_dim. rewrite Hown.
  rewrite bool_decide_eq_true_2 by done. cbn [assert mbind option_bind].
  rewrite bool_decide_eq_true_2 by done. cbn [assert mbind option_bind].
  rewrite Hty.
  destruct (Z.leb_spec 1 (wo_output_num_dims op)); [|lia].
  destruct (Z.leb_spec (wo_output_num_dims op) LMD); [|lia]. cbn [andb].
  unfold map_linear_weight. rewrite Hty.
  rewrite bool_decide_eq_true_2 by done. cbn [assert mbind option_bind].
  rewrite num_parts_of_eq by done. cbn [mbind option_bind].
  rewrite Hfs. cbn [mbind option_bind].
  pose proof (last_zget _ _ Hlast) as Hzl. fold (num_dims weight) in Hzl.
  rewrite Hzl. cbn [mbind option_bind].
  rewrite Hsync, Hps. cbn [mbind option_bind].
  rewrite Hinit. cbn [assert mbind option_bind]. rewrite Hgrad.
  cbn [mbind option_bind].
  eexists. split; [done|].
  cbn [mw_owner_op mw_owner_idx mw_rect mw_grad mw_part fst snd].
  done.
Qed.

(** In training mode [map_weight] gives the weight of a linear operator
    that needs a gradient a gradient region of its own, whatever the
    synchronisation: the last dimension holds one copy of the output
    channels for every point of the task axes after the first, and the
    partition gives every point of the task space its own part of it, so
    that it is disjoint and complete. With NCCL the weight itself gets the
    same region and partition. The task space must start at the origin,
    the channel count must be a multiple of the number of points of the
    first axis, and the size of the last dimension must fit an [int]. *)
Theorem map_linear_weight_gradient LMD weight info o op u0 d :
  wo_type op = OP_LINEAR →
  owner_op weight = Some o →
  1 ≤ num_dims weight ≤ LMD →
  1 ≤ wo_output_num_dims op ≤ LMD →
  is_Some (weight_field_size (data_type weight)) →
  Forall (fun d => 1 ≤ size d) (dims weight) →
  sync_type info = PS ∨ sync_type info = NCCL →
  has_initializer info = true →
  create_gradients weight = true →
  anchored (wo_output_num_dims op) (wo_parallel_is op) →
  hi (wo_parallel_is op) !! 0%nat = Some u0 →
  last (dims weight) = Some d →
  Z.rem (size d) (u0 + 1) = 0 →
  product (drop 1 (axis_points (wo_parallel_is op))) * size d < 2 ^ 31 →
  ∃ m grect gpart,
    map_weight LMD true weight info (Some o) (Some op) = Some m ∧
    mw_grad m = Some (grect, gpart) ∧
    grect = mkRect (ZEROES (num_dims weight))
              (<[Z.to_nat (num_dims weight - 1) :=
                   product (drop 1 (axis_points (wo_parallel_is op))) * size d - 1]>
                 ((fun d => size d - 1) <$> dims weight)) ∧
    ip_parent gpart = grect ∧ ip_colors gpart = wo_parallel_is op ∧
    partition_disjoint gpart ∧ partition_complete gpart ∧
    (sync_type info = NCCL → mw_rect m = grect ∧ mw_part m = gpart).
Proof.
  intros Hty Hown Hnd HT [fs Hfs] Hsizes Hsync Hinit Hcg Hanch Hu0 Hlast Hrem Hbound.
  destruct (anchored_facts _ _ (proj1 HT) Hanch) as (Hlen & Hle & Hl0).
  pose proof (Forall2_length _ _ _ Hle) as Hlen2.
  pose proof (axis_points_anchored _ _ Hanch) as Hap.
  assert (Hd1 : 1 ≤ size d).
  { rewrite Forall_forall in Hsizes. apply Hsizes.
    rewrite last_lookup in Hlast. by eapply list_elem_of_lookup_2. }
  destruct (linear_replicated_ok weight (wo_parallel_is op) (wo_output_num_dims op)
              u0 (size d)) as (gip & Hrep & Hgpar & Hgcol & Hgdis & Hgcom);
    try done; try lia.
  { by rewrite <- Hap. }
  rewrite <- Hap in Hrep, Hgpar.
  unfold map_weight.
  destruct (Z.leb_spec 1 (num_dims weight)); [|lia].
  destruct (Z.leb_spec (num_dims weight) LMD); [|lia]. cbn [andb].
  unfold map_weight_with_dim. rewrite Hown.
  rewrite bool_decide_eq_true_2 by done. cbn [assert mbind option_bind].
  rewrite bool_decide_eq_true_2 by done. cbn [assert mbind option_bind].
  rewrite Hty.
  destruct (Z.leb_spec 1 (wo_output_num_dims op)); [|lia].
  destruct (Z.leb_spec (wo_output_num_dims op) LMD); [|lia]. cbn [andb].
  unfold map_linear_weight. rewrite Hty.
  rewrite bool_decide_eq_true_2 by done. cbn [assert mbind option_bind].
  rewrite num_parts_of_eq by done. cbn [mbind option_bind].
  rewrite Hfs. cbn [mbind option_bind].
  pose proof (last_zget _ _ Hlast) as Hzl. fold (num_dims weight) in Hzl.
  rewrite Hzl. cbn [mbind option_bind]. rewrite Hcg. cbn [andb].
  destruct Hsync as [Hsync|Hsync]; rewrite Hsync.
  - assert (Hnp0 : zget (axis_points (wo_parallel_is op)) 0 = Some (u0 + 1)).
    { apply zget_Some. split; [done|]. unfold axis_points.
      change (Z.to_nat 0) with 0%nat. unfold Point in *.
      rewrite lookup_zip_with, Hu0, Hl0. simpl. f_equal. lia. }
    destruct (linear_ps_ok weight (wo_parallel_is op) (wo_output_num_dims op) u0
                (axis_points (wo_parallel_is op)) d)
      as (ip & Hps & _); try done; try lia.
    rewrite Hps. cbn [mbind option_bind].
    rewrite Hinit. cbn [assert mbind option_bind].
    rewrite Hrep. cbn [mbind option_bind].
    eexists _, _, _. split; [done|]. cbn [mw_grad mw_rect mw_part fst snd].
    split; [done|]. split; [done|]. split; [done|]. split; [done|].
    split; [done|]. split; [done|]. done.
  - rewrite Hrep. cbn [mbind option_bind].
    rewrite Hinit. cbn [assert mbind option_bind].
    eexists _, _, _. split; [done|]. cbn [mw_grad mw_rect mw_part fst snd].
    split; [done|]. split; [done|]. split; [done|]. split; [done|].
    split; [done|]. split; [done|]. done.
Qed.

(** In training mode [map_weight] gives the weight of a convolution or
    batch normalisation operator that needs a gradient a gradient region
    of its own, whatever the synchronisation: the last dimension holds one
    copy of the output channels for every point of the task space, and the
    partition gives every point its own copy, so that it is disjoint and
    complete. With NCCL the weight itself gets the same region and
    partition. The task space must have four axes, start at the origin
    and have a single point on the third axis, and the size of the last
    dimension must fit an [int]. *)
Theorem map_conv_weight_gradient LMD weight info o op d :
  wo_type op = OP_CONV2D ∨ wo_type op = OP_BATCHNORM →
  owner_op weight = Some o →
  1 ≤ num_dims weight ≤ LMD →
  is_Some (weight_field_size (data_type weight)) →
  sync_type info = PS ∨ sync_type info = NCCL →
  has_initializer info = true →
  create_gradients weight = true →
  anchored 4 (wo_parallel_is op) →
  hi (wo_parallel_is op) !! 2%nat = Some 0 →
  last (dims weight) = Some d → 1 ≤ size d →
  product (axis_points (wo_parallel_is op)) * size d < 2 ^ 31 →
  ∃ m grect gpart,
    map_weight LMD true weight info (Some o) (Some op) = Some m ∧
    mw_grad m = Some (grect, gpart) ∧
    grect = mkRect (ZEROES (num_dims weight))
              (<[Z.to_nat (num_dims weight - 1) :=
                   product (axis_points (wo_parallel_is op)) * size d - 1]>
                 ((fun d => size d - 1) <$> dims weight)) ∧
    ip_parent gpart = grect ∧ ip_colors gpart = wo_parallel_is op ∧
    partition_disjoint gpart ∧ partition_complete gpart ∧
    (sync_type info = NCCL → mw_rect m = grect ∧ mw_part m = gpart).
Proof.
  intros Hty Hown Hnd [fs Hfs] Hsync Hinit Hcg Hanch Hc Hlast Hd1 Hbound.
  destruct (anchored_four _ Hanch Hc) as (uw & uh & un & Hpr & Huw & Huh & Hun).
  assert (Hprod : product (axis_points (wo_parallel_is op))
                  = (un + 1) * (uh + 1) * (uw + 1)).
  { rewrite Hpr. unfold product, axis_points. simpl. lia. }
  rewrite Hprod in Hbound |- *.
  destruct (conv_replicated_ok weight uw uh un (size d))
    as (gip & Hrep & Hgpar & Hgcol & Hgdis & Hgcom); try done; try lia.
  destruct (conv_ps_ok weight (wo_parallel_is op)) as (ip & Hps & _).
  { lia. }
  { rewrite Hpr. simpl. repeat constructor; lia. }
  unfold map_weight.
  destruct (Z.leb_spec 1 (num_dims weight)); [|lia].
  destruct (Z.leb_spec (num_dims weight) LMD); [|lia]. cbn [andb].
  unfold map_weight_with_dim. rewrite Hown.
  rewrite bool_decide_eq_true_2 by done. cbn [assert mbind option_bind].
  rewrite bool_decide_eq_true_2 by done. cbn [assert mbind option_bind].
  pose proof (last_zget _ _ Hlast) as Hzl. fold (num_dims weight) in Hzl.
  assert (Hconv : ∃ rect ip',
    map_conv_weight (num_dims weight) true weight info op
    = Some (rect, ip', Some (mkRect (ZEROES (num_dims weight))
              (<[Z.to_nat (num_dims weight - 1) :=
                   (un + 1) * (uh + 1) * (uw + 1) * size d - 1]>
                 ((fun d => size d - 1) <$> dims weight)), gip)) ∧
    (sync_type info = NCCL →
     rect = mkRect (ZEROES (num_dims weight))
              (<[Z.to_nat (num_dims weight - 1) :=
                   (un + 1) * (uh + 1) * (uw + 1) * size d - 1]>
                 ((fun d => size d - 1) <$> dims weight)) ∧ ip' = gip)).
  { unfold map_conv_weight. rewrite Hps. rewrite Hpr. cbn [hi lo].
    change (zget [uw; uh; 0; un] 3) with (Some un).
    change (zget [uw; uh; 0; un] 2) with (Some 0).
    change (zget [uw; uh; 0; un] 1) with (Some uh).
    change (zget [uw; uh; 0; un] 0) with (Some uw).
    change (zget [0; 0; 0; 0] 3) with (Some 0).
    change (zget [0; 0; 0; 0] 2) with (Some 0).
    change (zget [0; 0; 0; 0] 1) with (Some 0).
    change (zget [0; 0; 0; 0] 0) with (Some 0).
    cbn [mbind option_bind].
    change (0 - 0 + 1) with 1. change (1 =? 1) with true.
    replace (un - 0 + 1) with (un + 1) by lia.
    replace (uh - 0 + 1) with (uh + 1) by lia.
    replace (uw - 0 + 1) with (uw + 1) by lia.
    cbn [assert mbind option_bind]. rewrite Hfs. cbn [mbind option_bind].
    rewrite Hzl. cbn [mbind option_bind]. rewrite Hcg. cbn [andb].
    rewrite Hrep.
    destruct Hsync as [Hsync|Hsync]; rewrite Hsync; cbn [assert mbind option_bind];
      rewrite Hinit; cbn [assert mbind option_bind]; eexists _, _; split; done. }
  destruct Hconv as (rect & ip' & Hconv & Hnccl).
  destruct Hty as [Hty|Hty]; rewrite Hty, Hconv; cbn [mbind option_bind];
    (eexists _, _, _; split; [done|]; cbn [mw_grad mw_rect mw_part fst snd];
     split; [done|]; split; [done|]; split; [done|]; split; [by rewrite Hgcol|];
     split; [done|]; split; [done|]; done).
Qed.

Lemma map_conv_weight_replicates_witness :
  ∃ m,
    map_weight 5 false Scenarios.S6_tensor (mkWeightInfo PS true) (Some 1%N)
      (Some (mkWeightOp OP_CONV2D (mkRect [0; 0; 0; 0] [1; 1; 0; 3]) 4)) = Some m ∧
    mw_owner_op m = Some 1%N ∧ mw_owner_idx m = 0 ∧
    mw_rect m = mkRect [0; 0] [15; 7] ∧
    mw_grad m = None ∧
    ip_parent (mw_part m) = mw_rect m ∧
    ip_colors (mw_part m) = mkRect [0; 0; 0; 0] [1; 1; 0; 3] ∧
    partition_complete (mw_part m) ∧
    ∀ c x, subspace (mw_part m) c x ↔ in_rect (mw_rect m) x.
Proof.
  apply (map_conv_weight_replicates 5 false Scenarios.S6_tensor (mkWeightInfo PS true)
           1%N (mkWeightOp OP_CONV2D (mkRect [0; 0; 0; 0] [1; 1; 0; 3]) 4)).
  - by left.
  - reflexivity.
  - split; apply Z.leb_le; reflexivity.
  - by exists 4.
  - reflexivity.
  - reflexivity.
  - reflexivity.
  - reflexivity.
  - simpl. repeat constructor; lia.
  - reflexivity.
Defined.

Lemma map_linear_weight_replicates_witness :
  ∃ m,
    map_weight 5 false Scenarios.S6_tensor (mkWeightInfo PS true) (Some 1%N)
      (Some (mkWeightOp OP_LINEAR Scenarios.S6_task_space 2)) = Some m ∧
    mw_owner_op m = Some 1%N ∧ mw_owner_idx m = 0 ∧
    mw_rect m = mkRect [0; 0] [15; 7] ∧
    mw_grad m = None ∧
    ip_parent (mw_part m) = mw_rect m ∧
    ip_colors (mw_part m) = Scenarios.S6_task_space ∧
    partition_complete (mw_part m) ∧
    ∀ (c c' x : list Z),
      in_rect Scenarios.S6_task_space c → in_rect Scenarios.S6_task_space c' →
      c !! 0%nat = c' !! 0%nat →
      subspace (mw_part m) c x → subspace (mw_part m) c' x.
Proof.
  apply (map_linear_weight_replicates 5 false Scenarios.S6_tensor (mkWeightInfo PS true)
           1%N (mkWeightOp OP_LINEAR Scenarios.S6_task_space 2) 3).
  - reflexivity.
  - reflexivity.
  - split; apply Z.leb_le; reflexivity.
  - split; apply Z.leb_le; reflexivity.
  - by exists 4.
  - simpl. repeat constructor; simpl; lia.
  - reflexivity.
  - reflexivity.
  - reflexivity.
  - reflexivity.
  - simpl. repeat constructor; lia.
  - reflexivity.
  - reflexivity.
  - intros d Hd. simpl in Hd. injection Hd as <-. reflexivity.
Defined.

Lemma S6_anchored_task : anchored 2 Scenarios.S6_task_space.
Proof. split; [reflexivity|]. split; [reflexivity|]. repeat constructor; lia. Qed.

Lemma map_linear_weight_gradient_witness :
  ∃ m grect gpart,
    map_weight 5 true Scenarios.S6_tensor (mkWeightInfo NCCL true) (Some 1%N)
      (Some (mkWeightOp OP_LINEAR Scenarios.S6_task_space 2)) = Some m ∧
    mw_grad m = Some (grect, gpart) ∧
    grect = mkRect (ZEROES (num_dims Scenarios.S6_tensor))
              (<[Z.to_nat (num_dims Scenarios.S6_tensor - 1) :=
                   product (drop 1 (axis_points Scenarios.S6_task_space))
                   * size (mkParallelDim 8 2 1 false) - 1]>
                 ((fun d => size d - 1) <$> dims Scenarios.S6_tensor)) ∧
    ip_parent gpart = grect ∧ ip_colors gpart = Scenarios.S6_task_space ∧
    partition_disjoint gpart ∧ partition_complete gpart ∧
    (sync_type (mkWeightInfo NCCL true) = NCCL → mw_rect m = grect ∧ mw_part m = gpart).
Proof.
  apply (map_linear_weight_gradient 5 Scenarios.S6_tensor (mkWeightInfo NCCL true)
           1%N (mkWeightOp OP_LINEAR Scenarios.S6_task_space 2) 3
           (mkParallelDim 8 2 1 false)).
  - reflexivity.
  - reflexivity.
  - split; apply Z.leb_le; reflexivity.
  - simpl. lia.
  - by exists 4.
  - simpl. repeat constructor; simpl; lia.
  - by right.
  - reflexivity.
  - reflexivity.
  - exact S6_anchored_task.
  - reflexivity.
  - reflexivity.
  - reflexivity.
  - reflexivity.
Defined.

Lemma map_conv_weight_gradient_witness :
  ∃ m grect gpart,
    map_weight 5 true Scenarios.S6_tensor (mkWeightInfo PS true) (Some 1%N)
      (Some (mkWeightOp OP_CONV2D (mkRect [0; 0; 0; 0] [1; 1; 0; 3]) 4)) = Some m ∧
    mw_grad m = Some (grect, gpart) ∧
    grect = mkRect (ZEROES (num_dims Scenarios.S6_tensor))
              (<[Z.to_nat (num_dims Scenarios.S6_tensor - 1) :=
                   product (axis_points (mkRect [0; 0; 0; 0] [1; 1; 0; 3]))
                   * size (mkParallelDim 8 2 1 false) - 1]>
                 ((fun d => size d - 1) <$> dims Scenarios.S6_tensor)) ∧
    ip_parent gpart = grect ∧
    ip_colors gpart = mkRect [0; 0; 0; 0] [1; 1; 0; 3] ∧
    partition_disjoint gpart ∧ partition_complete gpart ∧
    (sync_type (mkWeightInfo PS true) = NCCL → mw_rect m = grect ∧ mw_part m = gpart).
Proof.
  apply (map_conv_weight_gradient 5 Scenarios.S6_tensor (mkWeightInfo PS true)
           1%N (mkWeightOp OP_CONV2D (mkRect [0; 0; 0; 0] [1; 1; 0; 3]) 4)
           (mkParallelDim 8 2 1 false)).
  - by left.
  - reflexivity.
  - split; apply Z.leb_le; reflexivity.
  - by exists 4.
  - by left.
  - reflexivity.
  - reflexivity.
  - split; [reflexivity|]. split; [reflexivity|]. repeat constructor; lia.
  - reflexivity.
  - reflexivity.
  - simpl. lia.
  - reflexivity.
Defined.

Lemma reversed_fmap_seqZ {A} (d0 : A) (l : list A) :
  (fun i => default d0 (l !! Z.to_nat (Z.of_nat (length l) - 1 - i)))
    <$> seqZ 0 (Z.of_nat (length l)) = reverse l.
Proof.
  apply list_eq. intros i. destruct (decide (i < length l)%nat) as [Hi|Hi].
  - rewrite lookup_fmap_seqZ by lia. rewrite reverse_lookup by done.
    replace (Z.to_nat (Z.of_nat (length l) - 1 - Z.of_nat i))
      with (length l - S i)%nat by lia.
    destruct (lookup_lt_is_Some_2 l (length l - S i)) as [x ->]; [lia|]. done.
  - rewrite !lookup_ge_None_2; [done| |].
    + rewrite length_reverse. lia.
    + rewrite length_fmap, length_seqZ. lia.
Qed.

(** In training mode [create_linear_replica] succeeds on a task space of
    at least two axes that starts at 0 on its first and last axis and has
    a single point on the axes between, when [dims[0]] is the number of
    points of the first axis and [dims[1]] a multiple of the number of
    points of the last: the replica holds the sizes in reverse order, its
    gradient region is [[0, size - 1]] in every dimension, and the
    partition, which cuts the last dimension of the region along the first
    task axis and the one before along the last task axis, is disjoint and
    complete. *)
Theorem create_linear_replica_succeeds NDIM TDIM guid (dims : list Z) part_rect
    data_type u0 uL :
  2 ≤ NDIM → 2 ≤ TDIM →
  Z.of_nat (length dims) = NDIM →
  Forall (Z.le 1) dims →
  is_Some (weight_field_size data_type) →
  Z.of_nat (length (lo part_rect)) = TDIM →
  Forall2 Z.le (lo part_rect) (hi part_rect) →
  zget (lo part_rect) 0 = Some 0 → zget (hi part_rect) 0 = Some u0 →
  zget (lo part_rect) (TDIM - 1) = Some 0 →
  zget (hi part_rect) (TDIM - 1) = Some uL →
  (∀ j, 0 < j < TDIM - 1 → zget (lo part_rect) j = zget (hi part_rect) j) →
  zget dims 0 = Some (u0 + 1) →
  (∀ d1, zget dims 1 = Some d1 → Z.rem d1 (uL + 1) = 0) →
  ∃ r,
    create_linear_replica NDIM TDIM true guid dims part_rect data_type
    = Some (TensorFactory.size_t_wrap (guid + 1), r) ∧
    rp_guid r = guid ∧ rp_data_type r = data_type ∧
    rp_sizes r = reverse dims ∧
    rp_rect r = mkRect (ZEROES NDIM) ((fun d => d - 1) <$> reverse dims) ∧
    ip_parent (rp_part r) = rp_rect r ∧ ip_colors (rp_part r) = part_rect ∧
    partition_disjoint (rp_part r) ∧ partition_complete (rp_part r).
Proof.
  intros HN HT Hdl Hpos [fs Hfs] Hlen Hle Hl0 Hu0 HlL HuL Hmid Hd0 Hdiv.
  pose proof (Forall2_length _ _ _ Hle) as Hlen2.
  rename NDIM into N, TDIM into T.
  assert (Hlook : ∀ (j : Z) l u, zget (lo part_rect) j = Some l →
            zget (hi part_rect) j = Some u → l ≤ u).
  { intros j l u Hl Hu. apply zget_Some in Hl as [? Hl]. apply zget_Some in Hu as [? Hu].
    rewrite Forall2_same_length_lookup in Hle. destruct Hle as [_ Hle].
    by apply (Hle (Z.to_nat j)). }
  assert (Hu0pos : 0 ≤ u0) by (by apply (Hlook 0 0 u0)).
  assert (HuLpos : 0 ≤ uL) by (by apply (Hlook (T - 1) 0 uL)).
  set (dz := fun i : Z => default 0 (dims !! Z.to_nat i)).
  assert (Hdz : ∀ i, 0 ≤ i < N → zget dims i = Some (dz i) ∧ 1 ≤ dz i).
  { intros i Hi. unfold dz.
    destruct (lookup_lt_is_Some_2 dims (Z.to_nat i)) as [d Hd]; [lia|].
    rewrite Hd. simpl. split; [apply zget_Some; split; [lia|done]|].
    rewrite Forall_forall in Hpos. apply Hpos. by eapply list_elem_of_lookup_2. }
  assert (Hdz0 : dz 0 = u0 + 1).
  { destruct (Hdz 0) as [H0 _]; [lia|]. rewrite Hd0 in H0. by injection H0. }
  assert (Hrem : Z.rem (dz 1) (uL + 1) = 0).
  { apply Hdiv. by destruct (Hdz 1); [lia|]. }
  set (w := fun i => dz (N - 1 - i)).
  set (np := fun i => if bool_decide (i = N - 1) then u0 + 1
                      else if bool_decide (i = N - 2) then uL + 1 else 1).
  set (axis := fun i : Z => if bool_decide (i = N - 1) then Some 0
                            else if bool_decide (i = N - 2) then Some (T - 1)
                            else None).
  assert (Hnp : ∀ i, 1 ≤ np i).
  { intros i. unfold np. repeat case_bool_decide; lia. }
  assert (Hw : ∀ i, 0 ≤ i < N → 1 ≤ w i).
  { intros i Hi. unfold w. by destruct (Hdz (N - 1 - i)); [lia|]. }
  assert (Htw : ∀ i, 0 ≤ i < N →
            tile_width w np i = if bool_decide (i = N - 1) then 1
                                else if bool_decide (i = N - 2) then dz 1 ÷ (uL + 1)
                                else w i).
  { intros i Hi. unfold tile_width, np.
    destruct (decide (i = N - 1)) as [->|Hne1].
    - rewrite !bool_decide_eq_true_2 by done. unfold w.
      replace (N - 1 - (N - 1)) with 0 by lia. rewrite Hdz0.
      replace (u0 + 1 - 1 + (u0 + 1)) with (u0 + 1 * (u0 + 1)) by lia.
      rewrite Z.quot_add by lia. rewrite Z.quot_small by lia. lia.
    - rewrite !(bool_decide_eq_false_2 _ Hne1).
      destruct (decide (i = N - 2)) as [->|Hne2].
      + rewrite !bool_decide_eq_true_2 by done. unfold w.
        replace (N - 1 - (N - 2)) with 1 by lia.
        apply quot_exact; [lia| |done]. destruct (Hdz 1); lia.
      + rewrite !(bool_decide_eq_false_2 _ Hne2). rewrite Z.quot_1_r. lia. }
  set (GR := grid N T w np axis (lo part_rect) (hi part_rect)).
  assert (Hcover_axes : ∀ (j : nat) l u, lo part_rect !! j = Some l →
            hi part_rect !! j = Some u →
            l = u ∨ ∃ i, 0 ≤ i < N ∧ axis i = Some (Z.of_nat j)).
  { intros j l u Hl Hu. pose proof (lookup_lt_Some _ _ _ Hl) as Hj.
    destruct (decide (j = 0%nat)) as [->|Hj0].
    { right. exists (N - 1). split; [lia|]. unfold axis.
      by rewrite bool_decide_eq_true_2. }
    destruct (decide (Z.of_nat j = T - 1)) as [HjT|HjT].
    { right. exists (N - 2). split; [lia|]. unfold axis.
      rewrite bool_decide_eq_false_2 by lia. rewrite bool_decide_eq_true_2 by done.
      by rewrite HjT. }
    left. assert (Hz : zget (lo part_rect) (Z.of_nat j) = zget (hi part_rect) (Z.of_nat j))
      by (apply Hmid; lia).
    assert (Hzl : zget (lo part_rect) (Z.of_nat j) = Some l)
      by (apply zget_Some; split; [lia|by rewrite Nat2Z.id]).
    assert (Hzu : zget (hi part_rect) (Z.of_nat j) = Some u)
      by (apply zget_Some; split; [lia|by rewrite Nat2Z.id]).
    rewrite Hzl, Hzu in Hz. by injection Hz. }
  assert (Hdis : partition_disjoint GR).
  { apply grid_disjoint; try done; try lia.
    intros i Hi. split; [by apply Hw|done]. }
  assert (Hcom : partition_complete GR).
  { apply grid_complete; try done; try lia.
    - intros i Hi. split; [by apply Hw|done].
    - intros i Hi. unfold axis, np.
      destruct (decide (i = N - 1)) as [Hi1|Hi1].
      { rewrite !(bool_decide_eq_true_2 _ Hi1). rewrite bool_decide_eq_true_2 by lia.
        exists 0, u0. split; [done|]. split; [done|]. lia. }
      rewrite !(bool_decide_eq_false_2 _ Hi1).
      destruct (decide (i = N - 2)) as [Hi2|Hi2].
      { rewrite !(bool_decide_eq_true_2 _ Hi2). rewrite bool_decide_eq_true_2 by lia.
        exists 0, uL. split; [done|]. split; [done|]. lia. }
      by rewrite !(bool_decide_eq_false_2 _ Hi2).
    - intros i i' a _ _ _. unfold axis. repeat case_bool_decide; intros; simplify_eq; lia.
    - intros j l u Hl Hu. rewrite Forall2_same_length_lookup in Hle.
      destruct Hle as [_ Hle]. by apply (Hle j). }
  assert (Hrev : w <$> seqZ 0 N = reverse dims).
  { unfold w, dz. rewrite <- Hdl. apply reversed_fmap_seqZ. }
  assert (Hrect : (fun i => w i - 1) <$> seqZ 0 N = (fun d => d - 1) <$> reverse dims).
  { rewrite <- Hrev. rewrite <- list_fmap_compose. done. }
  unfold create_linear_replica.
  cbn [assert mbind option_bind].
  destruct (Z.leb_spec 2 N); [|lia]. cbn [assert mbind option_bind].
  unfold num_parts_of.
  rewrite (tabulate_fn T _ (fun i => default 0 (hi part_rect !! Z.to_nat i)
                                    - default 0 (lo part_rect !! Z.to_nat i) + 1)).
  2: { intros i Hi.
       destruct (lookup_lt_is_Some_2 (lo part_rect) (Z.to_nat i)) as [l Hl]; [lia|].
       destruct (lookup_lt_is_Some_2 (hi part_rect) (Z.to_nat i)) as [h Hh]; [lia|].
       assert (Hzl : zget (lo part_rect) i = Some l) by (apply zget_Some; split; [lia|done]).
       assert (Hzh : zget (hi part_rect) i = Some h) by (apply zget_Some; split; [lia|done]).
       rewrite Hzl, Hzh. unfold Point in *. rewrite Hl, Hh. done. }
  cbn [mbind option_bind].
  rewrite (tabulate_fn N (fun i => zget dims (N - 1 - i)) w).
  2: { intros i Hi. unfold w. destruct (Hdz (N - 1 - i)) as [Hz _]; [lia|exact Hz]. }
  cbn [mbind option_bind]. rewrite Hfs. cbn [mbind option_bind].
  rewrite (tabulate_fn N _ (fun i => w i - 1)).
  2: { intros i Hi. unfold w. destruct (Hdz (N - 1 - i)) as [Hz _]; [lia|].
       cbv beta. by rewrite Hz. }
  cbn [mbind option_bind]. rewrite Hd0. cbn [mbind option_bind].
  rewrite !zget_fmap_seqZ by lia. cbn [mbind option_bind].
  assert (Hnp0 : default 0 (hi part_rect !! Z.to_nat 0)
                 - default 0 (lo part_rect !! Z.to_nat 0) + 1 = u0 + 1).
  { apply zget_Some in Hl0 as [_ Hl0]. apply zget_Some in Hu0 as [_ Hu0].
    unfold Point in *. rewrite Hl0, Hu0. simpl. lia. }
  assert (HnpL : default 0 (hi part_rect !! Z.to_nat (T - 1))
                 - default 0 (lo part_rect !! Z.to_nat (T - 1)) + 1 = uL + 1).
  { apply zget_Some in HlL as [_ HlL]. apply zget_Some in HuL as [_ HuL].
    unfold Point in *. rewrite HlL, HuL. simpl. lia. }
  rewrite Hnp0. rewrite Z.eqb_refl. cbn [assert mbind option_bind].
  unfold cdiv. destruct (Z.eqb_spec (u0 + 1) 0); [lia|]. cbn [mbind option_bind].
  rewrite zset_Some by (rewrite length_fmap, length_seqZ; lia).
  cbn [mbind option_bind].
  destruct (Hdz 1) as [Hz1 _]; [lia|]. rewrite Hz1. cbn [mbind option_bind].
  rewrite HnpL.
  destruct (Z.eqb_spec (uL + 1) 0); [lia|]. cbn [mbind option_bind].
  rewrite insert_fmap_seqZ by lia.
  rewrite zset_Some by (rewrite length_fmap, length_seqZ; lia).
  cbn [mbind option_bind]. rewrite insert_fmap_seqZ by lia.
  rewrite zero_transform_eq. cbn [mbind option_bind].
  rewrite !zget_fmap_seqZ by lia. cbn [mbind option_bind].
  rewrite (bool_decide_eq_false_2 (N - 1 = N - 2)) by lia.
  rewrite (bool_decide_eq_true_2 (N - 1 = N - 1)) by done.
  rewrite (bool_decide_eq_true_2 (N - 2 = N - 2)) by done.
  unfold set_entry. rewrite zget_fmap_seqZ by lia. cbn [mbind option_bind].
  rewrite zset_Some by (rewrite length_fmap, length_seqZ; lia).
  cbn [mbind option_bind].
  rewrite zset_Some by (rewrite length_fmap, length_seqZ; lia).
  cbn [mbind option_bind].
  rewrite (insert_fmap_seqZ (fun _ => 0) T) by lia.
  rewrite insert_fmap_seqZ by lia.
  rewrite zget_fmap_seqZ by lia. cbn [mbind option_bind].
  rewrite (bool_decide_eq_false_2 (N - 2 = N - 1)) by lia.
  rewrite zset_Some by (rewrite length_fmap, length_seqZ; lia).
  cbn [mbind option_bind].
  rewrite zset_Some by (rewrite length_fmap, length_seqZ; lia).
  cbn [mbind option_bind].
  rewrite (insert_fmap_seqZ (fun _ => 0) T) by lia.
  rewrite insert_fmap_seqZ by lia.
  match goal with
  | |- context [is_index_partition_disjoint ?p] => assert (Hip : p = GR)
  end.
  { assert (Hq0 : (u0 + 1) ÷ (u0 + 1) = 1) by (apply Z.quot_same; lia).
    rewrite Hq0. unfold GR, grid. f_equal.
    - by destruct part_rect.
    - apply fmap_seqZ_ext. intros i Hi.
      transitivity ((fun j : Z =>
                       if bool_decide (i = N - 2)
                       then if bool_decide (j = T - 1)
                            then dz 1 ÷ (uL + 1) - 1 + 1 else 0
                       else if bool_decide (i = N - 1)
                            then if bool_decide (j = 0) then 1 - 1 + 1 else 0
                            else 0) <$> seqZ 0 T).
      { by repeat case_bool_decide. }
      apply fmap_seqZ_ext. intros j Hj. rewrite Htw by done. unfold axis.
      repeat case_bool_decide; simplify_eq; lia.
    - f_equal. apply fmap_seqZ_ext. intros i Hi. rewrite Htw by done.
      repeat case_bool_decide; simplify_eq; lia. }
  rewrite Hip.
  rewrite (proj2 (is_index_partition_disjoint_spec _) Hdis).
  rewrite (proj2 (is_index_partition_complete_spec _) Hcom).
  cbn [assert mbind option_bind].
  eexists. split; [done|]. cbn [rp_guid rp_data_type rp_sizes rp_rect rp_part].
  split; [done|]. split; [done|]. split; [done|].
  split; [by rewrite Hrect|].
  split; [unfold GR, grid; cbn [ip_parent]; done|].
  split; [unfold GR, grid; cbn [ip_colors]; by destruct part_rect|].
  done.
Qed.

Lemma create_linear_replica_succeeds_witness :
  ∃ r,
    create_linear_replica 2 2 true 7 [4; 8] Scenarios.S6_task_space DT_FLOAT
    = Some (TensorFactory.size_t_wrap (7 + 1), r) ∧
    rp_guid r = 7 ∧ rp_data_type r = DT_FLOAT ∧
    rp_sizes r = reverse [4; 8] ∧
    rp_rect r = mkRect (ZEROES 2) ((fun d => d - 1) <$> reverse [4; 8]) ∧
    ip_parent (rp_part r) = rp_rect r ∧
    ip_colors (rp_part r) = Scenarios.S6_task_space ∧
    partition_disjoint (rp_part r) ∧ partition_complete (rp_part r).
Proof.
  apply (create_linear_replica_succeeds 2 2 7 [4; 8] Scenarios.S6_task_space
           DT_FLOAT 3 1).
  - lia.
  - lia.
  - reflexivity.
  - repeat constructor; lia.
  - by exists 4.
  - reflexivity.
  - simpl. repeat constructor; lia.
  - reflexivity.
  - reflexivity.
  - reflexivity.
  - reflexivity.
  - intros j Hj. lia.
  - reflexivity.
  - intros d1 Hd1. injection Hd1 as <-. reflexivity.
Defined.

End WeightMapperProofs.

(* ===================================================================== *)
(** *** Properties of the lookup of parallel tensors *)
(* ===================================================================== *)

Module TensorLookupProofs.
Import Common TensorLookup CommonProofs.

Lemma obind_Some {A B} (x : A) (f : A → option B) : Some x ≫= f = f x.
Proof. reflexivity. Qed.

Lemma obind_None {A B} (f : A → option B) : None ≫= f = None.
Proof. reflexivity. Qed.

Lemma find_op_from (operators : list addr) (test : addr → option bool) acc r :
  for_each_opt operators (fun p mapped_op =>
    b ← test p;
    if b : bool then
      _ ← assert (bool_decide (mapped_op = None));
      Some (Some p)
    else Some mapped_op) acc = Some r ↔
  Forall (fun p => is_Some (test p)) operators ∧
  match acc with
  | Some a => filter (fun p => test p = Some true) operators = [] ∧ r = Some a
  | None => (filter (fun p => test p = Some true) operators = [] ∧ r = None) ∨
            ∃ p, filter (fun p => test p = Some true) operators = [p] ∧ r = Some p
  end.
Proof.
  set (body := fun (p : addr) (mapped_op : option addr) =>
    b ← test p;
    if b : bool then
      _ ← assert (bool_decide (mapped_op = None));
      Some (Some p)
    else Some mapped_op).
  revert acc. induction operators as [|q operators IH]; intros acc.
  - simpl. rewrite filter_nil. split.
    + intros [= <-]. split; [constructor|]. destruct acc; [done|by left].
    + intros [_ H]. destruct acc as [a|].
      * by destruct H as [_ ->].
      * destruct H as [[_ ->]|(p & Hp & _)]; done.
  - change (for_each_opt (q :: operators) body acc)
      with (body q acc ≫= for_each_opt operators body).
    rewrite filter_cons.
    change (body q acc)
      with (test q ≫= λ b : bool,
              if b then assert (bool_decide (acc = None)) ≫= λ _, Some (Some q)
              else Some acc).
    destruct (test q) as [[|]|] eqn:Hq; rewrite ?obind_Some, ?obind_None; cbv beta iota.
    + rewrite decide_True by done.
      destruct acc as [a|].
      * rewrite bool_decide_eq_false_2 by done. unfold assert.
        rewrite !obind_None. split; [done|].
        by intros [_ [? _]].
      * rewrite bool_decide_eq_true_2 by done. unfold assert.
        rewrite !obind_Some. rewrite IH. split.
        -- intros [Hall [Hnil ->]]. split; [constructor; [by rewrite Hq|done]|].
           right. exists q. by rewrite Hnil.
        -- intros [Hall H]. apply Forall_cons in Hall as [_ Hall].
           split; [done|]. destruct H as [[? _]|(p & Hp & ->)]; [done|].
           injection Hp as -> Hnil. done.
    + rewrite decide_False by done. rewrite IH. split.
      * intros [Hall H]. split; [constructor; [by rewrite Hq|done]|done].
      * intros [Hall H]. by apply Forall_cons in Hall as [_ Hall].
    + split; [done|]. intros [Hall _]. apply Forall_cons in Hall as [[? Hq'] _].
      by rewrite Hq in Hq'.
Qed.

(** The lookup returns the parallel tensor stored in the tensor when
    there is one. Otherwise it returns output [owner_idx] of the one
    operator of the list that passes the test for the owner layer; it
    fails when the tensor has no owner layer, when no operator passes,
    and when two entries of the list pass. *)
Theorem get_parallel_tensor_from_tensor_spec (S : Store) (operators : list addr)
    (tensor : TensorObj) (pt : addr) :
  get_parallel_tensor_from_tensor S operators tensor = Some pt ↔
  tb_parallel_tensor tensor = Some pt ∨
  (tb_parallel_tensor tensor = None ∧
   ∃ lp layer p op,
     tb_owner_layer tensor = Some lp ∧ layer_objs S !! lp = Some layer ∧
     Forall (fun q => is_Some (owner_test S layer q)) operators ∧
     filter (fun q => owner_test S layer q = Some true) operators = [p] ∧
     op_objs S !! p = Some op ∧
     zget (mo_outputs op) (tb_owner_idx tensor) = Some pt).
Proof.
  unfold get_parallel_tensor_from_tensor.
  destruct (tb_parallel_tensor tensor) as [pt'|] eqn:Hpt.
  { split.
    - intros [= ->]. by left.
    - intros [[= ->]|[? _]]; done. }
  split.
  - intros H. right. split; [done|].
    destruct (tb_owner_layer tensor) as [lp|]; [|done].
    destruct (layer_objs S !! lp) as [layer|] eqn:Hl; [|done].
    cbn [mbind option_bind] in H.
    assert (Hfind : ∃ mapped_op,
      find_op operators (owner_test S layer) = Some mapped_op ∧
      match mapped_op with
      | Some p => op ← op_objs S !! p; zget (mo_outputs op) (tb_owner_idx tensor)
      | None => None
      end = Some pt).
    { unfold owner_test.
      destruct (bool_decide (ly_op_type layer = OP_INPUT)).
      - destruct (zget (ly_outputs layer) 0) as [out0|]; [|done].
        cbn [mbind option_bind] in H |- *.
        destruct (tensor_objs S !! out0) as [t0|]; [|done].
        cbn [mbind option_bind] in H |- *.
        destruct (find_op operators _) as [m|]; [|done]. by exists m.
      - destruct (find_op operators _) as [m|]; [|done]. by exists m. }
    destruct Hfind as (m & Hfind & Hout).
    apply find_op_from in Hfind as [Hall Hm].
    destruct Hm as [[_ ->]|(p & Hp & ->)]; [done|].
    destruct (op_objs S !! p) as [op|] eqn:Hop; [|done].
    by exists lp, layer, p, op.
  - intros [[=]|[_ (lp & layer & p & op & -> & -> & Hall & Hp & Hop & Hout)]].
    cbn [mbind option_bind].
    assert (Hfind : find_op operators (owner_test S layer) = Some (Some p)).
    { apply find_op_from. split; [done|]. right. by exists p. }
    assert (Hne : operators ≠ []) by (intros ->; done).
    unfold owner_test in Hfind, Hall.
    destruct (bool_decide (ly_op_type layer = OP_INPUT)).
    + destruct operators as [|q operators]; [done|].
      apply Forall_cons in Hall as [[b Hq] _].
      destruct (zget (ly_outputs layer) 0) as [out0|]; [|done].
      cbn [mbind option_bind] in Hfind |- *.
      destruct (tensor_objs S !! out0) as [t0|]; [|done].
      cbn [mbind option_bind] in Hfind |- *.
      assert (Hf : find_op (q :: operators) (same_input S (tb_guid t0)) = Some (Some p))
        by exact Hfind.
      rewrite Hf. cbn [mbind option_bind]. by rewrite Hop.
    + assert (Hf : find_op operators (same_layer S layer) = Some (Some p))
        by exact Hfind.
      rewrite Hf. cbn [mbind option_bind]. by rewrite Hop.
Qed.


Lemma relinked_refl S : relinked S S.
Proof.
  split; [done|]. split; [done|]. intros tp t Ht. exists t. by rewrite Ht.
Qed.

Lemma relinked_trans S1 S2 S3 : relinked S1 S2 → relinked S2 S3 → relinked S1 S3.
Proof.
  intros (Hl1 & Ho1 & Ht1) (Hl2 & Ho2 & Ht2).
  split; [congruence|]. split; [congruence|].
  intros tp t Ht. destruct (Ht1 tp t Ht) as (t2 & H2 & Hg & Hol & Hoi & Hp).
  destruct (Ht2 tp t2 H2) as (t3 & H3 & Hg' & Hol' & Hoi' & Hp').
  exists t3. split; [done|]. split; [congruence|]. split; [congruence|].
  split; [congruence|]. auto.
Qed.

Lemma relinked_linked S S' tp : relinked S S' → linked S tp → linked S' tp.
Proof.
  intros (_ & _ & Ht) (t & pt & Htp & Hpt).
  destruct (Ht tp t Htp) as (t' & Ht' & _ & _ & _ & Hp).
  destruct Hp as [pt' Hpt']; [by rewrite Hpt|]. by exists t', pt'.
Qed.

Lemma set_parallel_tensor_ok S tp pt S' :
  set_parallel_tensor S tp pt = Some S' → relinked S S' ∧ linked S' tp.
Proof.
  unfold set_parallel_tensor. intros H.
  destruct (tensor_objs S !! tp) as [t|] eqn:Ht; [|done].
  cbn [mbind option_bind] in H. injection H as <-. split.
  - split; [done|]. split; [done|]. cbn [tensor_objs]. intros tp' t' Ht'.
    destruct (decide (tp' = tp)) as [->|Hne].
    + rewrite lookup_insert_eq. rewrite Ht in Ht'. injection Ht' as <-.
      eexists. split; [done|]. simpl. by eauto.
    + rewrite lookup_insert_ne by done. exists t'. by rewrite Ht'.
  - eexists _, pt. cbn [tensor_objs]. rewrite lookup_insert_eq. done.
Qed.

Lemma layer_linked_mono S S' operators layer :
  relinked S S' → layer_linked S operators layer → layer_linked S' operators layer.
Proof.
  intros Hrel (Hin & Hw & Hall). pose proof Hrel as (Hl & Ho & Ht).
  split; [|split].
  - intros Hty. destruct (Hin Hty) as (tp & t & Hz & Htp & Hp & p & op & Hpo & Hop & Hm & Hg).
    destruct (Ht tp t Htp) as (t' & Ht' & Hg' & _ & _ & Hp').
    exists tp, t'. split; [done|]. split; [done|]. split; [auto|].
    exists p, op. rewrite Ho, Hg'. done.
  - intros i Hi. destruct (Hw i Hi) as (wt & Hz & Hlk & p & op & Hpo & Hop & Hg).
    exists wt. split; [done|]. split; [by eapply relinked_linked|].
    exists p, op. by rewrite Ho.
  - intros Hn p op Hp Hop. rewrite Ho in Hop. intros Hg. by apply (Hall Hn p).
Qed.

Lemma last_input_op_found S operators g : ∀ acc r,
  for_each_opt operators (fun p parallel_tensor =>
    op ← op_objs S !! p;
    if bool_decide (mo_type op = OP_INPUT) then
      g' ← mo_input_tensor_guid op;
      if bool_decide (g' = g) then
        out ← zget (mo_outputs op) 0; Some (Some out)
      else Some parallel_tensor
    else Some parallel_tensor) acc = Some r →
  r = acc ∨
  ∃ p op, p ∈ operators ∧ op_objs S !! p = Some op ∧
    mo_type op = OP_INPUT ∧ mo_input_tensor_guid op = Some g.
Proof.
  induction operators as [|q operators IH]; intros acc r H.
  - simpl in H. injection H as <-. by left.
  - cbn [for_each_opt] in H.
    destruct (op_objs S !! q) as [op|] eqn:Hop; [|done].
    cbn [mbind option_bind] in H.
    destruct (decide (mo_type op = OP_INPUT)) as [Hty|Hty].
    + rewrite bool_decide_eq_true_2 in H by done.
      destruct (mo_input_tensor_guid op) as [g'|] eqn:Hg; [|done].
      cbn [mbind option_bind] in H.
      destruct (decide (g' = g)) as [->|Hne].
      * right. exists q, op. split; [by left|done].
      * rewrite bool_decide_eq_false_2 in H by done. cbn [mbind option_bind] in H.
        destruct (IH _ _ H) as [?|(p & op' & Hp & ?)]; [by left|].
        right. exists p, op'. split; [by right|done].
    + rewrite bool_decide_eq_false_2 in H by done. cbn [mbind option_bind] in H.
      destruct (IH _ _ H) as [?|(p & op' & Hp & ?)]; [by left|].
      right. exists p, op'. split; [by right|done].
Qed.

Lemma last_weight_op_found S operators layer i : ∀ acc r,
  for_each_opt operators (fun p parallel_weight =>
    op ← op_objs S !! p;
    if bool_decide (mo_layer_guid op = ly_guid layer) then
      _ ← assert (bool_decide (mo_type op = ly_op_type layer));
      _ ← assert (mo_numWeights op =? ly_numWeights layer);
      w ← zget (mo_weights op) i; Some (Some w)
    else Some parallel_weight) acc = Some r →
  (r = acc ∨
   ∃ p op, p ∈ operators ∧ op_objs S !! p = Some op ∧
     mo_layer_guid op = ly_guid layer) ∧
  (∀ p op, p ∈ operators → op_objs S !! p = Some op →
     mo_layer_guid op = ly_guid layer →
     mo_type op = ly_op_type layer ∧ mo_numWeights op = ly_numWeights layer).
Proof.
  induction operators as [|q operators IH]; intros acc r H.
  - simpl in H. injection H as <-. split; [by left|].
    intros p op Hp. by apply elem_of_nil in Hp.
  - cbn [for_each_opt] in H.
    destruct (op_objs S !! q) as [op|] eqn:Hop; [|done].
    cbn [mbind option_bind] in H.
    destruct (decide (mo_layer_guid op = ly_guid layer)) as [Hg|Hg].
    + rewrite bool_decide_eq_true_2 in H by done.
      destruct (decide (mo_type op = ly_op_type layer)) as [Hty|Hty];
        [rewrite bool_decide_eq_true_2 in H by done
        |rewrite bool_decide_eq_false_2 in H by done; done].
      cbn [assert mbind option_bind] in H.
      destruct (Z.eqb_spec (mo_numWeights op) (ly_numWeights layer)) as [Hn|Hn];
        [|done].
      cbn [assert mbind option_bind] in H.
      destruct (zget (mo_weights op) i) as [w|]; [|done].
      cbn [mbind option_bind] in H.
      destruct (IH _ _ H) as [_ Hall]. split.
      * right. exists q, op. split; [by left|done].
      * intros p op' Hp Hop' Hg'. apply elem_of_cons in Hp as [->|Hp].
        -- rewrite Hop in Hop'. injection Hop' as <-. done.
        -- by apply (Hall p).
    + rewrite bool_decide_eq_false_2 in H by done. cbn [mbind option_bind] in H.
      destruct (IH _ _ H) as [Hr Hall]. split.
      * destruct Hr as [?|(p & op' & Hp & ?)]; [by left|].
        right. exists p, op'. split; [by right|done].
      * intros p op' Hp Hop' Hg'. apply elem_of_cons in Hp as [->|Hp].
        -- rewrite Hop in Hop'. injection Hop' as <-. done.
        -- by apply (Hall p).
Qed.

Lemma relink_layer_ok operators lp S S' :
  relink_layer operators lp S = Some S' →
  ∃ layer, layer_objs S !! lp = Some layer ∧ relinked S S' ∧
           layer_linked S' operators layer.
Proof.
  unfold relink_layer. intros H.
  destruct (layer_objs S !! lp) as [layer|] eqn:Hl; [|done].
  cbn [mbind option_bind] in H. exists layer. split; [done|].
  match type of H with
  | (?first ≫= _) = _ => destruct first as [S1|] eqn:Hfirst; [|done]
  end.
  cbn [mbind option_bind] in H.
  (* the input tensor *)
  assert (Hin : relinked S S1 ∧
            (ly_op_type layer = OP_INPUT →
             ∃ tp t, zget (ly_outputs layer) 0 = Some tp ∧
               tensor_objs S1 !! tp = Some t ∧ is_Some (tb_parallel_tensor t) ∧
               ∃ p op, p ∈ operators ∧ op_objs S1 !! p = Some op ∧
                 mo_type op = OP_INPUT ∧ mo_input_tensor_guid op = Some (tb_guid t))).
  { destruct (decide (ly_op_type layer = OP_INPUT)) as [Hty|Hty].
    - rewrite bool_decide_eq_true_2 in Hfirst by done.
      destruct (zget (ly_outputs layer) 0) as [tp|] eqn:Hz; [|done].
      cbn [mbind option_bind] in Hfirst.
      destruct (tensor_objs S !! tp) as [tensor|] eqn:Ht; [|done].
      cbn [mbind option_bind] in Hfirst.
      destruct (last_input_op S operators (tb_guid tensor)) as [r|] eqn:Hlast; [|done].
      cbn [mbind option_bind] in Hfirst.
      destruct r as [pt|]; [|done]. cbn [mbind option_bind] in Hfirst.
      destruct (set_parallel_tensor_ok _ _ _ _ Hfirst) as [Hrel (t' & pt' & Ht' & Hpt')].
      split; [done|]. intros _.
      destruct (last_input_op_found _ _ _ _ _ Hlast) as [?|(p & op & Hp & Hop & Hm & Hg)];
        [done|].
      pose proof Hrel as (_ & Ho & Hts).
      destruct (Hts tp tensor Ht) as (t2 & Ht2 & Hg2 & _).
      rewrite Ht' in Ht2. injection Ht2 as <-.
      exists tp, t'. split; [done|]. split; [done|]. split; [by rewrite Hpt'|].
      exists p, op. rewrite Ho, Hg2. done.
    - rewrite bool_decide_eq_false_2 in Hfirst by done. injection Hfirst as <-.
      split; [apply relinked_refl|done]. }
  destruct Hin as [Hrel1 Hin].
  (* the weights *)
  assert (Hw : relinked S1 S' ∧
            (∀ i, 0 ≤ i < ly_numWeights layer →
               ∃ wt, zget (ly_weights layer) i = Some (Some wt) ∧ linked S' wt ∧
                 ∃ p op, p ∈ operators ∧ op_objs S' !! p = Some op ∧
                   mo_layer_guid op = ly_guid layer) ∧
            (0 < ly_numWeights layer →
               ∀ p op, p ∈ operators → op_objs S' !! p = Some op →
                 mo_layer_guid op = ly_guid layer →
                 mo_type op = ly_op_type layer ∧
                 mo_numWeights op = ly_numWeights layer)).
  { destruct (Z.le_gt_cases (ly_numWeights layer) 0) as [Hle|Hgt].
    { rewrite for_range_empty in H by lia. injection H as <-.
      split; [apply relinked_refl|]. split; intros; lia. }
    apply (for_range_inv
             (fun k Sk => relinked S1 Sk ∧
                (∀ i, 0 ≤ i < k →
                   ∃ wt, zget (ly_weights layer) i = Some (Some wt) ∧ linked Sk wt ∧
                     ∃ p op, p ∈ operators ∧ op_objs Sk !! p = Some op ∧
                       mo_layer_guid op = ly_guid layer) ∧
                (0 < k →
                   ∀ p op, p ∈ operators → op_objs Sk !! p = Some op →
                     mo_layer_guid op = ly_guid layer →
                     mo_type op = ly_op_type layer ∧
                     mo_numWeights op = ly_numWeights layer))
             _ _ _ _ _ H); [lia| |].
    - split; [apply relinked_refl|]. split; intros; lia.
    - intros j Sa Sb Hj (Hrela & Hwa & Halla) Hb.
      destruct (zget (ly_weights layer) j) as [[wt|]|] eqn:Hz; try done.
      cbn [mbind option_bind] in Hb.
      destruct (last_weight_op Sa operators layer j) as [r|] eqn:Hlast; [|done].
      cbn [mbind option_bind] in Hb.
      destruct r as [pw|]; [|done]. cbn [mbind option_bind] in Hb.
      destruct (set_parallel_tensor_ok _ _ _ _ Hb) as [Hrelb Hlk].
      destruct (last_weight_op_found _ _ _ _ _ _ Hlast) as [Hfound Hall].
      pose proof Hrelb as (_ & Ho & _).
      split; [by eapply relinked_trans|]. split.
      + intros i Hi. destruct (decide (i = j)) as [->|Hne].
        * exists wt. split; [done|]. split; [done|].
          destruct Hfound as [?|(p & op & Hp & Hop & Hg)]; [done|].
          exists p, op. by rewrite Ho.
        * destruct (Hwa i) as (wt' & Hz' & Hlk' & p & op & Hp & Hop & Hg); [lia|].
          exists wt'. split; [done|]. split; [by eapply relinked_linked|].
          exists p, op. by rewrite Ho.
      + intros _ p op Hp Hop. rewrite Ho in Hop. intros Hg. by apply (Hall p). }
  destruct Hw as (Hrel2 & Hw & Hall).
  split; [by eapply relinked_trans|].
  split; [|split; [done|done]].
  intros Hty. destruct (Hin Hty) as (tp & t & Hz & Ht & Hp & p & op & Hpo & Hop & Hm & Hg).
  pose proof Hrel2 as (_ & Ho & Hts).
  destruct (Hts tp t Ht) as (t' & Ht' & Hg' & _ & _ & Hp').
  exists tp, t'. split; [done|]. split; [done|]. split; [auto|].
  exists p, op. rewrite Ho, Hg'. done.
Qed.

(** The loop of [compile] that links the tensors of the layers to the
    parallel tensors of the rebuilt operators returns only if it has
    linked the tensor of every input layer and every weight of every
    layer: for each input layer an input operator carries the guid of its
    tensor, for each layer with weights an operator was built from it, and
    all operators built from such a layer have its kind and its number of
    weights. It changes nothing but the links, and never removes one. *)
Theorem relink_links_all (layers operators : list addr) (S S' : Store) :
  relink layers operators S = Some S' →
  relinked S S' ∧
  ∀ lp, lp ∈ layers →
    ∃ layer, layer_objs S !! lp = Some layer ∧ layer_linked S' operators layer.
Proof.
  unfold relink. revert S. induction layers as [|l layers IH]; intros S H.
  - simpl in H. injection H as <-. split; [apply relinked_refl|].
    intros lp Hlp. by apply elem_of_nil in Hlp.
  - cbn [for_each_opt] in H.
    destruct (relink_layer operators l S) as [S1|] eqn:Hl; [|done].
    cbn [mbind option_bind] in H.
    destruct (relink_layer_ok _ _ _ _ Hl) as (layer & Hlayer & Hrel1 & Hlk).
    destruct (IH S1 H) as [Hrel2 Hrest].
    split; [by eapply relinked_trans|].
    intros lp Hlp. apply elem_of_cons in Hlp as [->|Hlp].
    + exists layer. split; [done|]. by eapply layer_linked_mono.
    + destruct (Hrest lp Hlp) as (layer' & Hlayer' & Hlk').
      exists layer'. split; [|done]. destruct Hrel1 as (Hls & _). by rewrite <- Hls.
Qed.

Lemma relink_links_all_witness :
  ∃ S', relink [1%N; 2%N] [20%N; 21%N] relink_store = Some S' ∧
        relinked relink_store S' ∧
        ∀ lp, lp ∈ [1%N; 2%N] →
          ∃ layer, layer_objs relink_store !! lp = Some layer ∧
                   layer_linked S' [20%N; 21%N] layer.
Proof.
  assert (is_Some (relink [1%N; 2%N] [20%N; 21%N] relink_store)) as [S' H]
    by (vm_compute; eauto).
  exists S'. split; [exact H|].
  exact (relink_links_all _ _ _ _ H).
Defined.

End TensorLookupProofs.

(* ===================================================================== *)
(** *** Properties of the layer builder *)
(* ===================================================================== *)

Module LayerBuilderProofs.
Import Common RegionMapper Tiling LayerBuilder.
Import CommonProofs RegionMapperProofs TilingProofs TaskSpaceProofs.

Lemma aget_Some_lookup {A} (a : carray A) i v :
  aget a i = Some v ↔ 0 ≤ i ∧ a !! Z.to_nat i = Some (Some v).
Proof.
  unfold aget. destruct (zget a i) as [[x|]|] eqn:Hz; simpl.
  - apply zget_Some in Hz as [Hi Hz]. split.
    + intros [= ->]. done.
    + intros [_ H]. rewrite Hz in H. by injection H as ->.
  - apply zget_Some in Hz as [Hi Hz]. split; [done|].
    intros [_ H]. rewrite Hz in H. done.
  - split; [done|]. intros [Hi H].
    assert (zget a i = Some (Some v)) by (by apply zget_Some). congruence.
Qed.

Lemma create_tensor_legion_ordering_run MAXD LMD m numdim (dims : carray Z)
    (sizes : list Z) dt layer idx cg :
  1 ≤ numdim ≤ MAXD → numdim ≤ LMD →
  Z.of_nat (length sizes) = numdim →
  (∀ i, 0 ≤ i < numdim → aget dims i = zget sizes i) →
  create_tensor_legion_ordering MAXD LMD m numdim dims dt layer idx cg
  = Some (tensor_created m sizes dt layer idx cg, next_free m).
Proof.
  intros Hnd Hl Hlen Hsrc.
  assert (Hsome : ∀ i, 0 ≤ i < numdim → is_Some (aget dims i)).
  { intros i Hi. rewrite Hsrc by done.
    destruct (lookup_lt_is_Some_2 sizes (Z.to_nat i)) as [v Hv]; [lia|].
    exists v. apply zget_Some. split; [lia|done]. }
  unfold create_tensor_legion_ordering.
  destruct (copy_loop_total (fun i => aget dims (numdim - 1 - i))
              (new_array MAXD) numdim) as [c_dims Hc].
  { unfold new_array. rewrite length_replicate. lia. }
  { intros i Hi. apply Hsome. lia. }
  rewrite Hc. cbn [mbind option_bind].
  apply copy_loop in Hc as (_ & Hcopy & _).
  unfold create_tensor.
  destruct (Z.leb_spec 1 numdim); [|lia].
  destruct (Z.leb_spec numdim LMD); [|lia]. cbn [andb].
  unfold create_tensor_NDIM.
  assert (Htab : tabulate numdim (fun i => aget c_dims (numdim - 1 - i)) = Some sizes).
  { rewrite (tabulate_fn numdim _ (fun i => default 0 (sizes !! Z.to_nat i))).
    - f_equal. apply list_eq. intros i.
      destruct (decide (i < length sizes)%nat) as [Hi|Hi].
      + rewrite lookup_fmap_seqZ by lia. rewrite Nat2Z.id.
        destruct (lookup_lt_is_Some_2 sizes i Hi) as [v ->]. done.
      + rewrite !lookup_ge_None_2; [done|lia|].
        rewrite length_fmap, length_seqZ. lia.
    - intros i Hi. destruct (Hcopy (numdim - 1 - i)) as [-> _]; [lia|].
      replace (numdim - 1 - (numdim - 1 - i)) with i by lia.
      rewrite Hsrc by lia.
      destruct (lookup_lt_is_Some_2 sizes (Z.to_nat i)) as [v Hv]; [lia|].
      rewrite Hv. simpl. apply zget_Some. split; [lia|done]. }
  destruct layer as [l|]; cbn [tensor_global_guid layers layer_recs tensor_recs next_free];
    rewrite Htab; done.
Qed.

(** [create_tensor_legion_ordering] stores the sizes in the order in which
    it is given them: the reversal it makes is undone by the one that
    [create_tensor] makes. The tensor takes the next guid; with an owner
    layer it is the only object created, without one an input layer that
    owns the tensor is appended to the layers. *)
Theorem create_tensor_keeps_order MAXD LMD m numdim (dims : carray Z)
    (sizes : list Z) dt layer idx cg :
  1 ≤ numdim ≤ MAXD → numdim ≤ LMD →
  Z.of_nat (length sizes) = numdim →
  (∀ i, 0 ≤ i < numdim → aget dims i = zget sizes i) →
  ∃ m' t,
    create_tensor_legion_ordering MAXD LMD m numdim dims dt layer idx cg
    = Some (m', next_free m) ∧
    tensor_recs m' = <[next_free m := t]> (tensor_recs m) ∧
    tr_dims t = sizes ∧ tr_guid t = tensor_global_guid m ∧
    tr_data_type t = dt ∧ tr_create_gradients t = cg ∧
    tensor_global_guid m' = TensorFactory.size_t_wrap (tensor_global_guid m + 1) ∧
    match layer with
    | Some l =>
        tr_owner_layer t = Some l ∧ tr_owner_idx t = idx ∧
        layers m' = layers m ∧ layer_recs m' = layer_recs m
    | None =>
        tr_owner_layer t = Some (next_free m + 1)%N ∧ tr_owner_idx t = 0 ∧
        layers m' = layers m ++ [(next_free m + 1)%N] ∧
        layer_recs m'
        = <[(next_free m + 1)%N :=
              mkLayerRec OP_INPUT dt 0 0 1 [] (Some (next_free m)) []]> (layer_recs m)
    end.
Proof.
  intros Hnd Hl Hlen Hsrc.
  rewrite (create_tensor_legion_ordering_run MAXD LMD m numdim dims sizes) by done.
  destruct layer as [l|]; eexists _, _; (split; [done|]); simpl; done.
Qed.

(** [FFModel::aggregate] adds exactly one layer, the aggregate layer with
    [n + 4] inputs, one output and the properties [n] and [lambda_bal],
    and one tensor, the output of the layer: a float tensor with a
    gradient that has the shape of the first expert prediction
    ([inputs[4]]) except for the last dimension, which it takes from the
    gate predictions ([inputs[0]]). The first expert prediction must have
    between one and [MAX_TENSOR_DIM] dimensions, at most [LEGION_MAX_DIM],
    and the gate predictions as many or more. *)
Theorem aggregate_layer_spec MAXD LMD (m : Builder) (inputs : list addr) n lambda
    p4 in4 p0 in0 b :
  zget inputs 4 = Some p4 → tensor_recs m !! p4 = Some in4 →
  zget inputs 0 = Some p0 → tensor_recs m !! p0 = Some in0 →
  1 ≤ tr_num_dims in4 ≤ MAXD → tr_num_dims in4 ≤ LMD →
  zget (tr_dims in0) (tr_num_dims in4 - 1) = Some b →
  ∃ m',
    aggregate MAXD LMD m inputs n lambda = Some (m', (next_free m + 1)%N) ∧
    tensor_recs m'
    = <[(next_free m + 1)%N :=
          mkTensorRec (tensor_global_guid m) DT_FLOAT (Some (next_free m)) 0 true
            (<[Z.to_nat (tr_num_dims in4 - 1) := b]> (tr_dims in4))]>
        (tensor_recs m) ∧
    layers m' = layers m ++ [next_free m] ∧
    layer_recs m'
    = <[next_free m :=
          mkLayerRec OP_AGGREGATE DT_FLOAT (n + 4) 0 1 inputs
            (Some (next_free m + 1)%N)
            [Add_int_property key_n n; Add_float_property key_lambda_bal lambda]]>
        (layer_recs m) ∧
    tensor_global_guid m' = TensorFactory.size_t_wrap (tensor_global_guid m + 1) ∧
    next_free m' = (next_free m + 2)%N.
Proof.
  intros H4 Hin4 H0 Hin0 Hk Hl Hb.
  set (k := tr_num_dims in4) in *.
  unfold aggregate, input_rec. cbn [tensor_recs].
  rewrite H4. cbn [mbind option_bind]. rewrite Hin4. cbn [mbind option_bind].
  fold k.
  destruct (copy_loop_total (fun i => zget (tr_dims in4) i)
              (new_array MAXD) (k - 1)) as [dims1 Hc].
  { unfold new_array. rewrite length_replicate. lia. }
  { intros i Hi. destruct (lookup_lt_is_Some_2 (tr_dims in4) (Z.to_nat i)) as [v Hv];
      [unfold k, tr_num_dims in *; lia|].
    exists v. apply zget_Some. split; [lia|done]. }
  rewrite Hc. cbn [mbind option_bind].
  apply copy_loop in Hc as (Hlen1 & Hcopy & _).
  rewrite H0. cbn [mbind option_bind]. rewrite Hin0. cbn [mbind option_bind].
  rewrite Hb. cbn [mbind option_bind].
  assert (Hset : aset dims1 (k - 1) b = Some (<[Z.to_nat (k - 1) := Some b]> dims1)).
  { unfold aset. destruct (Z.leb_spec 0 (k - 1)); [|lia].
    destruct (Z.ltb_spec (k - 1) (Z.of_nat (length dims1))); [done|].
    rewrite Hlen1 in *. unfold new_array in *. rewrite length_replicate in *. lia. }
  rewrite Hset. cbn [mbind option_bind].
  rewrite (create_tensor_legion_ordering_run MAXD LMD _ k _
             (<[Z.to_nat (k - 1) := b]> (tr_dims in4))).
  - unfold tensor_created.
    cbn [mbind option_bind layer_recs tensor_global_guid layers tensor_recs next_free].
    rewrite lookup_insert_eq. cbn [mbind option_bind].
    cbn [lr_op_type lr_data_type lr_numInputs lr_numWeights lr_numOutputs lr_inputs
         lr_calls app].
    rewrite insert_insert_eq.
    eexists. split; [done|].
    cbn [layer_recs tensor_global_guid layers tensor_recs next_free].
    split; [done|]. split; [done|]. split; [done|]. split; [done|].
    lia.
  - lia.
  - lia.
  - rewrite length_insert. unfold k, tr_num_dims. done.
  - intros i Hi. destruct (decide (i = k - 1)) as [->|Hne].
    + transitivity (Some b).
      * apply aget_Some_lookup. split; [lia|]. apply list_lookup_insert_eq.
        rewrite Hlen1. unfold new_array. rewrite length_replicate. lia.
      * symmetry. apply zget_Some. split; [lia|]. apply list_lookup_insert_eq.
        unfold k, tr_num_dims in *. lia.
    + destruct (Hcopy i) as [Hg [v Hv]]; [lia|].
      transitivity (Some v).
      * apply aget_Some_lookup. split; [lia|].
        rewrite list_lookup_insert_ne by lia.
        rewrite Hv in Hg. by apply aget_Some_lookup in Hg as [_ ?].
      * symmetry. apply zget_Some. split; [lia|].
        rewrite list_lookup_insert_ne by lia. by apply zget_Some in Hv as [_ ?].
Qed.

Lemma create_tensor_keeps_order_witness :
  ∃ m' t,
    create_tensor_legion_ordering 5 5 (mkBuilder 7 [] ∅ ∅ 10%N) 2 [Some 4; Some 8]
      DT_FLOAT None 0 false
    = Some (m', next_free (mkBuilder 7 [] ∅ ∅ 10%N)) ∧
    tensor_recs m' = <[next_free (mkBuilder 7 [] ∅ ∅ 10%N) := t]>
                       (tensor_recs (mkBuilder 7 [] ∅ ∅ 10%N)) ∧
    tr_dims t = [4; 8] ∧ tr_guid t = tensor_global_guid (mkBuilder 7 [] ∅ ∅ 10%N) ∧
    tr_data_type t = DT_FLOAT ∧ tr_create_gradients t = false ∧
    tensor_global_guid m'
    = TensorFactory.size_t_wrap (tensor_global_guid (mkBuilder 7 [] ∅ ∅ 10%N) + 1) ∧
    (tr_owner_layer t = Some (next_free (mkBuilder 7 [] ∅ ∅ 10%N) + 1)%N ∧
     tr_owner_idx t = 0 ∧
     layers m' = layers (mkBuilder 7 [] ∅ ∅ 10%N)
                 ++ [(next_free (mkBuilder 7 [] ∅ ∅ 10%N) + 1)%N] ∧
     layer_recs m'
     = <[(next_free (mkBuilder 7 [] ∅ ∅ 10%N) + 1)%N :=
           mkLayerRec OP_INPUT DT_FLOAT 0 0 1 []
             (Some (next_free (mkBuilder 7 [] ∅ ∅ 10%N))) []]>
         (layer_recs (mkBuilder 7 [] ∅ ∅ 10%N))).
Proof.
  apply (create_tensor_keeps_order 5 5 (mkBuilder 7 [] ∅ ∅ 10%N) 2 [Some 4; Some 8]
           [4; 8] DT_FLOAT None 0 false).
  - lia.
  - lia.
  - reflexivity.
  - intros i Hi. assert (i = 0 ∨ i = 1) as [-> | ->] by lia; reflexivity.
Defined.

Lemma aggregate_layer_spec_witness :
  ∃ m',
    aggregate 5 5 gate_model [1; 2; 3; 4; 5]%N 1 (1 # 10)
    = Some (m', (next_free gate_model + 1)%N) ∧
    tensor_recs m'
    = <[(next_free gate_model + 1)%N :=
          mkTensorRec (tensor_global_guid gate_model) DT_FLOAT
            (Some (next_free gate_model)) 0 true
            (<[Z.to_nat (tr_num_dims (mkTensorRec 4 DT_FLOAT None 0 true [16; 32]) - 1)
               := 8]> (tr_dims (mkTensorRec 4 DT_FLOAT None 0 true [16; 32])))]>
        (tensor_recs gate_model) ∧
    layers m' = layers gate_model ++ [next_free gate_model] ∧
    layer_recs m'
    = <[next_free gate_model :=
          mkLayerRec OP_AGGREGATE DT_FLOAT (1 + 4) 0 1 [1; 2; 3; 4; 5]%N
            (Some (next_free gate_model + 1)%N)
            [Add_int_property key_n 1; Add_float_property key_lambda_bal (1 # 10)]]>
        (layer_recs gate_model) ∧
    tensor_global_guid m'
    = TensorFactory.size_t_wrap (tensor_global_guid gate_model + 1) ∧
    next_free m' = (next_free gate_model + 2)%N.
Proof.
  apply (aggregate_layer_spec 5 5 gate_model [1; 2; 3; 4; 5]%N 1 (1 # 10)
           5%N (mkTensorRec 4 DT_FLOAT None 0 true [16; 32])
           1%N (mkTensorRec 0 DT_FLOAT None 0 true [4; 8]) 8).
  - reflexivity.
  - reflexivity.
  - reflexivity.
  - reflexivity.
  - split; apply Z.leb_le; reflexivity.
  - apply Z.leb_le. reflexivity.
  - reflexivity.
Defined.

End LayerBuilderProofs.

(* ===================================================================== *)
(** *** Properties of the lifting of layers *)
(* ===================================================================== *)

Module LayerLifterProofs.
Import Common TensorFactory Lifter LayerLifter.
Import CommonProofs.

(** The switch of [create_operator_from_layer] has no case for weight,
    noop, batch normalisation, mean, cache, reverse and fused layers nor
    for the parallel kinds, and fails on them; a layer of any other kind
    than input is built by the function of one operator class, an
    aggregate-spec layer by that of [Aggregate]; and the operator that
    the class function returns is appended to [operators] and returned,
    the model being otherwise as the class function leaves it. *)
Theorem lifter_dispatch (ext : Externals)
    (create : OpClass → World → Layer → list addr → option (World * addr))
    (w : World) (layer : Layer) (inputs : list addr) :
  (l_op_type layer ∈ not_lifted →
   create_operator_from_layer ext create w layer inputs = None) ∧
  (l_op_type layer ∉ not_lifted → l_op_type layer ≠ OP_INPUT →
   ∃ c, create_operator_from_layer ext create w layer inputs
        = via create c w layer inputs) ∧
  (l_op_type layer = OP_AGG_SPEC →
   create_operator_from_layer ext create w layer inputs
   = via create Aggregate w layer inputs) ∧
  (∀ c w' op, via create c w layer inputs = Some (w', op) →
     ∃ w1, create c w layer inputs = Some (w1, op) ∧
           operators w'.1 = operators w1.1 ++ [op] ∧
           w'.2 = w1.2 ∧ tensors w'.1 = tensors w1.1 ∧
           op_objects w'.1 = op_objects w1.1).
Proof.
  split; [|split; [|split]].
  - unfold create_operator_from_layer, not_lifted. intros H.
    destruct (l_op_type layer); try reflexivity;
      exfalso; repeat (apply elem_of_cons in H as [H|H]; [discriminate|]);
      by apply elem_of_nil in H.
  - unfold create_operator_from_layer, not_lifted. intros H Hin.
    destruct (l_op_type layer); try done; try (by eexists);
      exfalso; apply H; repeat first [ by left | right ].
  - unfold create_operator_from_layer. by intros ->.
  - intros c w' op H. unfold via in H.
    destruct (create c w layer inputs) as [[w1 op1]|]; [|done].
    cbn [mbind option_bind] in H. injection H as <- <-.
    exists w1. by simpl.
Qed.

Lemma produced_before_app layers l j t :
  (j ≤ length layers)%nat →
  produced_before layers j t → produced_before (layers ++ [l]) j t.
Proof.
  intros Hj (j' & l' & k & Hlt & Hl & Hk & Ht).
  exists j', l', k. split; [done|]. split; [|done].
  rewrite lookup_app_l; [done|]. by apply lookup_lt_Some in Hl.
Qed.

Section Order.
Context (ext : Externals).
Context (create : OpClass → World → Layer → list addr → option (World * addr)).
Context (outputs_of : World → addr → option (list addr)).

Lemma lift_layer_inputs (l : LayerNode) (map : gmap addr addr) inputs :
  for_range 0 (ln_numInputs l) (fun i inputs =>
      t ← zget (ln_inputs l) i;
      pt ← map !! t;
      Some (inputs ++ [pt])) [] = Some inputs →
  ∀ i, 0 ≤ i < ln_numInputs l →
    ∃ t, zget (ln_inputs l) i = Some t ∧ is_Some (map !! t).
Proof.
  intros Hrun i Hi.
  apply (for_range_inv
           (fun k (_ : list addr) => ∀ i, 0 ≤ i < k →
              ∃ t, zget (ln_inputs l) i = Some t ∧ is_Some (map !! t))
           _ _ _ _ _ Hrun); [lia| | |done].
  - intros; lia.
  - intros j s1 s2 Hj IH Hb i' Hi'.
    destruct (zget (ln_inputs l) j) as [t|] eqn:Ht; [|done].
    cbn [mbind option_bind] in Hb.
    destruct (map !! t) as [pt|] eqn:Hpt; [|done].
    destruct (decide (i' = j)) as [->|Hne].
    + exists t. split; [done|]. by rewrite Hpt.
    + apply IH. lia.
Qed.

Lemma lift_layer_outputs (outs ts : list addr) (map map' : gmap addr addr) :
  for_range 0 (Z.of_nat (length outs)) (fun i map =>
      t ← zget ts i;
      pt ← zget outs i;
      Some (<[t := pt]> map)) map = Some map' →
  ∀ t pt, map' !! t = Some pt →
    is_Some (map !! t) ∨
    ∃ k, 0 ≤ k < Z.of_nat (length outs) ∧ zget ts k = Some t.
Proof.
  intros Hrun.
  apply (for_range_inv
           (fun k (m : gmap addr addr) => ∀ t pt, m !! t = Some pt →
              is_Some (map !! t) ∨ ∃ k', 0 ≤ k' < k ∧ zget ts k' = Some t)
           _ _ _ _ _ Hrun); [lia| |].
  - intros t pt Ht. left. by rewrite Ht.
  - intros j s1 s2 Hj IH Hb t pt Ht.
    destruct (zget ts j) as [t'|] eqn:Ht'; [|done].
    cbn [mbind option_bind] in Hb.
    destruct (zget outs j) as [pt'|]; [|done].
    cbn [mbind option_bind] in Hb. injection Hb as <-.
    destruct (decide (t = t')) as [->|Hne].
    + right. exists j. split; [lia|done].
    + rewrite lookup_insert_ne in Ht by done.
      destruct (IH t pt Ht) as [?|(k' & Hk' & Hz)]; [by left|].
      right. exists k'. split; [lia|done].
Qed.

Lemma lift_run (layers : list LayerNode) (w w' : World) (map' : gmap addr addr) :
  create_operators_from_layers ext create outputs_of layers w = Some (w', map') →
  (∀ (j : nat) l i, layers !! j = Some l → 0 ≤ i < ln_numInputs l →
     ∃ t, zget (ln_inputs l) i = Some t ∧ produced_before layers j t) ∧
  (∀ t pt, map' !! t = Some pt → produced_before layers (length layers) t).
Proof.
  unfold create_operators_from_layers. revert w' map'.
  induction layers as [|l layers IH] using rev_ind; intros w' map' Hrun.
  - simpl in Hrun. injection Hrun as <- <-. split; [done|].
    intros t pt Ht. by rewrite lookup_empty in Ht.
  - rewrite for_each_opt_app in Hrun.
    destruct (for_each_opt layers _ (w, ∅)) as [[w1 map1]|] eqn:Hpre; [|done].
    cbn [mbind option_bind for_each_opt] in Hrun.
    destruct (IH w1 map1 eq_refl) as [Hin Hmap]. clear IH.
    destruct (lift_layer ext create outputs_of l (w1, map1)) as [[w2 map2]|] eqn:Hl;
      [|done].
    cbn [mbind option_bind] in Hrun. injection Hrun as <- <-.
    unfold lift_layer in Hl.
    destruct (for_range 0 (ln_numInputs l) _ []) as [inputs|] eqn:Hinputs; [|done].
    cbn [mbind option_bind] in Hl.
    destruct (create_operator_from_layer ext create w1 (ln_layer l) inputs)
      as [[w3 op]|]; [|done].
    cbn [mbind option_bind] in Hl.
    destruct (outputs_of w3 op) as [outs|]; [|done].
    cbn [mbind option_bind] in Hl.
    destruct (Z.eqb_spec (Z.of_nat (length outs)) (ln_numOutputs l)) as [Hn|]; [|done].
    cbn [assert mbind option_bind] in Hl.
    destruct (for_range 0 (Z.of_nat (length outs)) _ map1) as [map3|] eqn:Houts; [|done].
    cbn [mbind option_bind] in Hl. injection Hl as <- <-.
    pose proof (lift_layer_inputs l map1 inputs Hinputs) as Hi.
    pose proof (lift_layer_outputs outs _ map1 map3 Houts) as Ho.
    split.
    + intros j l0 i Hj Hi0.
      destruct (decide (j < length layers)%nat) as [Hlt|Hge].
      * rewrite lookup_app_l in Hj by done.
        destruct (Hin j l0 i Hj Hi0) as (t & Ht & Hp).
        exists t. split; [done|]. apply produced_before_app; [lia|done].
      * apply lookup_lt_Some in Hj as Hjl. rewrite length_app in Hjl. simpl in Hjl.
        assert (j = length layers) as -> by lia.
        rewrite list_lookup_middle in Hj by done. injection Hj as <-.
        destruct (Hi i Hi0) as (t & Ht & [pt Hpt]).
        exists t. split; [done|].
        apply produced_before_app; [done|]. by apply (Hmap t pt).
    + intros t pt Ht. rewrite length_app. simpl.
      destruct (Ho t pt Ht) as [[pt' Hpt']|(k & Hk & Hz)].
      * destruct (Hmap t pt' Hpt') as (j' & l' & k & Hlt & Hl' & Hk & Hz).
        exists j', l', k. split; [lia|]. split; [|done].
        rewrite lookup_app_l; [done|lia].
      * exists (length layers), l, k. split; [lia|].
        split; [by apply list_lookup_middle|]. split; [lia|done].
Qed.

End Order.

(** [create_operators_from_layers] returns only if the layers come in
    dependency order: every input slot of every layer holds a tensor that
    is an output of a layer earlier in the list. A layer that reads a
    tensor of a later layer, of itself or of no layer ends the run in a
    failed assertion. *)
Theorem layers_in_dependency_order (ext : Externals)
    (create : OpClass → World → Layer → list addr → option (World * addr))
    (outputs_of : World → addr → option (list addr))
    (layers : list LayerNode) (w w' : World) (map' : gmap addr addr) :
  create_operators_from_layers ext create outputs_of layers w = Some (w', map') →
  ∀ (j : nat) l i, layers !! j = Some l → 0 ≤ i < ln_numInputs l →
    ∃ t, zget (ln_inputs l) i = Some t ∧ produced_before layers j t.
Proof.
  intros Hrun. by destruct (lift_run ext create outputs_of layers w w' map' Hrun).
Qed.

Lemma layers_in_dependency_order_witness :
  is_Some (create_operators_from_layers Scenarios.scenario_externals fixed_class
             one_output relu_layers (Scenarios.S1_model false, Scenarios.S1_store)) ∧
  ∀ (j : nat) l i, relu_layers !! j = Some l → 0 ≤ i < ln_numInputs l →
    ∃ t, zget (ln_inputs l) i = Some t ∧ produced_before relu_layers j t.
Proof.
  assert (H : is_Some (create_operators_from_layers Scenarios.scenario_externals
                         fixed_class one_output relu_layers
                         (Scenarios.S1_model false, Scenarios.S1_store)))
    by (vm_compute; eauto).
  split; [done|]. destruct H as [[w' map'] H].
  exact (layers_in_dependency_order _ _ _ _ _ _ _ H).
Defined.

End LayerLifterProofs.

